(** * The persistent-memory append cache (extra/libpmemac/append_cache.c)

    A shallow embedding of the append cache: the directory file mapped in
    persistent memory, the per-slot headers and ring buffers, the writer
    protocol, the flusher and the startup recovery pass, with the
    properties of the design stated and settled against it. *)

From Stdlib Require Import ZArith List Lia Bool.

From coqutil Require Import Byte Word.LittleEndianList.

Import ListNotations.

Local Open Scope Z_scope.

(** ** Machine integers *)

(** [uint64_t] arithmetic: every result is reduced modulo 2^64. *)
Definition wrap64 (z : Z) : Z := z mod 2 ^ 64.

(** ** The mapped file as a sequence of bytes

    Addresses are byte offsets from the start of the mapping
    ([dir->header] is offset 0). *)

Definition mem := list byte.

Definition load_bytes (m : mem) (a : Z) (n : nat) : list byte :=
  firstn n (skipn (Z.to_nat a) m).

Definition store_bytes (m : mem) (a : Z) (bs : list byte) : mem :=
  firstn (Z.to_nat a) m ++ bs ++ skipn (Z.to_nat a + length bs) m.

(** A 64-bit field, stored least significant byte first. *)
Definition load64 (m : mem) (a : Z) : Z := le_combine (load_bytes m a 8).

Definition store64 (m : mem) (a : Z) (v : Z) : mem :=
  store_bytes m a (le_split 8 v).

Definition load8 (m : mem) (a : Z) : Z :=
  byte.unsigned (nth (Z.to_nat a) m Byte.x00).

Definition zeros (n : Z) : mem := repeat Byte.x00 (Z.to_nat n).

(** ** On-media layout and the run-time descriptors *)

(** Modelled from the spec: append_cache.h, which declares the structures,
    is not among the sources.  Section 6 of the specification gives the
    layout: the directory header is [magic] then [n_caches], both 64-bit,
    followed by the table of 64-bit slot start offsets; a slot header is
    [file_name_length], [flushed_eof], [cached_eof], all 64-bit, followed
    by the file name and then the ring buffer. *)
Definition sizeof_DIRECTORY_HEADER : Z := 16.

(** Modelled from the spec: the size of the slot header of section 6, three
    64-bit fields (append_cache.h is not among the sources). *)
Definition sizeof_CACHE_HEADER : Z := 24.

(** Modelled from the spec: the offsets of the fields of the two headers,
    in the order section 6 lists them (append_cache.h is not among the
    sources). *)
Definition off_magic : Z := 0.

(** Modelled from the spec: see [off_magic]. *)
Definition off_n_caches : Z := 8.

(** Modelled from the spec: see [off_magic]. *)
Definition off_file_name_length : Z := 0.

(** Modelled from the spec: see [off_magic]. *)
Definition off_flushed_eof : Z := 8.

(** Modelled from the spec: see [off_magic]. *)
Definition off_cached_eof : Z := 16.

(** PMAC0\0\0\0 *)
Definition pmem_append_cache_magic : Z := 0x0000003043414d50.

(** Modelled from the spec: the directory descriptor of append_cache.h,
    with the fields the code uses.  [dir->header] is the start of the
    mapping and [dir->start_offsets] the table right after the directory
    header, so neither needs a field here. *)
Record PMEM_APPEND_CACHE_DIRECTORY := mkDirectory {
  mapped_length : Z;
  dummy : bool
}.

Definition n_caches (m : mem) : Z := load64 m off_n_caches.

Definition start_offsets (m : mem) (n : Z) : Z :=
  load64 m (sizeof_DIRECTORY_HEADER + 8 * n).

(** The [write]/[flush]/[sync] function pointers of a handle are set
    together, to the cached or to the pass-through implementations. *)
Inductive cache_mode := Cached | PassThrough.

(** Modelled from the spec: the run-time handle of section 3, with the
    fields the code uses; pointers into the mapping are offsets. *)
Record PMEM_APPEND_CACHE := mkCache {
  header : Z;          (* offset of the slot header in the mapping *)
  file_name : Z;
  buffer : Z;
  buffer_size : Z;
  file_fd : Z;
  stop_flusher : Z;
  flushed_eof : Z;
  cached_eof : Z;
  reserved_eof : Z;
  write : cache_mode
}.

Definition set_flushed_eof (c : PMEM_APPEND_CACHE) (v : Z) :=
  mkCache (header c) (file_name c) (buffer c) (buffer_size c) (file_fd c)
          (stop_flusher c) v (cached_eof c) (reserved_eof c) (write c).

Definition set_cached_eof (c : PMEM_APPEND_CACHE) (v : Z) :=
  mkCache (header c) (file_name c) (buffer c) (buffer_size c) (file_fd c)
          (stop_flusher c) (flushed_eof c) v (reserved_eof c) (write c).

Definition set_reserved_eof (c : PMEM_APPEND_CACHE) (v : Z) :=
  mkCache (header c) (file_name c) (buffer c) (buffer_size c) (file_fd c)
          (stop_flusher c) (flushed_eof c) (cached_eof c) v (write c).

Definition set_file_fd (c : PMEM_APPEND_CACHE) (v : Z) :=
  mkCache (header c) (file_name c) (buffer c) (buffer_size c) v
          (stop_flusher c) (flushed_eof c) (cached_eof c) (reserved_eof c)
          (write c).

Definition set_stop_flusher (c : PMEM_APPEND_CACHE) (v : Z) :=
  mkCache (header c) (file_name c) (buffer c) (buffer_size c) (file_fd c)
          v (flushed_eof c) (cached_eof c) (reserved_eof c) (write c).

(** Fields of the slot header a handle points to. *)
Definition hdr_file_name_length (m : mem) (h : Z) : Z :=
  load64 m (h + off_file_name_length).

Definition hdr_flushed_eof (m : mem) (h : Z) : Z :=
  load64 m (h + off_flushed_eof).

Definition hdr_cached_eof (m : mem) (h : Z) : Z :=
  load64 m (h + off_cached_eof).

(** ** Directory header size and slot validation *)

Definition directory_header_size (n_caches : Z) : Z :=
  wrap64 (sizeof_DIRECTORY_HEADER + wrap64 (8 * n_caches)).

Definition cache_start (m : mem) (n : Z) : Z := start_offsets m n.

Definition cache_end (dir : PMEM_APPEND_CACHE_DIRECTORY) (m : mem) (n : Z) : Z :=
  if n =? wrap64 (n_caches m - 1) then mapped_length dir
  else start_offsets m (n + 1).

(** [open_cache]: returns the status and the descriptor as the function
    leaves it (its fields are assigned before the last group of tests). *)
Definition open_cache (cache : PMEM_APPEND_CACHE)
    (dir : PMEM_APPEND_CACHE_DIRECTORY) (m : mem) (n : Z)
    : Z * PMEM_APPEND_CACHE :=
  if n_caches m <=? n then (-1, cache) else
  let cache_start := cache_start m n in
  let cache_end := cache_end dir m n in
  if (cache_start <? directory_header_size (n_caches m))
     || (cache_end <? cache_start)
     || negb (Z.land cache_start 7 =? 0)
     || (wrap64 (cache_end - cache_start) <? sizeof_CACHE_HEADER)
     || (mapped_length dir <? cache_end)
  then (-1, cache) else
  let fnl := hdr_file_name_length m cache_start in
  let cache :=
    mkCache cache_start
            (cache_start + sizeof_CACHE_HEADER)
            (cache_start + sizeof_CACHE_HEADER + fnl)
            (wrap64 (wrap64 (wrap64 (cache_end - cache_start)
                             - sizeof_CACHE_HEADER) - fnl))
            (file_fd cache)
            0
            (hdr_flushed_eof m cache_start)
            (hdr_cached_eof m cache_start)
            (hdr_cached_eof m cache_start)
            (write cache) in
  if (wrap64 (wrap64 (cache_end - cache_start) - sizeof_CACHE_HEADER) <=? fnl)
     || (cached_eof cache <? flushed_eof cache)
     || (buffer_size cache <? wrap64 (cached_eof cache - flushed_eof cache))
  then (-1, cache) else (0, cache).

(** What [pmem_append_cache_open] checks of a directory before it is used
    (the magic signature apart). *)
Definition directory_ok (dir : PMEM_APPEND_CACHE_DIRECTORY) (m : mem) : Prop :=
  sizeof_DIRECTORY_HEADER <= mapped_length dir < 2 ^ 64 /\
  n_caches m <= (mapped_length dir - sizeof_DIRECTORY_HEADER) / 8.

(** The conditions of section 4.2 of the specification, over unbounded
    integers, under which a slot is refused. *)
Definition open_cache_rejects (dir : PMEM_APPEND_CACHE_DIRECTORY) (m : mem)
    (n : Z) : Prop :=
  let cs := cache_start m n in
  let ce := cache_end dir m n in
  let region := ce - cs in
  let fnl := hdr_file_name_length m cs in
  n >= n_caches m \/
  cs < sizeof_DIRECTORY_HEADER + 8 * n_caches m \/
  cs > ce \/
  cs mod 8 <> 0 \/
  region < sizeof_CACHE_HEADER \/
  ce > mapped_length dir \/
  fnl >= region - sizeof_CACHE_HEADER \/
  hdr_cached_eof m cs < hdr_flushed_eof m cs \/
  hdr_cached_eof m cs - hdr_flushed_eof m cs
    > region - sizeof_CACHE_HEADER - fnl.

(** ** The machine: persistent memory, backing files, and what happened

    [view] is the mapping as the running process reads and writes it;
    [media] is what has been made durable by [pmem_persist] and is what a
    later process finds when it maps the file again.  [files] are the
    backing files (name, contents); a file descriptor is the position of the
    file in that list.  [script] decides the outcome of the system calls to
    come (an exhausted script means success), and [trace] records, oldest
    first, every store to the mapping, every persist and every system
    call. *)

Inductive outcome := Succeed | Fail | Partial (n : Z).

Inductive event :=
| EvMap (length : Z)
| EvUnmap
| EvStore (addr v : Z)
| EvStoreBytes (addr : Z) (data : list byte)
| EvPersist (addr len : Z)
| EvMemcpyPersist (addr : Z) (data : list byte)
| EvOpen (name : list byte) (ret : Z)
| EvFstat (fd ret : Z)
| EvPwrite (fd src len off ret : Z)
| EvSync (fd ret : Z)
| EvClose (fd ret : Z)
| EvFlushedEof (v : Z)
| EvCachedEof (v : Z)
| EvReservedEof (v : Z).

Record machine := mkMachine {
  view : mem;
  media : mem;
  files : list (list byte * list byte);
  script : list outcome;
  trace : list event
}.

Definition M (A : Type) : Type := machine -> A * machine.

Definition ret {A} (a : A) : M A := fun s => (a, s).

Definition bind {A B} (c : M A) (k : A -> M B) : M B :=
  fun s => let (a, s') := c s in k a s'.

Declare Scope machine_scope.

Delimit Scope machine_scope with machine.

Notation "x <- c ;; k" := (bind c (fun x => k))
  (at level 61, c at next level, right associativity) : machine_scope.

Notation "c ;; k" := (bind c (fun _ => k))
  (at level 61, right associativity) : machine_scope.

Local Open Scope machine_scope.

Definition log (e : event) : M unit :=
  fun s => (tt, mkMachine (view s) (media s) (files s) (script s)
                          (trace s ++ [e])).

Definition read_view : M mem := fun s => (view s, s).

Definition next_outcome : M outcome :=
  fun s => match script s with
           | [] => (Succeed, s)
           | o :: rest =>
               (o, mkMachine (view s) (media s) (files s) rest (trace s))
           end.

(** A store of a 64-bit field of the mapping. *)
Definition pm_store64 (a v : Z) : M unit :=
  fun s => (tt, mkMachine (store64 (view s) a v) (media s) (files s)
                          (script s) (trace s ++ [EvStore a v])).

(** [memcpy] into the mapping. *)
Definition pm_memcpy (dst : Z) (data : list byte) : M unit :=
  fun s => (tt, mkMachine (store_bytes (view s) dst data) (media s) (files s)
                          (script s) (trace s ++ [EvStoreBytes dst data])).

(** [pmem_persist(addr, len)]: the range becomes durable. *)
Definition pmem_persist (a len : Z) : M unit :=
  fun s => (tt, mkMachine (view s)
                          (store_bytes (media s) a
                             (load_bytes (view s) a (Z.to_nat len)))
                          (files s) (script s)
                          (trace s ++ [EvPersist a len])).

(** [pmem_memcpy_persist(dst, src, len)]: copy and make durable. *)
Definition pmem_memcpy_persist (dst : Z) (data : list byte) : M unit :=
  fun s => (tt, mkMachine (store_bytes (view s) dst data)
                          (store_bytes (media s) dst data)
                          (files s) (script s)
                          (trace s ++ [EvMemcpyPersist dst data])).

(** [pmem_map_file] with PMEM_FILE_CREATE | PMEM_FILE_EXCL: a new file of
    [size] null bytes, mapped; returns the mapped length, or fails. *)
Definition pmem_map_file_create (size : Z) : M (option Z) :=
  o <- next_outcome ;;
  match o with
  | Fail => ret None
  | _ => fun s => (Some size,
                   mkMachine (zeros size) (zeros size) (files s) (script s)
                             (trace s ++ [EvMap size]))
  end.

(** [pmem_map_file] of an existing file: the process sees what is durable. *)
Definition pmem_map_file_existing : M (option Z) :=
  o <- next_outcome ;;
  match o with
  | Fail => ret None
  | _ => fun s => let len := Z.of_nat (length (media s)) in
                  (Some len,
                   mkMachine (media s) (media s) (files s) (script s)
                             (trace s ++ [EvMap len]))
  end.

Definition pmem_unmap : M Z :=
  o <- next_outcome ;;
  fun s => (match o with Fail => -1 | _ => 0 end,
            mkMachine [] (media s) (files s) (script s)
                      (trace s ++ [EvUnmap])).

(** The process stops and starts again on the bytes that were persisted.
    A store may also have reached the file without a persist:
    [may_be_found], below, gives every file that a stop can leave.  The two
    agree where every store has been persisted. *)
Definition crash (s : machine) : machine :=
  mkMachine [] (media s) (files s) (script s) (trace s).

(** ** Directory creation, opening and closing *)

Definition pmem_append_cache_close (dir : PMEM_APPEND_CACHE_DIRECTORY) : M Z :=
  if dummy dir then ret 0 else pmem_unmap.

(** The body of the loop over the slots in [create_directory], and what
    follows it, as the sequence of steps taken on the mapping. *)
Fixpoint offset_steps (k : nat) (i start_offset cache_size : Z)
    : list (M unit) :=
  match k with
  | O => []
  | S k' =>
      pm_store64 (sizeof_DIRECTORY_HEADER + 8 * i) start_offset
      :: offset_steps k' (i + 1) (wrap64 (start_offset + cache_size))
                      cache_size
  end.

Definition create_cache_size (size n_caches : Z) : Z :=
  Z.land (wrap64 (size - directory_header_size n_caches) / n_caches)
         (wrap64 (Z.lnot 7)).

Definition create_steps (size n_caches : Z) : list (M unit) :=
  let header_size := directory_header_size n_caches in
  offset_steps (Z.to_nat n_caches) 0 header_size
               (create_cache_size size n_caches)
  ++ [ pm_store64 off_n_caches n_caches;
       pmem_persist 0 header_size;
       pm_store64 off_magic pmem_append_cache_magic;
       pmem_persist off_magic 8 ].

Fixpoint run_steps (steps : list (M unit)) : M unit :=
  match steps with
  | [] => ret tt
  | c :: rest => c ;; run_steps rest
  end.

Definition create_directory (dir : PMEM_APPEND_CACHE_DIRECTORY)
    (size n_caches : Z) : M (Z * PMEM_APPEND_CACHE_DIRECTORY) :=
  let header_size := directory_header_size n_caches in
  if (size <? header_size) || (n_caches =? 0) then ret (-1, dir) else
  if create_cache_size size n_caches <? sizeof_CACHE_HEADER
  then ret (-1, dir) else
  mapped <- pmem_map_file_create size ;;
  match mapped with
  | None => ret (-1, dir)
  | Some len =>
      run_steps (create_steps size n_caches) ;;
      ret (0, mkDirectory len false)
  end.

Definition pmem_append_cache_open (dir : PMEM_APPEND_CACHE_DIRECTORY)
    : M (Z * PMEM_APPEND_CACHE_DIRECTORY) :=
  mapped <- pmem_map_file_existing ;;
  match mapped with
  | None => ret (-1, dir)
  | Some len =>
      let dir := mkDirectory len (dummy dir) in
      m <- read_view ;;
      if (len <? sizeof_DIRECTORY_HEADER)
         || negb (load64 m off_magic =? pmem_append_cache_magic)
         || (n_caches m =? 0)
         || (wrap64 (len - sizeof_DIRECTORY_HEADER) / 8 <? n_caches m)
      then pmem_append_cache_close dir ;; ret (-1, dir)
      else ret (0, mkDirectory len false)
  end.

(** The two tests [create_directory] makes before it maps the file. *)
Definition create_accepts (size n_caches : Z) : Prop :=
  (size <? directory_header_size n_caches) || (n_caches =? 0) = false /\
  (create_cache_size size n_caches <? sizeof_CACHE_HEADER) = false.

(** What holds of the machine until the signature is stored ([full]) and
    until it is persisted. *)
Definition no_magic_yet (size : Z) (full : bool) (s : machine) : Prop :=
  Z.of_nat (length (view s)) = size /\
  Z.of_nat (length (media s)) = size /\
  load64 (media s) off_magic = 0 /\
  (full = true -> load64 (view s) off_magic = 0).

Definition keeps (size : Z) (full full' : bool) (c : M unit) : Prop :=
  forall s, no_magic_yet size full s -> no_magic_yet size full' (snd (c s)).

(** The steps of [create_directory] before the signature is stored. *)
Definition create_steps_before_magic (size n_caches : Z) : list (M unit) :=
  offset_steps (Z.to_nat n_caches) 0 (directory_header_size n_caches)
               (create_cache_size size n_caches)
  ++ [ pm_store64 off_n_caches n_caches;
       pmem_persist 0 (directory_header_size n_caches) ].

(** ** Backing files

    The calls of mysys the cache uses on the backing file, with the results
    the code tests: a descriptor or -1, a status, a byte count or a negative
    value. *)

Fixpoint until_nul (l : list byte) : list byte :=
  match l with
  | [] => []
  | b :: rest => if Byte.eqb b Byte.x00 then [] else b :: until_nul rest
  end.

(** The C string that starts at address [a]. *)
Definition cstring (m : mem) (a : Z) : list byte :=
  until_nul (skipn (Z.to_nat a) m).

Fixpoint bytes_eqb (a b : list byte) : bool :=
  match a, b with
  | [], [] => true
  | x :: a', y :: b' => Byte.eqb x y && bytes_eqb a' b'
  | _, _ => false
  end.

Fixpoint find_file (name : list byte) (fs : list (list byte * list byte))
    (i : Z) : Z :=
  match fs with
  | [] => -1
  | (nm, _) :: rest =>
      if bytes_eqb nm name then i else find_file name rest (i + 1)
  end.

Definition file_of (s : machine) (fd : Z) : option (list byte * list byte) :=
  if fd <? 0 then None else nth_error (files s) (Z.to_nat fd).

Fixpoint replace_nth {A} (n : nat) (l : list A) (x : A) : list A :=
  match l, n with
  | [], _ => []
  | _ :: rest, O => x :: rest
  | y :: rest, S n' => y :: replace_nth n' rest x
  end.

(** Contents after [bs] is written at offset [off]; a gap reads as zeros. *)
Definition file_write (c : list byte) (off : Z) (bs : list byte) : list byte :=
  firstn (Z.to_nat off) (c ++ repeat Byte.x00 (Z.to_nat off - length c))
  ++ bs ++ skipn (Z.to_nat off + length bs) c.

(** [my_open(name, O_WRONLY, ...)]: the file must exist. *)
Definition my_open (name : list byte) : M Z :=
  o <- next_outcome ;;
  fun s =>
    let fd := match o with
              | Fail => -1
              | _ => find_file name (files s) 0
              end in
    (fd, mkMachine (view s) (media s) (files s) (script s)
                   (trace s ++ [EvOpen name fd])).

(** [my_fstat]: status and [st_size]. *)
Definition my_fstat (fd : Z) : M (Z * Z) :=
  o <- next_outcome ;;
  fun s =>
    let r := match o, file_of s fd with
             | Fail, _ | _, None => (-1, 0)
             | _, Some (_, c) => (0, Z.of_nat (length c))
             end in
    (r, mkMachine (view s) (media s) (files s) (script s)
                  (trace s ++ [EvFstat fd (fst r)])).

(** [my_pwrite(fd, src, count, off, MYF(MY_WME))]: writes [count] bytes of
    the mapping from address [src] at file offset [off], or fewer, and
    returns how many; a negative value when nothing could be written. *)
Definition my_pwrite (fd src count off : Z) : M Z :=
  o <- next_outcome ;;
  fun s =>
    let written := match o, file_of s fd with
                   | Fail, _ | _, None => -1
                   | Succeed, Some _ => count
                   | Partial n, Some _ => Z.max 0 (Z.min n count)
                   end in
    let fs := match file_of s fd with
              | Some (nm, c) =>
                  if written <? 0 then files s
                  else replace_nth (Z.to_nat fd) (files s)
                         (nm, file_write c off
                                (load_bytes (view s) src (Z.to_nat written)))
              | None => files s
              end in
    (written, mkMachine (view s) (media s) fs (script s)
                        (trace s ++ [EvPwrite fd src count off written])).

Definition my_sync (fd : Z) : M Z :=
  o <- next_outcome ;;
  fun s =>
    let r := match o, file_of s fd with
             | Fail, _ | _, None => -1
             | _, Some _ => 0
             end in
    (r, mkMachine (view s) (media s) (files s) (script s)
                  (trace s ++ [EvSync fd r])).

Definition my_close (fd : Z) : M Z :=
  o <- next_outcome ;;
  fun s =>
    let r := match o, file_of s fd with
             | Fail, _ | _, None => -1
             | _, Some _ => 0
             end in
    (r, mkMachine (view s) (media s) (files s) (script s)
                  (trace s ++ [EvClose fd r])).

(** ** The flusher *)

(** One pass of the loop of [flush_cache] either leaves the function or
    goes round again with the advanced local [flushed_eof]. *)
Inductive flush_step :=
| FlushReturn (ret : Z) (cache : PMEM_APPEND_CACHE)
| FlushAgain (flushed_eof : Z) (cache : PMEM_APPEND_CACHE).

Definition flush_write_size (cache : PMEM_APPEND_CACHE)
    (flushed_eof cached_eof : Z) : Z :=
  if cached_eof / buffer_size cache =? flushed_eof / buffer_size cache
  then wrap64 (cached_eof - flushed_eof)
  else wrap64 (buffer_size cache - flushed_eof mod buffer_size cache).

Definition flush_cache_body (cache : PMEM_APPEND_CACHE) (flushed_eof : Z)
    : M flush_step :=
  let cached_eof := cached_eof cache in
  if flushed_eof <? cached_eof then
    let write_size := flush_write_size cache flushed_eof cached_eof in
    written <- my_pwrite (file_fd cache)
                 (buffer cache + flushed_eof mod buffer_size cache)
                 write_size flushed_eof ;;
    if written <? 0 then ret (FlushReturn (-1) cache) else
    r <- my_sync (file_fd cache) ;;
    if negb (r =? 0) then ret (FlushReturn (-1) cache) else
    let flushed_eof := wrap64 (flushed_eof + written) in
    pm_store64 (header cache + off_flushed_eof) flushed_eof ;;
    pmem_persist (header cache + off_flushed_eof) 8 ;;
    log (EvFlushedEof flushed_eof) ;;
    ret (FlushAgain flushed_eof (set_flushed_eof cache flushed_eof))
  else ret (FlushReturn 0 cache).

Fixpoint flush_cache_loop (fuel : nat) (cache : PMEM_APPEND_CACHE)
    (flushed_eof : Z) : M (option (Z * PMEM_APPEND_CACHE)) :=
  match fuel with
  | O => ret None
  | S fuel' =>
      st <- flush_cache_body cache flushed_eof ;;
      match st with
      | FlushReturn r cache' => ret (Some (r, cache'))
      | FlushAgain flushed_eof' cache' =>
          flush_cache_loop fuel' cache' flushed_eof'
      end
  end.

(** [flush_cache]: [None] when the loop has not finished within [fuel]
    passes. *)
Definition flush_cache (fuel : nat) (cache : PMEM_APPEND_CACHE)
    : M (option (Z * PMEM_APPEND_CACHE)) :=
  flush_cache_loop fuel cache (flushed_eof cache).

(** The machine once the header's [flushed_eof] is stored and persisted
    and the run-time copy published. *)
Definition flushed_eof_advanced (hdr v : Z) (s : machine) : machine :=
  mkMachine (store64 (view s) hdr v)
            (store_bytes (media s) hdr
               (load_bytes (store64 (view s) hdr v) hdr (Z.to_nat 8)))
            (files s) (script s)
            (((trace s ++ [EvStore hdr v]) ++ [EvPersist hdr 8])
             ++ [EvFlushedEof v]).

(** ** Flushing every slot of a directory at startup *)

(** The descriptor local to [pmem_append_cache_flush]: [open_cache] and
    [my_open] assign every field the pass reads. *)
Definition blank_cache : PMEM_APPEND_CACHE :=
  mkCache 0 0 0 0 0 0 0 0 0 Cached.

Inductive slot_step := SlotReturn (ret : Z) | SlotContinue.

(** The body of the loop over the slots; [None] when the drain of the slot
    has not finished within [fuel] passes. *)
Definition flush_slot (fuel : nat) (dir : PMEM_APPEND_CACHE_DIRECTORY)
    (i : Z) : M (option slot_step) :=
  m <- read_view ;;
  let (r, cache) := open_cache blank_cache dir m i in
  if negb (r =? 0) then ret (Some (SlotReturn (-1))) else
  let file_name_length := hdr_file_name_length m (header cache) in
  if file_name_length =? 0 then ret (Some SlotContinue) else
  if hdr_flushed_eof m (header cache) =? hdr_cached_eof m (header cache)
  then
    pm_store64 (header cache + off_file_name_length) 0 ;;
    pmem_persist (header cache + off_file_name_length) 8 ;;
    ret (Some SlotContinue)
  else
  if negb (load8 m (file_name cache + file_name_length) =? 0)
  then ret (Some (SlotReturn (-1))) else
  fd <- my_open (cstring m (file_name cache)) ;;
  if fd <? 0 then ret (Some (SlotReturn (-1))) else
  let cache := set_file_fd cache fd in
  sb <- my_fstat fd ;;
  res <- (if fst sb =? 0 then
            if snd sb <? hdr_flushed_eof m (header cache)
            then ret (Some (-1))
            else
              r <- flush_cache fuel cache ;;
              ret (option_map fst r)
          else ret (Some (fst sb))) ;;
  match res with
  | None => ret None
  | Some res =>
      c <- my_close fd ;;
      if negb (c =? 0) then ret (Some (SlotReturn (-1))) else
      if negb (res =? 0) then ret (Some (SlotReturn res)) else
      ret (Some SlotContinue)
  end.

(** The loop [for (i= 0; i < dir->header->n_caches; i++)], from index [i],
    with at most [n] slots visited. *)
Fixpoint flush_slots (n fuel : nat) (dir : PMEM_APPEND_CACHE_DIRECTORY)
    (i : Z) : M (option Z) :=
  m <- read_view ;;
  if i <? n_caches m then
    match n with
    | O => ret None
    | S n' =>
        st <- flush_slot fuel dir i ;;
        match st with
        | None => ret None
        | Some (SlotReturn r) => ret (Some r)
        | Some SlotContinue => flush_slots n' fuel dir (wrap64 (i + 1))
        end
    end
  else ret (Some 0).

Definition pmem_append_cache_flush (fuel : nat)
    (dir : PMEM_APPEND_CACHE_DIRECTORY) : M (option Z) :=
  m <- read_view ;;
  flush_slots (Z.to_nat (n_caches m)) fuel dir 0.

(** ** Attaching a slot to a backing file *)

Definition set_write (c : PMEM_APPEND_CACHE) (w : cache_mode) :=
  mkCache (header c) (file_name c) (buffer c) (buffer_size c) (file_fd c)
          (stop_flusher c) (flushed_eof c) (cached_eof c) (reserved_eof c) w.

Definition set_eofs (c : PMEM_APPEND_CACHE) (v : Z) :=
  mkCache (header c) (file_name c) (buffer c) (buffer_size c) (file_fd c)
          (stop_flusher c) v v v (write c).

Definition shrink_buffer (c : PMEM_APPEND_CACHE) (by_ : Z) :=
  mkCache (header c) (file_name c) (buffer c + by_)
          (wrap64 (buffer_size c - by_)) (file_fd c)
          (stop_flusher c) (flushed_eof c) (cached_eof c) (reserved_eof c)
          (write c).

Section Attach.

(** The size of the run-time descriptor, which append_cache.h declares and
    the sources do not include, is left open; it only sets how far the
    persist of the header and file name reaches. *)
Variable sizeof_PMEM_APPEND_CACHE : Z.

(** [pmem_append_cache_attach]; [name] is the file name without its
    terminating null, [dir = None] stands for a null pointer.  On success
    the flusher thread is running. *)
Definition pmem_append_cache_attach (cache : PMEM_APPEND_CACHE)
    (dir : option PMEM_APPEND_CACHE_DIRECTORY) (n : Z) (file_fd : Z)
    (name : list byte) : M (Z * PMEM_APPEND_CACHE) :=
  let cache := set_file_fd cache file_fd in
  match dir with
  | None => ret (0, set_write cache PassThrough)
  | Some dir =>
      if dummy dir then ret (0, set_write cache PassThrough) else
      let cache := set_write cache Cached in
      sb <- my_fstat file_fd ;;
      if negb (fst sb =? 0) then ret (-1, cache) else
      m <- read_view ;;
      let (res, cache) := open_cache cache dir m n in
      if negb (res =? 0) then ret (res, cache) else
      let file_name_length := wrap64 (Z.of_nat (length name) + 1) in
      if negb (hdr_file_name_length m (header cache) =? 0)
         || (buffer_size cache <=? file_name_length)
      then ret (-1, cache) else
      let cache := set_eofs cache (snd sb) in
      pm_store64 (header cache + off_cached_eof) (snd sb) ;;
      pm_store64 (header cache + off_flushed_eof) (snd sb) ;;
      pm_memcpy (file_name cache) (name ++ [Byte.x00]) ;;
      pmem_persist (header cache)
                   (sizeof_PMEM_APPEND_CACHE + file_name_length) ;;
      pm_store64 (header cache + off_file_name_length) file_name_length ;;
      pmem_persist (header cache + off_file_name_length) 8 ;;
      let cache := shrink_buffer cache file_name_length in
      o <- next_outcome ;;
      match o with
      | Fail => ret (-1, cache)
      | _ => ret (0, cache)
      end
  end.

End Attach.

(** ** The writer protocol *)

(** Modelled from the spec: [my_atomic_add32_explicit] is a macro of
    my_atomic.h, which is not among the sources.  Section 4.3 has step 1
    "atomically add [length] to [reserved_eof]", and the call applies the
    macro to the address of the 64-bit [reserved_eof] cast to a pointer to a
    64-bit integer, so the operation is modelled as a fetch-and-add on the
    whole 64-bit object: it yields the value held before and leaves the sum,
    reduced modulo 2^64.  The name of the macro says 32 where the loads and
    stores next to it say 64: [fetch_add_low32] below is what an operation
    confined to the low 32 bits would do instead. *)
Definition my_atomic_add32_explicit (held add : Z) : Z * Z :=
  (held, wrap64 (held + add)).

(** A fetch-and-add on the low half only: the high half is kept, the old
    low half is returned as a signed 32-bit value converted to 64 bits. *)
Definition fetch_add_low32 (held add : Z) : Z * Z :=
  let low := held mod 2 ^ 32 in
  let high := held - low in
  (wrap64 (if low <? 2 ^ 31 then low else low - 2 ^ 32),
   high + (low + add) mod 2 ^ 32).

(** Where a call of [cache_write] stands. *)
Inductive writer_pc :=
| AtEntry          (* the test of [length], then the reservation *)
| AtBackpressure   (* waiting for the flusher to release some space *)
| AtCopy           (* space seen: clip the chunk, copy it, advance *)
| AtOrdering       (* waiting for the preceding writes to be committed *)
| AtCommitHeader   (* store of [cached_eof] in the slot header *)
| AtCommitPersist  (* persist of that store *)
| AtCommitRuntime  (* store of the run-time [cached_eof], test of [left] *)
| Returned (ret : Z).

(** The arguments and local variables of a call. *)
Record writer := mkWriter {
  pc : writer_pc;
  data : list byte;
  length_arg : Z;
  flags : Z;
  start : Z;
  write_pos : Z;
  left : Z;
  avail : Z
}.

Definition cache_write_call (data : list byte) (length flags : Z) : writer :=
  mkWriter AtEntry data length flags 0 0 0 0.

Section Writer.

(** The flag bits [MY_NABP] and [MY_FNABP] (the "specific caller flags
    requesting silent success" of section 4.3) are defined in my_sys.h,
    which the sources do not include: they are left open. *)
Variables MY_NABP MY_FNABP : Z.

Definition cache_write_result (w : writer) : Z :=
  if negb (Z.land (flags w) (Z.lor MY_NABP MY_FNABP) =? 0) then 0
  else length_arg w.

(** One atomic action of a call of [cache_write] on the shared descriptor
    and mapping.  A wait that finds its condition unmet leaves everything
    as it is. *)
Definition cache_write_step (w : writer) (cache : PMEM_APPEND_CACHE)
    : M (writer * PMEM_APPEND_CACHE) :=
  match pc w with
  | AtEntry =>
      if negb (length_arg w =? 0) then
        let (start, sum) :=
          my_atomic_add32_explicit (reserved_eof cache) (length_arg w) in
        log (EvReservedEof sum) ;;
        ret (mkWriter AtBackpressure (data w) (length_arg w) (flags w)
                      start start (length_arg w) (avail w),
             set_reserved_eof cache sum)
      else
        ret (mkWriter (Returned (cache_write_result w)) (data w)
                      (length_arg w) (flags w) (start w) (write_pos w)
                      (left w) (avail w),
             cache)
  | AtBackpressure =>
      let avail := wrap64 (wrap64 (flushed_eof cache + buffer_size cache)
                           - write_pos w) in
      if avail <=? 0 then ret (w, cache)
      else ret (mkWriter AtCopy (data w) (length_arg w) (flags w) (start w)
                         (write_pos w) (left w) avail,
                cache)
  | AtCopy =>
      let chunk_offset := write_pos w mod buffer_size cache in
      let avail := if left w <? avail w then left w else avail w in
      let avail :=
        if wrap64 (buffer_size cache - chunk_offset) <? avail
        then wrap64 (buffer_size cache - chunk_offset) else avail in
      pmem_memcpy_persist (buffer cache + chunk_offset)
                          (firstn (Z.to_nat avail) (data w)) ;;
      ret (mkWriter AtOrdering (skipn (Z.to_nat avail) (data w))
                    (length_arg w) (flags w) (start w)
                    (wrap64 (write_pos w + avail)) (wrap64 (left w - avail))
                    avail,
           cache)
  | AtOrdering =>
      if cached_eof cache <? start w then ret (w, cache)
      else ret (mkWriter AtCommitHeader (data w) (length_arg w) (flags w)
                         (start w) (write_pos w) (left w) (avail w),
                cache)
  | AtCommitHeader =>
      pm_store64 (header cache + off_cached_eof) (write_pos w) ;;
      ret (mkWriter AtCommitPersist (data w) (length_arg w) (flags w)
                    (start w) (write_pos w) (left w) (avail w),
           cache)
  | AtCommitPersist =>
      pmem_persist (header cache + off_cached_eof) 8 ;;
      ret (mkWriter AtCommitRuntime (data w) (length_arg w) (flags w)
                    (start w) (write_pos w) (left w) (avail w),
           cache)
  | AtCommitRuntime =>
      log (EvCachedEof (write_pos w)) ;;
      ret (mkWriter (if negb (left w =? 0) then AtBackpressure
                     else Returned (cache_write_result w))
                    (data w) (length_arg w) (flags w) (start w)
                    (write_pos w) (left w) (avail w),
           set_cached_eof cache (write_pos w))
  | Returned _ => ret (w, cache)
  end.

(** A call on its own, with nobody else running: [None] when it has not
    returned within [fuel] actions. *)
Fixpoint cache_write (fuel : nat) (w : writer)
    (cache : PMEM_APPEND_CACHE) : M (option (Z * PMEM_APPEND_CACHE)) :=
  match pc w with
  | Returned r => ret (Some (r, cache))
  | _ =>
      match fuel with
      | O => ret None
      | S fuel' =>
          wc <- cache_write_step w cache ;;
          cache_write fuel' (fst wc) (snd wc)
      end
  end.

(** ** Writers and the flusher running together *)

Inductive thread := Writer (i : nat) | Flusher.

(** The descriptor and the machine are shared; [aborted] is set once the
    flusher has called [abort], which ends the process. *)
Record system := mkSystem {
  shared : PMEM_APPEND_CACHE;
  mach : machine;
  calls : list writer;
  aborted : bool
}.

(** One pass of the drain loop by the flusher thread; its local
    [flushed_eof] is the run-time copy, which it alone sets. *)
Definition flusher_step (sys : system) : system :=
  let (st, m) :=
    flush_cache_body (shared sys) (flushed_eof (shared sys)) (mach sys) in
  match st with
  | FlushReturn r cache => mkSystem cache m (calls sys) (negb (r =? 0))
  | FlushAgain _ cache => mkSystem cache m (calls sys) false
  end.

(** A move of thread [t]; [None] when there is no such thread or the
    process has ended. *)
Definition step (t : thread) (sys : system) : option system :=
  if aborted sys then None else
  match t with
  | Flusher => Some (flusher_step sys)
  | Writer i =>
      match nth_error (calls sys) i with
      | None => None
      | Some w =>
          let '(w', cache, m) := cache_write_step w (shared sys) (mach sys) in
          Some (mkSystem cache m (replace_nth i (calls sys) w') false)
      end
  end.

(** The system after the threads have moved in the order of [schedule]. *)
Fixpoint run (schedule : list thread) (sys : system) : option system :=
  match schedule with
  | [] => Some sys
  | t :: rest =>
      match step t sys with
      | None => None
      | Some sys' => run rest sys'
      end
  end.

End Writer.

(** The inequalities of section 8 on the counters of a descriptor. *)
Definition ring_invariant (c : PMEM_APPEND_CACHE) : Prop :=
  flushed_eof c <= cached_eof c /\ cached_eof c <= reserved_eof c /\
  cached_eof c - flushed_eof c <= buffer_size c.

(** The machine once a slot header's [file_name_length] is reset and the
    reset persisted. *)
Definition slot_freed (h : Z) (s : machine) : machine :=
  mkMachine (store64 (view s) (h + off_file_name_length) 0)
            (store_bytes (media s) (h + off_file_name_length)
               (load_bytes (store64 (view s) (h + off_file_name_length) 0)
                           (h + off_file_name_length) (Z.to_nat 8)))
            (files s) (script s)
            ((trace s ++ [EvStore (h + off_file_name_length) 0])
             ++ [EvPersist (h + off_file_name_length) 8]).

(** ** Detaching *)

(** How a call of [pmem_append_cache_detach] ends: it returns, or the
    flusher thread it waits for calls [abort], or the last drain has not
    finished within the fuel given. *)
Inductive detach_result :=
| DetachReturn (ret : Z)
| DetachAborted
| DetachUnfinished.

(** [pmem_append_cache_detach]; [join_res] is what [pthread_join] returns.
    When it returns 0 the flusher thread has ended, so its last call of
    [flush_cache] has run; nobody else uses the descriptor meanwhile. *)
Definition pmem_append_cache_detach (fuel : nat) (join_res : Z)
    (cache : PMEM_APPEND_CACHE) : M (detach_result * PMEM_APPEND_CACHE) :=
  match write cache with
  | PassThrough => ret (DetachReturn 0, cache)
  | Cached =>
      let cache := set_stop_flusher cache 1 in
      if join_res =? 0 then
        r <- flush_cache fuel cache ;;
        match r with
        | None => ret (DetachUnfinished, cache)
        | Some (drained, cache') =>
            if negb (drained =? 0) then ret (DetachAborted, cache') else
            if flushed_eof cache' =? cached_eof cache' then
              pm_store64 (header cache' + off_file_name_length) 0 ;;
              pmem_persist (header cache' + off_file_name_length) 8 ;;
              ret (DetachReturn 0, cache')
            else ret (DetachReturn (-1), cache')
        end
      else ret (DetachReturn join_res, cache)
  end.

(** What [pmem_append_cache_detach] does once [pthread_join] has returned
    0: the comparison of the two offsets and what follows it.  [cache] is
    the descriptor as it is then, after the last drain of the flusher
    thread; a call of [cache_write] still running on another thread may
    have moved [cached_eof] on since that drain. *)
Definition pmem_append_cache_detach_joined (cache : PMEM_APPEND_CACHE)
    : M Z :=
  if flushed_eof cache =? cached_eof cache then
    pm_store64 (header cache + off_file_name_length) 0 ;;
    pmem_persist (header cache + off_file_name_length) 8 ;;
    ret 0
  else ret (-1).

(** The file as it would be found if every store made so far had reached
    it, persisted or not. *)
Definition settled (s : machine) : machine :=
  mkMachine (view s) (view s) (files s) (script s) (trace s).

(** ** Files that a stop can leave

    A store to the mapping may reach the file before it is persisted, and
    need not: when the process stops in state [s], every byte of the file
    is the durable one or the one the mapping holds.  (This is the set of
    such files as long as no byte has been stored twice since it was last
    persisted, as in [create_directory] and [pmem_append_cache_attach].) *)
Definition may_be_found (s : machine) (m : mem) : Prop :=
  length m = length (media s) /\
  forall i, nth_error m i = nth_error (media s) i \/
            nth_error m i = nth_error (view s) i.

(** The machine that starts again on the file [m]. *)
Definition found (s : machine) (m : mem) : machine :=
  mkMachine [] m (files s) (script s) (trace s).

(** ** Creating a directory file, and the startup entry point *)

(** [my_access(path, F_OK)] of mysys, which is not among the sources: the
    code tests whether the result is 0, which says that the directory file
    exists.  The call leaves the machine as it is. *)
Definition my_access : M Z :=
  o <- next_outcome ;;
  ret (match o with Fail => -1 | _ => 0 end).

(** [my_delete(path, ...)] of mysys, which is not among the sources, on
    the directory file; the code ignores the result.  Once the call
    succeeds nothing durable is left of the file. *)
Definition my_delete : M Z :=
  o <- next_outcome ;;
  fun s => match o with
           | Fail => (-1, s)
           | _ => (0, mkMachine (view s) [] (files s) (script s) (trace s))
           end.

(** [pmem_append_cache_create]; [dir] is the local descriptor, which
    [create_directory] fills in. *)
Definition pmem_append_cache_create (dir : PMEM_APPEND_CACHE_DIRECTORY)
    (size n_caches : Z) : M Z :=
  r <- create_directory dir size n_caches ;;
  if fst r =? 0 then
    res <- pmem_append_cache_close (snd r) ;;
    if negb (res =? 0) then my_delete ;; ret res else ret res
  else ret (fst r).

(** [pmem_append_cache_init]; [path = None] stands for a null pointer.
    [None] is returned when a drain of the startup pass has not finished
    within [fuel] passes. *)
Definition pmem_append_cache_init (fuel : nat)
    (dir : PMEM_APPEND_CACHE_DIRECTORY) (path : option (list byte))
    (size n_caches_wanted : Z)
    : M (option (Z * PMEM_APPEND_CACHE_DIRECTORY)) :=
  match path with
  | None => ret (Some (0, mkDirectory (mapped_length dir) true))
  | Some _ =>
      a <- my_access ;;
      if a =? 0 then
        r <- pmem_append_cache_open dir ;;
        let dir := snd r in
        if fst r =? 0 then
          m <- read_view ;;
          if n_caches_wanted <=? n_caches m then
            f <- pmem_append_cache_flush fuel dir ;;
            match f with
            | None => ret None
            | Some f =>
                if f =? 0 then ret (Some (0, dir))
                else pmem_append_cache_close dir ;; ret (Some (-1, dir))
            end
          else pmem_append_cache_close dir ;; ret (Some (-1, dir))
        else ret (Some (-1, dir))
      else
        r <- create_directory dir size n_caches_wanted ;;
        ret (Some r)
  end.

(** What a directory of [nc] slots in a file of [size] bytes looks like
    right after its creation: the signature, the slot count, the slots laid
    out one after the other from the end of the table of offsets, and null
    bytes from there on. *)
Definition fresh_directory (size nc : Z) (m : mem) : Prop :=
  Z.of_nat (length m) = size /\
  load64 m off_magic = pmem_append_cache_magic /\
  n_caches m = nc /\
  (forall j, 0 <= j < nc ->
     start_offsets m j
     = directory_header_size nc + j * create_cache_size size nc) /\
  (forall a, directory_header_size nc <= a -> a + 8 <= size -> load64 m a = 0).

(** The descriptor [open_cache] gives for slot [i] of such a directory. *)
Definition fresh_slot (c : PMEM_APPEND_CACHE) (size nc i : Z)
    : PMEM_APPEND_CACHE :=
  let start := directory_header_size nc + i * create_cache_size size nc in
  let stop := if i =? nc - 1 then size
              else start + create_cache_size size nc in
  mkCache start (start + sizeof_CACHE_HEADER) (start + sizeof_CACHE_HEADER)
          (stop - start - sizeof_CACHE_HEADER) (file_fd c) 0 0 0 0 (write c).

(** What [pmem_append_cache_open] requires of the file it has mapped. *)
Definition directory_file_ok (m : mem) : Prop :=
  sizeof_DIRECTORY_HEADER <= Z.of_nat (length m) /\
  load64 m off_magic = pmem_append_cache_magic /\
  1 <= n_caches m <= (Z.of_nat (length m) - sizeof_DIRECTORY_HEADER) / 8.

(** The machine once the directory file is mapped. *)
Definition mapped_existing (s : machine) : machine :=
  mkMachine (media s) (media s) (files s) (tl (script s))
            (trace s ++ [EvMap (Z.of_nat (length (media s)))]).

(** The descriptor [open_cache] fills in for slot [n], given the caller's
    [file_fd] and [write], read off the assignments of the function. *)
Definition opened_slot (c : PMEM_APPEND_CACHE)
    (dir : PMEM_APPEND_CACHE_DIRECTORY) (m : mem) (n : Z)
    : PMEM_APPEND_CACHE :=
  let cs := cache_start m n in
  let fnl := hdr_file_name_length m cs in
  mkCache cs (cs + sizeof_CACHE_HEADER) (cs + sizeof_CACHE_HEADER + fnl)
          (cache_end dir m n - cs - sizeof_CACHE_HEADER - fnl)
          (file_fd c) 0 (hdr_flushed_eof m cs) (hdr_cached_eof m cs)
          (hdr_cached_eof m cs) (write c).

(** What [open_cache] requires of slot [n]. *)
Definition slot_ok (dir : PMEM_APPEND_CACHE_DIRECTORY) (m : mem) (n : Z)
    : Prop :=
  let cs := cache_start m n in
  let ce := cache_end dir m n in
  let fnl := hdr_file_name_length m cs in
  n < n_caches m /\
  sizeof_DIRECTORY_HEADER + 8 * n_caches m <= cs /\
  cs <= ce <= mapped_length dir /\ cs mod 8 = 0 /\
  fnl < ce - cs - sizeof_CACHE_HEADER /\
  hdr_flushed_eof m cs <= hdr_cached_eof m cs /\
  hdr_cached_eof m cs - hdr_flushed_eof m cs
  <= ce - cs - sizeof_CACHE_HEADER - fnl.

(** [m'] is [m] but for the bytes from [lo] up to [hi]. *)
Definition same_outside (m m' : mem) (lo hi : Z) : Prop :=
  length m' = length m /\
  forall i, (i < Z.to_nat lo \/ Z.to_nat hi <= i)%nat ->
            nth_error m' i = nth_error m i.

(** The stores and persists of [pmem_append_cache_attach] on the slot
    header at [h], once the slot is found free and large enough, in the
    order the function makes them: both offsets, the name with its null
    byte, the persist of the lot, then the length of the name and its
    persist. *)
Definition attach_steps (sizeof_PMEM_APPEND_CACHE h st_size : Z)
    (name : list byte) : list (M unit) :=
  let file_name_length := wrap64 (Z.of_nat (length name) + 1) in
  [ pm_store64 (h + off_cached_eof) st_size;
    pm_store64 (h + off_flushed_eof) st_size;
    pm_memcpy (h + sizeof_CACHE_HEADER) (name ++ [Byte.x00]);
    pmem_persist h (sizeof_PMEM_APPEND_CACHE + file_name_length);
    pm_store64 (h + off_file_name_length) file_name_length;
    pmem_persist (h + off_file_name_length) 8 ].

(** ** The ring as a window on the backing file *)

(** Where the byte for file offset [pos] sits in the mapping:
    [buffer + pos % buffer_size], as the writer and the flusher both
    compute it. *)
Definition ring_at (cache : PMEM_APPEND_CACHE) (pos : Z) : Z :=
  buffer cache + pos mod buffer_size cache.

(** The bytes the ring holds for the [len] file offsets from [from] on. *)
Definition ring_bytes (m : mem) (cache : PMEM_APPEND_CACHE) (from : Z)
    (len : nat) : list byte :=
  map (fun k => nth (Z.to_nat (ring_at cache (from + Z.of_nat k))) m Byte.x00)
      (seq 0 len).

(** The state of the machine the passes of [flush_cache] keep: the ring
    lies within the mapping, the media are as long as the mapping, the
    header says how far the file has been written, and the file, called
    [nm], is at least that long. *)
Definition drain_ready (cache : PMEM_APPEND_CACHE) (nm : list byte)
    (fe : Z) (c : list byte) (s : machine) : Prop :=
  buffer cache + buffer_size cache <= Z.of_nat (length (view s)) /\
  length (media s) = length (view s) /\
  0 <= fe <= cached_eof cache /\
  hdr_flushed_eof (view s) (header cache) = fe /\
  hdr_flushed_eof (media s) (header cache) = fe /\
  file_of s (file_fd cache) = Some (nm, c) /\ fe <= Z.of_nat (length c).

(** What has become of the machine [s], where the file held [c], once the
    file holds the ring's bytes up to offset [e] and the header says
    [fe']. *)
Definition drained_to (cache : PMEM_APPEND_CACHE) (nm : list byte)
    (fe fe' e : Z) (c : list byte) (s s' : machine) : Prop :=
  fe <= fe' <= e /\ e <= cached_eof cache /\
  same_outside (view s) (view s') (header cache + off_flushed_eof)
               (header cache + off_flushed_eof + 8) /\
  same_outside (media s) (media s') (header cache + off_flushed_eof)
               (header cache + off_flushed_eof + 8) /\
  hdr_flushed_eof (view s') (header cache) = fe' /\
  hdr_flushed_eof (media s') (header cache) = fe' /\
  file_of s' (file_fd cache)
  = Some (nm, firstn (Z.to_nat fe) c
              ++ ring_bytes (view s) cache fe (Z.to_nat (e - fe))
              ++ skipn (Z.to_nat e) c) /\
  (forall fd', fd' <> file_fd cache -> file_of s' fd' = file_of s fd').

(** ** The flusher thread *)

(** How a run of [flusher_thread] stands: it has returned, it has called
    [abort], or it is still going round (or a drain has not finished within
    the passes allowed). *)
Inductive flusher_end :=
| FlusherReturned (cache : PMEM_APPEND_CACHE)
| FlusherAborted
| FlusherRunning.

(** [flusher_thread], with no call of [cache_write] at work meanwhile.
    [stop_flusher] is set by [pmem_append_cache_detach] on another thread:
    [loads] gives what the successive loads of it find, and when none is
    left the thread is still going round.  [my_sleep] leaves the machine as
    it is. *)
Fixpoint flusher_thread (loads : list Z) (fuel : nat)
    (cache : PMEM_APPEND_CACHE) : M flusher_end :=
  match loads with
  | [] => ret FlusherRunning
  | stop :: rest =>
      if stop =? 0 then
        r <- flush_cache fuel cache ;;
        match r with
        | None => ret FlusherRunning
        | Some (res, cache') =>
            if negb (res =? 0) then ret FlusherAborted
            else flusher_thread rest fuel cache'
        end
      else
        r <- flush_cache fuel cache ;;
        match r with
        | None => ret FlusherRunning
        | Some (res, cache') =>
            if negb (res =? 0) then ret FlusherAborted
            else ret (FlusherReturned cache')
        end
  end.

(** The machine once a chunk [bytes] is copied to the ring at [addr] and
    made durable, and [cached_eof], now [pos], is stored in the slot header
    at [h], persisted, and published. *)
Definition chunk_committed (h addr : Z) (bytes : list byte) (pos : Z)
    (s : machine) : machine :=
  let v := store64 (store_bytes (view s) addr bytes) (h + off_cached_eof)
                   pos in
  mkMachine v
            (store_bytes (store_bytes (media s) addr bytes)
               (h + off_cached_eof)
               (load_bytes v (h + off_cached_eof) (Z.to_nat 8)))
            (files s) (script s)
            ((((trace s ++ [EvMemcpyPersist addr bytes])
               ++ [EvStore (h + off_cached_eof) pos])
              ++ [EvPersist (h + off_cached_eof) 8])
             ++ [EvCachedEof pos]).

(** What a call of [cache_write] leaves untouched and what it keeps of the
    shape of the machine. *)
Definition write_kept (cache : PMEM_APPEND_CACHE) (s s' : machine) : Prop :=
  length (view s') = length (view s) /\
  length (media s') = length (media s) /\
  files s' = files s /\ script s' = script s /\
  hdr_flushed_eof (view s') (header cache)
  = hdr_flushed_eof (view s) (header cache) /\
  hdr_flushed_eof (media s') (header cache)
  = hdr_flushed_eof (media s) (header cache) /\
  hdr_file_name_length (view s') (header cache)
  = hdr_file_name_length (view s) (header cache) /\
  hdr_file_name_length (media s') (header cache)
  = hdr_file_name_length (media s) (header cache).

(** ** What the calls in flight keep of the three counters *)

(** How far a call has had its bytes counted in [cached_eof]: up to
    [write_pos], less the chunk it has copied and not yet committed. *)
Definition committed (w : writer) : Z :=
  match pc w with
  | AtOrdering | AtCommitHeader | AtCommitPersist | AtCommitRuntime =>
      write_pos w - avail w
  | _ => write_pos w
  end.

(** A call that holds a reservation and has not returned. *)
Definition in_flight (w : writer) : bool :=
  match pc w with
  | AtEntry | Returned _ => false
  | _ => true
  end.

(** The bytes a call is still going to reserve: its [length] until it has
    made its reservation. *)
Definition unreserved (w : writer) : Z :=
  match pc w with
  | AtEntry => length_arg w
  | _ => 0
  end.

(** The bytes the calls that have not started yet are going to reserve. *)
Fixpoint to_reserve (ws : list writer) : Z :=
  match ws with
  | [] => 0
  | w :: rest => unreserved w + to_reserve rest
  end.

(** What holds of a call while [cached_eof] is [ce] and [reserved_eof] is
    [re]: a call in flight owns the offsets from [start] up to [start] plus
    [length], all reserved; it has committed a part of them and not all;
    [cached_eof] has not passed what it has committed, and has reached it
    as soon as the call has committed anything.  A call that has returned
    has all its offsets below [cached_eof]. *)
Definition call_ok (ce re : Z) (w : writer) : Prop :=
  match pc w with
  | AtEntry => 0 <= length_arg w
  | Returned _ => length_arg w = 0 \/ start w + length_arg w <= ce
  | _ =>
      start w + length_arg w <= re /\
      write_pos w + left w = start w + length_arg w /\ 0 <= left w /\
      start w <= committed w < start w + length_arg w /\
      ce <= committed w /\ (committed w = start w \/ ce = committed w) /\
      match pc w with
      | AtBackpressure => True
      | AtCopy | AtOrdering => 0 < avail w
      | _ => 0 < avail w /\ start w <= ce
      end
  end.

(** The calls in flight own ranges of offsets that do not overlap. *)
Definition apart (wi wj : writer) : Prop :=
  start wi + length_arg wi <= start wj \/
  start wj + length_arg wj <= start wi.

(** What every state of the writers and the flusher running together
    keeps. *)
Definition counters_ok (sys : system) : Prop :=
  let c := shared sys in
  0 < buffer_size c < 2 ^ 64 /\
  0 <= flushed_eof c <= cached_eof c /\ cached_eof c <= reserved_eof c /\
  reserved_eof c + to_reserve (calls sys) < 2 ^ 64 /\
  (forall i w, nth_error (calls sys) i = Some w ->
     call_ok (cached_eof c) (reserved_eof c) w) /\
  (forall i j wi wj, i <> j ->
     nth_error (calls sys) i = Some wi -> nth_error (calls sys) j = Some wj ->
     in_flight wi = true -> in_flight wj = true -> apart wi wj).

(** What holds of a call that is the only one on its descriptor, while the
    ring has [bs] bytes and the counters are [fe], [ce] and [re]: nothing
    is reserved beyond what the call is still to write, and what it has
    copied, committed or not, is within a ring's length of [flushed_eof]. *)
Definition call_alone (bs fe ce re : Z) (w : writer) : Prop :=
  match pc w with
  | AtEntry => ce = re /\ 0 <= length_arg w
  | AtBackpressure =>
      write_pos w = ce /\ 0 < left w /\ write_pos w + left w = re
  | AtCopy =>
      write_pos w = ce /\ 0 < left w /\ write_pos w + left w = re /\
      0 < avail w <= fe + bs - write_pos w
  | Returned _ => ce = re
  | _ =>
      write_pos w - avail w = ce /\ 0 < avail w /\ 0 <= left w /\
      write_pos w + left w = re /\ write_pos w <= fe + bs
  end.

(** The state of a descriptor with one call on it: the counters are in
    order, [cached_eof] is within a ring's length of [flushed_eof], and
    the call is as [call_alone] has it. *)
Definition alone_ok (sys : system) : Prop :=
  let c := shared sys in
  0 < buffer_size c < 2 ^ 64 /\
  0 <= flushed_eof c <= cached_eof c /\ cached_eof c <= reserved_eof c /\
  cached_eof c - flushed_eof c <= buffer_size c /\
  exists w, calls sys = [w] /\
    reserved_eof c + unreserved w < 2 ^ 64 /\
    call_alone (buffer_size c) (flushed_eof c) (cached_eof c)
               (reserved_eof c) w.

(** ** The order of the stores, and the startup pass slot by slot *)

(** The stores of [create_directory] into the table of offsets. *)
Definition offset_store (e : event) : Prop :=
  exists a v, e = EvStore a v /\ sizeof_DIRECTORY_HEADER <= a.

(** The events by which the startup pass frees a slot: a store of 0 and a
    persist of eight bytes. *)
Definition name_length_reset (e : event) : Prop :=
  match e with
  | EvStore _ v => v = 0
  | EvPersist _ len => len = 8
  | _ => False
  end.

(** Slot [j] is valid and has nothing to drain: it is free, or its two
    offsets are equal. *)
Definition nothing_to_drain (dir : PMEM_APPEND_CACHE_DIRECTORY) (m : mem)
    (j : Z) : Prop :=
  exists c, open_cache blank_cache dir m j = (0, c) /\
            (hdr_file_name_length m (header c) = 0 \/
             hdr_flushed_eof m (header c) = hdr_cached_eof m (header c)).

(** Where the startup pass stands when it has dealt with the slots below
    [i] of the directory found in state [s], none of which had anything to
    drain: those slots are free, the others are as they were, and nothing
    but resets of [file_name_length] has been done. *)
Definition freed_below (s : machine) (i : Z) (t : machine) : Prop :=
  let n := n_caches (view s) in
  length (view t) = length (view s) /\ length (media t) = length (media s) /\
  n_caches (view t) = n /\
  (forall j, 0 <= j < n ->
     start_offsets (view t) j = start_offsets (view s) j /\
     hdr_flushed_eof (view t) (cache_start (view s) j)
     = hdr_flushed_eof (view s) (cache_start (view s) j) /\
     hdr_cached_eof (view t) (cache_start (view s) j)
     = hdr_cached_eof (view s) (cache_start (view s) j)) /\
  (forall j, i <= j < n ->
     hdr_file_name_length (view t) (cache_start (view s) j)
     = hdr_file_name_length (view s) (cache_start (view s) j)) /\
  (forall j, 0 <= j < i -> j < n ->
     hdr_file_name_length (view t) (cache_start (view s) j) = 0 /\
     (hdr_file_name_length (view s) (cache_start (view s) j) <> 0 ->
      hdr_file_name_length (media t) (cache_start (view s) j) = 0)) /\
  files t = files s /\ script t = script s /\
  exists evs, trace t = trace s ++ evs /\ Forall name_length_reset evs.

(** ** A directory and the runs made on it

    The runs take 104 for the size of the run-time descriptor, and 4 and 2
    for the two flag bits. *)

Module Scenario.

(** The backing file is called "f"; "fg" is another file next to it. *)
Definition f_name : list byte := [Byte.x66].

Definition fg_name : list byte := [Byte.x66; Byte.x67].

Definition digits : list byte :=
  [Byte.x30; Byte.x31; Byte.x32; Byte.x33; Byte.x34;
   Byte.x35; Byte.x36; Byte.x37; Byte.x38; Byte.x39].

(** Ten bytes of which the first is a null byte. *)
Definition zero_first : list byte :=
  [Byte.x00; Byte.x31; Byte.x32; Byte.x33; Byte.x34;
   Byte.x35; Byte.x36; Byte.x37; Byte.x38; Byte.x39].

Definition no_directory : PMEM_APPEND_CACHE_DIRECTORY := mkDirectory 0 false.

(** A machine with the given backing files and no directory file yet. *)
Definition fresh (fs : list (list byte * list byte)) (sc : list outcome)
    : machine :=
  mkMachine [] [] fs sc [].

(** A directory sized for two slots of 4096 bytes each (32 bytes of header
    and offsets, then the slots at 32 and 4128), slot 0 attached to the file
    "f" (descriptor 0): the slot header is at 32, the name at 56, and the
    ring buffer, of 4070 bytes, at 58. *)
Definition attached (fs : list (list byte * list byte))
    (sc : list outcome) : Z * PMEM_APPEND_CACHE * machine :=
  let '(_, dir, s) := create_directory no_directory 8224 2 (fresh fs sc) in
  pmem_append_cache_attach 104 blank_cache (Some dir) 0 0 f_name s.

(** Attach, write ten bytes with the flusher not running, stop there. *)
Definition written (bytes : list byte) (fs : list (list byte * list byte))
    : option (Z * PMEM_APPEND_CACHE) * machine :=
  let '(_, cache, s) := attached fs [] in
  cache_write 4 2 20 (cache_write_call bytes 10 0) cache s.

(** The process stops, the directory is opened again and flushed. *)
Definition recovered (s : machine) : option Z * machine :=
  let '(_, dir, s1) := pmem_append_cache_open no_directory (crash s) in
  pmem_append_cache_flush 20 dir s1.

Definition recovered_again (s : machine) : option Z * machine :=
  let '(_, dir, s1) := pmem_append_cache_open no_directory (crash s) in
  let (_, s2) := pmem_append_cache_flush 20 dir s1 in
  pmem_append_cache_flush 20 dir s2.

(** What a pass leaves: its status, the backing files, and the three
    fields of the header of slot 0 (at offset 32). *)
Definition outcome_of (r : option Z * machine)
    : option Z * list (list byte * list byte) * (Z * Z * Z) :=
  (fst r, files (snd r),
   (hdr_file_name_length (view (snd r)) 32,
    hdr_flushed_eof (view (snd r)) 32,
    hdr_cached_eof (view (snd r)) 32)).

(** The media of a stopped machine with one byte overwritten, and one more
    backing file. *)
Definition damaged (s : machine) (addr : Z) (b : byte)
    (extra : list byte * list byte) : machine :=
  mkMachine [] (store_bytes (media s) addr [b]) (files s ++ [extra])
            (script s) (trace s).

(** Five bytes appended to a file of five through the cache, none drained,
    and the process stopped; then the same with the file cut to three
    bytes meanwhile. *)
Definition five_more : machine :=
  let '(_, cache, s) := attached [(f_name, repeat Byte.x2e 5)] [] in
  snd (cache_write 4 2 20
         (cache_write_call (firstn 5 digits) 5 0) cache s).

Definition five_more_cut : machine :=
  mkMachine [] (media five_more) [(f_name, repeat Byte.x2e 3)] [] [].

(** Two calls of [cache_write] on the ring of 4070 bytes, attached to a
    file of 4069 bytes: 4071 bytes "A" and one byte "C". *)
Definition two_writers : system :=
  let '(_, cache, s) := attached [(f_name, repeat Byte.x2e 4069)] [] in
  mkSystem cache s
           [ cache_write_call (repeat Byte.x41 4071) 4071 0;
             cache_write_call [Byte.x43] 1 0 ]
           false.

(** The first call reserves [4069, 8140), the second [8140, 8141).  The
    second one tests for space while [flushed_eof] is 4069, copies its byte
    and waits for its turn; the first one commits its first byte (the last
    of the ring), the flusher drains it, the first one commits its other
    4070 bytes, the second one commits. *)
Definition late_writer_first : list thread :=
  [ Writer 0; Writer 1; Writer 1; Writer 1; Writer 1;
    Writer 0; Writer 0; Writer 0; Writer 0; Writer 0; Writer 0;
    Flusher;
    Writer 0; Writer 0; Writer 0; Writer 0; Writer 0; Writer 0;
    Writer 1; Writer 1; Writer 1; Writer 1 ]%nat.

End Scenario.

(** ** Samples on which the theorems are put to work *)

Module Sample.

(** The mapping once the slot is attached, and the descriptor then. *)
Definition mapping : mem :=
  view (snd (Scenario.attached [(Scenario.f_name, [])] [])).

Definition directory : PMEM_APPEND_CACHE_DIRECTORY := mkDirectory 8224 false.

Definition handle : PMEM_APPEND_CACHE :=
  mkCache 32 56 58 4070 0 0 0 10 10 Cached.

Definition call : writer := cache_write_call Scenario.digits 10 0.

(** The machine with ten bytes committed and none drained. *)
Definition dirty : machine :=
  snd (Scenario.written Scenario.digits [(Scenario.f_name, [])]).

(** The machine right after the attach, stopped and mapped again. *)
Definition reopened : machine :=
  snd (pmem_append_cache_open Scenario.no_directory
         (crash (snd (Scenario.attached [(Scenario.f_name, [])] [])))).

End Sample.

(** ** The slot of the runs before and after its attach *)

Module Trial.

(** The directory of [Scenario.attached] right after its creation, with the
    backing file "f" empty. *)
Definition created : machine :=
  snd (create_directory Scenario.no_directory 8224 2
         (Scenario.fresh [(Scenario.f_name, [])] [])).

(** Slot 0 as [open_cache] hands it to the attach. *)
Definition free_slot : PMEM_APPEND_CACHE :=
  snd (open_cache (set_write (set_file_fd blank_cache 0) Cached)
         Sample.directory (view created) 0).

(** The handle and the machine the attach leaves. *)
Definition handle : PMEM_APPEND_CACHE :=
  snd (fst (Scenario.attached [(Scenario.f_name, [])] [])).

Definition attached : machine :=
  snd (Scenario.attached [(Scenario.f_name, [])] []).

(** A call of ten bytes on the slot just attached, and an order in which
    the call and the flusher take their turns. *)
Definition one_writer : system :=
  mkSystem Trial.handle Trial.attached
           [cache_write_call Scenario.digits 10 0] false.

Definition flusher_in_between : list thread :=
  [ Writer 0; Flusher; Writer 0; Writer 0; Writer 0; Flusher;
    Writer 0; Writer 0; Writer 0; Flusher; Flusher ]%nat.

End Trial.

(** ** Both slots attached, and the restart after it *)

Module Restart.

(** Both slots of the directory of [Scenario.attached] attached, slot 0 to
    "f" (descriptor 0) and slot 1 to "fg" (descriptor 1), both files empty;
    ten bytes written through slot 0 with the flusher not running, nothing
    through slot 1. *)
Definition both_attached (bytes : list byte) : machine :=
  let fs := [(Scenario.f_name, []); (Scenario.fg_name, [])] in
  let '(_, dir, s) :=
    create_directory Scenario.no_directory 8224 2 (Scenario.fresh fs []) in
  let '(_, cache, s) :=
    pmem_append_cache_attach 104 blank_cache (Some dir) 0 0
                             Scenario.f_name s in
  let '(_, _, s) :=
    pmem_append_cache_attach 104 blank_cache (Some dir) 1 1
                             Scenario.fg_name s in
  snd (cache_write 4 2 20 (cache_write_call bytes 10 0) cache s).

(** The process stops there, and the directory file is mapped again with
    the backing files [fs] in place. *)
Definition restarted (bytes : list byte)
    (fs : list (list byte * list byte)) : machine :=
  snd (pmem_append_cache_open Scenario.no_directory
         (mkMachine [] (media (both_attached bytes)) fs [] [])).

(** The creation of the directory stopped between the store of the
    signature and its persist. *)
Definition magic_stored : machine :=
  snd (run_steps (firstn 5 (create_steps 8224 2))
         (snd (pmem_map_file_create 8224 (Scenario.fresh [] [])))).

(** The attach of [Trial.attached] stopped between the store of
    [file_name_length] and its persist. *)
Definition name_length_stored : machine :=
  snd (run_steps
         (firstn 5 (attach_steps 104 (header Trial.free_slot)
                                 (Z.of_nat (length (@nil byte)))
                                 Scenario.f_name))
         (snd (my_fstat 0 Trial.created))).

(** The call of [Trial.one_writer] commits after the flusher thread has
    made its last drain. *)
Definition commit_after_drain : list thread :=
  [ Writer 0; Writer 0; Writer 0; Writer 0; Writer 0; Writer 0;
    Flusher; Writer 0 ]%nat.

(** What two runs of [pmem_append_cache_flush] after the restart make of
    slot 1 (its header is at 4128): the three fields of its header before
    the runs, the status of each run, and its [file_name_length] in the
    mapping after each run and on the medium after the second. *)
Definition second_slot_outcome (bytes : list byte)
    (fs : list (list byte * list byte))
    : (Z * Z * Z) * option Z * option Z * (Z * Z * Z) :=
  let s := restarted bytes fs in
  let r1 := pmem_append_cache_flush 20 (mkDirectory 8224 false) s in
  let r2 := pmem_append_cache_flush 20 (mkDirectory 8224 false) (snd r1) in
  ((hdr_file_name_length (view s) 4128, hdr_flushed_eof (view s) 4128,
    hdr_cached_eof (view s) 4128),
   fst r1, fst r2,
   (hdr_file_name_length (view (snd r1)) 4128,
    hdr_file_name_length (view (snd r2)) 4128,
    hdr_file_name_length (media (snd r2)) 4128)).

End Restart.

(** Closed facts about the samples are settled by evaluation. *)
Ltac evaluated :=
  vm_compute; repeat split; try reflexivity; try discriminate.

(** * Properties *)

(** ** Machine integers and the mapping *)

Lemma wrap64_small z : 0 <= z < 2 ^ 64 -> wrap64 z = z.
Proof. intros H. unfold wrap64. now apply Z.mod_small. Qed.

Lemma wrap64_range z : 0 <= wrap64 z < 2 ^ 64.
Proof. unfold wrap64. apply Z.mod_pos_bound. reflexivity. Qed.

Lemma length_load_bytes m a n :
  0 <= a -> a + Z.of_nat n <= Z.of_nat (length m) ->
  length (load_bytes m a n) = n.
Proof.
  intros Ha Hb. unfold load_bytes.
  rewrite length_firstn, length_skipn. lia.
Qed.

Lemma length_store_bytes m a bs :
  0 <= a -> a + Z.of_nat (length bs) <= Z.of_nat (length m) ->
  length (store_bytes m a bs) = length m.
Proof.
  intros Ha Hb. unfold store_bytes.
  rewrite !length_app, length_firstn, length_skipn. lia.
Qed.

Lemma nth_error_store_bytes_in m a bs i :
  0 <= a -> a + Z.of_nat (length bs) <= Z.of_nat (length m) ->
  (Z.to_nat a <= i < Z.to_nat a + length bs)%nat ->
  nth_error (store_bytes m a bs) i = nth_error bs (i - Z.to_nat a).
Proof.
  intros Ha Hb Hi. unfold store_bytes.
  rewrite nth_error_app2 by (rewrite length_firstn; lia).
  rewrite length_firstn, Nat.min_l by lia.
  rewrite nth_error_app1 by lia. reflexivity.
Qed.

Lemma nth_error_store_bytes_out m a bs i :
  0 <= a -> a + Z.of_nat (length bs) <= Z.of_nat (length m) ->
  (i < Z.to_nat a \/ Z.to_nat a + length bs <= i)%nat ->
  nth_error (store_bytes m a bs) i = nth_error m i.
Proof.
  intros Ha Hb Hi. unfold store_bytes. destruct Hi as [Hi | Hi].
  - rewrite nth_error_app1 by (rewrite length_firstn; lia).
    rewrite nth_error_firstn.
    destruct (Nat.ltb_spec i (Z.to_nat a)); [reflexivity | lia].
  - rewrite nth_error_app2 by (rewrite length_firstn; lia).
    rewrite length_firstn, Nat.min_l by lia.
    rewrite nth_error_app2 by lia.
    rewrite nth_error_skipn. f_equal. lia.
Qed.

Lemma nth_error_load_bytes m a n i :
  0 <= a -> (i < n)%nat ->
  nth_error (load_bytes m a n) i = nth_error m (Z.to_nat a + i).
Proof.
  intros Ha Hi. unfold load_bytes.
  rewrite nth_error_firstn.
  destruct (Nat.ltb_spec i n); [| lia].
  apply nth_error_skipn.
Qed.

Lemma list_eq_nth_error (A : Type) (l1 l2 : list A) :
  length l1 = length l2 ->
  (forall i, (i < length l1)%nat -> nth_error l1 i = nth_error l2 i) ->
  l1 = l2.
Proof.
  revert l2. induction l1 as [|x l1 IH]; intros [|y l2] Hlen Hnth;
    simpl in *; try discriminate; auto.
  f_equal.
  - specialize (Hnth 0%nat ltac:(lia)). simpl in Hnth. congruence.
  - apply IH; [lia|]. intros i Hi.
    apply (Hnth (S i)). lia.
Qed.

(** Reading back what was just stored. *)
Lemma load_store_bytes_same m a bs :
  0 <= a -> a + Z.of_nat (length bs) <= Z.of_nat (length m) ->
  load_bytes (store_bytes m a bs) a (length bs) = bs.
Proof.
  intros Ha Hb. apply list_eq_nth_error.
  - apply length_load_bytes; auto.
    rewrite length_store_bytes; auto.
  - intros i Hi.
    rewrite length_load_bytes in Hi
      by (auto; rewrite length_store_bytes; auto).
    rewrite nth_error_load_bytes by auto.
    rewrite nth_error_store_bytes_in by (auto; lia).
    f_equal. lia.
Qed.

(** A store leaves every disjoint range as it was. *)
Lemma load_store_bytes_other m a bs b n :
  0 <= a -> a + Z.of_nat (length bs) <= Z.of_nat (length m) ->
  0 <= b -> b + Z.of_nat n <= Z.of_nat (length m) ->
  b + Z.of_nat n <= a \/ a + Z.of_nat (length bs) <= b ->
  load_bytes (store_bytes m a bs) b n = load_bytes m b n.
Proof.
  intros Ha Hla Hb Hlb Hd. apply list_eq_nth_error.
  - rewrite !length_load_bytes; auto.
    rewrite length_store_bytes; auto.
  - intros i Hi.
    rewrite length_load_bytes in Hi
      by (auto; rewrite length_store_bytes; auto).
    rewrite !nth_error_load_bytes by auto.
    apply nth_error_store_bytes_out; auto. lia.
Qed.

Lemma load64_range m a : 0 <= load64 m a < 2 ^ 64.
Proof.
  unfold load64.
  pose proof (le_combine_bound (load_bytes m a 8)) as H.
  assert (Hl : (length (load_bytes m a 8) <= 8)%nat).
  { unfold load_bytes. rewrite length_firstn. lia. }
  split; [lia|].
  eapply Z.lt_le_trans; [apply H|].
  apply Z.pow_le_mono_r; lia.
Qed.

Lemma length_store64 m a v :
  0 <= a -> a + 8 <= Z.of_nat (length m) ->
  length (store64 m a v) = length m.
Proof.
  intros. unfold store64. apply length_store_bytes; auto.
Qed.

Lemma load64_store64_same m a v :
  0 <= a -> a + 8 <= Z.of_nat (length m) ->
  load64 (store64 m a v) a = wrap64 v.
Proof.
  intros Ha Hb. unfold load64, store64.
  replace 8%nat with (length (le_split 8 v)) at 2
    by apply length_le_split.
  rewrite load_store_bytes_same
    by (auto; rewrite length_le_split; lia).
  rewrite le_combine_split. reflexivity.
Qed.

Lemma load64_store64_other m a v b :
  0 <= a -> a + 8 <= Z.of_nat (length m) ->
  0 <= b -> b + 8 <= Z.of_nat (length m) ->
  b + 8 <= a \/ a + 8 <= b ->
  load64 (store64 m a v) b = load64 m b.
Proof.
  intros Ha Hla Hb Hlb Hd. unfold load64, store64.
  rewrite load_store_bytes_other; auto;
    rewrite ?length_le_split; lia.
Qed.

(** ** Slot validation: [open_cache] against section 4.2 *)

Lemma land7_mod8 z : Z.land z 7 = z mod 8.
Proof. change 7 with (Z.ones 3). now rewrite Z.land_ones by lia. Qed.

Lemma directory_header_size_exact dir m :
  directory_ok dir m ->
  directory_header_size (n_caches m) = sizeof_DIRECTORY_HEADER + 8 * n_caches m
  /\ sizeof_DIRECTORY_HEADER + 8 * n_caches m <= mapped_length dir.
Proof.
  intros [Hml Hnc]. unfold directory_header_size, sizeof_DIRECTORY_HEADER in *.
  pose proof (load64_range m off_n_caches) as Hr. fold (n_caches m) in Hr.
  assert (H8 : 8 * n_caches m <= mapped_length dir - 16).
  { etransitivity; [|apply (Z.mul_div_le _ 8); lia].
    apply Z.mul_le_mono_nonneg_l; lia. }
  rewrite (wrap64_small (8 * n_caches m)) by lia.
  rewrite wrap64_small by lia. lia.
Qed.

Lemma cache_end_range dir m n :
  0 <= mapped_length dir < 2 ^ 64 -> 0 <= cache_end dir m n < 2 ^ 64.
Proof.
  intros H. unfold cache_end, start_offsets.
  destruct (n =? _); [assumption | apply load64_range].
Qed.

Lemma open_cache_decides cache dir m n :
  directory_ok dir m -> 0 <= n < 2 ^ 64 ->
  (fst (open_cache cache dir m n) = -1 <-> open_cache_rejects dir m n) /\
  (~ open_cache_rejects dir m n -> fst (open_cache cache dir m n) = 0).
Proof.
  intros Hok Hn.
  destruct (directory_header_size_exact dir m Hok) as [Hhs Hfit].
  destruct Hok as [Hml Hnc].
  pose proof (load64_range m off_n_caches) as Rnc. fold (n_caches m) in Rnc.
  pose proof (load64_range m (sizeof_DIRECTORY_HEADER + 8 * n)) as Rcs.
  fold (start_offsets m n) in Rcs. fold (cache_start m n) in Rcs.
  assert (Rce : 0 <= cache_end dir m n < 2 ^ 64).
  { apply cache_end_range. unfold sizeof_DIRECTORY_HEADER in *. lia. }
  pose proof (load64_range m (cache_start m n + off_file_name_length)) as Rfnl.
  pose proof (load64_range m (cache_start m n + off_flushed_eof)) as Rfl.
  pose proof (load64_range m (cache_start m n + off_cached_eof)) as Rca.
  fold (hdr_file_name_length m (cache_start m n)) in Rfnl.
  fold (hdr_flushed_eof m (cache_start m n)) in Rfl.
  fold (hdr_cached_eof m (cache_start m n)) in Rca.
  unfold open_cache, open_cache_rejects.
  rewrite Hhs, land7_mod8.
  set (cs := cache_start m n) in *. set (ce := cache_end dir m n) in *.
  set (fnl := hdr_file_name_length m cs) in *.
  set (fl := hdr_flushed_eof m cs) in *. set (ca := hdr_cached_eof m cs) in *.
  unfold sizeof_CACHE_HEADER, sizeof_DIRECTORY_HEADER in *.
  destruct (Z.leb_spec (n_caches m) n) as [Hge | Hlt]; cbn [orb negb fst cached_eof flushed_eof buffer_size].
  { split; [split; intros _; [left; lia | reflexivity] |].
    intros Hno. exfalso. apply Hno. left. lia. }
  destruct (Z.ltb_spec cs (16 + 8 * n_caches m)) as [H1 | H1]; cbn [orb negb fst cached_eof flushed_eof buffer_size].
  { split; [split; intros _; [right; left; lia | reflexivity] |].
    intros Hno. exfalso. apply Hno. right; left. lia. }
  destruct (Z.ltb_spec ce cs) as [H2 | H2]; cbn [orb negb fst cached_eof flushed_eof buffer_size].
  { split; [split; intros _; [do 2 right; left; lia | reflexivity] |].
    intros Hno. exfalso. apply Hno. do 2 right; left. lia. }
  rewrite (wrap64_small (ce - cs)) by lia.
  destruct (Z.eqb_spec (cs mod 8) 0) as [H3 | H3]; cbn [orb negb fst cached_eof flushed_eof buffer_size].
  2:{ split; [split; intros _; [do 3 right; left; lia | reflexivity] |].
      intros Hno. exfalso. apply Hno. do 3 right; left. lia. }
  destruct (Z.ltb_spec (ce - cs) 24) as [H4 | H4]; cbn [orb negb fst cached_eof flushed_eof buffer_size].
  { split; [split; intros _; [do 4 right; left; lia | reflexivity] |].
    intros Hno. exfalso. apply Hno. do 4 right; left. lia. }
  destruct (Z.ltb_spec (mapped_length dir) ce) as [H5 | H5]; cbn [orb negb fst cached_eof flushed_eof buffer_size].
  { split; [split; intros _; [do 5 right; left; lia | reflexivity] |].
    intros Hno. exfalso. apply Hno. do 5 right; left. lia. }
  rewrite (wrap64_small (ce - cs - 24)) by lia.
  destruct (Z.leb_spec (ce - cs - 24) fnl) as [H6 | H6]; cbn [orb negb fst cached_eof flushed_eof buffer_size].
  { split; [split; intros _; [do 6 right; left; lia | reflexivity] |].
    intros Hno. exfalso. apply Hno. do 6 right; left. lia. }
  rewrite (wrap64_small (ce - cs - 24 - fnl)) by lia.
  destruct (Z.ltb_spec ca fl) as [H7 | H7]; cbn [orb negb fst cached_eof flushed_eof buffer_size].
  { split; [split; intros _; [do 7 right; left; lia | reflexivity] |].
    intros Hno. exfalso. apply Hno. do 7 right; left. lia. }
  rewrite (wrap64_small (ca - fl)) by lia.
  destruct (Z.ltb_spec (ce - cs - 24 - fnl) (ca - fl)) as [H8 | H8]; cbn [orb negb fst cached_eof flushed_eof buffer_size].
  { split; [split; intros _; [do 8 right; lia | reflexivity] |].
    intros Hno. exfalso. apply Hno. do 8 right. lia. }
  split; [split; [discriminate |] | reflexivity].
  intros Hr. exfalso.
  destruct Hr as [?|[?|[?|[?|[?|[?|[?|[?|?]]]]]]]]; lia.
Qed.

(** C6. On a directory that passed the checks of [pmem_append_cache_open],
    [open_cache] on slot [n] returns -1 exactly when one of the listed
    conditions holds (index out of range, start below the directory header
    region, start after end, start not 8-byte aligned, region smaller than a
    slot header, end beyond the mapped length, file name length not strictly
    inside the region, cached_eof below flushed_eof, more unflushed bytes
    than the buffer holds), and returns 0 otherwise. *)
Theorem open_cache_fails_iff_rejected cache dir m n :
  directory_ok dir m -> 0 <= n < 2 ^ 64 ->
  (fst (open_cache cache dir m n) = -1 <-> open_cache_rejects dir m n) /\
  (~ open_cache_rejects dir m n -> fst (open_cache cache dir m n) = 0).
Proof.
  intros Hok Hn. exact (open_cache_decides cache dir m n Hok Hn).
Qed.

(** ** Directory creation: the signature comes last *)

Lemma Zland_le_l a b : 0 <= a -> 0 <= b -> Z.land a b <= a.
Proof.
  intros Ha Hb.
  rewrite <- (Z2N.id a), <- (Z2N.id b) by assumption.
  rewrite <- N2Z.inj_land. apply N2Z.inj_le, N.land_le_l.
Qed.

Lemma create_accepts_bounds size nc :
  0 <= size < 2 ^ 64 -> 0 <= nc < 2 ^ 64 -> create_accepts size nc ->
  directory_header_size nc = sizeof_DIRECTORY_HEADER + 8 * nc /\
  1 <= nc /\ sizeof_DIRECTORY_HEADER + 8 * nc <= size.
Proof.
  intros Hs Hn [H1 H2].
  apply orb_false_iff in H1. destruct H1 as [H1 H0].
  apply Z.ltb_ge in H1, H2. apply Z.eqb_neq in H0.
  unfold create_cache_size, sizeof_CACHE_HEADER in H2.
  pose proof (wrap64_range (sizeof_DIRECTORY_HEADER + wrap64 (8 * nc))) as Rh.
  fold (directory_header_size nc) in Rh.
  set (hs := directory_header_size nc) in *.
  rewrite (wrap64_small (size - hs)) in H2 by lia.
  assert (Hq : 24 <= (size - hs) / nc).
  { etransitivity; [exact H2|]. apply Zland_le_l.
    - apply Z.div_pos; lia.
    - apply wrap64_range. }
  assert (Hm : nc * 24 <= size - hs).
  { etransitivity; [|apply (Z.mul_div_le (size - hs) nc); lia].
    apply Z.mul_le_mono_nonneg_l; lia. }
  assert (Hhs : hs = sizeof_DIRECTORY_HEADER + 8 * nc).
  { subst hs. unfold directory_header_size, sizeof_DIRECTORY_HEADER.
    rewrite (wrap64_small (8 * nc)) by lia.
    apply wrap64_small. lia. }
  unfold sizeof_DIRECTORY_HEADER in *. lia.
Qed.

Lemma load_store_bytes_inside m a bs b n :
  0 <= a -> a + Z.of_nat (length bs) <= Z.of_nat (length m) ->
  a <= b -> b + Z.of_nat n <= a + Z.of_nat (length bs) ->
  load_bytes (store_bytes m a bs) b n = load_bytes bs (b - a) n.
Proof.
  intros Ha Hla Hb Hlb. apply list_eq_nth_error.
  - rewrite !length_load_bytes; auto; try lia.
    rewrite length_store_bytes; auto. lia.
  - intros i Hi.
    rewrite length_load_bytes in Hi
      by (try lia; rewrite length_store_bytes; auto; lia).
    rewrite !nth_error_load_bytes by lia.
    rewrite nth_error_store_bytes_in by (auto; lia).
    f_equal. lia.
Qed.

Lemma load_load_bytes m a k b n :
  0 <= a -> 0 <= b -> (Z.to_nat b + n <= k)%nat ->
  load_bytes (load_bytes m a k) b n = load_bytes m (a + b) n.
Proof.
  intros Ha Hb Hk. unfold load_bytes.
  rewrite skipn_firstn_comm, firstn_firstn, skipn_skipn.
  rewrite Nat.min_l by lia. f_equal. f_equal. lia.
Qed.

Lemma length_zeros n : 0 <= n -> Z.of_nat (length (zeros n)) = n.
Proof. intros H. unfold zeros. rewrite repeat_length. lia. Qed.

Lemma skipn_repeat_eq (A : Type) (a : A) k n :
  skipn k (repeat a n) = repeat a (n - k).
Proof.
  revert n. induction k as [|k IH]; intros [|n]; cbn; auto.
Qed.

Lemma firstn_repeat_eq (A : Type) (a : A) k n :
  firstn k (repeat a n) = repeat a (Nat.min k n).
Proof.
  revert n. induction k as [|k IH]; intros [|n]; cbn; auto.
  now rewrite IH.
Qed.

Lemma load64_zeros n a : load64 (zeros n) a = 0.
Proof.
  unfold load64, load_bytes, zeros.
  rewrite skipn_repeat_eq, firstn_repeat_eq. apply le_combine_0.
Qed.

Lemma keeps_store size a v :
  8 <= a -> a + 8 <= size -> keeps size true true (pm_store64 a v).
Proof.
  intros Ha Hs s (Hv & Hm & Hz & Hf). unfold no_magic_yet, off_magic in *.
  cbn [pm_store64 snd view media].
  rewrite length_store64 by lia.
  rewrite load64_store64_other by lia. auto.
Qed.

Lemma keeps_store_magic size v :
  8 <= size -> keeps size true false (pm_store64 off_magic v).
Proof.
  intros Hs s (Hv & Hm & Hz & Hf). unfold no_magic_yet, off_magic in *.
  cbn [pm_store64 snd view media].
  rewrite length_store64 by lia.
  repeat split; auto. discriminate.
Qed.

Lemma keeps_persist_header size hs :
  8 <= hs <= size -> keeps size true true (pmem_persist 0 hs).
Proof.
  intros Hh s (Hv & Hm & Hz & Hf). unfold no_magic_yet, off_magic in *.
  cbn [pmem_persist snd view media].
  assert (Hl : length (load_bytes (view s) 0 (Z.to_nat hs)) = Z.to_nat hs)
    by (apply length_load_bytes; lia).
  rewrite length_store_bytes by lia.
  repeat split; auto.
  unfold load64. rewrite load_store_bytes_inside by lia.
  rewrite load_load_bytes by lia. apply Hf. reflexivity.
Qed.

Lemma keeps_weaken size c : keeps size true true c -> keeps size false false c
  -> forall b, keeps size b b c.
Proof. intros Ht Hf [|]; assumption. Qed.

Lemma no_magic_yet_weaken size s :
  no_magic_yet size true s -> no_magic_yet size false s.
Proof. intros (Hv & Hm & Hz & _). repeat split; auto. discriminate. Qed.

Lemma offset_steps_keep size cs k : forall i so,
  0 <= i -> sizeof_DIRECTORY_HEADER + 8 * (i + Z.of_nat k) <= size ->
  Forall (keeps size true true) (offset_steps k i so cs).
Proof.
  unfold sizeof_DIRECTORY_HEADER.
  induction k as [|k IH]; intros i so Hi Hs; cbn [offset_steps].
  - constructor.
  - constructor.
    + apply keeps_store; unfold sizeof_DIRECTORY_HEADER; lia.
    + apply IH; lia.
Qed.

Lemma snd_bind_unit (c : M unit) (k : M unit) s :
  snd ((c ;; k) s) = snd (k (snd (c s))).
Proof. unfold bind. destruct (c s). reflexivity. Qed.

Lemma run_steps_keep size steps :
  Forall (keeps size true true) steps ->
  keeps size true true (run_steps steps).
Proof.
  induction 1 as [|c rest Hc _ IH]; intros s Hs; cbn [run_steps].
  - exact Hs.
  - rewrite snd_bind_unit. apply IH, Hc, Hs.
Qed.

Lemma run_steps_app_snd l1 l2 s :
  snd (run_steps (l1 ++ l2) s) = snd (run_steps l2 (snd (run_steps l1 s))).
Proof.
  revert s. induction l1 as [|c l1 IH]; intros s; cbn [run_steps app].
  - reflexivity.
  - rewrite !snd_bind_unit. apply IH.
Qed.

Lemma Forall_firstn_keep (A : Type) (P : A -> Prop) k (l : list A) :
  Forall P l -> Forall P (firstn k l).
Proof.
  intros H. revert k. induction H; intros [|k]; cbn; constructor; auto.
Qed.

Lemma create_steps_split size nc :
  create_steps size nc =
  create_steps_before_magic size nc
  ++ [ pm_store64 off_magic pmem_append_cache_magic;
       pmem_persist off_magic 8 ].
Proof.
  unfold create_steps, create_steps_before_magic.
  now rewrite <- app_assoc.
Qed.

Lemma create_steps_before_magic_keep size nc :
  0 <= size < 2 ^ 64 -> 0 <= nc < 2 ^ 64 -> create_accepts size nc ->
  Forall (keeps size true true) (create_steps_before_magic size nc).
Proof.
  intros Hs Hn Hacc.
  destruct (create_accepts_bounds size nc Hs Hn Hacc) as (Hhs & Hnc & Hfit).
  unfold create_steps_before_magic. apply Forall_app. split.
  - apply offset_steps_keep; [lia|]. rewrite Z2Nat.id by lia. lia.
  - rewrite Hhs. unfold sizeof_DIRECTORY_HEADER, off_n_caches in *.
    apply Forall_cons; [apply keeps_store; lia|].
    apply Forall_cons; [apply keeps_persist_header; lia|].
    apply Forall_nil.
Qed.

Lemma mapped_no_magic_yet size s :
  0 <= size -> hd Succeed (script s) <> Fail ->
  fst (pmem_map_file_create size s) = Some size /\
  no_magic_yet size true (snd (pmem_map_file_create size s)).
Proof.
  intros Hs Hok. unfold pmem_map_file_create, bind, next_outcome.
  assert (Hz : no_magic_yet size true
                 (mkMachine (zeros size) (zeros size) (files s)
                            (tl (script s)) (trace s ++ [EvMap size]))).
  { unfold no_magic_yet. cbn [view media].
    rewrite !length_zeros, !load64_zeros by lia. auto. }
  destruct (script s) as [|[| |n] rest]; cbn [hd tl] in *;
    try congruence; cbn [fst snd script view media files trace];
    split; try reflexivity; exact Hz.
Qed.

(** A file without the signature on the media is refused. *)
Lemma open_rejects_without_magic size dir s :
  no_magic_yet size false s ->
  fst (fst (pmem_append_cache_open dir (crash s))) = -1.
Proof.
  intros (Hv & Hm & Hz & _).
  unfold pmem_append_cache_open, pmem_map_file_existing, bind, next_outcome,
    crash, read_view.
  cbn [script media view files trace].
  assert (Hmagic : (0 =? pmem_append_cache_magic) = false) by reflexivity.
  destruct (script s) as [|[| |n] rest]; cbn [ret fst snd media view];
    try reflexivity; rewrite Hz, Hmagic, orb_true_r; cbn [negb orb];
    unfold pmem_append_cache_close, pmem_unmap, bind, next_outcome, ret;
    cbn [dummy script]; destruct (dummy dir); cbn;
    repeat match goal with
           | |- context [match ?l with [] => _ | _ :: _ => _ end] =>
               destruct l
           end; reflexivity.
Qed.

Lemma create_directory_runs_steps dir size nc s :
  0 <= size -> create_accepts size nc -> hd Succeed (script s) <> Fail ->
  create_directory dir size nc s =
  ((0, mkDirectory size false),
   snd (run_steps (create_steps size nc)
                  (snd (pmem_map_file_create size s)))).
Proof.
  intros Hs [H1 H2] Hok.
  destruct (mapped_no_magic_yet size s Hs Hok) as [Hmap _].
  unfold create_directory. rewrite H1, H2. unfold bind at 1.
  destruct (pmem_map_file_create size s) as [r s1]. cbn [fst snd] in *.
  subst r. unfold bind, ret.
  destruct (run_steps (create_steps size nc) s1). reflexivity.
Qed.

Lemma load64_persisted m v a len b :
  0 <= a -> a + len <= Z.of_nat (length m) -> a + len <= Z.of_nat (length v) ->
  a <= b -> b + 8 <= a + len ->
  load64 (store_bytes m a (load_bytes v a (Z.to_nat len))) b = load64 v b.
Proof.
  intros Ha Hm Hv Hb Hl. unfold load64.
  assert (Hlen : length (load_bytes v a (Z.to_nat len)) = Z.to_nat len)
    by (apply length_load_bytes; lia).
  rewrite load_store_bytes_inside by lia.
  rewrite load_load_bytes by lia. f_equal. f_equal. lia.
Qed.

Lemma load64_store_bytes_other m a bs b :
  0 <= a -> a + Z.of_nat (length bs) <= Z.of_nat (length m) ->
  0 <= b -> b + 8 <= Z.of_nat (length m) ->
  b + 8 <= a \/ a + Z.of_nat (length bs) <= b ->
  load64 (store_bytes m a bs) b = load64 m b.
Proof.
  intros. unfold load64. f_equal. apply load_store_bytes_other; auto; lia.
Qed.

Lemma offset_steps_script cs k : forall i so s,
  script (snd (run_steps (offset_steps k i so cs) s)) = script s.
Proof.
  induction k as [|k IH]; intros i so s; cbn [offset_steps run_steps].
  - reflexivity.
  - rewrite snd_bind_unit, IH. reflexivity.
Qed.

(** Once every step has run, the media hold the signature and the slot
    count. *)
Lemma create_media_complete size nc s0 :
  0 <= size < 2 ^ 64 -> 0 <= nc < 2 ^ 64 -> create_accepts size nc ->
  no_magic_yet size true s0 ->
  let s1 := snd (run_steps (create_steps size nc) s0) in
  Z.of_nat (length (media s1)) = size /\
  load64 (media s1) off_magic = pmem_append_cache_magic /\
  n_caches (media s1) = nc /\
  script s1 = script s0.
Proof.
  intros Hs Hn Hacc H0.
  destruct (create_accepts_bounds size nc Hs Hn Hacc) as (Hhs & Hnc & Hfit).
  unfold create_steps. rewrite run_steps_app_snd.
  pose proof (offset_steps_script (create_cache_size size nc) (Z.to_nat nc)
                0 (directory_header_size nc) s0) as Hscr.
  assert (Ha : no_magic_yet size true
                 (snd (run_steps (offset_steps (Z.to_nat nc) 0
                                    (directory_header_size nc)
                                    (create_cache_size size nc)) s0))).
  { apply run_steps_keep; [|exact H0].
    apply offset_steps_keep; [lia|]. rewrite Z2Nat.id by lia.
    unfold sizeof_DIRECTORY_HEADER in *. lia. }
  set (sa := snd (run_steps (offset_steps _ _ _ _) s0)) in *.
  destruct Ha as (Hv & Hm & _ & _).
  rewrite Hhs. unfold sizeof_DIRECTORY_HEADER, off_n_caches, off_magic in *.
  cbn [run_steps]. rewrite !snd_bind_unit.
  cbn [ret snd pm_store64 pmem_persist view media script].
  set (v1 := store64 (view sa) 8 nc).
  set (v2 := store64 v1 0 pmem_append_cache_magic).
  assert (Lv1 : Z.of_nat (length v1) = size)
    by (subst v1; rewrite length_store64; lia).
  assert (Lv2 : Z.of_nat (length v2) = size)
    by (subst v2; rewrite length_store64; lia).
  set (m1 := store_bytes (media sa) 0 (load_bytes v1 0 (Z.to_nat (16 + 8 * nc)))).
  assert (Ll1 : length (load_bytes v1 0 (Z.to_nat (16 + 8 * nc)))
                = Z.to_nat (16 + 8 * nc))
    by (apply length_load_bytes; lia).
  assert (Lm1 : Z.of_nat (length m1) = size)
    by (subst m1; rewrite length_store_bytes; lia).
  assert (Ll2 : length (load_bytes v2 0 (Z.to_nat 8)) = Z.to_nat 8)
    by (apply length_load_bytes; lia).
  split; [|split; [|split]].
  - rewrite length_store_bytes; lia.
  - rewrite load64_persisted by lia. subst v2.
    rewrite load64_store64_same by lia. reflexivity.
  - unfold n_caches, off_n_caches.
    rewrite load64_store_bytes_other by lia. subst m1.
    rewrite load64_persisted by lia. subst v1.
    rewrite load64_store64_same by lia. apply wrap64_small; lia.
  - exact Hscr.
Qed.

(** Once every step has run, the file is a directory that
    [pmem_append_cache_open] accepts. *)
Lemma create_then_open_accepts dir dir' size nc s :
  0 <= size < 2 ^ 64 -> 0 <= nc < 2 ^ 64 -> create_accepts size nc ->
  script s = [] ->
  fst (fst (pmem_append_cache_open dir'
              (crash (snd (create_directory dir size nc s))))) = 0.
Proof.
  intros Hs Hn Hacc Hscr.
  assert (Hok : hd Succeed (script s) <> Fail) by (rewrite Hscr; discriminate).
  destruct (create_accepts_bounds size nc Hs Hn Hacc) as (Hhs & Hnc & Hfit).
  destruct (mapped_no_magic_yet size s (proj1 Hs) Hok) as [_ H0].
  rewrite create_directory_runs_steps by (auto; lia). cbn [snd].
  destruct (create_media_complete size nc _ Hs Hn Hacc H0)
    as (Hl & Hmg & Hcnt & Hsc).
  assert (Hscr0 : script (snd (pmem_map_file_create size s)) = []).
  { unfold pmem_map_file_create, bind, next_outcome. rewrite Hscr.
    cbn [snd script]. exact Hscr. }
  rewrite Hscr0 in Hsc.
  set (s1 := snd (run_steps _ _)) in *.
  unfold pmem_append_cache_open, pmem_map_file_existing, bind, next_outcome,
    crash, read_view.
  cbn [script media view files trace]. rewrite Hsc.
  cbn [ret fst snd media view]. rewrite Hl, Hmg, Hcnt.
  unfold sizeof_DIRECTORY_HEADER in *.
  rewrite Z.eqb_refl. rewrite wrap64_small by lia.
  assert (Hq : nc <= (size - 16) / 8) by (apply Z.div_le_lower_bound; lia).
  destruct (Z.ltb_spec size 16); [lia|].
  destruct (Z.eqb_spec nc 0); [lia|].
  destruct (Z.ltb_spec ((size - 16) / 8) nc); [lia|].
  reflexivity.
Qed.

(** ** The drain loop, pass by pass *)

Lemma my_pwrite_spec fd src count off s :
  let r := my_pwrite fd src count off s in
  view (snd r) = view s /\ media (snd r) = media s /\
  trace (snd r) = trace s ++ [EvPwrite fd src count off (fst r)] /\
  (0 <= count -> fst r = -1 \/ 0 <= fst r <= count).
Proof.
  unfold my_pwrite, bind, next_outcome.
  destruct (script s) as [|o rest]; cbn [fst snd view media trace files].
  - repeat split. intros Hc.
    destruct (file_of s fd); [right; lia | left; reflexivity].
  - repeat split. intros Hc.
    change (file_of (mkMachine (view s) (media s) (files s) rest (trace s)) fd)
      with (file_of s fd).
    destruct o; destruct (file_of s fd);
      try (left; reflexivity); right; lia.
Qed.

Lemma my_sync_spec fd s :
  let r := my_sync fd s in
  view (snd r) = view s /\ media (snd r) = media s /\
  trace (snd r) = trace s ++ [EvSync fd (fst r)].
Proof.
  unfold my_sync, bind, next_outcome.
  destruct (script s) as [|o rest]; cbn; auto.
Qed.

Lemma flush_write_size_bounds cache fe :
  0 < buffer_size cache < 2 ^ 64 ->
  0 <= fe -> fe < cached_eof cache -> cached_eof cache < 2 ^ 64 ->
  let ws := flush_write_size cache fe (cached_eof cache) in
  0 < ws /\ fe mod buffer_size cache + ws <= buffer_size cache /\
  ws <= cached_eof cache - fe.
Proof.
  intros Hbs Hfe Hlt Hce. unfold flush_write_size.
  set (bs := buffer_size cache) in *. set (ce := cached_eof cache) in *.
  pose proof (Z.div_mod fe bs ltac:(lia)) as Dfe.
  pose proof (Z.div_mod ce bs ltac:(lia)) as Dce.
  pose proof (Z.mod_pos_bound fe bs ltac:(lia)) as Mfe.
  pose proof (Z.mod_pos_bound ce bs ltac:(lia)) as Mce.
  destruct (Z.eqb_spec (ce / bs) (fe / bs)) as [Heq | Hne]; cbv zeta.
  - rewrite wrap64_small by lia. rewrite Heq in Dce. nia.
  - rewrite wrap64_small by lia.
    assert (fe / bs < ce / bs).
    { assert (fe / bs <= ce / bs) by (apply Z.div_le_mono; lia). lia. }
    nia.
Qed.

Lemma flush_cache_loop_S fuel cache fe s :
  flush_cache_loop (S fuel) cache fe s =
  match flush_cache_body cache fe s with
  | (FlushReturn r cache', s') => (Some (r, cache'), s')
  | (FlushAgain fe' cache', s') => flush_cache_loop fuel cache' fe' s'
  end.
Proof.
  cbn [flush_cache_loop]. unfold bind.
  destruct (flush_cache_body cache fe s) as [[r c | fe' c] s']; reflexivity.
Qed.

Lemma flush_cache_body_eq cache fe s :
  fe < cached_eof cache ->
  flush_cache_body cache fe s =
  let fd := file_fd cache in
  let (w, s1) := my_pwrite fd (buffer cache + fe mod buffer_size cache)
                   (flush_write_size cache fe (cached_eof cache)) fe s in
  if w <? 0 then (FlushReturn (-1) cache, s1) else
  let (r, s2) := my_sync fd s1 in
  if negb (r =? 0) then (FlushReturn (-1) cache, s2) else
  let v := wrap64 (fe + w) in
  (FlushAgain v (set_flushed_eof cache v),
   flushed_eof_advanced (header cache + off_flushed_eof) v s2).
Proof.
  intros Hlt. unfold flush_cache_body.
  destruct (Z.ltb_spec fe (cached_eof cache)) as [_ | ?]; [|lia].
  cbv zeta. unfold bind at 1.
  destruct (my_pwrite _ _ _ _ s) as [w s1].
  destruct (w <? 0); [reflexivity|].
  unfold bind at 1. destruct (my_sync _ s1) as [r s2].
  destruct (negb (r =? 0)); reflexivity.
Qed.

(** C4. A pass of the drain loop (entered with the local [flushed_eof]
    below [cached_eof]) issues one positioned write whose source is the
    ring buffer at offset [flushed_eof mod buffer_size], whose file offset
    is [flushed_eof], and whose length is positive and does not reach past
    the end of the ring.  When the write returns a negative value, or the
    sync that follows it fails, [flush_cache] returns -1 at once, the
    descriptor and the mapping being as they were before the pass.
    Otherwise the header's [flushed_eof] is stored and persisted, then the
    run-time copy is set, both to the old value plus the count written, and
    the loop goes on from there. *)
Theorem flush_cache_pass cache fe s fuel :
  0 < buffer_size cache < 2 ^ 64 ->
  0 <= fe -> fe < cached_eof cache -> cached_eof cache < 2 ^ 64 ->
  let fd := file_fd cache in
  let ws := flush_write_size cache fe (cached_eof cache) in
  let src := buffer cache + fe mod buffer_size cache in
  let wr := my_pwrite fd src ws fe s in
  let w := fst wr in
  let sy := my_sync fd (snd wr) in
  let hdr := header cache + off_flushed_eof in
  let done := flush_cache_loop (S fuel) cache fe s in
  (0 < ws /\ fe mod buffer_size cache + ws <= buffer_size cache) /\
  exists rest,
    trace (snd (flush_cache_body cache fe s))
    = trace s ++ EvPwrite fd src ws fe w :: rest /\
    if w <? 0 then
      rest = [] /\ fst done = Some (-1, cache) /\
      view (snd done) = view s /\ media (snd done) = media s
    else if negb (fst sy =? 0) then
      rest = [EvSync fd (fst sy)] /\ fst done = Some (-1, cache) /\
      view (snd done) = view s /\ media (snd done) = media s
    else
      0 <= w <= ws /\
      rest = [ EvSync fd 0; EvStore hdr (fe + w); EvPersist hdr 8;
               EvFlushedEof (fe + w) ] /\
      fst (flush_cache_body cache fe s)
      = FlushAgain (fe + w) (set_flushed_eof cache (fe + w)) /\
      done = flush_cache_loop fuel (set_flushed_eof cache (fe + w)) (fe + w)
               (snd (flush_cache_body cache fe s)).
Proof.
  intros Hbs Hfe Hlt Hce fd ws src wr w sy hdr done.
  destruct (flush_write_size_bounds cache fe Hbs Hfe Hlt Hce)
    as (Hws0 & Hring & Hws).
  fold ws in Hws0, Hring, Hws.
  split; [split; assumption|].
  destruct (my_pwrite_spec fd src ws fe s) as (Hv1 & Hm1 & Ht1 & Hr1).
  fold wr in Hv1, Hm1, Ht1, Hr1. fold w in Ht1, Hr1.
  destruct (my_sync_spec fd (snd wr)) as (Hv2 & Hm2 & Ht2).
  fold sy in Hv2, Hm2, Ht2.
  subst done. rewrite flush_cache_loop_S.
  rewrite (flush_cache_body_eq cache fe s Hlt). cbv zeta.
  fold fd. fold src. fold ws. fold wr.
  destruct wr as [w' s1] eqn:Ewr. cbn [fst snd] in *. subst w.
  destruct (Z.ltb_spec w' 0) as [Hneg | Hpos].
  { exists []. cbn [fst snd]. rewrite Ht1. auto. }
  fold sy. destruct sy as [r s2] eqn:Esy. cbn [fst snd] in *.
  destruct (Z.eqb_spec r 0) as [Hr0 | Hrn]; cbn [negb].
  { assert (Hw : 0 <= w' <= ws) by (destruct Hr1 as [? | ?]; lia).
    rewrite (wrap64_small (fe + w')) by lia.
    subst r. exists [EvSync fd 0; EvStore hdr (fe + w'); EvPersist hdr 8;
                     EvFlushedEof (fe + w')].
    cbn [fst snd flushed_eof_advanced trace].
    rewrite Ht2, Ht1, <- !app_assoc. cbn [app]. auto. }
  exists [EvSync fd r]. cbn [fst snd].
  rewrite Ht2, Ht1, <- app_assoc. cbn [app].
  rewrite Hv2, Hm2. auto.
Qed.

(** ** Startup recovery on a slot that is already drained *)

Lemma flush_slots_S n fuel dir i s :
  flush_slots (S n) fuel dir i s =
  if i <? n_caches (view s) then
    match flush_slot fuel dir i s with
    | (None, s') => (None, s')
    | (Some (SlotReturn r), s') => (Some r, s')
    | (Some SlotContinue, s') => flush_slots n fuel dir (wrap64 (i + 1)) s'
    end
  else (Some 0, s).
Proof.
  cbn [flush_slots]. unfold bind at 1, read_view at 1.
  destruct (i <? n_caches (view s)); [|reflexivity].
  unfold bind at 1.
  destruct (flush_slot fuel dir i s) as [[[r|]|] s']; reflexivity.
Qed.

Lemma open_cache_layout c dir m n cache :
  open_cache c dir m n = (0, cache) ->
  header cache = cache_start m n /\
  file_name cache = cache_start m n + sizeof_CACHE_HEADER /\
  buffer cache
  = file_name cache + hdr_file_name_length m (cache_start m n) /\
  flushed_eof cache = hdr_flushed_eof m (cache_start m n) /\
  cached_eof cache = hdr_cached_eof m (cache_start m n) /\
  reserved_eof cache = hdr_cached_eof m (cache_start m n).
Proof.
  unfold open_cache.
  destruct (n_caches m <=? n); [discriminate|].
  destruct (_ || _ || _ || _ || _); [discriminate|].
  destruct (_ || _ || _); [discriminate|].
  intros H. inversion H.
  cbn [header file_name buffer flushed_eof cached_eof reserved_eof].
  repeat split; reflexivity.
Qed.

Lemma open_cache_status c dir m n :
  fst (open_cache c dir m n) = 0 \/ fst (open_cache c dir m n) = -1.
Proof.
  unfold open_cache.
  destruct (n_caches m <=? n); [right; reflexivity|].
  destruct (_ || _ || _ || _ || _); [right; reflexivity|].
  destruct (_ || _ || _); [right | left]; reflexivity.
Qed.

(** A free slot is passed over. *)
Lemma flush_slot_free fuel dir i s cache :
  open_cache blank_cache dir (view s) i = (0, cache) ->
  hdr_file_name_length (view s) (header cache) = 0 ->
  flush_slot fuel dir i s = (Some SlotContinue, s).
Proof.
  intros Hopen Hfree. unfold flush_slot, bind at 1, read_view at 1.
  rewrite Hopen. cbn [Z.eqb negb]. rewrite Hfree. reflexivity.
Qed.

(** A slot with nothing left to drain is freed, and nothing else is done. *)
Lemma flush_slot_drained fuel dir i s cache :
  open_cache blank_cache dir (view s) i = (0, cache) ->
  hdr_file_name_length (view s) (header cache) <> 0 ->
  hdr_flushed_eof (view s) (header cache)
  = hdr_cached_eof (view s) (header cache) ->
  flush_slot fuel dir i s = (Some SlotContinue, slot_freed (header cache) s).
Proof.
  intros Hopen Hused Heq. unfold flush_slot, bind at 1, read_view at 1.
  rewrite Hopen. cbn [Z.eqb negb].
  destruct (Z.eqb_spec (hdr_file_name_length (view s) (header cache)) 0);
    [contradiction|].
  rewrite Heq, Z.eqb_refl. reflexivity.
Qed.

Lemma open_cache_ok_not_rejected c dir m n :
  directory_ok dir m -> 0 <= n < 2 ^ 64 ->
  fst (open_cache c dir m n) = 0 -> ~ open_cache_rejects dir m n.
Proof.
  intros Hok Hn H0 Hr.
  apply (proj1 (open_cache_decides c dir m n Hok Hn)) in Hr. lia.
Qed.

(** Resetting [file_name_length] of a valid slot leaves the directory, the
    bounds of the slot and its two offsets as they were. *)
Lemma slot_freed_reads dir i m :
  directory_ok dir m -> Z.of_nat (length m) = mapped_length dir ->
  0 <= i < 2 ^ 64 -> ~ open_cache_rejects dir m i ->
  let cs := cache_start m i in
  let m1 := store64 m (cs + off_file_name_length) 0 in
  n_caches m1 = n_caches m /\
  cache_start m1 i = cs /\
  cache_end dir m1 i = cache_end dir m i /\
  hdr_file_name_length m1 cs = 0 /\
  hdr_flushed_eof m1 cs = hdr_flushed_eof m cs /\
  hdr_cached_eof m1 cs = hdr_cached_eof m cs /\
  Z.of_nat (length m1) = mapped_length dir.
Proof.
  intros Hok Hlen Hi Hnr cs m1.
  destruct (directory_header_size_exact dir m Hok) as [_ Hfit].
  destruct Hok as [Hml Hnc].
  pose proof (load64_range m off_n_caches) as Rnc. fold (n_caches m) in Rnc.
  pose proof (load64_range m (sizeof_DIRECTORY_HEADER + 8 * i)) as Rcs.
  fold (start_offsets m i) in Rcs. fold (cache_start m i) in Rcs. fold cs in Rcs.
  unfold open_cache_rejects in Hnr. fold cs in Hnr.
  unfold sizeof_CACHE_HEADER, sizeof_DIRECTORY_HEADER in *.
  assert (Hin : i < n_caches m /\ 16 + 8 * n_caches m <= cs /\
                cs + 24 <= cache_end dir m i /\
                cache_end dir m i <= mapped_length dir) by lia.
  destruct Hin as (Hlt & Hlow & Hreg & Hend).
  assert (Hnc1 : n_caches m1 = n_caches m).
  { unfold n_caches, m1, off_n_caches, off_file_name_length.
    apply load64_store64_other; lia. }
  assert (Hso : forall j, 0 <= j < n_caches m ->
                          start_offsets m1 j = start_offsets m j).
  { intros j Hj. unfold start_offsets, m1, sizeof_DIRECTORY_HEADER,
      off_file_name_length.
    apply load64_store64_other; lia. }
  split; [exact Hnc1|]. split; [apply Hso; lia|].
  split.
  { unfold cache_end. rewrite Hnc1.
    destruct (Z.eqb_spec i (wrap64 (n_caches m - 1))) as [|Hne];
      [reflexivity|].
    apply Hso. rewrite wrap64_small in Hne by lia. lia. }
  unfold hdr_file_name_length, hdr_flushed_eof, hdr_cached_eof, m1,
    off_file_name_length, off_flushed_eof, off_cached_eof.
  split; [rewrite load64_store64_same by lia; reflexivity|].
  split; [apply load64_store64_other; lia|].
  split; [apply load64_store64_other; lia|].
  rewrite length_store64; lia.
Qed.

Lemma slot_freed_still_valid dir i s cache :
  directory_ok dir (view s) ->
  Z.of_nat (length (view s)) = mapped_length dir ->
  0 <= i < 2 ^ 64 ->
  open_cache blank_cache dir (view s) i = (0, cache) ->
  hdr_file_name_length (view s) (header cache) <> 0 ->
  let s1 := slot_freed (header cache) s in
  exists cache',
    open_cache blank_cache dir (view s1) i = (0, cache') /\
    header cache' = header cache /\
    hdr_file_name_length (view s1) (header cache) = 0 /\
    n_caches (view s1) = n_caches (view s).
Proof.
  intros Hok Hlen Hi Hopen Hused s1.
  destruct (open_cache_layout _ _ _ _ _ Hopen) as (Hh & _).
  assert (Hnr : ~ open_cache_rejects dir (view s) i).
  { apply (open_cache_ok_not_rejected blank_cache); auto.
    now rewrite Hopen. }
  destruct (slot_freed_reads dir i (view s) Hok Hlen Hi Hnr)
    as (Hnc & Hcs & Hce & Hfnl & Hfl & Hca & Hlen1).
  rewrite <- Hh in Hnc, Hcs, Hce, Hfnl, Hfl, Hca, Hlen1.
  change (store64 (view s) (header cache + off_file_name_length) 0)
    with (view s1) in Hnc, Hcs, Hce, Hfnl, Hfl, Hca, Hlen1.
  assert (Hok1 : directory_ok dir (view s1)).
  { destruct Hok as [? ?]. split; [assumption|]. now rewrite Hnc. }
  assert (Hnr1 : ~ open_cache_rejects dir (view s1) i).
  { pose proof (load64_range (view s)
                  (header cache + off_file_name_length)) as Rf.
    fold (hdr_file_name_length (view s) (header cache)) in Rf.
    unfold open_cache_rejects in *.
    rewrite Hcs, Hce, Hnc, Hfnl, Hfl, Hca. rewrite <- Hh in Hnr. lia. }
  pose proof (proj2 (open_cache_decides blank_cache dir (view s1) i Hok1 Hi)
                Hnr1) as H0.
  destruct (open_cache blank_cache dir (view s1) i) as [r cache'] eqn:E.
  cbn [fst] in H0. subst r. exists cache'.
  destruct (open_cache_layout _ _ _ _ _ E) as (Hh' & _).
  repeat split; auto. congruence.
Qed.

Lemma flush_slots_past_the_end n fuel dir i s :
  n_caches (view s) <= i -> flush_slots n fuel dir i s = (Some 0, s).
Proof.
  intros Hi. destruct n; cbn [flush_slots]; unfold bind, read_view;
    destruct (Z.ltb_spec i (n_caches (view s))); try lia; reflexivity.
Qed.

(** ** Startup recovery on a slot with bytes to drain *)

Lemma my_open_view name s : view (snd (my_open name s)) = view s.
Proof.
  unfold my_open, bind, next_outcome. destruct (script s); reflexivity.
Qed.

Lemma my_fstat_view fd s : view (snd (my_fstat fd s)) = view s.
Proof.
  unfold my_fstat, bind, next_outcome. destruct (script s); reflexivity.
Qed.

Lemma my_close_view fd s : view (snd (my_close fd s)) = view s.
Proof.
  unfold my_close, bind, next_outcome. destruct (script s); reflexivity.
Qed.

(** The byte that [pmem_append_cache_flush] tests before it opens the
    backing file is the first byte of the ring buffer, whatever the last
    byte of the stored name is; when it is not null the slot is refused,
    and nothing has been done. *)
Lemma flush_slot_tests_first_ring_byte fuel dir i s cache :
  open_cache blank_cache dir (view s) i = (0, cache) ->
  hdr_file_name_length (view s) (header cache) <> 0 ->
  hdr_flushed_eof (view s) (header cache)
  <> hdr_cached_eof (view s) (header cache) ->
  file_name cache + hdr_file_name_length (view s) (header cache)
  = buffer cache /\
  (load8 (view s) (buffer cache) <> 0 ->
   flush_slot fuel dir i s = (Some (SlotReturn (-1)), s)).
Proof.
  intros Hopen Hused Hdirty.
  destruct (open_cache_layout _ _ _ _ _ Hopen) as (Hh & _ & Hb & _).
  rewrite <- Hh in Hb. split; [now rewrite Hb|].
  intros Hbyte. unfold flush_slot, bind at 1, read_view at 1.
  rewrite Hopen. cbn [Z.eqb negb].
  destruct (Z.eqb_spec (hdr_file_name_length (view s) (header cache)) 0);
    [contradiction|].
  destruct (Z.eqb_spec (hdr_flushed_eof (view s) (header cache))
                       (hdr_cached_eof (view s) (header cache)));
    [contradiction|].
  rewrite <- Hb.
  destruct (Z.eqb_spec (load8 (view s) (buffer cache)) 0); [contradiction|].
  reflexivity.
Qed.

(** The drain loop writes nothing in the mapping but the header's
    [flushed_eof]. *)
Lemma flush_cache_loop_view fuel : forall cache fe s a,
  0 <= header cache ->
  header cache + off_flushed_eof + 8 <= Z.of_nat (length (view s)) ->
  0 <= a -> a + 8 <= Z.of_nat (length (view s)) ->
  a + 8 <= header cache + off_flushed_eof
  \/ header cache + off_flushed_eof + 8 <= a ->
  load64 (view (snd (flush_cache_loop fuel cache fe s))) a
  = load64 (view s) a.
Proof.
  unfold off_flushed_eof.
  induction fuel as [|fuel IH]; intros cache fe s a Hh Hlen Ha Hal Hd;
    [reflexivity|].
  rewrite flush_cache_loop_S.
  destruct (Z.ltb_spec fe (cached_eof cache)) as [Hlt | Hge].
  2:{ unfold flush_cache_body.
      destruct (Z.ltb_spec fe (cached_eof cache)); [lia | reflexivity]. }
  rewrite (flush_cache_body_eq cache fe s Hlt). cbv zeta.
  pose proof (my_pwrite_spec (file_fd cache)
                (buffer cache + fe mod buffer_size cache)
                (flush_write_size cache fe (cached_eof cache)) fe s)
    as (Hv1 & _).
  destruct (my_pwrite _ _ _ _ s) as [w s1]. cbn [snd] in Hv1.
  destruct (w <? 0); [cbn [snd]; now rewrite Hv1|].
  pose proof (my_sync_spec (file_fd cache) s1) as (Hv2 & _).
  destruct (my_sync _ s1) as [r s2]. cbn [snd] in Hv2.
  destruct (negb (r =? 0)); [cbn [snd]; now rewrite Hv2, Hv1|].
  unfold off_flushed_eof.
  assert (Hl2 : length (view s2) = length (view s)) by (now rewrite Hv2, Hv1).
  rewrite IH; cbn [header set_flushed_eof flushed_eof_advanced view];
    rewrite ?length_store64 by lia; try lia.
  rewrite load64_store64_other by lia. now rewrite Hv2, Hv1.
Qed.

(** A pass leaves claimed every slot it finds with bytes to drain, also
    when it drains them all: the only reset of [file_name_length] is on the
    branch taken when nothing is left to drain. *)
Lemma flush_slot_keeps_dirty_slot_claimed fuel dir i s cache :
  directory_ok dir (view s) ->
  Z.of_nat (length (view s)) = mapped_length dir ->
  0 <= i < 2 ^ 64 ->
  open_cache blank_cache dir (view s) i = (0, cache) ->
  hdr_flushed_eof (view s) (header cache)
  <> hdr_cached_eof (view s) (header cache) ->
  hdr_file_name_length (view (snd (flush_slot fuel dir i s))) (header cache)
  = hdr_file_name_length (view s) (header cache).
Proof.
  intros Hok Hlen Hi Hopen Hdirty.
  assert (Hnr : ~ open_cache_rejects dir (view s) i).
  { apply (open_cache_ok_not_rejected blank_cache); auto.
    now rewrite Hopen. }
  destruct (open_cache_layout _ _ _ _ _ Hopen) as (Hh & _).
  assert (Hin : 0 <= header cache /\
                header cache + 24 <= Z.of_nat (length (view s))).
  { pose proof (load64_range (view s) (sizeof_DIRECTORY_HEADER + 8 * i)) as R.
    fold (start_offsets (view s) i) in R. fold (cache_start (view s) i) in R.
    unfold open_cache_rejects, sizeof_CACHE_HEADER in Hnr.
    rewrite Hh, Hlen. lia. }
  destruct Hin as (Hh0 & Hh24).
  unfold flush_slot, bind at 1, read_view at 1.
  rewrite Hopen. cbn [Z.eqb negb].
  destruct (hdr_file_name_length (view s) (header cache) =? 0);
    [reflexivity|].
  destruct (Z.eqb_spec (hdr_flushed_eof (view s) (header cache))
                       (hdr_cached_eof (view s) (header cache)));
    [contradiction|].
  destruct (negb (load8 _ _ =? 0)); [reflexivity|].
  unfold bind at 1.
  pose proof (my_open_view (cstring (view s) (file_name cache)) s) as Hv1.
  destruct (my_open _ s) as [fd s1]. cbn [snd] in Hv1.
  destruct (fd <? 0); [cbn [ret snd]; now rewrite Hv1|].
  unfold bind at 1.
  pose proof (my_fstat_view fd s1) as Hv2.
  destruct (my_fstat fd s1) as [sb s2]. cbn [snd] in Hv2.
  assert (Hdrain : forall res s3,
    (if fst sb =? 0
     then if snd sb <? hdr_flushed_eof (view s) (header (set_file_fd cache fd))
          then ret (Some (-1))
          else r <- flush_cache fuel (set_file_fd cache fd) ;;
               ret (option_map fst r)
     else ret (Some (fst sb))) s2 = (res, s3) ->
    hdr_file_name_length (view s3) (header cache)
    = hdr_file_name_length (view s) (header cache)).
  { intros res s3. destruct (fst sb =? 0).
    2:{ intros H; inversion H; subst. now rewrite Hv2, Hv1. }
    destruct (snd sb <? _).
    { intros H; inversion H; subst. now rewrite Hv2, Hv1. }
    unfold bind, flush_cache.
    pose proof (flush_cache_loop_view fuel (set_file_fd cache fd)
                  (flushed_eof (set_file_fd cache fd)) s2
                  (header cache + off_file_name_length)) as Hloop.
    destruct (flush_cache_loop _ _ _ s2) as [r s4]. cbn [snd] in Hloop.
    intros H; inversion H; subst.
    unfold hdr_file_name_length.
    rewrite Hloop; cbn [header set_file_fd];
      unfold off_flushed_eof, off_file_name_length;
      rewrite ?Hv2, ?Hv1; try lia; reflexivity. }
  unfold bind at 1.
  match goal with
  | |- context [let (_, _) := ?c in _] =>
      pose proof (Hdrain (fst c) (snd c) (surjective_pairing c)) as Eres;
      destruct c as [res s3]
  end.
  cbn [fst snd] in Eres.
  destruct res as [res|]; [|exact Eres].
  unfold bind at 1.
  pose proof (my_close_view fd s3) as Hv4.
  destruct (my_close fd s3) as [c s4]. cbn [snd] in Hv4.
  destruct (negb (c =? 0)); [cbn [ret snd]; now rewrite Hv4|].
  destruct (negb (res =? 0)); cbn [ret snd]; now rewrite Hv4.
Qed.

(** ** Reservation and the empty write *)

Lemma cache_write_step_entry MY_NABP MY_FNABP w cache s :
  pc w = AtEntry -> length_arg w <> 0 ->
  cache_write_step MY_NABP MY_FNABP w cache s =
  (mkWriter AtBackpressure (data w) (length_arg w) (flags w)
            (reserved_eof cache) (reserved_eof cache) (length_arg w) (avail w),
   set_reserved_eof cache (wrap64 (reserved_eof cache + length_arg w)),
   mkMachine (view s) (media s) (files s) (script s)
             (trace s ++ [EvReservedEof
                            (wrap64 (reserved_eof cache + length_arg w))])).
Proof.
  intros Hpc Hlen. unfold cache_write_step. rewrite Hpc.
  destruct (Z.eqb_spec (length_arg w) 0); [contradiction|]. reflexivity.
Qed.

(** C1. Step 1 of [cache_write], for a non-zero [length] and a counter that
    the addition does not take past 2^64: the call gets as [start] the
    value [reserved_eof] held and leaves [reserved_eof] at that value plus
    [length]; it will copy from [start], [length] bytes; nothing else in
    the descriptor or the mapping changes; and the reservation that comes
    next, whoever makes it, starts at [start + length], so the range
    [start, start + length) belongs to this call alone. *)
Theorem cache_write_reserves MY_NABP MY_FNABP w cache s :
  pc w = AtEntry -> 0 < length_arg w ->
  0 <= reserved_eof cache -> reserved_eof cache + length_arg w < 2 ^ 64 ->
  let r := cache_write_step MY_NABP MY_FNABP w cache s in
  let w' := fst (fst r) in
  let cache' := snd (fst r) in
  start w' = reserved_eof cache /\
  reserved_eof cache' = reserved_eof cache + length_arg w /\
  write_pos w' = start w' /\ left w' = length_arg w /\
  pc w' = AtBackpressure /\
  flushed_eof cache' = flushed_eof cache /\
  cached_eof cache' = cached_eof cache /\
  view (snd r) = view s /\ media (snd r) = media s /\
  forall w2 s2, pc w2 = AtEntry -> length_arg w2 <> 0 ->
    start (fst (fst (cache_write_step MY_NABP MY_FNABP w2 cache' s2)))
    = start w' + length_arg w.
Proof.
  intros Hpc Hlen H0 Hsum r w' cache'.
  assert (Hr : r = cache_write_step MY_NABP MY_FNABP w cache s) by reflexivity.
  rewrite cache_write_step_entry in Hr by (auto; lia).
  subst w' cache'. rewrite Hr. cbn [fst snd start write_pos left pc view media].
  unfold set_reserved_eof. cbn [reserved_eof flushed_eof cached_eof].
  rewrite wrap64_small by lia.
  repeat (split; [reflexivity|]).
  intros w2 s2 Hpc2 Hlen2.
  rewrite cache_write_step_entry by auto. reflexivity.
Qed.

(** C10. [cache_write] with [length] 0, whatever the flags: the call
    returns 0 at its first action, and the descriptor (with its three
    offsets), the mapping (slot header and ring buffer), the media, the
    backing files and the trace are what they were. *)
Theorem cache_write_empty MY_NABP MY_FNABP bytes fl cache s fuel :
  let w := cache_write_call bytes 0 fl in
  cache_write_step MY_NABP MY_FNABP w cache s
  = (mkWriter (Returned 0) bytes 0 fl 0 0 0 0, cache, s) /\
  cache_write MY_NABP MY_FNABP (S fuel) w cache s = (Some (0, cache), s).
Proof.
  intros w.
  assert (Hstep : cache_write_step MY_NABP MY_FNABP w cache s
                  = (mkWriter (Returned 0) bytes 0 fl 0 0 0 0, cache, s)).
  { unfold cache_write_step, w, cache_write_call, cache_write_result.
    cbn [pc length_arg flags data start write_pos left avail Z.eqb negb].
    destruct (negb _); reflexivity. }
  split; [exact Hstep|].
  cbn [cache_write]. change (pc w) with AtEntry. cbv iota.
  unfold bind at 1. rewrite Hstep. cbn [fst snd].
  destruct fuel; reflexivity.
Qed.

(** ** What holds whichever way the details are read *)

(** A fetch-and-add confined to the low 32 bits agrees with the one on the
    whole counter as long as the sum stays below 2^31, and no longer does
    once the low half overflows. *)
Lemma fetch_add_low32_agrees held add :
  0 <= held -> 0 <= add -> held + add < 2 ^ 31 ->
  fetch_add_low32 held add = my_atomic_add32_explicit held add.
Proof.
  intros Hh Ha Hs. unfold fetch_add_low32, my_atomic_add32_explicit.
  rewrite (Z.mod_small held) by lia.
  destruct (Z.ltb_spec held (2 ^ 31)); [|lia].
  rewrite !wrap64_small by lia.
  rewrite Z.mod_small by lia. f_equal. lia.
Qed.

Lemma fetch_add_low32_carry :
  fetch_add_low32 (2 ^ 32 - 1) 1 = (2 ^ 64 - 1, 0) /\
  my_atomic_add32_explicit (2 ^ 32 - 1) 1 = (2 ^ 32 - 1, 2 ^ 32).
Proof. split; reflexivity. Qed.

(** Until the signature is stored the file is refused even so: the order
    of the stores alone keeps a half-written directory from being taken
    for a valid one. *)
Lemma create_prefix_refused_even_if_settled dir size nc s k :
  0 <= size < 2 ^ 64 -> 0 <= nc < 2 ^ 64 -> create_accepts size nc ->
  hd Succeed (script s) <> Fail ->
  (k <= length (create_steps_before_magic size nc))%nat ->
  fst (fst (pmem_append_cache_open dir
              (crash (settled
                 (snd (run_steps (firstn k (create_steps size nc))
                         (snd (pmem_map_file_create size s)))))))) = -1.
Proof.
  intros Hs Hn Hacc Hok Hk.
  destruct (mapped_no_magic_yet size s (proj1 Hs) Hok) as [_ H0].
  pose proof (create_steps_before_magic_keep size nc Hs Hn Hacc) as Hpre.
  rewrite create_steps_split, firstn_app.
  replace (k - length (create_steps_before_magic size nc))%nat with 0%nat
    by lia.
  cbn [firstn]. rewrite app_nil_r.
  apply open_rejects_without_magic with (size := size).
  assert (Hinv : no_magic_yet size true
            (snd (run_steps (firstn k (create_steps_before_magic size nc))
                    (snd (pmem_map_file_create size s))))).
  { apply run_steps_keep; [|exact H0]. apply Forall_firstn_keep, Hpre. }
  destruct Hinv as (Hv & Hm & Hz & Hf).
  unfold no_magic_yet, settled. cbn [view media].
  split; [exact Hv|]. split; [exact Hv|]. split; [|discriminate].
  apply Hf. reflexivity.
Qed.

(** A directory that [pmem_append_cache_open] accepts is one on which
    [open_cache] decides as section 4.2 says. *)
Lemma open_establishes_directory_ok dir s d s' :
  Z.of_nat (length (media s)) < 2 ^ 64 ->
  pmem_append_cache_open dir s = ((0, d), s') ->
  directory_ok d (view s') /\
  Z.of_nat (length (view s')) = mapped_length d /\
  load64 (view s') off_magic = pmem_append_cache_magic.
Proof.
  intros Hlen. unfold pmem_append_cache_open, pmem_map_file_existing.
  unfold bind, read_view, ret.
  destruct (next_outcome s) as [o s0] eqn:Eo.
  assert (Hm0 : media s0 = media s).
  { unfold next_outcome in Eo. destruct (script s);
      inversion Eo; reflexivity. }
  set (len := Z.of_nat (length (media s))) in *.
  destruct o; try discriminate; rewrite Hm0; cbn [view]; fold len;
    (destruct (Z.ltb_spec len sizeof_DIRECTORY_HEADER) as [|Hl]; cbn [orb];
     [cbv beta; destruct (pmem_append_cache_close _ _); discriminate|]);
    (destruct (Z.eqb_spec (load64 (media s) off_magic)
                          pmem_append_cache_magic) as [Hmg|]; cbn [negb orb];
     [|cbv beta; destruct (pmem_append_cache_close _ _); discriminate]);
    (destruct (Z.eqb_spec (n_caches (media s)) 0) as [|Hnz]; cbn [orb];
     [cbv beta; destruct (pmem_append_cache_close _ _); discriminate|]);
    (destruct (Z.ltb_spec (wrap64 (len - sizeof_DIRECTORY_HEADER) / 8)
                          (n_caches (media s))) as [|Hfit];
     [cbv beta; destruct (pmem_append_cache_close _ _); discriminate|]);
    intros H; inversion H; subst d s';
    unfold directory_ok; cbn [mapped_length view];
    unfold sizeof_DIRECTORY_HEADER in *;
    rewrite wrap64_small in Hfit by lia; fold len;
    repeat split; auto; lia.
Qed.

(** ** Runs of the code *)

Module Runs.

Import Scenario.

(** The scenario of section 8: the empty file "f" attached, ten bytes
    written and committed, nothing drained. *)
Lemma ten_bytes_cached :
  fst (written digits [(f_name, [])])
  = Some (10, mkCache 32 56 58 4070 0 0 0 10 10 Cached) /\
  let m := media (snd (written digits [(f_name, [])])) in
  hdr_file_name_length m 32 = 2 /\ hdr_flushed_eof m 32 = 0 /\
  hdr_cached_eof m 32 = 10 /\ load_bytes m 58 10 = digits /\
  cstring m 56 = f_name.
Proof. vm_compute. repeat split; reflexivity. Qed.

(** C3 on the code: with the ten bytes "0123456789" in the ring, the pass
    returns -1 at the test of the byte that follows the file name, which is
    the first byte of the ring: nothing is appended and the slot stays
    claimed.  With a null first byte the ten bytes are appended and
    [flushed_eof] reaches 10, yet [file_name_length] is still 2 when the
    pass returns; only a second pass frees the slot. *)
Theorem recovery_of_ten_bytes :
  outcome_of (recovered (snd (written digits [(f_name, [])])))
  = (Some (-1), [(f_name, [])], (2, 0, 10)) /\
  outcome_of (recovered (snd (written zero_first [(f_name, [])])))
  = (Some 0, [(f_name, zero_first)], (2, 10, 10)) /\
  outcome_of (recovered_again (snd (written zero_first [(f_name, [])])))
  = (Some 0, [(f_name, zero_first)], (0, 10, 10)).
Proof. vm_compute. repeat split; reflexivity. Qed.

(** C8 on the code: the terminating null of the stored name "f" (declared
    length 2) is overwritten, so that the name is not terminated within its
    declared length; the first ring byte is null.  The pass does not fail:
    it opens the file called "fg" and drains the ring into it. *)
Theorem unterminated_name_is_drained :
  let s := damaged (snd (written zero_first [(f_name, [])])) 57 Byte.x67
                   (fg_name, []) in
  load_bytes (media s) 56 2 = fg_name /\
  hdr_file_name_length (media s) 32 = 2 /\
  outcome_of (recovered s)
  = (Some 0, [(f_name, []); (fg_name, zero_first)], (2, 10, 10)).
Proof. vm_compute. repeat split; reflexivity. Qed.

(** The part of C8 that the code does: a backing file shorter than
    [flushed_eof] makes the pass fail with nothing written, where the file
    left as it was gets the five bytes. *)
Lemma truncated_file_is_refused :
  outcome_of (recovered five_more)
  = (Some 0, [(f_name, repeat Byte.x2e 5 ++ firstn 5 digits)], (2, 10, 10)) /\
  outcome_of (recovered five_more_cut)
  = (Some (-1), [(f_name, repeat Byte.x2e 3)], (2, 5, 10)).
Proof. vm_compute. repeat split; reflexivity. Qed.

(** C2 on the code: a state reached by [cache_write] and [flush_cache] in
    which [cached_eof - flushed_eof] is 4071 on a ring of 4070 bytes. *)
Theorem ring_bound_broken :
  ring_invariant (shared two_writers) /\
  exists sys,
    run 4 2 late_writer_first two_writers = Some sys /\
    map pc (calls sys) = [Returned 4071; Returned 1] /\
    buffer_size (shared sys) = 4070 /\
    flushed_eof (shared sys) = 4070 /\ cached_eof (shared sys) = 8141 /\
    reserved_eof (shared sys) = 8141 /\
    ~ ring_invariant (shared sys).
Proof.
  split.
  - vm_compute. repeat split; discriminate.
  - eexists. split; [vm_compute; reflexivity|].
    cbn [shared calls map pc buffer_size flushed_eof cached_eof reserved_eof].
    repeat (split; [reflexivity|]).
    unfold ring_invariant. cbn [buffer_size flushed_eof cached_eof]. lia.
Qed.

(** In that run both calls return the length they were given, and once the
    flusher has drained everything the byte of the second call is not in
    the file: offset 8140 holds a byte of the first call. *)
Lemma late_writer_byte_lost :
  option_map (fun sys => (flushed_eof (shared sys), files (mach sys)))
             (run 4 2 (late_writer_first ++ [Flusher; Flusher; Flusher])
                  two_writers)
  = Some (8141, [(f_name, repeat Byte.x2e 4069 ++ repeat Byte.x41 4072)]).
Proof. vm_compute. reflexivity. Qed.

(** C5 as stated fails for a stop between the store of the signature and
    its persist (five of the six steps made): the store may have reached
    the file although it was not persisted, and that file, which is the
    complete directory, is accepted by [pmem_append_cache_open]; the file
    with the persisted bytes alone is refused. *)
Lemma create_magic_stored_accepted :
  let stopped := Restart.magic_stored in
  (5 < length (create_steps 8224 2))%nat /\
  may_be_found stopped (view stopped) /\
  load64 (media stopped) off_magic = 0 /\
  load64 (view stopped) off_magic = pmem_append_cache_magic /\
  fst (fst (pmem_append_cache_open no_directory
              (found stopped (view stopped)))) = 0 /\
  fst (fst (pmem_append_cache_open no_directory
              (found stopped (media stopped)))) = -1.
Proof.
  cbv zeta.
  split; [vm_compute; lia|].
  split; [split; [vm_compute; reflexivity | intros i; right; reflexivity]|].
  vm_compute. repeat split; reflexivity.
Qed.


(** The second branch of C7 in a run: the call of [Trial.one_writer]
    reserves and copies, the flusher makes its last drain and finds
    nothing committed, the call commits its ten bytes; what detach does
    after the join then returns -1 and leaves [file_name_length] 2. *)
Lemma detach_after_late_commit :
  exists sys,
    run 4 2 Restart.commit_after_drain Trial.one_writer = Some sys /\
    flushed_eof (shared sys) = 0 /\ cached_eof (shared sys) = 10 /\
    pmem_append_cache_detach_joined (shared sys) (mach sys)
    = (-1, mach sys) /\
    hdr_file_name_length (view (mach sys)) 32 = 2 /\
    hdr_file_name_length (media (mach sys)) 32 = 2.
Proof.
  eexists. split; [vm_compute; reflexivity|].
  vm_compute. repeat split; reflexivity.
Qed.

End Runs.

Lemma land_clear_low3 x :
  0 <= x < 2 ^ 64 -> Z.land x (wrap64 (Z.lnot 7)) = x - x mod 8.
Proof.
  intros Hx.
  change (wrap64 (Z.lnot 7)) with (2 ^ 64 - 8).
  assert (Hsplit : x = Z.land x (2 ^ 64 - 8) + Z.land x 7).
  { rewrite Z.add_nocarry_lxor.
    - rewrite Z.lxor_lor.
      + rewrite <- Z.land_lor_distr_r.
        change (Z.lor (2 ^ 64 - 8) 7) with (Z.ones 64).
        rewrite Z.land_ones by lia. symmetry. apply Z.mod_small. lia.
      + rewrite Z.land_assoc, (Z.land_comm (Z.land x (2 ^ 64 - 8)) x),
          Z.land_assoc, Z.land_diag, <- Z.land_assoc.
        change (Z.land (2 ^ 64 - 8) 7) with 0. apply Z.land_0_r.
    - rewrite Z.land_assoc, (Z.land_comm (Z.land x (2 ^ 64 - 8)) x),
        Z.land_assoc, Z.land_diag, <- Z.land_assoc.
      change (Z.land (2 ^ 64 - 8) 7) with 0. apply Z.land_0_r. }
  rewrite land7_mod8 in Hsplit. lia.
Qed.

Lemma create_cache_size_exact size nc :
  0 <= size < 2 ^ 64 -> 1 <= nc ->
  sizeof_DIRECTORY_HEADER + 8 * nc <= size ->
  directory_header_size nc = sizeof_DIRECTORY_HEADER + 8 * nc /\
  create_cache_size size nc
  = 8 * ((size - (sizeof_DIRECTORY_HEADER + 8 * nc)) / nc / 8).
Proof.
  intros Hs Hn Hfit. unfold sizeof_DIRECTORY_HEADER in *.
  assert (Hhs : directory_header_size nc = 16 + 8 * nc).
  { unfold directory_header_size, sizeof_DIRECTORY_HEADER.
    rewrite (wrap64_small (8 * nc)) by lia. apply wrap64_small. lia. }
  split; [exact Hhs|].
  unfold create_cache_size. rewrite Hhs.
  rewrite (wrap64_small (size - _)) by lia.
  set (q := (size - (16 + 8 * nc)) / nc).
  assert (Hq : 0 <= q < 2 ^ 64).
  { subst q. split; [apply Z.div_pos; lia|].
    apply Z.div_lt_upper_bound; nia. }
  rewrite land_clear_low3 by exact Hq.
  pose proof (Z.div_mod q 8). lia.
Qed.

Lemma create_accepts_iff size nc :
  0 <= size < 2 ^ 64 -> 0 <= nc < 2 ^ 64 ->
  create_accepts size nc <-> 1 <= nc /\ 16 + 32 * nc <= size.
Proof.
  intros Hs Hn. split.
  - intros Hacc.
    destruct (create_accepts_bounds size nc Hs Hn Hacc) as (Hhs & H1 & Hfit).
    destruct (create_cache_size_exact size nc Hs H1 Hfit) as [_ Hcs].
    destruct Hacc as [_ H2]. apply Z.ltb_ge in H2.
    rewrite Hcs in H2. unfold sizeof_CACHE_HEADER, sizeof_DIRECTORY_HEADER in *.
    split; [exact H1|].
    set (q := (size - (16 + 8 * nc)) / nc) in *.
    assert (Hq : 24 <= q).
    { pose proof (Z.div_mod q 8). pose proof (Z.mod_pos_bound q 8). lia. }
    assert (nc * q <= size - (16 + 8 * nc)).
    { subst q. apply Z.mul_div_le. lia. }
    nia.
  - intros [H1 Hfit].
    assert (Hfit' : sizeof_DIRECTORY_HEADER + 8 * nc <= size)
      by (unfold sizeof_DIRECTORY_HEADER; lia).
    destruct (create_cache_size_exact size nc Hs H1 Hfit') as [Hhs Hcs].
    unfold create_accepts. rewrite Hhs, Hcs.
    unfold sizeof_CACHE_HEADER, sizeof_DIRECTORY_HEADER in *.
    split.
    + apply orb_false_iff. split; [apply Z.ltb_ge | apply Z.eqb_neq]; lia.
    + apply Z.ltb_ge.
      set (q := (size - (16 + 8 * nc)) / nc).
      assert (Hq : 24 <= q).
      { subst q. apply Z.div_le_lower_bound; lia. }
      assert (3 <= q / 8) by (apply Z.div_le_lower_bound; lia).
      lia.
Qed.

Lemma create_directory_status dir size nc s :
  0 <= size < 2 ^ 64 -> 0 <= nc < 2 ^ 64 ->
  let r := create_directory dir size nc s in
  (fst (fst r) = 0
   <-> 1 <= nc /\ 16 + 32 * nc <= size /\ hd Succeed (script s) <> Fail) /\
  (fst (fst r) <> 0 ->
   fst r = (-1, dir) /\ view (snd r) = view s /\ media (snd r) = media s /\
   files (snd r) = files s /\ trace (snd r) = trace s) /\
  (~ (1 <= nc /\ 16 + 32 * nc <= size) -> r = ((-1, dir), s)).
Proof.
  intros Hs Hn r.
  pose proof (create_accepts_iff size nc Hs Hn) as Hiff.
  assert (Hdec : create_accepts size nc \/ ~ create_accepts size nc).
  { unfold create_accepts.
    destruct ((size <? directory_header_size nc) || (nc =? 0));
      destruct (create_cache_size size nc <? sizeof_CACHE_HEADER);
      intuition congruence. }
  destruct Hdec as [Hacc | Hrej].
  - destruct (script s) as [|o rest] eqn:Hscr.
    + assert (Hok : hd Succeed (script s) <> Fail)
        by (rewrite Hscr; discriminate).
      subst r. rewrite create_directory_runs_steps by (auto; lia).
      cbn [fst snd hd]. rewrite Hscr in Hok.
      split; [|split]; [tauto | intros H; now elim H | tauto].
    + destruct o.
      1,3: assert (Hok : hd Succeed (script s) <> Fail)
             by (rewrite Hscr; discriminate);
           subst r; rewrite create_directory_runs_steps by (auto; lia);
           rewrite Hscr in Hok; cbn [fst snd hd];
           (split; [|split]; [tauto | intros H; now elim H | tauto]).
      subst r. destruct Hacc as [H1 H2] eqn:E. clear E.
      unfold create_directory. rewrite H1, H2.
      unfold pmem_map_file_create, bind, next_outcome. rewrite Hscr.
      cbn [ret fst snd hd view media files trace].
      split; [|split].
      * split; [discriminate | intros (_ & _ & Hf); now elim Hf].
      * intros _. repeat split; reflexivity.
      * intros Hno. exfalso. apply Hno. apply Hiff. now split.
  - assert (Hr : r = ((-1, dir), s)).
    { subst r. unfold create_directory, create_accepts in *.
      destruct ((size <? directory_header_size nc) || (nc =? 0));
        [reflexivity|].
      destruct (create_cache_size size nc <? sizeof_CACHE_HEADER);
        [reflexivity|]. exfalso. apply Hrej. split; reflexivity. }
    rewrite Hr. cbn [fst snd].
    split; [|split].
    + split; [discriminate|]. intros (H1 & H2 & _). exfalso.
      apply Hrej, Hiff. now split.
    + intros _. repeat split; reflexivity.
    + reflexivity.
Qed.

(** X1. [create_directory] returns 0 exactly when there is at least one
    slot, the size is at least 16 + 32 * n_caches (the header, the table of
    offsets and a slot header for each slot), and the file could be
    created and mapped.  Otherwise it returns -1 and leaves the caller's
    descriptor, the mapping, the media and the backing files as they were;
    arguments that are refused are refused before anything is done.  (Of
    the descriptor, [mapped_length] and [dummy] are meant: [dir->header],
    which a mapping that fails sets to null, is not a field here.) *)
Theorem create_directory_refuses_small dir size nc s :
  0 <= size < 2 ^ 64 -> 0 <= nc < 2 ^ 64 ->
  let r := create_directory dir size nc s in
  (fst (fst r) = 0
   <-> 1 <= nc /\ 16 + 32 * nc <= size /\ hd Succeed (script s) <> Fail) /\
  (fst (fst r) <> 0 ->
   fst r = (-1, dir) /\ view (snd r) = view s /\ media (snd r) = media s /\
   files (snd r) = files s /\ trace (snd r) = trace s) /\
  (~ (1 <= nc /\ 16 + 32 * nc <= size) -> r = ((-1, dir), s)).
Proof. exact (create_directory_status dir size nc s). Qed.

(** The stores of the loop over the slots: what the table reads afterwards,
    and that nothing else has changed. *)
Lemma offset_steps_loads cs k : forall i so s,
  0 <= i -> 0 <= so -> 0 <= cs -> so + cs * Z.of_nat k < 2 ^ 64 ->
  sizeof_DIRECTORY_HEADER + 8 * (i + Z.of_nat k)
  <= Z.of_nat (length (view s)) ->
  let s' := snd (run_steps (offset_steps k i so cs) s) in
  length (view s') = length (view s) /\ media s' = media s /\
  files s' = files s /\
  (forall j, i <= j < i + Z.of_nat k ->
     load64 (view s') (sizeof_DIRECTORY_HEADER + 8 * j) = so + (j - i) * cs) /\
  (forall a, 0 <= a -> a + 8 <= Z.of_nat (length (view s)) ->
     a + 8 <= sizeof_DIRECTORY_HEADER + 8 * i
     \/ sizeof_DIRECTORY_HEADER + 8 * (i + Z.of_nat k) <= a ->
     load64 (view s') a = load64 (view s) a).
Proof.
  pose proof (eq_refl : sizeof_DIRECTORY_HEADER = 16) as HD.
  induction k as [|k IH]; intros i so s Hi Hso Hcs Hmax Hfit;
    cbn [offset_steps run_steps].
  - cbn [ret snd]. repeat split; auto. intros j Hj. lia.
  - rewrite snd_bind_unit.
    set (s1 := snd (pm_store64 (sizeof_DIRECTORY_HEADER + 8 * i) so s)).
    assert (Hl1 : length (view s1) = length (view s)).
    { subst s1. cbn [pm_store64 snd view]. apply length_store64; lia. }
    assert (Hw : wrap64 (so + cs) = so + cs) by (apply wrap64_small; nia).
    rewrite Hw.
    assert (Hmax' : so + cs + cs * Z.of_nat k < 2 ^ 64) by nia.
    assert (Hfit' : sizeof_DIRECTORY_HEADER + 8 * (i + 1 + Z.of_nat k)
                    <= Z.of_nat (length (view s1)))
      by (rewrite Hl1; lia).
    destruct (IH (i + 1) (so + cs) s1 ltac:(lia) ltac:(lia) Hcs Hmax' Hfit')
      as (Hlen & Hmed & Hfil & Htab & Hout).
    split; [lia|]. split; [exact Hmed|]. split; [exact Hfil|]. split.
    + intros j Hj. destruct (Z.eq_dec j i) as [->|Hne].
      * rewrite Hout by (rewrite ?Hl1; lia).
        subst s1. cbn [pm_store64 snd view].
        rewrite load64_store64_same by lia.
        rewrite wrap64_small by nia. lia.
      * rewrite Htab by lia. lia.
    + intros a Ha Hal Hside. rewrite Hout by (rewrite ?Hl1; lia).
      subst s1. cbn [pm_store64 snd view].
      apply load64_store64_other; lia.
Qed.

Lemma create_cache_size_fits size nc :
  0 <= size < 2 ^ 64 -> 1 <= nc -> 16 + 32 * nc <= size ->
  directory_header_size nc = 16 + 8 * nc /\
  24 <= create_cache_size size nc /\
  create_cache_size size nc mod 8 = 0 /\
  directory_header_size nc + nc * create_cache_size size nc <= size.
Proof.
  intros Hs Hn Hfit.
  destruct (create_cache_size_exact size nc Hs Hn) as [Hhs Hcs];
    [unfold sizeof_DIRECTORY_HEADER; lia|].
  unfold sizeof_DIRECTORY_HEADER in *. rewrite Hhs, Hcs.
  set (q := (size - (16 + 8 * nc)) / nc).
  assert (Hq : 24 <= q) by (subst q; apply Z.div_le_lower_bound; lia).
  assert (Hq8 : 3 <= q / 8) by (apply Z.div_le_lower_bound; lia).
  assert (Hqm : nc * q <= size - (16 + 8 * nc))
    by (subst q; apply Z.mul_div_le; lia).
  pose proof (Z.mul_div_le q 8 ltac:(lia)) as Hle.
  split; [reflexivity|]. split; [lia|]. split.
  - rewrite Z.mul_comm. apply Z.mod_mul. lia.
  - nia.
Qed.

(** Everything [create_directory] has stored is durable when it returns,
    and the mapping and the media both hold a fresh directory. *)
Lemma create_directory_fresh dir size nc s :
  0 <= size < 2 ^ 64 -> 1 <= nc -> 16 + 32 * nc <= size ->
  hd Succeed (script s) <> Fail ->
  let r := create_directory dir size nc s in
  fst r = (0, mkDirectory size false) /\
  fresh_directory size nc (view (snd r)) /\
  fresh_directory size nc (media (snd r)) /\
  files (snd r) = files s /\ script (snd r) = tl (script s).
Proof.
  intros Hs Hn Hfit Hok r.
  assert (Hnr : 0 <= nc < 2 ^ 64) by lia.
  assert (Hacc : create_accepts size nc)
    by (apply create_accepts_iff; auto).
  destruct (create_cache_size_fits size nc Hs Hn Hfit)
    as (Hhs & Hcs24 & Hcs8 & Hend).
  subst r. rewrite create_directory_runs_steps by (auto; lia).
  cbn [fst snd]. split; [reflexivity|].
  set (s0 := snd (pmem_map_file_create size s)).
  assert (H0 : view s0 = zeros size /\ media s0 = zeros size /\
               files s0 = files s /\ script s0 = tl (script s)).
  { subst s0. unfold pmem_map_file_create, bind, next_outcome.
    destruct (script s) as [|[| |n] rest] eqn:E; cbn [hd] in Hok;
      try congruence; cbn [snd view media files script tl];
      repeat split; try reflexivity; exact E. }
  destruct H0 as (Hv0 & Hm0 & Hf0 & Hsc0).
  unfold create_steps. rewrite run_steps_app_snd.
  set (cs := create_cache_size size nc) in *.
  set (hs := directory_header_size nc) in *.
  pose proof (offset_steps_script cs (Z.to_nat nc) 0 hs s0) as Hscr.
  destruct (offset_steps_loads cs (Z.to_nat nc) 0 hs s0)
    as (Hlen & Hmed & Hfil & Htab & Hout);
    try (rewrite ?Hv0, ?length_zeros, ?Z2Nat.id by lia;
         unfold sizeof_DIRECTORY_HEADER; nia).
  set (sa := snd (run_steps (offset_steps _ _ _ _) s0)) in *.
  rewrite Z2Nat.id in Htab by lia.
  rewrite Z2Nat.id in Hout by lia.
  assert (Lva : Z.of_nat (length (view sa)) = size)
    by (rewrite Hlen, Hv0; apply length_zeros; lia).
  rewrite Hv0, length_zeros in Hout by lia.
  unfold sizeof_DIRECTORY_HEADER, off_n_caches, off_magic in *.
  cbn [run_steps]. rewrite !snd_bind_unit.
  cbn [ret snd pm_store64 pmem_persist view media script files].
  set (v1 := store64 (view sa) 8 nc).
  set (v2 := store64 v1 0 pmem_append_cache_magic).
  assert (Lv1 : Z.of_nat (length v1) = size)
    by (subst v1; rewrite length_store64; lia).
  assert (Lv2 : Z.of_nat (length v2) = size)
    by (subst v2; rewrite length_store64; lia).
  set (m1 := store_bytes (media sa) 0 (load_bytes v1 0 (Z.to_nat hs))).
  assert (Lma : Z.of_nat (length (media sa)) = size)
    by (rewrite Hmed, Hm0; apply length_zeros; lia).
  assert (Ll1 : length (load_bytes v1 0 (Z.to_nat hs)) = Z.to_nat hs)
    by (apply length_load_bytes; lia).
  assert (Lm1 : Z.of_nat (length m1) = size)
    by (subst m1; rewrite length_store_bytes; lia).
  assert (Ll2 : length (load_bytes v2 0 (Z.to_nat 8)) = Z.to_nat 8)
    by (apply length_load_bytes; lia).
  (* what the mapping reads *)
  assert (Vmagic : load64 v2 0 = pmem_append_cache_magic).
  { subst v2. rewrite load64_store64_same by lia. reflexivity. }
  assert (Vnc : load64 v2 8 = nc).
  { subst v2. rewrite load64_store64_other by lia. subst v1.
    rewrite load64_store64_same by lia. apply wrap64_small; lia. }
  assert (V1tab : forall j, 0 <= j < nc ->
                    load64 v1 (16 + 8 * j) = hs + j * cs).
  { intros j Hj. subst v1. rewrite load64_store64_other by lia.
    rewrite Htab by lia. f_equal. f_equal. lia. }
  assert (Vtab : forall j, 0 <= j < nc ->
                   load64 v2 (16 + 8 * j) = hs + j * cs).
  { intros j Hj. subst v2. rewrite load64_store64_other by lia.
    apply V1tab, Hj. }
  assert (Vzero : forall a, hs <= a -> a + 8 <= size -> load64 v2 a = 0).
  { intros a Ha Hal. subst v2 v1.
    rewrite !load64_store64_other by (rewrite ?length_store64; lia).
    rewrite Hout by lia. apply load64_zeros. }
  split; [|split; [|split]].
  - unfold fresh_directory, n_caches, start_offsets, off_magic, off_n_caches,
      sizeof_DIRECTORY_HEADER. fold hs cs. auto.
  - unfold fresh_directory, n_caches, start_offsets, off_magic, off_n_caches,
      sizeof_DIRECTORY_HEADER. fold hs cs.
    split; [rewrite length_store_bytes; lia|].
    split; [rewrite load64_persisted by lia; exact Vmagic|].
    split; [|split].
    + rewrite load64_store_bytes_other by lia. subst m1.
      rewrite load64_persisted by lia. subst v1.
      rewrite load64_store64_same by lia. apply wrap64_small; lia.
    + intros j Hj. rewrite load64_store_bytes_other by lia. subst m1.
      rewrite load64_persisted by lia. apply V1tab, Hj.
    + intros a Ha Hal. rewrite load64_store_bytes_other by lia. subst m1.
      rewrite load64_store_bytes_other by lia.
      rewrite Hmed, Hm0. apply load64_zeros.
  - rewrite Hfil. exact Hf0.
  - rewrite Hscr. exact Hsc0.
Qed.

(** Every slot of a fresh directory whose slots are larger than a slot
    header is accepted by [open_cache], and found free. *)
Lemma open_cache_fresh c d size nc m i :
  0 <= size < 2 ^ 64 -> 1 <= nc -> 16 + 32 * nc <= size ->
  32 <= create_cache_size size nc ->
  fresh_directory size nc m -> 0 <= i < nc ->
  open_cache c (mkDirectory size d) m i = (0, fresh_slot c size nc i) /\
  hdr_file_name_length m (header (fresh_slot c size nc i)) = 0 /\
  hdr_flushed_eof m (header (fresh_slot c size nc i)) = 0 /\
  hdr_cached_eof m (header (fresh_slot c size nc i)) = 0.
Proof.
  intros Hs Hn Hfit Hbig (Hlen & Hmagic & Hnc & Htab & Hzero) Hi.
  destruct (create_cache_size_fits size nc Hs Hn Hfit)
    as (Hhs & Hcs24 & Hcs8 & Hend).
  set (cs := create_cache_size size nc) in *.
  set (hs := directory_header_size nc) in *.
  assert (Hstart : cache_start m i = hs + i * cs) by (apply Htab, Hi).
  assert (Hstop : cache_end (mkDirectory size d) m i
                  = if i =? nc - 1 then size else hs + i * cs + cs).
  { unfold cache_end. rewrite Hnc. cbn [mapped_length].
    rewrite wrap64_small by lia.
    destruct (Z.eqb_spec i (nc - 1)); [reflexivity|].
    rewrite Htab by lia. lia. }
  assert (Hin : hs + i * cs + cs <= hs + nc * cs) by nia.
  assert (Hge : hs <= hs + i * cs) by nia.
  assert (Hal : (hs + i * cs) mod 8 = 0).
  { rewrite Hhs. apply Z.mod_divide in Hcs8; [|lia].
    destruct Hcs8 as [q Hq]. rewrite Hq.
    replace (16 + 8 * nc + i * (q * 8)) with ((2 + nc + i * q) * 8) by lia.
    apply Z.mod_mul. lia. }
  assert (Hrest : nc - 1 = i -> 32 <= size - (hs + i * cs)) by (intros; nia).
  assert (F0 : hdr_file_name_length m (hs + i * cs) = 0).
  { unfold hdr_file_name_length, off_file_name_length.
    apply Hzero; destruct (Z.eq_dec i (nc - 1)); nia. }
  assert (F1 : hdr_flushed_eof m (hs + i * cs) = 0).
  { unfold hdr_flushed_eof, off_flushed_eof.
    apply Hzero; destruct (Z.eq_dec i (nc - 1)); nia. }
  assert (F2 : hdr_cached_eof m (hs + i * cs) = 0).
  { unfold hdr_cached_eof, off_cached_eof.
    apply Hzero; destruct (Z.eq_dec i (nc - 1)); nia. }
  unfold fresh_slot. fold cs hs. cbn [header].
  split; [|auto].
  unfold open_cache. rewrite Hnc, Hstart, Hstop. fold hs.
  rewrite land7_mod8, Hal, F0, F1, F2. cbn [mapped_length].
  unfold sizeof_CACHE_HEADER.
  set (stop := if i =? nc - 1 then size else hs + i * cs + cs).
  assert (Hstop' : hs + i * cs + 32 <= stop <= size).
  { subst stop. destruct (Z.eqb_spec i (nc - 1)); lia. }
  destruct (Z.leb_spec nc i); [lia|].
  destruct (Z.ltb_spec (hs + i * cs) hs); [lia|].
  destruct (Z.ltb_spec stop (hs + i * cs)); [lia|].
  rewrite (wrap64_small (stop - (hs + i * cs))) by lia.
  destruct (Z.ltb_spec (stop - (hs + i * cs)) 24); [lia|].
  destruct (Z.ltb_spec size stop); [lia|].
  cbn [orb negb Z.eqb].
  rewrite (wrap64_small (stop - (hs + i * cs) - 24)) by lia.
  rewrite Z.sub_0_r.
  rewrite (wrap64_small (stop - (hs + i * cs) - 24)) by lia.
  cbn [cached_eof flushed_eof buffer_size].
  destruct (Z.leb_spec (stop - (hs + i * cs) - 24) 0); [lia|].
  change (wrap64 (0 - 0)) with 0.
  destruct (Z.ltb_spec (stop - (hs + i * cs) - 24) 0); [lia|].
  cbn [orb Z.ltb Z.compare]. rewrite Z.add_0_r. reflexivity.
Qed.

Lemma next_outcome_eq s :
  next_outcome s
  = (hd Succeed (script s),
     mkMachine (view s) (media s) (files s) (tl (script s)) (trace s)).
Proof.
  unfold next_outcome. destruct s as [v m f [|o rest] t]; reflexivity.
Qed.

Lemma directory_file_ok_dec m :
  Z.of_nat (length m) < 2 ^ 64 ->
  (Z.of_nat (length m) <? sizeof_DIRECTORY_HEADER)
  || negb (load64 m off_magic =? pmem_append_cache_magic)
  || (n_caches m =? 0)
  || (wrap64 (Z.of_nat (length m) - sizeof_DIRECTORY_HEADER) / 8
      <? n_caches m) = false
  <-> directory_file_ok m.
Proof.
  intros Hlen. unfold directory_file_ok.
  pose proof (load64_range m off_n_caches) as Rn. fold (n_caches m) in Rn.
  pose proof (eq_refl : sizeof_DIRECTORY_HEADER = 16) as HD.
  destruct (Z.ltb_spec (Z.of_nat (length m)) sizeof_DIRECTORY_HEADER);
    cbn [orb]; [split; [discriminate | lia]|].
  rewrite wrap64_small by lia.
  destruct (Z.eqb_spec (load64 m off_magic) pmem_append_cache_magic);
    cbn [orb negb]; [|split; [discriminate | tauto]].
  destruct (Z.eqb_spec (n_caches m) 0);
    cbn [orb]; [split; [discriminate | lia]|].
  destruct (Z.ltb_spec ((Z.of_nat (length m) - sizeof_DIRECTORY_HEADER) / 8)
                       (n_caches m)); split; try discriminate; lia.
Qed.

(** [pmem_append_cache_open] on a file it accepts. *)
Lemma pmem_append_cache_open_accepts dir s :
  Z.of_nat (length (media s)) < 2 ^ 64 ->
  hd Succeed (script s) <> Fail -> directory_file_ok (media s) ->
  pmem_append_cache_open dir s
  = ((0, mkDirectory (Z.of_nat (length (media s))) false), mapped_existing s).
Proof.
  intros Hlen Hok Hfile. apply directory_file_ok_dec in Hfile; [|exact Hlen].
  unfold pmem_append_cache_open, pmem_map_file_existing, bind, read_view.
  rewrite next_outcome_eq.
  destruct (hd Succeed (script s)); try congruence;
    cbn [media view files script trace]; rewrite Hfile; reflexivity.
Qed.

(** The pass over the slots when every slot from [i] on is free. *)
Lemma flush_slots_all_free fuel dir s k : forall i,
  0 <= i -> n_caches (view s) <= i + Z.of_nat k ->
  (forall j, i <= j < n_caches (view s) ->
     exists c, open_cache blank_cache dir (view s) j = (0, c) /\
               hdr_file_name_length (view s) (header c) = 0) ->
  flush_slots k fuel dir i s = (Some 0, s).
Proof.
  pose proof (load64_range (view s) off_n_caches) as Rn.
  fold (n_caches (view s)) in Rn.
  induction k as [|k IH]; intros i Hi Hk Hfree.
  - apply flush_slots_past_the_end. lia.
  - rewrite flush_slots_S.
    destruct (Z.ltb_spec i (n_caches (view s))) as [Hlt|]; [|reflexivity].
    destruct (Hfree i ltac:(lia)) as (c & Hopen & Hfnl).
    rewrite (flush_slot_free fuel dir i s c Hopen Hfnl).
    rewrite wrap64_small by lia.
    apply IH; [lia | lia |]. intros j Hj. apply Hfree. lia.
Qed.

Lemma pmem_append_cache_flush_all_free fuel dir s :
  (forall j, 0 <= j < n_caches (view s) ->
     exists c, open_cache blank_cache dir (view s) j = (0, c) /\
               hdr_file_name_length (view s) (header c) = 0) ->
  pmem_append_cache_flush fuel dir s = (Some 0, s).
Proof.
  intros Hfree.
  pose proof (load64_range (view s) off_n_caches) as Rn.
  fold (n_caches (view s)) in Rn.
  unfold pmem_append_cache_flush, bind at 1, read_view at 1.
  apply flush_slots_all_free; [lia | lia | exact Hfree].
Qed.

Lemma fresh_directory_file_ok size nc m :
  0 <= size < 2 ^ 64 -> 1 <= nc -> 16 + 32 * nc <= size ->
  fresh_directory size nc m -> directory_file_ok m.
Proof.
  intros Hs Hn Hfit (Hlen & Hmagic & Hnc & _).
  unfold directory_file_ok. rewrite Hlen, Hnc.
  unfold sizeof_DIRECTORY_HEADER.
  repeat split; auto; try lia.
  apply Z.div_le_lower_bound; lia.
Qed.

Lemma create_cache_size_large size nc :
  0 <= size < 2 ^ 64 -> 1 <= nc -> 16 + 40 * nc <= size ->
  32 <= create_cache_size size nc.
Proof.
  intros Hs Hn Hfit.
  destruct (create_cache_size_exact size nc Hs Hn) as [_ Hcs];
    [unfold sizeof_DIRECTORY_HEADER; lia|].
  rewrite Hcs. unfold sizeof_DIRECTORY_HEADER.
  assert (32 <= (size - (16 + 8 * nc)) / nc)
    by (apply Z.div_le_lower_bound; lia).
  assert (4 <= (size - (16 + 8 * nc)) / nc / 8)
    by (apply Z.div_le_lower_bound; lia).
  lia.
Qed.

Lemma create_cache_size_least size nc :
  0 <= size < 2 ^ 64 -> 1 <= nc -> 16 + 32 * nc <= size ->
  size < 16 + 40 * nc ->
  create_cache_size size nc = 24.
Proof.
  intros Hs Hn Hfit Hlt.
  destruct (create_cache_size_exact size nc Hs Hn) as [_ Hcs];
    [unfold sizeof_DIRECTORY_HEADER; lia|].
  rewrite Hcs. unfold sizeof_DIRECTORY_HEADER.
  assert (24 <= (size - (16 + 8 * nc)) / nc)
    by (apply Z.div_le_lower_bound; lia).
  assert ((size - (16 + 8 * nc)) / nc < 32)
    by (apply Z.div_lt_upper_bound; lia).
  assert (3 <= (size - (16 + 8 * nc)) / nc / 8)
    by (apply Z.div_le_lower_bound; lia).
  assert ((size - (16 + 8 * nc)) / nc / 8 < 4)
    by (apply Z.div_lt_upper_bound; lia).
  lia.
Qed.

(** The startup pass over a fresh directory with slots larger than a slot
    header leaves everything as it is. *)
Lemma flush_fresh_directory fuel d size nc s :
  0 <= size < 2 ^ 64 -> 1 <= nc -> 16 + 40 * nc <= size ->
  fresh_directory size nc (view s) ->
  pmem_append_cache_flush fuel (mkDirectory size d) s = (Some 0, s).
Proof.
  intros Hs Hn Hfit Hfresh. apply pmem_append_cache_flush_all_free.
  intros j Hj.
  assert (Hnc : n_caches (view s) = nc) by apply Hfresh.
  rewrite Hnc in Hj.
  destruct (open_cache_fresh blank_cache d size nc (view s) j Hs Hn)
    as (Hopen & Hfnl & _); auto; try lia.
  { apply create_cache_size_large; auto. }
  eexists. split; [exact Hopen | exact Hfnl].
Qed.

(** X2. After [create_directory] has succeeded on a file of at least
    16 + 40 * n_caches bytes, [open_cache] accepts every slot [i] below
    [n_caches], in the mapping and on the media alike: the slot is free
    (its [file_name_length] is 0), its header is 8-aligned at
    16 + 8 * n_caches + i * cache_size, and its ring has at least 8 bytes,
    ends within the file, and ends where the header of slot [i + 1]
    starts. *)
Theorem create_directory_slots_usable dir size nc s c i :
  0 <= size < 2 ^ 64 -> 1 <= nc -> 16 + 40 * nc <= size ->
  hd Succeed (script s) <> Fail -> 0 <= i < nc ->
  let r := create_directory dir size nc s in
  let slot := fresh_slot c size nc i in
  fst r = (0, mkDirectory size false) /\
  open_cache c (snd (fst r)) (view (snd r)) i = (0, slot) /\
  open_cache c (snd (fst r)) (media (snd r)) i = (0, slot) /\
  hdr_file_name_length (media (snd r)) (header slot) = 0 /\
  header slot = 16 + 8 * nc + i * create_cache_size size nc /\
  header slot mod 8 = 0 /\
  8 <= buffer_size slot /\
  buffer slot + buffer_size slot <= size /\
  (i < nc - 1 -> buffer slot + buffer_size slot
                 = header (fresh_slot c size nc (i + 1))).
Proof.
  intros Hs Hn Hfit Hok Hi r slot.
  assert (Hfit' : 16 + 32 * nc <= size) by lia.
  destruct (create_directory_fresh dir size nc s Hs Hn Hfit' Hok)
    as (Hr & Hview & Hmedia & _).
  fold r in Hr, Hview, Hmedia.
  pose proof (create_cache_size_large size nc Hs Hn Hfit) as Hbig.
  destruct (create_cache_size_fits size nc Hs Hn Hfit')
    as (Hhs & _ & Hcs8 & Hend).
  destruct (open_cache_fresh c false size nc (view (snd r)) i Hs Hn Hfit'
              Hbig Hview Hi) as (Hov & _).
  destruct (open_cache_fresh c false size nc (media (snd r)) i Hs Hn Hfit'
              Hbig Hmedia Hi) as (Hom & Hfnl & _).
  rewrite Hr. cbn [fst snd]. fold slot in Hov, Hom, Hfnl.
  split; [reflexivity|]. split; [exact Hov|]. split; [exact Hom|].
  split; [exact Hfnl|].
  subst slot. unfold fresh_slot.
  cbn [header buffer buffer_size]. unfold sizeof_CACHE_HEADER.
  set (cs := create_cache_size size nc) in *.
  rewrite Hhs in *.
  assert (Hin : i * cs + cs <= nc * cs) by nia.
  split; [reflexivity|]. split.
  { apply Z.mod_divide in Hcs8; [|lia]. destruct Hcs8 as [q Hq]. rewrite Hq.
    replace (16 + 8 * nc + i * (q * 8)) with ((2 + nc + i * q) * 8) by lia.
    apply Z.mod_mul. lia. }
  destruct (Z.eqb_spec i (nc - 1)); repeat split; try lia; try nia.
Qed.

Lemma flush_slot_refused fuel dir i s :
  fst (open_cache blank_cache dir (view s) i) = -1 ->
  flush_slot fuel dir i s = (Some (SlotReturn (-1)), s).
Proof.
  intros Hopen. unfold flush_slot, bind at 1, read_view at 1.
  destruct (open_cache blank_cache dir (view s) i) as [r c].
  cbn [fst] in Hopen. subst r. reflexivity.
Qed.

(** A slot of exactly the size of its header has no room for a name: it is
    refused. *)
Lemma open_cache_fresh_least c d size nc m i :
  0 <= size < 2 ^ 64 -> 1 <= nc -> 16 + 32 * nc <= size ->
  size < 16 + 40 * nc ->
  fresh_directory size nc m -> 0 <= i < nc ->
  i < nc - 1 \/ size = 16 + 32 * nc ->
  fst (open_cache c (mkDirectory size d) m i) = -1.
Proof.
  intros Hs Hn Hfit Hlt (Hlen & Hmagic & Hnc & Htab & Hzero) Hi Hwhich.
  destruct (create_cache_size_fits size nc Hs Hn Hfit)
    as (Hhs & _ & _ & Hend).
  pose proof (create_cache_size_least size nc Hs Hn Hfit Hlt) as Hcs.
  rewrite Hcs in *.
  set (hs := directory_header_size nc) in *.
  assert (Hstart : cache_start m i = hs + i * 24) by (apply Htab, Hi).
  assert (Hstop : cache_end (mkDirectory size d) m i = hs + i * 24 + 24).
  { unfold cache_end. rewrite Hnc. cbn [mapped_length].
    rewrite wrap64_small by lia.
    destruct (Z.eqb_spec i (nc - 1)); [lia|].
    rewrite Htab by lia. lia. }
  assert (F0 : hdr_file_name_length m (hs + i * 24) = 0).
  { unfold hdr_file_name_length, off_file_name_length. apply Hzero; lia. }
  unfold open_cache. rewrite Hnc, Hstart, Hstop. fold hs.
  rewrite F0. cbn [mapped_length]. unfold sizeof_CACHE_HEADER.
  replace (hs + i * 24 + 24 - (hs + i * 24)) with 24 by lia.
  change (wrap64 24) with 24. change (wrap64 (24 - 24)) with 0.
  destruct (nc <=? i); [reflexivity|].
  destruct (_ || _ || _ || _ || _); reflexivity.
Qed.

(** The startup pass over a directory whose first slot has the size of a
    slot header ends at that slot. *)
Lemma flush_least_directory fuel d size nc s :
  0 <= size < 2 ^ 64 -> 1 <= nc ->
  16 + 32 * nc <= size -> size < 16 + 40 * nc ->
  2 <= nc \/ size = 16 + 32 * nc ->
  fresh_directory size nc (view s) ->
  pmem_append_cache_flush fuel (mkDirectory size d) s = (Some (-1), s).
Proof.
  intros Hs Hn Hfit Hlt Hslot0 Hview.
  assert (Hnc : n_caches (view s) = nc) by apply Hview.
  unfold pmem_append_cache_flush, bind at 1, read_view at 1.
  rewrite Hnc.
  destruct (Z.to_nat nc) as [|k] eqn:Ek; [lia|].
  rewrite flush_slots_S, Hnc.
  destruct (Z.ltb_spec 0 nc); [|lia].
  rewrite flush_slot_refused; [reflexivity|].
  apply (open_cache_fresh_least blank_cache d size nc); auto; lia.
Qed.

(** X3. [create_directory] accepts a size from 16 + 32 * n_caches up, but
    below 16 + 40 * n_caches the slot size comes out as the 24 bytes of a
    slot header and nothing more, and [open_cache] refuses such a slot (the
    name length 0 is not below the 0 bytes left): every slot but the last
    one, and the last one too when the size is exactly 16 + 32 * n_caches.
    [pmem_append_cache_flush] on the directory just created then returns -1
    and leaves the machine as it is. *)
Theorem create_directory_least_slots_refused fuel dir size nc s c i :
  0 <= size < 2 ^ 64 -> 1 <= nc ->
  16 + 32 * nc <= size -> size < 16 + 40 * nc ->
  hd Succeed (script s) <> Fail ->
  0 <= i < nc -> i < nc - 1 \/ size = 16 + 32 * nc ->
  let r := create_directory dir size nc s in
  fst r = (0, mkDirectory size false) /\
  create_cache_size size nc = sizeof_CACHE_HEADER /\
  fst (open_cache c (snd (fst r)) (view (snd r)) i) = -1 /\
  fst (open_cache c (snd (fst r)) (media (snd r)) i) = -1 /\
  (2 <= nc \/ size = 16 + 32 * nc ->
   pmem_append_cache_flush fuel (snd (fst r)) (snd r) = (Some (-1), snd r)).
Proof.
  intros Hs Hn Hfit Hlt Hok Hi Hwhich r.
  destruct (create_directory_fresh dir size nc s Hs Hn Hfit Hok)
    as (Hr & Hview & Hmedia & _).
  fold r in Hr, Hview, Hmedia. rewrite Hr. cbn [fst snd].
  split; [reflexivity|].
  split; [apply create_cache_size_least; auto|].
  split; [apply (open_cache_fresh_least c false size nc); auto|].
  split; [apply (open_cache_fresh_least c false size nc); auto|].
  intros Hslot0. apply (flush_least_directory fuel false size nc); auto.
Qed.

Lemma pmem_unmap_eq s :
  pmem_unmap s
  = (match hd Succeed (script s) with Fail => -1 | _ => 0 end,
     mkMachine [] (media s) (files s) (tl (script s)) (trace s ++ [EvUnmap])).
Proof.
  unfold pmem_unmap, bind. rewrite next_outcome_eq. reflexivity.
Qed.

(** [pmem_append_cache_open] on a file it refuses: the mapping is released
    through [pmem_append_cache_close], which looks at [dir->dummy] as the
    caller left it. *)
Lemma pmem_append_cache_open_refuses dir s :
  Z.of_nat (length (media s)) < 2 ^ 64 ->
  hd Succeed (script s) <> Fail -> ~ directory_file_ok (media s) ->
  let r := pmem_append_cache_open dir s in
  fst r = (-1, mkDirectory (Z.of_nat (length (media s))) (dummy dir)) /\
  view (snd r) = (if dummy dir then media s else []) /\
  media (snd r) = media s /\ files (snd r) = files s.
Proof.
  intros Hlen Hok Hfile r.
  assert (Hb : (Z.of_nat (length (media s)) <? sizeof_DIRECTORY_HEADER)
               || negb (load64 (media s) off_magic =? pmem_append_cache_magic)
               || (n_caches (media s) =? 0)
               || (wrap64 (Z.of_nat (length (media s))
                           - sizeof_DIRECTORY_HEADER) / 8
                   <? n_caches (media s)) = true).
  { destruct (_ || _ || _ || _) eqn:E; [reflexivity|].
    exfalso. apply Hfile. apply directory_file_ok_dec; assumption. }
  subst r.
  unfold pmem_append_cache_open, pmem_map_file_existing, bind, read_view.
  rewrite next_outcome_eq.
  destruct (hd Succeed (script s)); try congruence;
    cbn [media view files script trace]; rewrite Hb;
    unfold pmem_append_cache_close; cbn [dummy];
    destruct (dummy dir); rewrite ?pmem_unmap_eq;
    cbn [ret fst snd view media files]; repeat split; reflexivity.
Qed.

(** X4. [pmem_append_cache_open] returns 0 exactly when the file could be
    mapped and holds at least a directory header with the signature and a
    slot count from 1 up to what the table of offsets has room for; the
    descriptor then has the length of the file and the mapping shows the
    file.  Otherwise it returns -1; a file that was mapped and refused is
    unmapped again only if the caller's descriptor had [dummy] clear (the
    test of [pmem_append_cache_close]).  The media and the backing files
    are never changed. *)
Theorem pmem_append_cache_open_status dir s :
  Z.of_nat (length (media s)) < 2 ^ 64 ->
  let r := pmem_append_cache_open dir s in
  (fst (fst r) = 0
   <-> hd Succeed (script s) <> Fail /\ directory_file_ok (media s)) /\
  (fst (fst r) = 0 ->
   r = ((0, mkDirectory (Z.of_nat (length (media s))) false),
        mapped_existing s)) /\
  (fst (fst r) <> 0 ->
   fst (fst r) = -1 /\
   view (snd r) = match hd Succeed (script s) with
                  | Fail => view s
                  | _ => if dummy dir then media s else []
                  end) /\
  media (snd r) = media s /\ files (snd r) = files s.
Proof.
  intros Hlen r.
  assert (Hdec : directory_file_ok (media s) \/ ~ directory_file_ok (media s)).
  { pose proof (directory_file_ok_dec (media s) Hlen) as Hiff.
    match type of Hiff with ?b = false <-> _ => destruct b end.
    - right. intros H. apply Hiff in H. discriminate H.
    - left. apply Hiff. reflexivity. }
  destruct (hd Succeed (script s)) eqn:Ehd.
  1,3: assert (Hok : hd Succeed (script s) <> Fail)
         by (rewrite Ehd; discriminate);
       destruct Hdec as [Hfile | Hfile];
       [ subst r; rewrite (pmem_append_cache_open_accepts dir s Hlen Hok Hfile);
         cbn [fst snd mapped_existing media files];
         split; [split; [intros _; split; [discriminate | exact Hfile]
                        | reflexivity]|];
         split; [reflexivity|];
         split; [intros H; now elim H | split; reflexivity]
       | destruct (pmem_append_cache_open_refuses dir s Hlen Hok Hfile)
           as (Hr & Hv & Hm & Hf); fold r in Hr, Hv, Hm, Hf;
         rewrite Hr; cbn [fst];
         split; [split; [discriminate | intros [_ H]; contradiction]|];
         split; [discriminate|];
         split; [intros _; split; [reflexivity | exact Hv]
                | split; assumption] ].
  subst r.
  unfold pmem_append_cache_open, pmem_map_file_existing, bind.
  rewrite next_outcome_eq, Ehd. cbn [ret fst snd view media files].
  split; [split; [discriminate | intros [H _]; now elim H]|].
  split; [discriminate|].
  split; [intros _; split; reflexivity | split; reflexivity].
Qed.

Lemma my_delete_eq s :
  my_delete s
  = match hd Succeed (script s) with
    | Fail => (-1, mkMachine (view s) (media s) (files s) (tl (script s))
                             (trace s))
    | _ => (0, mkMachine (view s) [] (files s) (tl (script s)) (trace s))
    end.
Proof.
  unfold my_delete, bind. rewrite next_outcome_eq.
  destruct (hd Succeed (script s)); reflexivity.
Qed.

Lemma pmem_append_cache_create_eq dir size nc s :
  pmem_append_cache_create dir size nc s
  = let (r0, s0) := create_directory dir size nc s in
    if fst r0 =? 0 then
      if dummy (snd r0) then (0, s0) else
      let s1 := mkMachine [] (media s0) (files s0) (tl (script s0))
                          (trace s0 ++ [EvUnmap]) in
      match hd Succeed (script s0) with
      | Fail => (-1, snd (my_delete s1))
      | _ => (0, s1)
      end
    else (fst r0, s0).
Proof.
  unfold pmem_append_cache_create, bind at 1.
  destruct (create_directory dir size nc s) as [r0 s0].
  destruct (fst r0 =? 0); [|reflexivity].
  unfold pmem_append_cache_close.
  destruct (dummy (snd r0)); [reflexivity|].
  unfold bind at 1. rewrite pmem_unmap_eq.
  destruct (hd Succeed (script s0)); cbn [Z.eqb negb]; try reflexivity.
  unfold bind, ret. destruct (my_delete _). reflexivity.
Qed.

(** X5. [pmem_append_cache_create]: arguments that [create_directory]
    refuses give -1 with nothing done, and so does a failed mapping.
    Otherwise the result is that of the unmapping; when it succeeds the
    file left behind is a fresh directory that [pmem_append_cache_open]
    accepts, and when it fails the file is deleted (if [my_delete]
    succeeds). *)
Theorem pmem_append_cache_create_outcomes dir size nc s :
  0 <= size < 2 ^ 64 -> 0 <= nc < 2 ^ 64 ->
  let r := pmem_append_cache_create dir size nc s in
  let closed := hd Succeed (tl (script s)) in
  let third := hd Succeed (tl (tl (script s))) in
  (~ (1 <= nc /\ 16 + 32 * nc <= size) -> r = (-1, s)) /\
  (1 <= nc /\ 16 + 32 * nc <= size -> hd Succeed (script s) = Fail ->
   fst r = -1 /\ view (snd r) = view s /\ media (snd r) = media s) /\
  (1 <= nc /\ 16 + 32 * nc <= size -> hd Succeed (script s) <> Fail ->
   fst r = match closed with Fail => -1 | _ => 0 end /\
   view (snd r) = [] /\ files (snd r) = files s /\
   (closed <> Fail ->
    fresh_directory size nc (media (snd r)) /\
    forall d, third <> Fail ->
      fst (pmem_append_cache_open d (snd r)) = (0, mkDirectory size false)) /\
   (closed = Fail -> third <> Fail -> media (snd r) = [])).
Proof.
  intros Hs Hn r closed third.
  destruct (create_directory_status dir size nc s Hs Hn)
    as (Hzero & Hfail & Hrej).
  assert (Hr : r = pmem_append_cache_create dir size nc s) by reflexivity.
  rewrite pmem_append_cache_create_eq in Hr. clearbody r.
  split; [|split].
  - intros Hno. rewrite (Hrej Hno) in Hr. exact Hr.
  - intros Hacc Hmap.
    assert (Hnz : fst (fst (create_directory dir size nc s)) <> 0).
    { intros H. apply Hzero in H. destruct H as (_ & _ & H). now elim H. }
    destruct (Hfail Hnz) as (Hr0 & Hv & Hm & _).
    destruct (create_directory dir size nc s) as [r0 s0].
    cbn [fst snd] in *. subst r0 r. cbn [fst snd Z.eqb]. auto.
  - intros [H1 Hfit] Hmap.
    destruct (create_directory_fresh dir size nc s Hs H1 Hfit Hmap)
      as (Hr0 & _ & Hmedia & Hfiles & Hscr).
    destruct (create_directory dir size nc s) as [r0 s0].
    cbn [fst snd] in Hr0, Hmedia, Hfiles, Hscr. subst r0.
    cbn [fst snd Z.eqb dummy] in Hr. rewrite Hscr in Hr. fold closed in Hr.
    assert (Hlen : Z.of_nat (length (media s0)) = size) by apply Hmedia.
    destruct closed eqn:Ecl.
    1,3: subst r; cbn [fst snd view media files];
         split; [reflexivity|]; split; [reflexivity|]; split; [exact Hfiles|];
         (split; [|discriminate]); intros _; split; [exact Hmedia|];
         intros d Hdl;
         rewrite pmem_append_cache_open_accepts;
         cbn [media script hd]; fold third;
         [ rewrite Hlen; reflexivity | lia | exact Hdl
         | apply (fresh_directory_file_ok size nc); auto ].
    rewrite my_delete_eq in Hr. cbn [script view media files trace] in Hr.
    fold third in Hr. subst r.
    destruct third; cbn [fst snd view media files];
      (split; [reflexivity|]); (split; [reflexivity|]);
      (split; [exact Hfiles|]); (split; [intros H; now elim H|]);
      intros _ H; try reflexivity; now elim H.
Qed.

(** X6. With a null path [pmem_append_cache_init] only marks the
    directory as a dummy and returns 0.  On a dummy (or null) directory
    [pmem_append_cache_attach] returns 0 with a pass-through handle over
    the file descriptor, [pmem_append_cache_detach] of that handle returns
    0, and [pmem_append_cache_close] returns 0: none of them touches the
    machine. *)
Theorem null_path_is_pass_through fuel sizeof dir size nc s c n fd name join :
  pmem_append_cache_init fuel dir None size nc s
  = (Some (0, mkDirectory (mapped_length dir) true), s) /\
  let cache := set_write (set_file_fd c fd) PassThrough in
  (forall d, d = None \/ (exists d', d = Some d' /\ dummy d' = true) ->
     pmem_append_cache_attach sizeof c d n fd name s = ((0, cache), s)) /\
  pmem_append_cache_detach fuel join cache s = ((DetachReturn 0, cache), s) /\
  (forall d, dummy d = true -> pmem_append_cache_close d s = (0, s)).
Proof.
  split; [reflexivity|]. intros cache. split; [|split].
  - intros d [-> | (d' & -> & Hd)]; [reflexivity|].
    unfold pmem_append_cache_attach. rewrite Hd. reflexivity.
  - reflexivity.
  - intros d Hd. unfold pmem_append_cache_close. rewrite Hd. reflexivity.
Qed.

Lemma my_access_eq s :
  my_access s
  = (match hd Succeed (script s) with Fail => -1 | _ => 0 end,
     mkMachine (view s) (media s) (files s) (tl (script s)) (trace s)).
Proof. unfold my_access, bind. rewrite next_outcome_eq. reflexivity. Qed.

(** [pmem_append_cache_init] when the directory file is not there. *)
Lemma pmem_append_cache_init_missing fuel dir p size nc s :
  hd Succeed (script s) = Fail ->
  pmem_append_cache_init fuel dir (Some p) size nc s
  = let r := create_directory dir size nc
               (mkMachine (view s) (media s) (files s) (tl (script s))
                          (trace s)) in
    (Some (fst r), snd r).
Proof.
  intros Hno. unfold pmem_append_cache_init, bind at 1.
  rewrite my_access_eq, Hno. cbn [Z.eqb]. unfold bind, ret.
  destruct (create_directory _ _ _ _). reflexivity.
Qed.

(** [pmem_append_cache_init] when the directory file is there and is
    accepted by [pmem_append_cache_open]. *)
Lemma pmem_append_cache_init_existing fuel dir p size nc s :
  Z.of_nat (length (media s)) < 2 ^ 64 ->
  hd Succeed (script s) <> Fail -> hd Succeed (tl (script s)) <> Fail ->
  directory_file_ok (media s) ->
  let d := mkDirectory (Z.of_nat (length (media s))) false in
  let s1 := mkMachine (media s) (media s) (files s) (tl (tl (script s)))
                      (trace s ++ [EvMap (Z.of_nat (length (media s)))]) in
  pmem_append_cache_init fuel dir (Some p) size nc s
  = if nc <=? n_caches (media s) then
      match pmem_append_cache_flush fuel d s1 with
      | (None, s2) => (None, s2)
      | (Some f, s2) =>
          if f =? 0 then (Some (0, d), s2)
          else (Some (-1, d), snd (pmem_unmap s2))
      end
    else (Some (-1, d), snd (pmem_unmap s1)).
Proof.
  intros Hlen Hthere Hmap Hfile d s1.
  unfold pmem_append_cache_init, bind at 1. rewrite my_access_eq.
  assert (Ha : match hd Succeed (script s) with Fail => -1 | _ => 0 end = 0)
    by (destruct (hd Succeed (script s)); congruence).
  rewrite Ha. cbn [Z.eqb]. unfold bind at 1.
  rewrite pmem_append_cache_open_accepts by assumption.
  cbn [fst snd Z.eqb]. unfold bind at 1, read_view at 1.
  unfold mapped_existing. cbn [view media files script trace].
  fold d s1.
  destruct (nc <=? n_caches (media s)).
  - unfold bind at 1.
    destruct (pmem_append_cache_flush fuel d s1) as [[f|] s2];
      [|reflexivity].
    destruct (f =? 0); [reflexivity|].
    unfold pmem_append_cache_close. cbn [dummy d]. unfold bind, ret.
    destruct (pmem_unmap s2). reflexivity.
  - unfold pmem_append_cache_close. cbn [dummy d]. unfold bind, ret.
    destruct (pmem_unmap s1). reflexivity.
Qed.

(** X7. [pmem_append_cache_init] on a path that does not exist, with a
    size of at least 16 + 40 * n_caches and at least one slot, creates
    the directory; when the process stops and starts up again on the file,
    now found, the second [pmem_append_cache_init] ignores its [size],
    opens the directory and returns 0 with it mapped if it has at least the
    slots wanted, and returns -1 with it unmapped if it has fewer.  The
    file is left as the creation made it. *)
Theorem pmem_append_cache_init_restart fuel dir dir' p p' size nc
    size' nc' s :
  0 <= size < 2 ^ 64 -> 1 <= nc -> 16 + 40 * nc <= size ->
  script s = [Fail] ->
  let r1 := pmem_append_cache_init fuel dir (Some p) size nc s in
  let r2 := pmem_append_cache_init fuel dir' (Some p') size' nc'
              (crash (snd r1)) in
  fst r1 = Some (0, mkDirectory size false) /\
  fresh_directory size nc (media (snd r1)) /\
  fst r2 = Some (if nc' <=? nc then 0 else -1, mkDirectory size false) /\
  view (snd r2) = (if nc' <=? nc then media (snd r1) else []) /\
  media (snd r2) = media (snd r1) /\ files (snd r2) = files s.
Proof.
  intros Hs Hn Hfit Hscr r1 r2.
  assert (Hfit' : 16 + 32 * nc <= size) by lia.
  assert (Hr1 : r1 = pmem_append_cache_init fuel dir (Some p) size nc s)
    by reflexivity.
  rewrite pmem_append_cache_init_missing in Hr1 by (rewrite Hscr; reflexivity).
  rewrite Hscr in Hr1. cbn [tl] in Hr1.
  set (s0 := mkMachine (view s) (media s) (files s) [] (trace s)) in *.
  destruct (create_directory_fresh dir size nc s0 Hs Hn Hfit')
    as (Hc & _ & Hmedia & Hfiles & Hscr1); [discriminate|].
  cbv zeta in Hr1. clearbody r1. subst r1. cbn [fst snd] in *.
  set (s1 := snd (create_directory dir size nc s0)) in *.
  rewrite Hc. split; [reflexivity|]. split; [exact Hmedia|].
  assert (Hlen : Z.of_nat (length (media s1)) = size) by apply Hmedia.
  assert (Hnc : n_caches (media s1) = nc) by apply Hmedia.
  assert (Hr2 : r2 = pmem_append_cache_init fuel dir' (Some p') size' nc'
                       (crash s1)) by reflexivity.
  rewrite pmem_append_cache_init_existing in Hr2;
    cbn [crash media script files trace view]; rewrite ?Hscr1;
    try discriminate; try lia;
    [|apply (fresh_directory_file_ok size nc); auto].
  cbn [crash media script files trace view tl] in Hr2.
  rewrite Hscr1, Hlen, Hnc in Hr2. cbn [tl] in Hr2.
  clearbody r2. subst r2.
  destruct (nc' <=? nc).
  - rewrite (flush_fresh_directory fuel false size nc)
      by (cbn [view]; auto).
    cbn [Z.eqb fst snd view media files]. auto.
  - rewrite pmem_unmap_eq. cbn [fst snd view media files]. auto.
Qed.

(** X8. A directory that [pmem_append_cache_init] creates with slots of
    the least size accepted (16 + 32 * n <= size < 16 + 40 * n, and two
    slots or more or the exact least size) cannot be started on again: the
    next [pmem_append_cache_init] on the file, asking for no more slots
    than it has, returns -1, because its startup pass meets a slot that
    [open_cache] refuses, and unmaps the file. *)
Theorem pmem_append_cache_init_refuses_least_slots fuel dir dir' p p'
    size nc size' nc' s :
  0 <= size < 2 ^ 64 -> 1 <= nc ->
  16 + 32 * nc <= size -> size < 16 + 40 * nc ->
  2 <= nc \/ size = 16 + 32 * nc ->
  script s = [Fail] -> nc' <= nc ->
  let r1 := pmem_append_cache_init fuel dir (Some p) size nc s in
  let r2 := pmem_append_cache_init fuel dir' (Some p') size' nc'
              (crash (snd r1)) in
  fst r1 = Some (0, mkDirectory size false) /\
  fst r2 = Some (-1, mkDirectory size false) /\
  view (snd r2) = [] /\ media (snd r2) = media (snd r1).
Proof.
  intros Hs Hn Hfit Hlt Hslot0 Hscr Hwant r1 r2.
  assert (Hr1 : r1 = pmem_append_cache_init fuel dir (Some p) size nc s)
    by reflexivity.
  rewrite pmem_append_cache_init_missing in Hr1 by (rewrite Hscr; reflexivity).
  rewrite Hscr in Hr1. cbn [tl] in Hr1.
  set (s0 := mkMachine (view s) (media s) (files s) [] (trace s)) in *.
  destruct (create_directory_fresh dir size nc s0 Hs Hn Hfit)
    as (Hc & _ & Hmedia & Hfiles & Hscr1); [discriminate|].
  cbv zeta in Hr1. clearbody r1. subst r1. cbn [fst snd] in *.
  set (s1 := snd (create_directory dir size nc s0)) in *.
  rewrite Hc. split; [reflexivity|].
  assert (Hlen : Z.of_nat (length (media s1)) = size) by apply Hmedia.
  assert (Hnc : n_caches (media s1) = nc) by apply Hmedia.
  assert (Hr2 : r2 = pmem_append_cache_init fuel dir' (Some p') size' nc'
                       (crash s1)) by reflexivity.
  rewrite pmem_append_cache_init_existing in Hr2;
    cbn [crash media script files trace view]; rewrite ?Hscr1;
    try discriminate; try lia;
    [|apply (fresh_directory_file_ok size nc); auto].
  cbn [crash media script files trace view tl] in Hr2.
  rewrite Hscr1, Hlen, Hnc in Hr2. cbn [tl] in Hr2.
  clearbody r2. subst r2.
  destruct (Z.leb_spec nc' nc); [|lia].
  rewrite (flush_least_directory fuel false size nc) by (cbn [view]; auto).
  cbn [Z.eqb]. rewrite pmem_unmap_eq. cbn [fst snd view media]. auto.
Qed.

Lemma my_fstat_eq fd s :
  my_fstat fd s
  = let r := match hd Succeed (script s), file_of s fd with
             | Fail, _ | _, None => (-1, 0)
             | _, Some (_, c) => (0, Z.of_nat (length c))
             end in
    (r, mkMachine (view s) (media s) (files s) (tl (script s))
                  (trace s ++ [EvFstat fd (fst r)])).
Proof. unfold my_fstat, bind. rewrite next_outcome_eq. reflexivity. Qed.

(** X9. [pmem_append_cache_attach] on a real directory returns -1 when
    [my_fstat] fails, when [open_cache] refuses the slot, when the slot is
    in use ([file_name_length] not 0), or when the name with its null byte
    does not leave a byte of ring; the mapping, the media and the backing
    files are then as before. *)
Theorem pmem_append_cache_attach_refusals sizeof c d n fd name s :
  dummy d = false ->
  let c0 := set_write (set_file_fd c fd) Cached in
  let sb := fst (my_fstat fd s) in
  let oc := open_cache c0 d (view s) n in
  let r := pmem_append_cache_attach sizeof c (Some d) n fd name s in
  fst sb <> 0 \/ fst oc <> 0 \/
  hdr_file_name_length (view s) (header (snd oc)) <> 0 \/
  buffer_size (snd oc) <= wrap64 (Z.of_nat (length name) + 1) ->
  fst (fst r) = -1 /\
  view (snd r) = view s /\ media (snd r) = media s /\ files (snd r) = files s.
Proof.
  intros Hd c0 sb oc r Hwhy.
  assert (Hsb : fst sb = 0 \/ fst sb = -1).
  { subst sb. rewrite my_fstat_eq. cbn [fst].
    destruct (hd Succeed (script s)); destruct (file_of s fd) as [[nm ct]|];
      auto. }
  assert (Hr : r = pmem_append_cache_attach sizeof c (Some d) n fd name s)
    by reflexivity.
  clearbody r. unfold pmem_append_cache_attach in Hr. rewrite Hd in Hr.
  unfold bind at 1 in Hr. fold c0 in Hr.
  assert (Hst : snd (my_fstat fd s)
                = mkMachine (view s) (media s) (files s) (tl (script s))
                            (trace s ++ [EvFstat fd (fst sb)])).
  { subst sb. rewrite my_fstat_eq. reflexivity. }
  destruct (my_fstat fd s) as [sb' s1]. cbn [fst snd] in *. subst sb s1.
  destruct (Z.eqb_spec (fst sb') 0) as [Hfs|Hfs]; cbn [negb] in Hr;
    [|subst r; cbn [ret fst snd view media files]; repeat split; auto; lia].
  unfold bind at 1, read_view at 1 in Hr. cbn [view] in Hr. fold oc in Hr.
  pose proof (open_cache_status c0 d (view s) n) as Hoc. fold oc in Hoc.
  destruct oc as [res c1]. cbn [fst snd] in *.
  destruct (Z.eqb_spec res 0) as [Hres|Hres]; cbn [negb] in Hr;
    [|subst r; cbn [ret fst snd view media files]; repeat split; auto; lia].
  destruct (Z.eqb_spec (hdr_file_name_length (view s) (header c1)) 0)
    as [Hfree|Hused]; cbn [negb orb] in Hr;
    [|subst r; cbn [ret fst snd view media files]; repeat split; auto].
  destruct (Z.leb_spec (buffer_size c1) (wrap64 (Z.of_nat (length name) + 1)));
    [subst r; cbn [ret fst snd view media files]; repeat split; auto|].
  exfalso. destruct Hwhy as [Hw|[Hw|[Hw|Hw]]]; auto; lia.
Qed.

Lemma open_cache_ok_iff c dir m n c1 :
  directory_ok dir m -> 0 <= n < 2 ^ 64 ->
  open_cache c dir m n = (0, c1)
  <-> slot_ok dir m n /\ c1 = opened_slot c dir m n.
Proof.
  intros Hok Hn.
  destruct (directory_header_size_exact dir m Hok) as [Hhs Hfit].
  destruct Hok as [Hml Hnc].
  pose proof (load64_range m off_n_caches) as Rnc. fold (n_caches m) in Rnc.
  pose proof (load64_range m (sizeof_DIRECTORY_HEADER + 8 * n)) as Rcs.
  fold (start_offsets m n) in Rcs. fold (cache_start m n) in Rcs.
  assert (Rce : 0 <= cache_end dir m n < 2 ^ 64).
  { apply cache_end_range. unfold sizeof_DIRECTORY_HEADER in *. lia. }
  pose proof (load64_range m (cache_start m n + off_file_name_length)) as Rfnl.
  pose proof (load64_range m (cache_start m n + off_flushed_eof)) as Rfl.
  pose proof (load64_range m (cache_start m n + off_cached_eof)) as Rca.
  fold (hdr_file_name_length m (cache_start m n)) in Rfnl.
  fold (hdr_flushed_eof m (cache_start m n)) in Rfl.
  fold (hdr_cached_eof m (cache_start m n)) in Rca.
  unfold open_cache, slot_ok, opened_slot.
  rewrite Hhs, land7_mod8.
  set (cs := cache_start m n) in *. set (ce := cache_end dir m n) in *.
  set (fnl := hdr_file_name_length m cs) in *.
  set (fl := hdr_flushed_eof m cs) in *. set (ca := hdr_cached_eof m cs) in *.
  unfold sizeof_CACHE_HEADER, sizeof_DIRECTORY_HEADER in *.
  destruct (Z.leb_spec (n_caches m) n);
    [split; [discriminate | lia]|].
  destruct (Z.ltb_spec cs (16 + 8 * n_caches m));
    cbn [orb]; [split; [discriminate | lia]|].
  destruct (Z.ltb_spec ce cs);
    cbn [orb]; [split; [discriminate | lia]|].
  rewrite (wrap64_small (ce - cs)) by lia.
  destruct (Z.eqb_spec (cs mod 8) 0);
    cbn [orb negb]; [|split; [discriminate | lia]].
  destruct (Z.ltb_spec (ce - cs) 24);
    cbn [orb]; [split; [discriminate | lia]|].
  destruct (Z.ltb_spec (mapped_length dir) ce);
    cbn [orb]; [split; [discriminate | lia]|].
  rewrite (wrap64_small (ce - cs - 24)) by lia.
  cbn [cached_eof flushed_eof buffer_size].
  destruct (Z.leb_spec (ce - cs - 24) fnl);
    cbn [orb]; [split; [discriminate | lia]|].
  rewrite (wrap64_small (ce - cs - 24 - fnl)) by lia.
  destruct (Z.ltb_spec ca fl);
    cbn [orb]; [split; [discriminate | lia]|].
  rewrite (wrap64_small (ca - fl)) by lia.
  destruct (Z.ltb_spec (ce - cs - 24 - fnl) (ca - fl));
    [split; [discriminate | lia]|].
  split.
  - intros Heq. inversion Heq. split; [lia | reflexivity].
  - intros [_ ->]. reflexivity.
Qed.

Lemma same_outside_refl m lo hi : same_outside m m lo hi.
Proof. split; auto. Qed.

Lemma same_outside_store_bytes m m' lo hi a bs :
  same_outside m m' lo hi ->
  0 <= lo -> lo <= a -> a + Z.of_nat (length bs) <= hi ->
  hi <= Z.of_nat (length m) ->
  same_outside m (store_bytes m' a bs) lo hi.
Proof.
  intros [Hlen Hsame] Hlo Ha Hhi Hfit. split.
  - rewrite length_store_bytes by lia. exact Hlen.
  - intros i Hi. rewrite nth_error_store_bytes_out by lia. apply Hsame, Hi.
Qed.

Lemma same_outside_store64 m m' lo hi a v :
  same_outside m m' lo hi ->
  0 <= lo -> lo <= a -> a + 8 <= hi -> hi <= Z.of_nat (length m) ->
  same_outside m (store64 m' a v) lo hi.
Proof.
  intros. unfold store64. apply same_outside_store_bytes; auto;
    rewrite length_le_split; lia.
Qed.

Lemma same_outside_load_bytes m m' lo hi a k :
  same_outside m m' lo hi -> 0 <= a -> 0 <= lo ->
  a + Z.of_nat k <= lo \/ hi <= a ->
  a + Z.of_nat k <= Z.of_nat (length m) ->
  load_bytes m' a k = load_bytes m a k.
Proof.
  intros [Hlen Hsame] Ha Hlo Hside Hfit.
  apply list_eq_nth_error.
  - rewrite !length_load_bytes by lia. reflexivity.
  - intros i Hi. rewrite length_load_bytes in Hi by lia.
    rewrite !nth_error_load_bytes by lia. apply Hsame. lia.
Qed.

Lemma same_outside_load64 m m' lo hi a :
  same_outside m m' lo hi -> 0 <= a -> 0 <= lo ->
  a + 8 <= lo \/ hi <= a -> a + 8 <= Z.of_nat (length m) ->
  load64 m' a = load64 m a.
Proof.
  intros. unfold load64. f_equal.
  apply (same_outside_load_bytes m m' lo hi); auto.
Qed.

(** A persist of a range that holds every byte stored since the media and
    the mapping were the same makes them the same again. *)
Lemma persist_catches_up m m' lo hi a len :
  same_outside m m' lo hi -> 0 <= a -> a <= lo -> hi <= a + len ->
  0 <= len -> a + len <= Z.of_nat (length m) ->
  store_bytes m a (load_bytes m' a (Z.to_nat len)) = m'.
Proof.
  intros [Hlen Hsame] Ha Hlo Hhi Hpos Hfit.
  assert (Hl : length (load_bytes m' a (Z.to_nat len)) = Z.to_nat len)
    by (apply length_load_bytes; lia).
  apply list_eq_nth_error.
  - rewrite length_store_bytes by lia. auto.
  - intros i Hi. rewrite length_store_bytes in Hi by lia.
    destruct (Nat.lt_ge_cases i (Z.to_nat a)) as [Hlt|Hge].
    + rewrite nth_error_store_bytes_out by lia. symmetry. apply Hsame. lia.
    + destruct (Nat.lt_ge_cases i (Z.to_nat a + Z.to_nat len)) as [Hin|Hout].
      * rewrite nth_error_store_bytes_in by lia.
        rewrite nth_error_load_bytes by lia. f_equal. lia.
      * rewrite nth_error_store_bytes_out by lia. symmetry. apply Hsame. lia.
Qed.

Lemma until_nul_terminated name rest :
  Forall (fun b => b <> Byte.x00) name ->
  until_nul (name ++ Byte.x00 :: rest) = name.
Proof.
  induction 1 as [|b name Hb _ IH]; cbn [until_nul app].
  - reflexivity.
  - destruct (Byte.eqb b Byte.x00) eqn:E.
    + apply Byte.byte_dec_bl in E. contradiction.
    + now rewrite IH.
Qed.

Lemma cstring_of_load_bytes m a name :
  0 <= a -> Forall (fun b => b <> Byte.x00) name ->
  load_bytes m a (length name + 1) = name ++ [Byte.x00] ->
  cstring m a = name.
Proof.
  intros Ha Hname Hload. unfold cstring, load_bytes in *.
  rewrite <- (firstn_skipn (length name + 1) (skipn (Z.to_nat a) m)).
  rewrite Hload, <- app_assoc. cbn [app].
  apply until_nul_terminated, Hname.
Qed.

(** The directory part of the mapping is read the same once the bytes of a
    slot have changed. *)
Lemma slot_change_keeps_directory dir m m' n lo hi :
  directory_ok dir m -> Z.of_nat (length m) = mapped_length dir ->
  0 <= n -> slot_ok dir m n ->
  same_outside m m' lo hi -> cache_start m n <= lo ->
  n_caches m' = n_caches m /\ cache_start m' n = cache_start m n /\
  cache_end dir m' n = cache_end dir m n /\ directory_ok dir m'.
Proof.
  intros Hok Hlen Hn Hslot Hsame Hlo.
  destruct (directory_header_size_exact dir m Hok) as [_ Hfit].
  destruct Hslot as (Hlt & Hcs & Hce & _).
  pose proof (load64_range m off_n_caches) as Rnc. fold (n_caches m) in Rnc.
  unfold sizeof_DIRECTORY_HEADER in *.
  assert (Hnc : n_caches m' = n_caches m).
  { unfold n_caches, off_n_caches.
    apply (same_outside_load64 m m' lo hi); auto; lia. }
  assert (Htab : forall j, 0 <= j < n_caches m ->
                           start_offsets m' j = start_offsets m j).
  { intros j Hj. unfold start_offsets, sizeof_DIRECTORY_HEADER.
    apply (same_outside_load64 m m' lo hi); auto; lia. }
  split; [exact Hnc|]. split; [apply Htab; lia|]. split.
  - unfold cache_end. rewrite Hnc. rewrite wrap64_small by lia.
    destruct (Z.eqb_spec n (n_caches m - 1)); [reflexivity|].
    apply Htab. lia.
  - unfold directory_ok in *. rewrite Hnc. exact Hok.
Qed.

(** [pmem_append_cache_attach] on a slot it accepts: the steps run after
    the [my_fstat], then [pthread_create] is called. *)
Lemma pmem_append_cache_attach_accepted sizeof c d n fd name s nm content c1 :
  dummy d = false ->
  hd Succeed (script s) <> Fail ->
  file_of s fd = Some (nm, content) ->
  open_cache (set_write (set_file_fd c fd) Cached) d (view s) n = (0, c1) ->
  hdr_file_name_length (view s) (header c1) = 0 ->
  wrap64 (Z.of_nat (length name) + 1) < buffer_size c1 ->
  file_name c1 = header c1 + sizeof_CACHE_HEADER ->
  let st_size := Z.of_nat (length content) in
  let s2 := snd (run_steps (attach_steps sizeof (header c1) st_size name)
                           (snd (my_fstat fd s))) in
  pmem_append_cache_attach sizeof c (Some d) n fd name s
  = ((match hd Succeed (script s2) with Fail => -1 | _ => 0 end,
      shrink_buffer (set_eofs c1 st_size)
                    (wrap64 (Z.of_nat (length name) + 1))),
     snd (next_outcome s2)).
Proof.
  intros Hd Hstat Hfile Hopen Hfree Hfits Hfn st_size s2.
  unfold pmem_append_cache_attach. rewrite Hd.
  unfold bind at 1.
  assert (Hfs : my_fstat fd s
                = ((0, st_size),
                   mkMachine (view s) (media s) (files s) (tl (script s))
                             (trace s ++ [EvFstat fd 0]))).
  { rewrite my_fstat_eq, Hfile.
    destruct (hd Succeed (script s)); first [reflexivity | congruence]. }
  subst s2. rewrite Hfs. cbn [fst snd Z.eqb negb].
  unfold bind at 1, read_view at 1. cbn [view]. rewrite Hopen.
  cbn [Z.eqb negb]. rewrite Hfree. cbn [Z.eqb negb orb].
  destruct (Z.leb_spec (buffer_size c1) (wrap64 (Z.of_nat (length name) + 1)));
    [lia|].
  cbn [set_eofs header file_name]. rewrite Hfn.
  unfold attach_steps. cbn [run_steps]. rewrite !snd_bind_unit.
  unfold bind, pm_store64, pm_memcpy, pmem_persist, ret.
  cbn [fst snd view media files script trace].
  rewrite !next_outcome_eq. cbn [fst snd view media files script trace hd].
  destruct (hd Succeed (tl (script s))); reflexivity.
Qed.

(** What the steps of the attach leave in the mapping and on the media. *)
Lemma attach_steps_spec sizeof d n name s h st_size :
  directory_ok d (view s) ->
  Z.of_nat (length (view s)) = mapped_length d -> media s = view s ->
  0 <= n -> slot_ok d (view s) n -> h = cache_start (view s) n ->
  hdr_file_name_length (view s) h = 0 ->
  0 <= st_size < 2 ^ 64 ->
  Z.of_nat (length name) + 1 < cache_end d (view s) n - h - sizeof_CACHE_HEADER ->
  sizeof_CACHE_HEADER <= sizeof ->
  h + sizeof + Z.of_nat (length name) + 1 <= mapped_length d ->
  let fnl := Z.of_nat (length name) + 1 in
  let steps := attach_steps sizeof h st_size name in
  let v3 := store_bytes
              (store64 (store64 (view s) (h + off_cached_eof) st_size)
                       (h + off_flushed_eof) st_size)
              (h + sizeof_CACHE_HEADER) (name ++ [Byte.x00]) in
  let v4 := store64 v3 (h + off_file_name_length) fnl in
  same_outside (view s) v3 (h + off_flushed_eof) (h + sizeof_CACHE_HEADER + fnl)
  /\ same_outside (view s) v4 h (h + sizeof_CACHE_HEADER + fnl) /\
  hdr_flushed_eof v3 h = st_size /\ hdr_cached_eof v3 h = st_size /\
  hdr_file_name_length v4 h = fnl /\
  hdr_flushed_eof v4 h = st_size /\ hdr_cached_eof v4 h = st_size /\
  load_bytes v4 (h + sizeof_CACHE_HEADER) (length name + 1)
  = name ++ [Byte.x00] /\
  (forall k, (k <= 3)%nat ->
     media (snd (run_steps (firstn k steps) s)) = view s) /\
  (forall k, (4 <= k <= 5)%nat ->
     media (snd (run_steps (firstn k steps) s)) = v3) /\
  view (snd (run_steps steps s)) = v4 /\
  media (snd (run_steps steps s)) = v4 /\
  files (snd (run_steps steps s)) = files s /\
  script (snd (run_steps steps s)) = script s /\
  trace (snd (run_steps steps s))
  = trace s ++ [ EvStore (h + off_cached_eof) st_size;
                 EvStore (h + off_flushed_eof) st_size;
                 EvStoreBytes (h + sizeof_CACHE_HEADER) (name ++ [Byte.x00]);
                 EvPersist h (sizeof + fnl);
                 EvStore (h + off_file_name_length) fnl;
                 EvPersist (h + off_file_name_length) 8 ].
Proof.
  intros Hok Hlen Hdur Hn Hslot Hh Hfree Hsz Hfits Hsizeof Hpersist
         fnl steps v3 v4.
  destruct Hslot as (Hlt & Hcs & Hce & Hal & _).
  rewrite <- Hh in Hcs, Hce, Hal.
  pose proof Hok as [Hml Hq].
  pose proof (load64_range (view s) off_n_caches) as Rnc.
  fold (n_caches (view s)) in Rnc.
  pose proof (eq_refl : sizeof_DIRECTORY_HEADER = 16) as HD.
  pose proof (eq_refl : sizeof_CACHE_HEADER = 24) as HC.
  pose proof (eq_refl : off_file_name_length = 0) as O0.
  pose proof (eq_refl : off_flushed_eof = 8) as O1.
  pose proof (eq_refl : off_cached_eof = 16) as O2.
  assert (Hfnl : wrap64 (Z.of_nat (length name) + 1) = fnl)
    by (apply wrap64_small; subst fnl; lia).
  set (v1 := store64 (view s) (h + off_cached_eof) st_size).
  set (v2 := store64 v1 (h + off_flushed_eof) st_size).
  fold v1 v2 in v3.
  assert (Lname : Z.of_nat (length (name ++ [Byte.x00])) = fnl)
    by (rewrite length_app; cbn [length]; subst fnl; lia).
  assert (L1 : length v1 = length (view s))
    by (subst v1; apply length_store64; lia).
  assert (L2 : length v2 = length (view s))
    by (subst v2; rewrite length_store64; lia).
  assert (L3 : length v3 = length (view s))
    by (subst v3; rewrite length_store_bytes; lia).
  assert (L4 : length v4 = length (view s))
    by (subst v4; rewrite length_store64; lia).
  assert (S3 : same_outside (view s) v3 (h + off_flushed_eof)
                            (h + sizeof_CACHE_HEADER + fnl)).
  { subst v3 v2 v1.
    apply same_outside_store_bytes; try lia.
    apply same_outside_store64; try lia.
    apply same_outside_store64; try lia.
    apply same_outside_refl. }
  assert (S3' : same_outside (view s) v3 h (h + sizeof_CACHE_HEADER + fnl)).
  { destruct S3 as [Ls Ss]. split; [exact Ls|].
    intros i Hi. apply Ss. lia. }
  assert (S4 : same_outside (view s) v4 h (h + sizeof_CACHE_HEADER + fnl)).
  { subst v4. apply same_outside_store64; try lia. exact S3'. }
  assert (S34 : same_outside v3 v4 h (h + 8)).
  { subst v4. apply same_outside_store64; try lia. apply same_outside_refl. }
  assert (M1 : store_bytes (view s) h
                 (load_bytes v3 h (Z.to_nat (sizeof + fnl))) = v3).
  { apply (persist_catches_up (view s) v3 h (h + sizeof_CACHE_HEADER + fnl));
      first [exact S3' | lia | subst fnl; lia]. }
  assert (M2 : store_bytes v3 (h + off_file_name_length)
                 (load_bytes v4 (h + off_file_name_length) (Z.to_nat 8)) = v4).
  { rewrite O0, Z.add_0_r.
    apply (persist_catches_up v3 v4 h (h + 8)); first [exact S34 | lia]. }
  assert (G1 : hdr_flushed_eof v3 h = st_size).
  { unfold hdr_flushed_eof. subst v3.
    rewrite load64_store_bytes_other by lia. subst v2.
    rewrite load64_store64_same by lia. apply wrap64_small. lia. }
  assert (G2 : hdr_cached_eof v3 h = st_size).
  { unfold hdr_cached_eof. subst v3.
    rewrite load64_store_bytes_other by lia. subst v2.
    rewrite load64_store64_other by lia. subst v1.
    rewrite load64_store64_same by lia. apply wrap64_small. lia. }
  assert (F0 : hdr_file_name_length v4 h = fnl).
  { unfold hdr_file_name_length. subst v4.
    rewrite load64_store64_same by lia. apply wrap64_small. subst fnl. lia. }
  assert (F1 : hdr_flushed_eof v4 h = st_size).
  { rewrite <- G1. unfold hdr_flushed_eof. subst v4.
    apply load64_store64_other; lia. }
  assert (F2 : hdr_cached_eof v4 h = st_size).
  { rewrite <- G2. unfold hdr_cached_eof. subst v4.
    apply load64_store64_other; lia. }
  assert (FN : load_bytes v4 (h + sizeof_CACHE_HEADER) (length name + 1)
               = name ++ [Byte.x00]).
  { subst v4. unfold store64.
    rewrite load_store_bytes_other
      by (rewrite ?length_le_split; subst fnl; lia).
    subst v3. replace (length name + 1)%nat with (length (name ++ [Byte.x00]))
      by (rewrite length_app; reflexivity).
    apply load_store_bytes_same; lia. }
  split; [exact S3|]. split; [exact S4|]. split; [exact G1|].
  split; [exact G2|]. split; [exact F0|]. split; [exact F1|].
  split; [exact F2|]. split; [exact FN|].
  subst steps. unfold attach_steps. rewrite Hfnl.
  split.
  { intros k Hk. destruct k as [|[|[|[|k]]]]; try lia;
      cbn [firstn run_steps]; rewrite ?snd_bind_unit;
      cbn [ret snd pm_store64 pm_memcpy media]; exact Hdur. }
  split.
  { intros k Hk. destruct k as [|[|[|[|[|[|k]]]]]]; try lia;
      cbn [firstn run_steps]; rewrite ?snd_bind_unit;
      cbn [ret snd pm_store64 pm_memcpy pmem_persist media view];
      rewrite Hdur; exact M1. }
  cbn [run_steps]. rewrite !snd_bind_unit.
  cbn [ret snd pm_store64 pm_memcpy pmem_persist media view files script
       trace].
  rewrite Hdur. fold v1. fold v2. fold v3. fold v4. rewrite M1, M2.
  repeat split; try reflexivity.
  rewrite <- !app_assoc. reflexivity.
Qed.

(** X10. [pmem_append_cache_attach] on a free slot that is large enough,
    with the mapping durable at the call: the slot header gets the length
    of the name with its null byte and both offsets equal to the size of
    the backing file, the name is stored after the header, all of it is
    durable when the call returns, and nothing outside the header and the
    name is changed.  The handle returned has the ring start after the
    name and the three offsets at the file size, and [open_cache] on the
    slot from then on gives that same layout.  The result is 0, or -1 if
    the flusher thread could not be started: the slot is claimed either
    way. *)
Theorem pmem_append_cache_attach_claims_slot sizeof c d n fd name s
    nm content c1 :
  dummy d = false -> directory_ok d (view s) ->
  Z.of_nat (length (view s)) = mapped_length d -> media s = view s ->
  0 <= n < 2 ^ 64 ->
  hd Succeed (script s) <> Fail ->
  file_of s fd = Some (nm, content) -> Z.of_nat (length content) < 2 ^ 64 ->
  open_cache (set_write (set_file_fd c fd) Cached) d (view s) n = (0, c1) ->
  hdr_file_name_length (view s) (header c1) = 0 ->
  Z.of_nat (length name) + 1 < buffer_size c1 ->
  sizeof_CACHE_HEADER <= sizeof ->
  header c1 + sizeof + Z.of_nat (length name) + 1 <= mapped_length d ->
  let fnl := Z.of_nat (length name) + 1 in
  let st_size := Z.of_nat (length content) in
  let h := header c1 in
  let r := pmem_append_cache_attach sizeof c (Some d) n fd name s in
  fst r = (match hd Succeed (tl (script s)) with Fail => -1 | _ => 0 end,
           mkCache h (h + sizeof_CACHE_HEADER)
                   (h + sizeof_CACHE_HEADER + fnl) (buffer_size c1 - fnl)
                   fd 0 st_size st_size st_size Cached) /\
  media (snd r) = view (snd r) /\ files (snd r) = files s /\
  hdr_file_name_length (view (snd r)) h = fnl /\
  hdr_flushed_eof (view (snd r)) h = st_size /\
  hdr_cached_eof (view (snd r)) h = st_size /\
  load_bytes (view (snd r)) (h + sizeof_CACHE_HEADER) (length name + 1)
  = name ++ [Byte.x00] /\
  (Forall (fun b => b <> Byte.x00) name ->
   cstring (view (snd r)) (h + sizeof_CACHE_HEADER) = name) /\
  same_outside (view s) (view (snd r)) h (h + sizeof_CACHE_HEADER + fnl) /\
  trace (snd r)
  = trace s ++ [ EvFstat fd 0;
                 EvStore (h + off_cached_eof) st_size;
                 EvStore (h + off_flushed_eof) st_size;
                 EvStoreBytes (h + sizeof_CACHE_HEADER) (name ++ [Byte.x00]);
                 EvPersist h (sizeof + fnl);
                 EvStore (h + off_file_name_length) fnl;
                 EvPersist (h + off_file_name_length) 8 ] /\
  forall c',
    open_cache c' d (view (snd r)) n
    = (0, mkCache h (h + sizeof_CACHE_HEADER)
                  (h + sizeof_CACHE_HEADER + fnl) (buffer_size c1 - fnl)
                  (file_fd c') 0 st_size st_size st_size (write c')).
Proof.
  intros Hd Hok Hlen Hdur Hn Hstat Hfile Hsz Hopen Hfree Hfits
         Hsizeof Hpersist fnl st_size h r.
  set (c0 := set_write (set_file_fd c fd) Cached) in *.
  pose proof Hopen as Hopen'.
  apply open_cache_ok_iff in Hopen'; [|assumption|assumption].
  destruct Hopen' as [Hslot Hc1].
  assert (Hh : h = cache_start (view s) n) by (subst h c1; reflexivity).
  assert (Hbs : buffer_size c1
                = cache_end d (view s) n - h - sizeof_CACHE_HEADER).
  { rewrite Hh. subst c1. unfold opened_slot. cbn [buffer_size].
    replace (hdr_file_name_length (view s) (cache_start (view s) n)) with 0
      by (symmetry; exact Hfree). lia. }
  assert (Hfn : file_name c1 = h + sizeof_CACHE_HEADER)
    by (rewrite Hh; subst c1; reflexivity).
  pose proof Hslot as (Hlt & Hcs & Hce & Hal & _).
  rewrite <- Hh in Hcs, Hce, Hal.
  pose proof (eq_refl : sizeof_CACHE_HEADER = 24) as HC.
  pose proof (eq_refl : sizeof_DIRECTORY_HEADER = 16) as HD.
  pose proof Hok as [Hml Hq].
  pose proof (load64_range (view s) off_n_caches) as Rnc.
  fold (n_caches (view s)) in Rnc.
  assert (Hfnl : wrap64 (Z.of_nat (length name) + 1) = fnl)
    by (apply wrap64_small; subst fnl; lia).
  assert (Hfs : snd (my_fstat fd s)
                = mkMachine (view s) (media s) (files s) (tl (script s))
                            (trace s ++ [EvFstat fd 0])).
  { rewrite my_fstat_eq, Hfile.
    destruct (hd Succeed (script s)); first [reflexivity | congruence]. }
  set (s1 := mkMachine (view s) (media s) (files s) (tl (script s))
                       (trace s ++ [EvFstat fd 0])) in *.
  destruct (attach_steps_spec sizeof d n name s1 h st_size)
    as (_ & S4 & _ & _ & F0 & F1 & F2 & FN & _ & _ & Vr & Mr & Fr & Sr & Tr);
    try assumption; try (subst fnl st_size; lia).
  { change (view s1) with (view s). lia. }
  cbv zeta in S4, F0, F1, F2, FN, Vr, Mr, Tr.
  change (view s1) with (view s) in S4, F0, F1, F2, FN, Vr, Mr.
  fold fnl in S4, F0, F1, F2, FN, Vr, Mr, Tr.
  set (v4 := store64
               (store_bytes
                  (store64 (store64 (view s) (h + off_cached_eof) st_size)
                           (h + off_flushed_eof) st_size)
                  (h + sizeof_CACHE_HEADER) (name ++ [Byte.x00]))
               (h + off_file_name_length) fnl) in *.
  assert (Hr : r = pmem_append_cache_attach sizeof c (Some d) n fd name s)
    by reflexivity.
  rewrite (pmem_append_cache_attach_accepted sizeof c d n fd name s nm
             content c1) in Hr; try assumption; [|rewrite Hfnl; exact Hfits].
  fold st_size h in Hr. rewrite Hfs, Hfnl in Hr.
  set (s2 := snd (run_steps (attach_steps sizeof h st_size name) s1)) in *.
  rewrite next_outcome_eq in Hr. rewrite Sr in Hr.
  cbn [snd script s1] in Hr.
  assert (Hshrink : shrink_buffer (set_eofs c1 st_size) fnl
                    = mkCache h (h + sizeof_CACHE_HEADER)
                              (h + sizeof_CACHE_HEADER + fnl)
                              (buffer_size c1 - fnl)
                              fd 0 st_size st_size st_size Cached).
  { unfold shrink_buffer, set_eofs.
    cbn [header file_name buffer buffer_size file_fd stop_flusher
         flushed_eof cached_eof reserved_eof write].
    fold h. rewrite Hfn.
    rewrite wrap64_small by (subst fnl; lia).
    subst c1. unfold opened_slot.
    cbn [buffer file_fd stop_flusher write]. rewrite <- Hh.
    replace (hdr_file_name_length (view s) h) with 0
      by (symmetry; rewrite Hh; exact Hfree).
    subst c0. cbn [set_write set_file_fd file_fd write].
    f_equal. lia. }
  rewrite Hshrink in Hr. clearbody r. subst r.
  cbn [fst snd view media files trace]. rewrite Vr, Mr, Fr, Tr.
  split; [reflexivity|]. split; [reflexivity|]. split; [reflexivity|].
  split; [exact F0|]. split; [exact F1|]. split; [exact F2|].
  split; [exact FN|].
  split; [intros Hname; apply cstring_of_load_bytes; auto; lia|].
  split; [exact S4|].
  split; [cbn [s1 trace]; rewrite <- app_assoc; reflexivity|].
  intros c'.
  destruct (slot_change_keeps_directory d (view s) v4 n h
              (h + sizeof_CACHE_HEADER + fnl))
    as (Hnc & Hstart & Hend & Hok4);
    first [assumption | lia | (split; assumption) | idtac].
  apply open_cache_ok_iff; [exact Hok4 | assumption |].
  unfold slot_ok, opened_slot. rewrite Hnc, Hstart, Hend, <- Hh, F0, F1, F2.
  split; [|f_equal; lia].
  repeat split; try lia.
Qed.

Lemma length_ring_bytes m cache from len :
  length (ring_bytes m cache from len) = len.
Proof. unfold ring_bytes. now rewrite length_map, length_seq. Qed.

Lemma nth_error_ring_bytes m cache from len k :
  (k < len)%nat ->
  nth_error (ring_bytes m cache from len) k
  = Some (nth (Z.to_nat (ring_at cache (from + Z.of_nat k))) m Byte.x00).
Proof.
  intros Hk. unfold ring_bytes.
  rewrite nth_error_map, nth_error_seq.
  destruct (Nat.ltb_spec k len); [|lia]. reflexivity.
Qed.

(** A stretch of the ring that does not wrap is a stretch of the
    mapping. *)
Lemma ring_bytes_chunk m cache from len :
  0 < buffer_size cache -> 0 <= buffer cache -> 0 <= from ->
  from mod buffer_size cache + Z.of_nat len <= buffer_size cache ->
  buffer cache + buffer_size cache <= Z.of_nat (length m) ->
  load_bytes m (ring_at cache from) len = ring_bytes m cache from len.
Proof.
  intros Hsz Hbuf Hfrom Hfit Hlen.
  pose proof (Z.mod_pos_bound from (buffer_size cache) Hsz) as Hmod.
  apply list_eq_nth_error.
  - rewrite length_ring_bytes. apply length_load_bytes; unfold ring_at; lia.
  - intros k Hk. rewrite length_load_bytes in Hk by (unfold ring_at; lia).
    rewrite nth_error_load_bytes by (unfold ring_at; lia).
    rewrite nth_error_ring_bytes by exact Hk.
    assert (Hat : ring_at cache (from + Z.of_nat k)
                  = ring_at cache from + Z.of_nat k).
    { unfold ring_at.
      rewrite (Z.div_mod from (buffer_size cache)) at 1 by lia.
      replace (buffer_size cache * (from / buffer_size cache)
               + from mod buffer_size cache + Z.of_nat k)
        with (from mod buffer_size cache + Z.of_nat k
              + (from / buffer_size cache) * buffer_size cache) by lia.
      rewrite Z.mod_add by lia. rewrite Z.mod_small by lia. lia. }
    rewrite Hat.
    replace (Z.to_nat (ring_at cache from + Z.of_nat k))
      with (Z.to_nat (ring_at cache from) + k)%nat
      by (unfold ring_at; lia).
    apply nth_error_nth'. unfold ring_at. lia.
Qed.

Lemma seq_from (a b : nat) : seq a b = map (Nat.add a) (seq 0 b).
Proof.
  revert a. induction b as [|b IH]; intros a; cbn [seq map].
  - reflexivity.
  - rewrite Nat.add_0_r. f_equal.
    rewrite <- (seq_shift b 0), map_map, IH. apply map_ext.
    intros k. lia.
Qed.

Lemma ring_bytes_app m cache from a b :
  ring_bytes m cache from (a + b)
  = ring_bytes m cache from a ++ ring_bytes m cache (from + Z.of_nat a) b.
Proof.
  unfold ring_bytes. rewrite seq_app, map_app. f_equal.
  rewrite (seq_from (0 + a) b), map_map. apply map_ext.
  intros k. do 3 f_equal. lia.
Qed.

Lemma nth_of_nth_error (m m' : mem) i :
  length m' = length m -> nth_error m' i = nth_error m i ->
  nth i m' Byte.x00 = nth i m Byte.x00.
Proof.
  intros Hlen Heq. destruct (nth_error m i) as [x|] eqn:E.
  - rewrite (nth_error_nth _ _ _ E). apply nth_error_nth. exact Heq.
  - apply nth_error_None in E. rewrite !nth_overflow by lia. reflexivity.
Qed.

(** The ring reads the same in a mapping that differs outside of it. *)
Lemma ring_bytes_same_outside m m' cache lo hi from len :
  same_outside m m' lo hi ->
  0 < buffer_size cache -> 0 <= lo -> hi <= buffer cache ->
  ring_bytes m' cache from len = ring_bytes m cache from len.
Proof.
  intros [Hlen Hsame] Hsz Hlo Hhi. unfold ring_bytes. apply map_ext.
  intros k.
  pose proof (Z.mod_pos_bound (from + Z.of_nat k) (buffer_size cache) Hsz).
  apply nth_of_nth_error; [exact Hlen|]. apply Hsame.
  unfold ring_at. lia.
Qed.

Lemma same_outside_trans m1 m2 m3 lo hi :
  same_outside m1 m2 lo hi -> same_outside m2 m3 lo hi ->
  same_outside m1 m3 lo hi.
Proof.
  intros [L12 S12] [L23 S23]. split; [congruence|].
  intros i Hi. rewrite S23, S12 by exact Hi. reflexivity.
Qed.

Lemma nth_error_replace_nth_same (A : Type) n (l : list A) x :
  (n < length l)%nat -> nth_error (replace_nth n l x) n = Some x.
Proof.
  revert n. induction l as [|y l IH]; intros [|n] Hn; cbn in *;
    try lia; [reflexivity|]. apply IH. lia.
Qed.

Lemma nth_error_replace_nth_other (A : Type) n k (l : list A) x :
  k <> n -> nth_error (replace_nth n l x) k = nth_error l k.
Proof.
  revert n k. induction l as [|y l IH]; intros [|n] [|k] Hk; cbn;
    try reflexivity; try congruence. apply IH. congruence.
Qed.

Lemma file_of_Some s fd x :
  file_of s fd = Some x ->
  0 <= fd /\ (Z.to_nat fd < length (files s))%nat.
Proof.
  unfold file_of. destruct (Z.ltb_spec fd 0); [discriminate|].
  intros Hx. split; [lia|]. apply nth_error_Some. congruence.
Qed.

(** Appending at an offset within the file. *)
Lemma file_write_inside c off bs :
  0 <= off <= Z.of_nat (length c) ->
  file_write c off bs
  = firstn (Z.to_nat off) c ++ bs ++ skipn (Z.to_nat off + length bs) c.
Proof.
  intros Hoff. unfold file_write.
  replace (Z.to_nat off - length c)%nat with 0%nat by lia.
  cbn [repeat]. rewrite app_nil_r. reflexivity.
Qed.

Lemma firstn_two (A : Type) (p q t : list A) :
  firstn (length p + length q) (p ++ q ++ t) = p ++ q.
Proof.
  rewrite app_assoc, <- length_app, firstn_app, firstn_all.
  rewrite Nat.sub_diag. cbn [firstn]. apply app_nil_r.
Qed.

Lemma skipn_two (A : Type) (p q t : list A) k :
  skipn (length p + length q + k) (p ++ q ++ t) = skipn k t.
Proof.
  rewrite app_assoc, <- length_app, skipn_app.
  rewrite skipn_all2 by lia. cbn [app]. f_equal. lia.
Qed.

Lemma set_flushed_eof_same cache :
  set_flushed_eof cache (flushed_eof cache) = cache.
Proof. destruct cache. reflexivity. Qed.

Lemma my_pwrite_eq fd src count off s nm c :
  file_of s fd = Some (nm, c) ->
  my_pwrite fd src count off s
  = let w := match hd Succeed (script s) with
             | Fail => -1
             | Succeed => count
             | Partial n => Z.max 0 (Z.min n count)
             end in
    (w, mkMachine (view s) (media s)
          (if w <? 0 then files s
           else replace_nth (Z.to_nat fd) (files s)
                  (nm, file_write c off
                         (load_bytes (view s) src (Z.to_nat w))))
          (tl (script s)) (trace s ++ [EvPwrite fd src count off w])).
Proof.
  intros Hfile. unfold my_pwrite, bind. rewrite next_outcome_eq.
  change (file_of (mkMachine (view s) (media s) (files s) (tl (script s))
                             (trace s)) fd) with (file_of s fd).
  rewrite Hfile. destruct (hd Succeed (script s)); reflexivity.
Qed.

Lemma my_sync_eq fd s x :
  file_of s fd = Some x ->
  my_sync fd s
  = let r := match hd Succeed (script s) with Fail => -1 | _ => 0 end in
    (r, mkMachine (view s) (media s) (files s) (tl (script s))
                  (trace s ++ [EvSync fd r])).
Proof.
  intros Hfile. unfold my_sync, bind. rewrite next_outcome_eq.
  change (file_of (mkMachine (view s) (media s) (files s) (tl (script s))
                             (trace s)) fd) with (file_of s fd).
  rewrite Hfile. destruct (hd Succeed (script s)); reflexivity.
Qed.

Lemma drained_to_refl cache nm fe c s :
  drain_ready cache nm fe c s -> drained_to cache nm fe fe fe c s s.
Proof.
  intros (Hring & Hmed & Hfe & Hv & Hm & Hfile & Hlen).
  unfold drained_to. rewrite Z.sub_diag. cbn [Z.to_nat ring_bytes seq map app].
  rewrite firstn_skipn.
  repeat split; auto; lia.
Qed.

Section Drain.

Variables (cache : PMEM_APPEND_CACHE) (nm : list byte).

Hypothesis Hsize : 0 < buffer_size cache < 2 ^ 64.

Hypothesis Hheader :
  0 <= header cache /\ header cache + sizeof_CACHE_HEADER <= buffer cache.

Hypothesis Hcached : cached_eof cache < 2 ^ 64.

(** The file once the ring's bytes from [fe] to [fe + w] are written at
    [fe]. *)
Lemma file_write_ring c fe w m :
  0 <= fe <= Z.of_nat (length c) -> 0 <= w ->
  file_write c fe (ring_bytes m cache fe (Z.to_nat w))
  = firstn (Z.to_nat fe) c
    ++ ring_bytes m cache fe (Z.to_nat (fe + w - fe))
    ++ skipn (Z.to_nat (fe + w)) c.
Proof.
  intros Hfe Hw. rewrite file_write_inside by exact Hfe.
  rewrite length_ring_bytes.
  replace (fe + w - fe) with w by lia.
  do 3 f_equal. lia.
Qed.

(** One pass of the loop. *)
Lemma flush_pass_spec fe c s :
  fe < cached_eof cache -> drain_ready cache nm fe c s ->
  let b := flush_cache_body cache fe s in
  exists w,
    0 <= w /\ fe + w <= cached_eof cache /\
    match fst b with
    | FlushReturn res cache' =>
        res = -1 /\ cache' = cache /\
        drained_to cache nm fe fe (fe + w) c s (snd b)
    | FlushAgain v cache' =>
        v = fe + w /\ cache' = set_flushed_eof cache v /\
        drained_to cache nm fe v v c s (snd b)
    end.
Proof.
  intros Hlt Hready b.
  pose proof Hready as (Hring & Hmed & Hfe & Hv & Hm & Hfile & Hlen).
  destruct Hheader as [Hh0 Hhb].
  pose proof (eq_refl : sizeof_CACHE_HEADER = 24) as HC.
  pose proof (eq_refl : off_flushed_eof = 8) as O1.
  destruct (flush_write_size_bounds cache fe Hsize (proj1 Hfe) Hlt Hcached)
    as (Hws0 & Hwsfit & Hwsle).
  set (ws := flush_write_size cache fe (cached_eof cache)) in *.
  destruct (file_of_Some s _ _ Hfile) as [Hfd0 Hfdlen].
  assert (Hb : b = flush_cache_body cache fe s) by reflexivity.
  clearbody b. rewrite (flush_cache_body_eq cache fe s Hlt) in Hb.
  cbv zeta in Hb. rewrite (my_pwrite_eq _ _ _ _ _ nm c Hfile) in Hb.
  cbv beta iota zeta in Hb. fold ws in Hb.
  set (w := match hd Succeed (script s) with
            | Fail => -1
            | Succeed => ws
            | Partial n => Z.max 0 (Z.min n ws)
            end) in *.
  assert (Hw : w = -1 \/ 0 <= w <= ws).
  { subst w. destruct (hd Succeed (script s)); lia. }
  assert (Hcase : w < 0 \/ 0 <= w) by lia.
  destruct Hcase as [Hneg | Hpos];
    [ assert (Ew : (w <? 0) = true) by (apply Z.ltb_lt; exact Hneg)
    | assert (Ew : (w <? 0) = false) by (apply Z.ltb_ge; exact Hpos) ];
    rewrite Ew in Hb.
  { (* the write fails *)
    exists 0. subst b. cbn [fst snd].
    split; [lia|]. split; [lia|]. split; [reflexivity|].
    split; [reflexivity|]. rewrite Z.add_0_r.
    destruct (drained_to_refl cache nm fe c s Hready)
      as (H1 & H2 & H3 & H4 & H5 & H6 & H7 & H8).
    unfold drained_to. cbn [view media].
    split; [exact H1|]. split; [exact H2|]. split; [exact H3|].
    split; [exact H4|]. split; [exact H5|]. split; [exact H6|].
    split; [exact H7 | exact H8]. }
  assert (Hchunk : load_bytes (view s) (buffer cache + fe mod buffer_size cache)
                     (Z.to_nat w)
                   = ring_bytes (view s) cache fe (Z.to_nat w)).
  { apply ring_bytes_chunk; lia. }
  rewrite Hchunk, file_write_ring in Hb by lia.
  set (c1 := firstn (Z.to_nat fe) c
             ++ ring_bytes (view s) cache fe (Z.to_nat (fe + w - fe))
             ++ skipn (Z.to_nat (fe + w)) c) in *.
  set (s1 := mkMachine (view s) (media s)
               (replace_nth (Z.to_nat (file_fd cache)) (files s) (nm, c1))
               (tl (script s))
               (trace s ++ [EvPwrite (file_fd cache)
                              (buffer cache + fe mod buffer_size cache)
                              ws fe w])) in *.
  assert (Hfile1 : file_of s1 (file_fd cache) = Some (nm, c1)).
  { unfold file_of. destruct (Z.ltb_spec (file_fd cache) 0); [lia|].
    subst s1. cbn [files]. apply nth_error_replace_nth_same. exact Hfdlen. }
  assert (Hother1 : forall fd', fd' <> file_fd cache ->
                                file_of s1 fd' = file_of s fd').
  { intros fd' Hne. unfold file_of.
    destruct (Z.ltb_spec fd' 0); [reflexivity|].
    subst s1. cbn [files]. apply nth_error_replace_nth_other. lia. }
  rewrite (my_sync_eq _ _ _ Hfile1) in Hb. cbv beta iota zeta in Hb.
  exists w. split; [lia|]. split; [lia|].
  destruct (hd Succeed (script s1)) eqn:Esync.
  1,3: cbn [Z.eqb negb] in Hb; subst b; cbn [fst snd];
       rewrite wrap64_small by lia;
       (split; [reflexivity|]); (split; [reflexivity|]);
       unfold drained_to, flushed_eof_advanced;
       cbn [view media files script trace];
       change (view s1) with (view s); change (media s1) with (media s);
       (split; [lia|]); (split; [lia|]);
       (split; [apply same_outside_store64;
                  [apply same_outside_refl | lia | lia | lia | lia]|]);
       (split; [apply same_outside_store_bytes;
                  [apply same_outside_refl | lia | lia
                  | rewrite length_load_bytes
                      by (rewrite ?length_store64; lia); lia
                  | lia]|]);
       (split; [unfold hdr_flushed_eof;
                rewrite load64_store64_same by lia;
                apply wrap64_small; lia|]);
       (split; [unfold hdr_flushed_eof;
                rewrite load64_persisted
                  by (rewrite ?length_store64; lia);
                rewrite load64_store64_same by lia;
                apply wrap64_small; lia|]);
       (split; [exact Hfile1 | exact Hother1]).
  (* the sync fails *)
  cbn [Z.eqb negb] in Hb. subst b. cbn [fst snd].
  split; [reflexivity|]. split; [reflexivity|].
  unfold drained_to. cbn [view media].
  split; [lia|]. split; [lia|].
  split; [apply same_outside_refl|]. split; [apply same_outside_refl|].
  split; [exact Hv|]. split; [exact Hm|].
  split; [exact Hfile1 | exact Hother1].
Qed.

End Drain.

Section DrainLoop.

Variable nm : list byte.

(** The file after a pass that has advanced the header to [v]. *)
Let after (cache : PMEM_APPEND_CACHE) (fe v : Z) (c : list byte)
    (s : machine) : list byte :=
  firstn (Z.to_nat fe) c
  ++ ring_bytes (view s) cache fe (Z.to_nat (v - fe))
  ++ skipn (Z.to_nat v) c.

Lemma drained_to_ready cache fe v c s s1 :
  drain_ready cache nm fe c s ->
  drained_to cache nm fe v v c s s1 ->
  drain_ready (set_flushed_eof cache v) nm v (after cache fe v c s) s1.
Proof.
  intros (Hring & Hmed & Hfe & Hv & Hm & Hfile & Hlen)
         (Hle & Hce & [Lv _] & [Lm _] & Hv1 & Hm1 & Hfile1 & _).
  unfold drain_ready.
  cbn [set_flushed_eof buffer buffer_size header file_fd cached_eof].
  repeat split; try lia; try assumption.
  unfold after. rewrite !length_app, length_firstn, length_ring_bytes. lia.
Qed.

Lemma drained_to_trans cache fe v fe' e c s s1 s2 :
  0 < buffer_size cache ->
  0 <= header cache ->
  header cache + sizeof_CACHE_HEADER <= buffer cache ->
  drain_ready cache nm fe c s ->
  drained_to cache nm fe v v c s s1 ->
  drained_to (set_flushed_eof cache v) nm v fe' e (after cache fe v c s)
             s1 s2 ->
  drained_to cache nm fe fe' e c s s2.
Proof.
  intros Hsz Hh0 Hhb (Hring & Hmed & Hfe & Hv & Hm & Hfile & Hlen)
         (Hle & Hce & Sv & Sm & Hv1 & Hm1 & Hfile1 & Ho1)
         (Hle2 & Hce2 & Sv2 & Sm2 & Hv2 & Hm2 & Hfile2 & Ho2).
  cbn [set_flushed_eof buffer buffer_size header file_fd cached_eof] in *.
  pose proof (eq_refl : sizeof_CACHE_HEADER = 24) as HC.
  pose proof (eq_refl : off_flushed_eof = 8) as O1.
  unfold drained_to.
  split; [lia|]. split; [lia|].
  split; [eapply same_outside_trans; eassumption|].
  split; [eapply same_outside_trans; eassumption|].
  split; [exact Hv2|]. split; [exact Hm2|]. split.
  - rewrite Hfile2. f_equal. f_equal. unfold after.
    set (p := firstn (Z.to_nat fe) c).
    set (q := ring_bytes (view s) cache fe (Z.to_nat (v - fe))).
    assert (Lp : length p = Z.to_nat fe)
      by (subst p; rewrite length_firstn; lia).
    assert (Lq : length q = Z.to_nat (v - fe))
      by (subst q; apply length_ring_bytes).
    replace (Z.to_nat v) with (length p + length q)%nat at 1 by lia.
    rewrite firstn_two.
    replace (Z.to_nat e) with (length p + length q + Z.to_nat (e - v))%nat
      at 1 by lia.
    rewrite skipn_two, skipn_skipn.
    replace (Z.to_nat (e - v) + Z.to_nat v)%nat with (Z.to_nat e) by lia.
    rewrite <- app_assoc. f_equal. rewrite app_assoc. f_equal.
    subst q.
    change (ring_bytes (view s1) (set_flushed_eof cache v) v
                       (Z.to_nat (e - v)))
      with (ring_bytes (view s1) cache v (Z.to_nat (e - v))).
    rewrite (ring_bytes_same_outside (view s) (view s1) cache
               (header cache + off_flushed_eof)
               (header cache + off_flushed_eof + 8)) by (auto; lia).
    replace (Z.to_nat (e - fe))
      with (Z.to_nat (v - fe) + Z.to_nat (e - v))%nat by lia.
    rewrite ring_bytes_app. do 2 f_equal. lia.
  - intros fd' Hne. rewrite Ho2, Ho1 by exact Hne. reflexivity.
Qed.

(** The loop of [flush_cache], whatever the calls on the file return and
    however many passes are allowed. *)
Lemma flush_cache_loop_spec fuel : forall cache fe c s,
  0 < buffer_size cache < 2 ^ 64 ->
  0 <= header cache ->
  header cache + sizeof_CACHE_HEADER <= buffer cache ->
  cached_eof cache < 2 ^ 64 ->
  flushed_eof cache = fe ->
  drain_ready cache nm fe c s ->
  let r := flush_cache_loop fuel cache fe s in
  exists fe' e,
    drained_to cache nm fe fe' e c s (snd r) /\
    match fst r with
    | Some (res, cache') =>
        cache' = set_flushed_eof cache fe' /\
        (res = 0 /\ fe' = cached_eof cache /\ e = fe' \/ res = -1)
    | None => e = fe'
    end.
Proof.
  induction fuel as [|fuel IH]; intros cache fe c s Hsz Hh0 Hhb Hca Hfl Hready.
  - cbn [flush_cache_loop ret fst snd]. exists fe, fe.
    split; [apply drained_to_refl, Hready | reflexivity].
  - assert (Hfe : 0 <= fe <= cached_eof cache) by apply Hready.
    rewrite flush_cache_loop_S.
    destruct (Z.ltb_spec fe (cached_eof cache)) as [Hlt | Hge].
    + destruct (flush_pass_spec cache nm Hsz (conj Hh0 Hhb) Hca fe c s
                  Hlt Hready) as (w & Hw0 & Hw & Hpass).
      destruct (flush_cache_body cache fe s) as [[res cache' | v cache'] s1].
      * cbn [fst snd] in *. destruct Hpass as (-> & -> & Hd).
        exists fe, (fe + w). split; [exact Hd|].
        split; [rewrite <- Hfl; symmetry; apply set_flushed_eof_same|].
        right. reflexivity.
      * cbn [fst snd] in *. destruct Hpass as (Hv & -> & Hd).
        pose proof (drained_to_ready cache fe v c s s1 Hready Hd) as Hready1.
        destruct (IH (set_flushed_eof cache v) v (after cache fe v c s) s1)
          as (fe' & e & Hd2 & Hres);
          cbn [set_flushed_eof buffer buffer_size header cached_eof
               flushed_eof]; auto.
        exists fe', e. split.
        { apply (drained_to_trans cache fe v fe' e c s s1);
            auto; lia. }
        destruct (fst (flush_cache_loop fuel (set_flushed_eof cache v) v s1))
          as [[res cache']|]; [|exact Hres].
        destruct Hres as [-> Hres]. split; [reflexivity|].
        exact Hres.
    + assert (Hb : flush_cache_body cache fe s = (FlushReturn 0 cache, s)).
      { unfold flush_cache_body.
        destruct (Z.ltb_spec fe (cached_eof cache)); [lia | reflexivity]. }
      rewrite Hb. cbn [fst snd]. exists fe, fe.
      split; [apply drained_to_refl, Hready|].
      split; [rewrite <- Hfl; symmetry; apply set_flushed_eof_same|].
      left. repeat split; lia.
Qed.

End DrainLoop.

(** A pass uses up the outcome of its write and, when it gets there, that
    of its sync. *)
Lemma flush_pass_script cache nm fe c s :
  fe < cached_eof cache -> file_of s (file_fd cache) = Some (nm, c) ->
  let b := flush_cache_body cache fe s in
  script (snd b) = tl (script s) \/ script (snd b) = tl (tl (script s)).
Proof.
  intros Hlt Hfile b.
  assert (Hb : b = flush_cache_body cache fe s) by reflexivity.
  clearbody b. rewrite (flush_cache_body_eq cache fe s Hlt) in Hb.
  cbv zeta in Hb. rewrite (my_pwrite_eq _ _ _ _ _ nm c Hfile) in Hb.
  cbv beta iota zeta in Hb.
  destruct (_ <? 0) in Hb; [subst b; left; reflexivity|].
  unfold my_sync, bind in Hb. rewrite next_outcome_eq in Hb.
  cbn [script view media files trace] in Hb.
  destruct (negb _) in Hb; subst b; right; reflexivity.
Qed.

(** With every call succeeding in full, a pass writes the whole chunk. *)
Lemma flush_pass_quiet cache nm fe c s :
  0 < buffer_size cache < 2 ^ 64 -> cached_eof cache < 2 ^ 64 ->
  0 <= fe < cached_eof cache -> file_of s (file_fd cache) = Some (nm, c) ->
  script s = [] ->
  let v := fe + flush_write_size cache fe (cached_eof cache) in
  fst (flush_cache_body cache fe s)
  = FlushAgain v (set_flushed_eof cache v).
Proof.
  intros Hsz Hca Hfe Hfile Hscr v.
  destruct (flush_write_size_bounds cache fe Hsz (proj1 Hfe) (proj2 Hfe) Hca)
    as (Hws0 & _ & Hwsle).
  destruct (file_of_Some s _ _ Hfile) as [Hfd0 Hfdlen].
  rewrite (flush_cache_body_eq cache fe s (proj2 Hfe)).
  cbv zeta. rewrite (my_pwrite_eq _ _ _ _ _ nm c Hfile).
  cbv beta iota zeta. rewrite Hscr. cbn [hd tl].
  set (ws := flush_write_size cache fe (cached_eof cache)) in *.
  destruct (Z.ltb_spec ws 0); [lia|].
  unfold my_sync, bind. rewrite next_outcome_eq.
  cbn [script view media files trace hd tl].
  match goal with
  | |- context [file_of ?m (file_fd cache)] =>
      assert (Hf : file_of m (file_fd cache)
                   = nth_error (files m) (Z.to_nat (file_fd cache)))
        by (unfold file_of; destruct (Z.ltb_spec (file_fd cache) 0);
            [lia | reflexivity]);
      rewrite Hf; cbn [files];
      rewrite nth_error_replace_nth_same by exact Hfdlen
  end.
  cbn [Z.eqb negb fst]. subst v. rewrite wrap64_small by lia. reflexivity.
Qed.

(** Once the first chunk has gone up to the end of the ring, what is left
    lies in one stretch. *)
Lemma second_chunk_is_last bs fe ca :
  0 < bs -> 0 <= fe -> fe < ca -> ca - fe <= bs ->
  ca / bs <> fe / bs ->
  let v := fe + (bs - fe mod bs) in
  v <= ca /\ (v < ca -> ca / bs = v / bs).
Proof.
  intros Hbs Hfe Hlt Hfit Hne v.
  pose proof (Z.div_mod fe bs ltac:(lia)) as Dfe.
  pose proof (Z.div_mod ca bs ltac:(lia)) as Dca.
  pose proof (Z.mod_pos_bound fe bs ltac:(lia)) as Mfe.
  pose proof (Z.mod_pos_bound ca bs ltac:(lia)) as Mca.
  assert (Hq : fe / bs < ca / bs).
  { assert (fe / bs <= ca / bs) by (apply Z.div_le_mono; lia). lia. }
  assert (Hv : v = bs * (fe / bs + 1)) by (subst v; lia).
  split; [nia|]. intros Hvlt.
  assert (Hvq : v / bs = fe / bs + 1).
  { rewrite Hv, Z.mul_comm. apply Z.div_mul. lia. }
  rewrite Hvq. nia.
Qed.

Section DrainEnds.

Variable nm : list byte.

(** A pass that goes round again leaves the machine ready for the next
    one. *)
Lemma flush_pass_again cache fe c s v cache1 s1 :
  0 < buffer_size cache < 2 ^ 64 ->
  0 <= header cache /\ header cache + sizeof_CACHE_HEADER <= buffer cache ->
  cached_eof cache < 2 ^ 64 ->
  fe < cached_eof cache -> drain_ready cache nm fe c s ->
  flush_cache_body cache fe s = (FlushAgain v cache1, s1) ->
  fe <= v <= cached_eof cache /\ cache1 = set_flushed_eof cache v /\
  (length (script s1) <= length (script s) - 1)%nat /\
  exists c1, drain_ready cache1 nm v c1 s1.
Proof.
  intros Hsz Hh Hca Hlt Hready Hb.
  destruct (flush_pass_spec cache nm Hsz Hh Hca fe c s Hlt Hready)
    as (w & Hw0 & Hw & Hpass).
  assert (Hfile : file_of s (file_fd cache) = Some (nm, c)) by apply Hready.
  pose proof (flush_pass_script cache nm fe c s Hlt Hfile) as Hscr.
  rewrite Hb in Hpass, Hscr. cbn [fst snd] in Hpass, Hscr.
  destruct Hpass as (Hv & -> & Hd).
  split; [lia|]. split; [reflexivity|]. split.
  - destruct Hscr as [-> | ->]; destruct (script s) as [|o [|o' rest]];
      cbn [tl length]; lia.
  - eexists. apply (drained_to_ready nm cache fe v c s s1 Hready Hd).
Qed.

(** With every call succeeding in full and what is left lying in one
    stretch of the ring, one pass drains it. *)
Lemma flush_cache_loop_one_stretch k cache fe c s :
  0 < buffer_size cache < 2 ^ 64 ->
  0 <= header cache /\ header cache + sizeof_CACHE_HEADER <= buffer cache ->
  cached_eof cache < 2 ^ 64 -> drain_ready cache nm fe c s ->
  script s = [] ->
  fe = cached_eof cache
  \/ cached_eof cache / buffer_size cache = fe / buffer_size cache ->
  exists cache', fst (flush_cache_loop (S (S k)) cache fe s)
                 = Some (0, cache').
Proof.
  intros Hsz Hh Hca Hready Hscr Hone.
  assert (Hfe : 0 <= fe <= cached_eof cache) by apply Hready.
  assert (Hfile : file_of s (file_fd cache) = Some (nm, c)) by apply Hready.
  rewrite flush_cache_loop_S.
  destruct (Z.ltb_spec fe (cached_eof cache)) as [Hlt | Hge].
  - destruct Hone as [-> | Hlap]; [lia|].
    pose proof (flush_pass_quiet cache nm fe c s Hsz Hca
                  (conj (proj1 Hfe) Hlt) Hfile Hscr) as Hq.
    cbv zeta in Hq.
    assert (Hws : flush_write_size cache fe (cached_eof cache)
                  = cached_eof cache - fe).
    { unfold flush_write_size. rewrite Hlap, Z.eqb_refl.
      apply wrap64_small. lia. }
    rewrite Hws in Hq.
    replace (fe + (cached_eof cache - fe)) with (cached_eof cache) in Hq
      by lia.
    destruct (flush_cache_body cache fe s) as [st s1]. cbn [fst] in Hq.
    subst st. rewrite flush_cache_loop_S. unfold flush_cache_body.
    cbn [set_flushed_eof cached_eof].
    rewrite Z.ltb_irrefl. cbn [ret fst]. eexists. reflexivity.
  - unfold flush_cache_body.
    destruct (Z.ltb_spec fe (cached_eof cache)); [lia|].
    cbn [ret fst]. eexists. reflexivity.
Qed.

(** With every call succeeding in full, two passes drain a ring that holds
    no more than its size. *)
Lemma flush_cache_loop_quiet k cache fe c s :
  0 < buffer_size cache < 2 ^ 64 ->
  0 <= header cache /\ header cache + sizeof_CACHE_HEADER <= buffer cache ->
  cached_eof cache < 2 ^ 64 -> drain_ready cache nm fe c s ->
  script s = [] ->
  cached_eof cache - fe <= buffer_size cache ->
  exists cache', fst (flush_cache_loop (S (S (S k))) cache fe s)
                 = Some (0, cache').
Proof.
  intros Hsz Hh Hca Hready Hscr Hfit.
  assert (Hfe : 0 <= fe <= cached_eof cache) by apply Hready.
  assert (Hfile : file_of s (file_fd cache) = Some (nm, c)) by apply Hready.
  destruct (Z.eq_dec (cached_eof cache / buffer_size cache)
                     (fe / buffer_size cache)) as [Hlap | Hlap].
  { apply flush_cache_loop_one_stretch with (c := c); auto. }
  destruct (Z.ltb_spec fe (cached_eof cache)) as [Hlt | Hge];
    [|apply flush_cache_loop_one_stretch with (c := c); auto; left; lia].
  rewrite flush_cache_loop_S.
  pose proof (flush_pass_quiet cache nm fe c s Hsz Hca
                (conj (proj1 Hfe) Hlt) Hfile Hscr) as Hq.
  cbv zeta in Hq.
  assert (Hws : flush_write_size cache fe (cached_eof cache)
                = buffer_size cache - fe mod buffer_size cache).
  { unfold flush_write_size.
    destruct (Z.eqb_spec (cached_eof cache / buffer_size cache)
                         (fe / buffer_size cache)); [contradiction|].
    apply wrap64_small.
    pose proof (Z.mod_pos_bound fe (buffer_size cache) ltac:(lia)). lia. }
  rewrite Hws in Hq.
  destruct (second_chunk_is_last (buffer_size cache) fe (cached_eof cache))
    as [Hvle Hvlap]; try lia.
  set (v := fe + (buffer_size cache - fe mod buffer_size cache)) in *.
  destruct (flush_cache_body cache fe s) as [st s1] eqn:Eb.
  cbn [fst] in Hq. subst st.
  destruct (flush_pass_again cache fe c s v _ s1 Hsz Hh Hca Hlt Hready Eb)
    as (_ & _ & Hlen & c1 & Hready1).
  apply flush_cache_loop_one_stretch with (c := c1);
    cbn [set_flushed_eof buffer buffer_size header cached_eof]; auto.
  - rewrite Hscr in Hlen. cbn [length] in Hlen.
    destruct (script s1); [reflexivity | cbn [length] in Hlen; lia].
  - destruct (Z.eq_dec v (cached_eof cache)); [left; assumption|].
    right. apply Hvlap. lia.
Qed.

(** The loop ends, whatever the calls return, once the outcomes that
    were set for them are used up. *)
Lemma flush_cache_loop_ends n : forall fuel cache fe c s,
  (length (script s) <= n)%nat -> (n + 3 <= fuel)%nat ->
  0 < buffer_size cache < 2 ^ 64 ->
  0 <= header cache /\ header cache + sizeof_CACHE_HEADER <= buffer cache ->
  cached_eof cache < 2 ^ 64 -> drain_ready cache nm fe c s ->
  cached_eof cache - fe <= buffer_size cache ->
  fst (flush_cache_loop fuel cache fe s) <> None.
Proof.
  induction n as [|n IH]; intros fuel cache fe c s Hlen Hfuel Hsz Hh Hca
                                 Hready Hfit.
  - destruct fuel as [|[|[|k]]]; try lia.
    destruct (flush_cache_loop_quiet k cache fe c s) as [cache' Hq]; auto.
    { destruct (script s); [reflexivity | cbn [length] in Hlen; lia]. }
    rewrite Hq. discriminate.
  - destruct fuel as [|fuel]; [lia|].
    rewrite flush_cache_loop_S.
    destruct (flush_cache_body cache fe s) as [[res cache' | v cache1] s1]
      eqn:Eb; [cbn [fst]; discriminate|].
    assert (Hlt : fe < cached_eof cache).
    { destruct (Z.ltb_spec fe (cached_eof cache)) as [|Hge]; [assumption|].
      unfold flush_cache_body in Eb.
      destruct (Z.ltb_spec fe (cached_eof cache)); [lia | discriminate]. }
    destruct (flush_pass_again cache fe c s v cache1 s1 Hsz Hh Hca Hlt
                Hready Eb) as (Hv & -> & Hlen1 & c1 & Hready1).
    apply IH with (c := c1);
      cbn [set_flushed_eof buffer buffer_size header cached_eof];
      auto; lia.
Qed.

(** X11. When [flush_cache] returns 0, with no writer at work meanwhile:
    the backing file is what it was up to [flushed_eof], then the bytes the
    ring held for the offsets from [flushed_eof] up to [cached_eof], then
    what it had beyond [cached_eof]; [flushed_eof] of the handle, of the
    mapped header and of the durable header is [cached_eof]; no other file
    is touched and, in the mapping and on the media, only the eight bytes
    of the header's [flushed_eof] have changed. *)
Theorem flush_cache_appends_ring fuel cache c s cache' s' :
  0 < buffer_size cache < 2 ^ 64 ->
  0 <= header cache /\ header cache + sizeof_CACHE_HEADER <= buffer cache ->
  cached_eof cache < 2 ^ 64 ->
  drain_ready cache nm (flushed_eof cache) c s ->
  flush_cache fuel cache s = (Some (0, cache'), s') ->
  cache' = set_flushed_eof cache (cached_eof cache) /\
  hdr_flushed_eof (view s') (header cache) = cached_eof cache /\
  hdr_flushed_eof (media s') (header cache) = cached_eof cache /\
  file_of s' (file_fd cache)
  = Some (nm, firstn (Z.to_nat (flushed_eof cache)) c
              ++ ring_bytes (view s) cache (flushed_eof cache)
                   (Z.to_nat (cached_eof cache - flushed_eof cache))
              ++ skipn (Z.to_nat (cached_eof cache)) c) /\
  (forall fd', fd' <> file_fd cache -> file_of s' fd' = file_of s fd') /\
  same_outside (view s) (view s') (header cache + off_flushed_eof)
               (header cache + off_flushed_eof + 8) /\
  same_outside (media s) (media s') (header cache + off_flushed_eof)
               (header cache + off_flushed_eof + 8).
Proof.
  intros Hsz [Hh0 Hhb] Hca Hready Hrun. unfold flush_cache in Hrun.
  destruct (flush_cache_loop_spec nm fuel cache (flushed_eof cache) c s
              Hsz Hh0 Hhb Hca eq_refl Hready) as (fe' & e & Hd & Hres).
  rewrite Hrun in Hd, Hres. cbn [fst snd] in Hd, Hres.
  destruct Hres as [-> [(_ & -> & ->) | Hbad]]; [|discriminate].
  destruct Hd as (_ & _ & Sv & Sm & Hv & Hm & Hfile & Hothers).
  split; [reflexivity|]. split; [exact Hv|]. split; [exact Hm|].
  split; [exact Hfile|]. split; [exact Hothers|].
  split; [exact Sv | exact Sm].
Qed.

(** X12. [flush_cache] with no more than a ring of bytes to drain
    returns within as many passes as the file system has scripted answers,
    and three more; it returns 0 or -1, and 0 when no call fails. *)
Theorem flush_cache_terminates fuel cache c s :
  0 < buffer_size cache < 2 ^ 64 ->
  0 <= header cache /\ header cache + sizeof_CACHE_HEADER <= buffer cache ->
  cached_eof cache < 2 ^ 64 ->
  drain_ready cache nm (flushed_eof cache) c s ->
  cached_eof cache - flushed_eof cache <= buffer_size cache ->
  (length (script s) + 3 <= fuel)%nat ->
  exists res cache',
    fst (flush_cache fuel cache s) = Some (res, cache') /\
    (res = 0 \/ res = -1) /\ (script s = [] -> res = 0).
Proof.
  intros Hsz Hh Hca Hready Hfit Hfuel. unfold flush_cache.
  pose proof (flush_cache_loop_ends (length (script s)) fuel cache
                (flushed_eof cache) c s (Nat.le_refl _) Hfuel Hsz Hh Hca
                Hready Hfit) as Hends.
  destruct (flush_cache_loop_spec nm fuel cache (flushed_eof cache) c s
              Hsz (proj1 Hh) (proj2 Hh) Hca eq_refl Hready)
    as (fe' & e & _ & Hres).
  destruct (fst (flush_cache_loop fuel cache (flushed_eof cache) s))
    as [[res cache']|] eqn:Er; [|now elim Hends].
  exists res, cache'. split; [reflexivity|]. split; [lia|].
  intros Hscr. destruct fuel as [|[|[|k]]]; try lia.
  destruct (flush_cache_loop_quiet k cache (flushed_eof cache) c s)
    as [cache2 Hq]; auto.
  rewrite Hq in Er. congruence.
Qed.

(** X13. However a run of [flush_cache] ends (done, failed, or stopped
    after any number of passes), the durable [flushed_eof] stays between
    the old [flushed_eof] and [cached_eof], the mapped one equals it, and
    the backing file holds, up to that offset, its old contents followed by
    the ring's bytes: the header never says more than the file has. *)
Theorem flush_cache_header_never_ahead fuel cache c s :
  0 < buffer_size cache < 2 ^ 64 ->
  0 <= header cache /\ header cache + sizeof_CACHE_HEADER <= buffer cache ->
  cached_eof cache < 2 ^ 64 ->
  drain_ready cache nm (flushed_eof cache) c s ->
  let s' := snd (flush_cache fuel cache s) in
  let durable := hdr_flushed_eof (media s') (header cache) in
  flushed_eof cache <= durable <= cached_eof cache /\
  hdr_flushed_eof (view s') (header cache) = durable /\
  exists c',
    file_of s' (file_fd cache) = Some (nm, c') /\
    firstn (Z.to_nat durable) c'
    = firstn (Z.to_nat (flushed_eof cache)) c
      ++ ring_bytes (view s) cache (flushed_eof cache)
           (Z.to_nat (durable - flushed_eof cache)).
Proof.
  intros Hsz [Hh0 Hhb] Hca Hready s' durable.
  assert (Hfe : 0 <= flushed_eof cache <= cached_eof cache) by apply Hready.
  assert (Hlen : flushed_eof cache <= Z.of_nat (length c)) by apply Hready.
  destruct (flush_cache_loop_spec nm fuel cache (flushed_eof cache) c s
              Hsz Hh0 Hhb Hca eq_refl Hready) as (fe' & e & Hd & _).
  fold (flush_cache fuel cache s) in Hd. fold s' in Hd.
  destruct Hd as (Hle & Hce & _ & _ & Hv & Hm & Hfile & _).
  subst durable. rewrite Hm. clear Hm. set (durable := fe') in *.
  split; [lia|]. split; [exact Hv|].
  eexists. split; [exact Hfile|].
  set (fl := flushed_eof cache) in *.
  set (p := firstn (Z.to_nat fl) c).
  assert (Lp : length p = Z.to_nat fl)
    by (subst p; rewrite length_firstn; lia).
  replace (Z.to_nat (e - fl))
    with (Z.to_nat (durable - fl) + Z.to_nat (e - durable))%nat by lia.
  rewrite ring_bytes_app, <- app_assoc.
  set (q := ring_bytes (view s) cache fl (Z.to_nat (durable - fl))).
  assert (Lq : length q = Z.to_nat (durable - fl))
    by (subst q; apply length_ring_bytes).
  replace (Z.to_nat durable) with (length p + length q)%nat by lia.
  apply firstn_two.
Qed.

End DrainEnds.

(** X14. [pmem_append_cache_detach] of a cached handle whose flusher
    thread is joined and with no writer at work: the result is never -1;
    with at most a ring of bytes to drain and passes enough it returns, and
    returns 0 when no call fails.  When it returns 0 the slot is free in
    the mapping and on the media, the durable [flushed_eof] is
    [cached_eof], and the backing file has received the bytes of the
    ring. *)
Theorem detach_after_join_frees fuel cache nm c s :
  write cache = Cached ->
  0 < buffer_size cache < 2 ^ 64 ->
  0 <= header cache /\ header cache + sizeof_CACHE_HEADER <= buffer cache ->
  cached_eof cache < 2 ^ 64 ->
  drain_ready cache nm (flushed_eof cache) c s ->
  let r := pmem_append_cache_detach fuel 0 cache s in
  fst (fst r) <> DetachReturn (-1) /\
  (cached_eof cache - flushed_eof cache <= buffer_size cache ->
   (length (script s) + 3 <= fuel)%nat ->
   fst (fst r) <> DetachUnfinished /\
   (script s = [] -> fst (fst r) = DetachReturn 0)) /\
  (fst (fst r) = DetachReturn 0 ->
   hdr_file_name_length (view (snd r)) (header cache) = 0 /\
   hdr_file_name_length (media (snd r)) (header cache) = 0 /\
   hdr_flushed_eof (media (snd r)) (header cache) = cached_eof cache /\
   file_of (snd r) (file_fd cache)
   = Some (nm, firstn (Z.to_nat (flushed_eof cache)) c
               ++ ring_bytes (view s) cache (flushed_eof cache)
                    (Z.to_nat (cached_eof cache - flushed_eof cache))
               ++ skipn (Z.to_nat (cached_eof cache)) c)).
Proof.
  intros Hmode Hsz Hh Hca Hready r.
  set (armed := set_stop_flusher cache 1).
  assert (Hready' : drain_ready armed nm (flushed_eof armed) c s)
    by exact Hready.
  destruct (flush_cache_loop_spec nm fuel armed (flushed_eof armed) c s
              Hsz (proj1 Hh) (proj2 Hh) Hca eq_refl Hready')
    as (fe' & e & Hd & Hres).
  fold (flush_cache fuel armed s) in Hd, Hres.
  assert (Hr : r = pmem_append_cache_detach fuel 0 cache s) by reflexivity.
  clearbody r. unfold pmem_append_cache_detach in Hr.
  rewrite Hmode in Hr. fold armed in Hr. cbn [Z.eqb] in Hr.
  unfold bind at 1 in Hr.
  pose proof (eq_refl : sizeof_CACHE_HEADER = 24) as HC.
  pose proof (eq_refl : off_flushed_eof = 8) as O1.
  pose proof (eq_refl : off_file_name_length = 0) as O0.
  assert (Hring : buffer cache + buffer_size cache
                  <= Z.of_nat (length (view s))) by apply Hready.
  assert (Hmed : length (media s) = length (view s)) by apply Hready.
  destruct (flush_cache fuel armed s) as [[[res cache']|] s'] eqn:Erun;
    cbn [fst snd] in Hd, Hres.
  - destruct Hres as [-> Hres].
    destruct (Z.eqb_spec res 0) as [-> | Hne]; cbn [negb] in Hr.
    + destruct Hres as [(_ & -> & ->) | Hbad]; [|discriminate].
      cbn [set_flushed_eof flushed_eof cached_eof header armed
           set_stop_flusher] in Hr.
      rewrite Z.eqb_refl in Hr.
      unfold bind, pm_store64, pmem_persist, ret in Hr. subst r.
      cbn [fst snd view media files].
      destruct Hd as (_ & _ & [Lv Sv] & [Lm Sm] & Hv & Hm & Hfile & _).
      cbn [armed set_stop_flusher header file_fd cached_eof flushed_eof]
        in *.
      split; [discriminate|]. split; [split; [discriminate | reflexivity]|].
      intros _.
      split; [unfold hdr_file_name_length;
              rewrite load64_store64_same by lia; reflexivity|]. split.
      { unfold hdr_file_name_length.
        rewrite load64_persisted by (rewrite ?length_store64; lia).
        rewrite load64_store64_same by lia. reflexivity. }
      split.
      { unfold hdr_flushed_eof in *.
        rewrite load64_store_bytes_other;
          [exact Hm | lia | | lia | lia | ];
          rewrite ?length_load_bytes by (rewrite ?length_store64; lia); lia. }
      exact Hfile.
    + destruct Hres as [(-> & _) | ->]; [contradiction|].
      subst r. cbn [ret fst snd].
      split; [discriminate|]. split; [|discriminate].
      intros Hfit Hfuel. split; [discriminate|]. intros Hscr. exfalso.
      destruct fuel as [|[|[|k]]]; try lia.
      destruct (flush_cache_loop_quiet nm k armed (flushed_eof armed) c s)
        as [cache2 Hq]; auto.
      fold (flush_cache (S (S (S k))) armed s) in Hq.
      rewrite Erun in Hq. cbn [fst] in Hq. congruence.
  - subst r. cbn [ret fst snd].
    split; [discriminate|]. split; [|discriminate].
    intros Hfit Hfuel. exfalso.
    pose proof (flush_cache_loop_ends nm (length (script s)) fuel armed
                  (flushed_eof armed) c s (Nat.le_refl _) Hfuel Hsz Hh Hca
                  Hready' Hfit) as Hends.
    fold (flush_cache fuel armed s) in Hends. rewrite Erun in Hends.
    now apply Hends.
Qed.

Lemma flush_cache_body_keeps cache fe s :
  match fst (flush_cache_body cache fe s) with
  | FlushReturn _ cache' => cache' = cache
  | FlushAgain v cache' => cache' = set_flushed_eof cache v
  end.
Proof.
  unfold flush_cache_body.
  destruct (fe <? cached_eof cache); [|reflexivity].
  cbv zeta. unfold bind at 1.
  destruct (my_pwrite _ _ _ _ s) as [w s1].
  destruct (w <? 0); [reflexivity|].
  unfold bind at 1. destruct (my_sync _ s1) as [r s2].
  destruct (negb (r =? 0)); reflexivity.
Qed.

(** [flush_cache] changes nothing of the descriptor but [flushed_eof]. *)
Lemma flush_cache_loop_keeps fuel : forall cache fe s res cache',
  fst (flush_cache_loop fuel cache fe s) = Some (res, cache') ->
  cache' = cache \/ exists v, cache' = set_flushed_eof cache v.
Proof.
  induction fuel as [|fuel IH]; intros cache fe s res cache' Hrun.
  - discriminate.
  - rewrite flush_cache_loop_S in Hrun.
    pose proof (flush_cache_body_keeps cache fe s) as Hk.
    destruct (flush_cache_body cache fe s) as [[r c1 | v c1] s1];
      cbn [fst] in *.
    + inversion Hrun. subst. left. reflexivity.
    + subst c1. apply IH in Hrun. right.
      destruct Hrun as [-> | [v' ->]]; eexists; reflexivity.
Qed.

Lemma wrap64_sub_l x y : wrap64 (wrap64 x - y) = wrap64 (x - y).
Proof. unfold wrap64. apply Zminus_mod_idemp_l. Qed.

Section WriterRuns.

Variables MY_NABP MY_FNABP : Z.

Lemma cache_write_unfold f w cache s :
  cache_write MY_NABP MY_FNABP (S f) w cache s
  = match pc w with
    | Returned r => (Some (r, cache), s)
    | _ =>
        let (wc, s') := cache_write_step MY_NABP MY_FNABP w cache s in
        cache_write MY_NABP MY_FNABP f (fst wc) (snd wc) s'
    end.
Proof.
  cbn [cache_write]. destruct (pc w) as [| | | | | | |r]; unfold bind, ret;
    try reflexivity;
    destruct (cache_write_step MY_NABP MY_FNABP w cache s) as [wc s'];
    reflexivity.
Qed.

Lemma cache_write_returned f d len fl st p l av r cache s :
  cache_write MY_NABP MY_FNABP f (mkWriter (Returned r) d len fl st p l av)
              cache s
  = (Some (r, cache), s).
Proof. destruct f; reflexivity. Qed.

(** One turn of the loop of [cache_write] when the space for what is left
    is there and the preceding writes are committed: six actions. *)
Lemma cache_write_chunk f d len fl st p l av cache s :
  0 < buffer_size cache < 2 ^ 64 ->
  0 <= flushed_eof cache <= p -> p + l < 2 ^ 64 -> 0 < l ->
  l <= flushed_eof cache + buffer_size cache - p ->
  st <= cached_eof cache ->
  let a := Z.min l (buffer_size cache - p mod buffer_size cache) in
  cache_write MY_NABP MY_FNABP (S (S (S (S (S (S f))))))
    (mkWriter AtBackpressure d len fl st p l av) cache s
  = cache_write MY_NABP MY_FNABP f
      (mkWriter (if negb (l - a =? 0) then AtBackpressure
                 else Returned (if negb (Z.land fl (Z.lor MY_NABP MY_FNABP)
                                         =? 0) then 0 else len))
                (skipn (Z.to_nat a) d) len fl st (p + a) (l - a) a)
      (set_cached_eof cache (p + a))
      (chunk_committed (header cache) (ring_at cache p)
                       (firstn (Z.to_nat a) d) (p + a) s).
Proof.
  intros Hsz Hfl Hmax Hl Hspace Hord a.
  pose proof (Z.mod_pos_bound p (buffer_size cache) ltac:(lia)) as Hmod.
  assert (Ha : 0 < a <= l) by (subst a; lia).
  (* the wait for space *)
  rewrite cache_write_unfold. cbn [pc]. unfold cache_write_step at 1.
  cbn [pc write_pos data length_arg flags start left avail].
  rewrite wrap64_sub_l.
  rewrite (wrap64_small (flushed_eof cache + buffer_size cache - p)) by lia.
  destruct (Z.leb_spec (flushed_eof cache + buffer_size cache - p) 0);
    [lia|].
  cbn [ret fst snd].
  (* the copy *)
  rewrite cache_write_unfold. cbn [pc]. unfold cache_write_step at 1.
  cbn [pc write_pos data length_arg flags start left avail].
  destruct (Z.ltb_spec l (flushed_eof cache + buffer_size cache - p))
    as [Hless|Hall].
  all: rewrite (wrap64_small (buffer_size cache - p mod buffer_size cache))
    by lia.
  all: replace (if buffer_size cache - p mod buffer_size cache <? _
                then buffer_size cache - p mod buffer_size cache else _)
    with a
    by (subst a;
        match goal with
        | |- _ = (if ?x <? ?y then _ else _) =>
            destruct (Z.ltb_spec x y); lia
        end).
  all: unfold bind at 1, pmem_memcpy_persist at 1; cbn [ret fst snd].
  all: rewrite (wrap64_small (p + a)), (wrap64_small (l - a)) by lia.
  (* the wait for the preceding writes, and the commit *)
  all: rewrite cache_write_unfold; cbn [pc]; unfold cache_write_step at 1;
    cbn [pc write_pos data length_arg flags start left avail].
  all: destruct (Z.ltb_spec (cached_eof cache) st); [lia|].
  all: cbn [ret fst snd].
  all: rewrite cache_write_unfold; cbn [pc]; unfold cache_write_step at 1;
    cbn [pc write_pos data length_arg flags start left avail];
    unfold bind at 1, pm_store64 at 1; cbn [ret fst snd view media files
                                               script trace].
  all: rewrite cache_write_unfold; cbn [pc]; unfold cache_write_step at 1;
    cbn [pc write_pos data length_arg flags start left avail];
    unfold bind at 1, pmem_persist at 1; cbn [ret fst snd view media files
                                                script trace].
  all: rewrite cache_write_unfold; cbn [pc]; unfold cache_write_step at 1;
    cbn [pc write_pos data length_arg flags start left avail];
    unfold bind at 1, log at 1; cbn [ret fst snd view media files
                                       script trace].
  all: unfold cache_write_result;
    cbn [pc write_pos data length_arg flags start left avail].
  all: reflexivity.
Qed.

End WriterRuns.

Lemma mod_differ n y z : 0 < n -> 0 < y - z < n -> y mod n <> z mod n.
Proof.
  intros Hn Hd Heq.
  assert (H0 : (y - z) mod n = 0).
  { rewrite Zminus_mod, Heq, Z.sub_diag. apply Z.mod_0_l. lia. }
  rewrite Z.mod_small in H0 by lia. lia.
Qed.

Lemma ring_at_within cache from k :
  0 < buffer_size cache -> 0 <= k ->
  from mod buffer_size cache + k < buffer_size cache ->
  ring_at cache (from + k) = ring_at cache from + k.
Proof.
  intros Hsz Hk Hfit. unfold ring_at.
  pose proof (Z.mod_pos_bound from (buffer_size cache) Hsz) as Hmod.
  rewrite (Z.div_mod from (buffer_size cache)) at 1 by lia.
  replace (buffer_size cache * (from / buffer_size cache)
           + from mod buffer_size cache + k)
    with (from mod buffer_size cache + k
          + (from / buffer_size cache) * buffer_size cache) by lia.
  rewrite Z.mod_add by lia. rewrite Z.mod_small by lia. lia.
Qed.

Section RingStores.

Variable cache : PMEM_APPEND_CACHE.

Hypothesis Hsize : 0 < buffer_size cache.

Hypothesis Hbuffer : 0 <= buffer cache.

(** A chunk stored in the ring is read back from it. *)
Lemma ring_bytes_stored m q bs :
  0 <= q -> q mod buffer_size cache + Z.of_nat (length bs) <= buffer_size cache ->
  buffer cache + buffer_size cache <= Z.of_nat (length m) ->
  ring_bytes (store_bytes m (ring_at cache q) bs) cache q (length bs) = bs.
Proof.
  intros Hq Hfit Hlen.
  pose proof (Z.mod_pos_bound q (buffer_size cache) Hsize) as Hmod.
  assert (Hat : 0 <= ring_at cache q
                /\ ring_at cache q + Z.of_nat (length bs)
                   <= Z.of_nat (length m)) by (unfold ring_at; lia).
  rewrite <- ring_bytes_chunk; auto.
  - apply load_store_bytes_same; lia.
  - rewrite length_store_bytes; lia.
Qed.

(** It leaves the other bytes that the ring holds, within one turn of the
    ring, as they were. *)
Lemma ring_bytes_beside m q bs x n :
  0 <= q -> q mod buffer_size cache + Z.of_nat (length bs) <= buffer_size cache ->
  buffer cache + buffer_size cache <= Z.of_nat (length m) ->
  x + Z.of_nat n <= q /\ q + Z.of_nat (length bs) <= x + buffer_size cache
  \/ q + Z.of_nat (length bs) <= x /\ x + Z.of_nat n <= q + buffer_size cache ->
  ring_bytes (store_bytes m (ring_at cache q) bs) cache x n
  = ring_bytes m cache x n.
Proof.
  intros Hq Hfit Hlen Hside.
  pose proof (Z.mod_pos_bound q (buffer_size cache) Hsize) as Hmod.
  unfold ring_bytes. apply map_ext_in. intros k Hk.
  apply in_seq in Hk.
  pose proof (Z.mod_pos_bound (x + Z.of_nat k) (buffer_size cache) Hsize)
    as Hmodx.
  apply nth_of_nth_error.
  { apply length_store_bytes; unfold ring_at; lia. }
  apply nth_error_store_bytes_out; [unfold ring_at; lia | unfold ring_at; lia|].
  set (r1 := (x + Z.of_nat k) mod buffer_size cache) in *.
  set (r2 := q mod buffer_size cache) in *.
  assert (Hout : r1 < r2 \/ r2 + Z.of_nat (length bs) <= r1).
  { destruct (Z_lt_ge_dec r1 r2) as [|Hge]; [left; assumption|].
    destruct (Z_lt_ge_dec r1 (r2 + Z.of_nat (length bs))) as [Hin|];
      [|right; lia].
    exfalso.
    assert (Hj : (q + (r1 - r2)) mod buffer_size cache = r1).
    { pose proof (ring_at_within cache q (r1 - r2) Hsize) as Hw.
      unfold ring_at in Hw. fold r2 in Hw. lia. }
    destruct Hside as [[H1 H2] | [H1 H2]].
    - apply (mod_differ (buffer_size cache) (q + (r1 - r2))
                        (x + Z.of_nat k)); [lia | lia |].
      rewrite Hj. reflexivity.
    - apply (mod_differ (buffer_size cache) (x + Z.of_nat k)
                        (q + (r1 - r2))); [lia | lia |].
      rewrite Hj. reflexivity. }
  unfold ring_at. fold r1 r2. lia.
Qed.

End RingStores.

Section Chunks.

Variable cache : PMEM_APPEND_CACHE.

Hypothesis Hsize : 0 < buffer_size cache.

Hypothesis Hheader :
  0 <= header cache /\ header cache + sizeof_CACHE_HEADER <= buffer cache.

Lemma write_kept_refl s : write_kept cache s s.
Proof. unfold write_kept. repeat split; reflexivity. Qed.

Lemma write_kept_trans s1 s2 s3 :
  write_kept cache s1 s2 -> write_kept cache s2 s3 -> write_kept cache s1 s3.
Proof.
  unfold write_kept.
  intros (A1 & A2 & A3 & A4 & A5 & A6 & A7 & A8)
         (B1 & B2 & B3 & B4 & B5 & B6 & B7 & B8).
  repeat split; congruence.
Qed.

Lemma chunk_committed_spec s q bs pos :
  buffer cache + buffer_size cache <= Z.of_nat (length (view s)) ->
  length (media s) = length (view s) ->
  0 <= q ->
  q mod buffer_size cache + Z.of_nat (length bs) <= buffer_size cache ->
  0 <= pos < 2 ^ 64 ->
  let s' := chunk_committed (header cache) (ring_at cache q) bs pos s in
  write_kept cache s s' /\
  hdr_cached_eof (view s') (header cache) = pos /\
  hdr_cached_eof (media s') (header cache) = pos /\
  ring_bytes (view s') cache q (length bs) = bs /\
  ring_bytes (media s') cache q (length bs) = bs /\
  forall x n,
    x + Z.of_nat n <= q /\ q + Z.of_nat (length bs) <= x + buffer_size cache
    \/ q + Z.of_nat (length bs) <= x
       /\ x + Z.of_nat n <= q + buffer_size cache ->
    ring_bytes (view s') cache x n = ring_bytes (view s) cache x n /\
    ring_bytes (media s') cache x n = ring_bytes (media s) cache x n.
Proof.
  intros Hring Hmed Hq Hfit Hpos s'.
  destruct Hheader as [Hh0 Hhb].
  pose proof (eq_refl : sizeof_CACHE_HEADER = 24) as HC.
  pose proof (eq_refl : off_file_name_length = 0) as O0.
  pose proof (eq_refl : off_flushed_eof = 8) as O1.
  pose proof (eq_refl : off_cached_eof = 16) as O2.
  pose proof (Z.mod_pos_bound q (buffer_size cache) Hsize) as Hmod.
  assert (Hat : buffer cache <= ring_at cache q
                /\ ring_at cache q + Z.of_nat (length bs)
                   <= buffer cache + buffer_size cache)
    by (unfold ring_at; lia).
  subst s'. unfold chunk_committed. cbn [view media files script].
  set (v1 := store_bytes (view s) (ring_at cache q) bs).
  set (m1 := store_bytes (media s) (ring_at cache q) bs).
  set (v2 := store64 v1 (header cache + off_cached_eof) pos).
  set (m2 := store_bytes m1 (header cache + off_cached_eof)
               (load_bytes v2 (header cache + off_cached_eof) (Z.to_nat 8))).
  assert (Lv1 : length v1 = length (view s))
    by (subst v1; apply length_store_bytes; lia).
  assert (Lm1 : length m1 = length (media s))
    by (subst m1; apply length_store_bytes; lia).
  assert (Lv2 : length v2 = length (view s))
    by (subst v2; rewrite length_store64; lia).
  assert (Ll : length (load_bytes v2 (header cache + off_cached_eof)
                                  (Z.to_nat 8)) = Z.to_nat 8)
    by (apply length_load_bytes; lia).
  assert (Lm2 : length m2 = length (media s))
    by (subst m2; rewrite length_store_bytes; lia).
  assert (Sv : same_outside v1 v2 (header cache + off_cached_eof)
                            (header cache + off_cached_eof + 8)).
  { subst v2. apply same_outside_store64; try lia. apply same_outside_refl. }
  assert (Sm : same_outside m1 m2 (header cache + off_cached_eof)
                            (header cache + off_cached_eof + 8)).
  { subst m2. apply same_outside_store_bytes; try lia.
    apply same_outside_refl. }
  assert (Hv : forall a, 0 <= a -> a + 8 <= header cache + off_cached_eof ->
                         load64 v2 a = load64 (view s) a).
  { intros a Ha Hal. subst v2. rewrite load64_store64_other by lia.
    subst v1. apply load64_store_bytes_other; lia. }
  assert (Hm : forall a, 0 <= a -> a + 8 <= header cache + off_cached_eof ->
                         load64 m2 a = load64 (media s) a).
  { intros a Ha Hal. subst m2. rewrite load64_store_bytes_other by lia.
    subst m1. apply load64_store_bytes_other; lia. }
  split.
  { unfold write_kept, hdr_flushed_eof, hdr_file_name_length.
    cbn [view media files script].
    repeat split; auto; first [apply Hv | apply Hm]; lia. }
  split.
  { unfold hdr_cached_eof. subst v2.
    rewrite load64_store64_same by lia. apply wrap64_small, Hpos. }
  split.
  { unfold hdr_cached_eof. subst m2.
    rewrite load64_persisted by lia. subst v2.
    rewrite load64_store64_same by lia. apply wrap64_small, Hpos. }
  split.
  { rewrite (ring_bytes_same_outside v1 v2 cache _ _ q _ Sv) by lia.
    subst v1. apply ring_bytes_stored; auto; lia. }
  split.
  { rewrite (ring_bytes_same_outside m1 m2 cache _ _ q _ Sm) by lia.
    subst m1. apply ring_bytes_stored; auto; lia. }
  intros x n Hside. split.
  - rewrite (ring_bytes_same_outside v1 v2 cache _ _ x _ Sv) by lia.
    subst v1. apply ring_bytes_beside; auto; lia.
  - rewrite (ring_bytes_same_outside m1 m2 cache _ _ x _ Sm) by lia.
    subst m1. apply ring_bytes_beside; auto; lia.
Qed.

End Chunks.

Section WriterFits.

Variables MY_NABP MY_FNABP : Z.

(** A call of [cache_write] made on its own, with the space for the whole
    of [bytes] free in the ring. *)
Lemma cache_write_fits_run k cache bytes fl s :
  let len := Z.of_nat (length bytes) in
  let p := cached_eof cache in
  0 < len ->
  0 < buffer_size cache < 2 ^ 64 ->
  0 <= header cache /\ header cache + sizeof_CACHE_HEADER <= buffer cache ->
  buffer cache + buffer_size cache <= Z.of_nat (length (view s)) ->
  length (media s) = length (view s) ->
  0 <= flushed_eof cache <= p -> reserved_eof cache = p ->
  p + len < 2 ^ 64 ->
  p + len - flushed_eof cache <= buffer_size cache ->
  let r := cache_write MY_NABP MY_FNABP
             (S (S (S (S (S (S (S (S (S (S (S (S (S k)))))))))))))
             (cache_write_call bytes len fl) cache s in
  fst r = Some (if negb (Z.land fl (Z.lor MY_NABP MY_FNABP) =? 0)
                then 0 else len,
                set_cached_eof (set_reserved_eof cache (p + len)) (p + len)) /\
  write_kept cache s (snd r) /\
  hdr_cached_eof (view (snd r)) (header cache) = p + len /\
  hdr_cached_eof (media (snd r)) (header cache) = p + len /\
  ring_bytes (view (snd r)) cache p (length bytes) = bytes /\
  ring_bytes (media (snd r)) cache p (length bytes) = bytes /\
  forall x n, 0 <= x -> x + Z.of_nat n <= p ->
              p + len <= x + buffer_size cache ->
    ring_bytes (view (snd r)) cache x n = ring_bytes (view s) cache x n /\
    ring_bytes (media (snd r)) cache x n = ring_bytes (media s) cache x n.
Proof.
  intros len p Hlen Hsz Hh Hring Hmed Hfl Hres Hmax Hfit r.
  assert (Hr : r = cache_write MY_NABP MY_FNABP
                     (S (S (S (S (S (S (S (S (S (S (S (S (S k)))))))))))))
                     (cache_write_call bytes len fl) cache s) by reflexivity.
  clearbody r.
  pose proof (Z.mod_pos_bound p (buffer_size cache) ltac:(lia)) as Hmod.
  (* the reservation *)
  unfold cache_write_call in Hr.
  rewrite cache_write_unfold in Hr. cbn [pc] in Hr.
  rewrite cache_write_step_entry in Hr
    by (cbn [pc length_arg]; first [reflexivity | lia]).
  cbn [fst snd data length_arg flags avail] in Hr.
  rewrite Hres in Hr. rewrite wrap64_small in Hr by lia.
  set (cache1 := set_reserved_eof cache (p + len)) in *.
  set (s1 := mkMachine (view s) (media s) (files s) (script s)
                       (trace s ++ [EvReservedEof (p + len)])) in *.
  assert (K1 : write_kept cache s s1)
    by (unfold write_kept; repeat split; reflexivity).
  assert (Hsz1 : 0 < buffer_size cache) by lia.
  (* the first chunk *)
  rewrite (cache_write_chunk MY_NABP MY_FNABP) in Hr
    by (cbn [cache1 set_reserved_eof buffer_size flushed_eof cached_eof];
        fold p; lia).
  cbn [cache1 set_reserved_eof buffer_size flushed_eof cached_eof header]
    in Hr.
  change (ring_at cache1 p) with (ring_at cache p) in Hr.
  set (a := Z.min len (buffer_size cache - p mod buffer_size cache)) in *.
  assert (Ha : 0 < a <= len) by (subst a; lia).
  assert (La : length (firstn (Z.to_nat a) bytes) = Z.to_nat a)
    by (rewrite length_firstn; lia).
  assert (Hfit1 : p mod buffer_size cache
                   + Z.of_nat (length (firstn (Z.to_nat a) bytes))
                   <= buffer_size cache) by (rewrite La; subst a; lia).
  destruct (chunk_committed_spec cache Hsz1 Hh s1 p (firstn (Z.to_nat a) bytes)
              (p + a) Hring Hmed ltac:(lia) Hfit1 ltac:(lia))
    as (K2 & C2 & D2 & R2 & M2 & B2).
  set (s2 := chunk_committed (header cache) (ring_at cache p)
               (firstn (Z.to_nat a) bytes) (p + a) s1) in *.
  rewrite La in R2, M2.
  destruct (Z.eqb_spec (len - a) 0) as [Hone | Htwo]; cbn [negb] in Hr.
  - (* one chunk *)
    rewrite cache_write_returned in Hr. subst r. cbn [fst snd]. fold s2.
    assert (Hal : a = len) by lia.
    assert (Hn : length bytes = Z.to_nat a) by (subst len; lia).
    assert (Hfirst : firstn (Z.to_nat a) bytes = bytes)
      by (rewrite <- Hn; apply firstn_all).
    split; [do 3 f_equal; lia|].
    split; [exact (write_kept_trans cache s s1 s2 K1 K2)|].
    split; [rewrite C2; lia|]. split; [rewrite D2; lia|].
    split; [rewrite Hn, R2; exact Hfirst|].
    split; [rewrite Hn, M2; exact Hfirst|].
    intros x n Hx Hxn Hwin. apply B2. left. rewrite La. lia.
  - (* the chunk reaches the end of the ring: a second one follows *)
    assert (Ha1 : a = buffer_size cache - p mod buffer_size cache)
      by (subst a; lia).
    assert (Hp1 : (p + a) mod buffer_size cache = 0).
    { rewrite Ha1.
      rewrite (Z.div_mod p (buffer_size cache)) at 1 by lia.
      replace (buffer_size cache * (p / buffer_size cache)
               + p mod buffer_size cache
               + (buffer_size cache - p mod buffer_size cache))
        with ((p / buffer_size cache + 1) * buffer_size cache) by lia.
      apply Z.mod_mul. lia. }
    rewrite (cache_write_chunk MY_NABP MY_FNABP) in Hr
      by (cbn [cache1 set_cached_eof set_reserved_eof buffer_size
               flushed_eof cached_eof]; fold p; lia).
    cbn [cache1 set_cached_eof set_reserved_eof buffer_size flushed_eof
         cached_eof header reserved_eof file_name buffer file_fd
         stop_flusher write] in Hr.
    rewrite Hp1, Z.sub_0_r in Hr.
    replace (Z.min (len - a) (buffer_size cache)) with (len - a) in Hr
      by lia.
    replace (len - a - (len - a)) with 0 in Hr by lia.
    cbn [Z.eqb negb] in Hr.
    rewrite cache_write_returned in Hr.
    match type of Hr with
    | context [chunk_committed _ (ring_at ?c _) _ _ _] =>
        change (ring_at c (p + a)) with (ring_at cache (p + a)) in Hr
    end.
    set (d2 := firstn (Z.to_nat (len - a)) (skipn (Z.to_nat a) bytes)) in *.
    assert (Ld2 : length d2 = Z.to_nat (len - a)).
    { subst d2. rewrite length_firstn, length_skipn. subst len. lia. }
    assert (Lv2 : length (view s2) = length (view s)) by apply K2.
    assert (Lm2 : length (media s2) = length (media s)) by apply K2.
    assert (Hfit2 : (p + a) mod buffer_size cache + Z.of_nat (length d2)
                    <= buffer_size cache) by lia.
    destruct (chunk_committed_spec cache Hsz1 Hh s2 (p + a) d2
                (p + a + (len - a)) ltac:(lia) ltac:(lia) ltac:(lia) Hfit2
                ltac:(lia))
      as (K3 & C3 & D3 & R3 & M3 & B3).
    replace (p + a + (len - a)) with (p + len) in * by lia.
    subst r. cbn [fst snd].
    set (s3 := chunk_committed (header cache) (ring_at cache (p + a)) d2
                 (p + len) s2) in *.
    rewrite Ld2 in R3, M3.
    assert (Hdata : bytes = firstn (Z.to_nat a) bytes ++ d2).
    { subst d2.
      rewrite (firstn_all2 (n := Z.to_nat (len - a))
                 (skipn (Z.to_nat a) bytes))
        by (rewrite length_skipn; subst len; lia).
      symmetry. apply firstn_skipn. }
    assert (Hn : length bytes = (Z.to_nat a + Z.to_nat (len - a))%nat)
      by (subst len; lia).
    split; [reflexivity|].
    split; [exact (write_kept_trans cache s s2 s3
                     (write_kept_trans cache s s1 s2 K1 K2) K3)|].
    split; [exact C3|]. split; [exact D3|].
    assert (Hbeside : p + Z.of_nat (Z.to_nat a) <= p + a
                      /\ p + a + Z.of_nat (length d2)
                         <= p + buffer_size cache) by lia.
    split; [|split].
    + rewrite Hn, ring_bytes_app.
      rewrite (proj1 (B3 p (Z.to_nat a) (or_introl Hbeside))), R2.
      replace (p + Z.of_nat (Z.to_nat a)) with (p + a) by lia.
      rewrite R3. symmetry. exact Hdata.
    + rewrite Hn, ring_bytes_app.
      rewrite (proj2 (B3 p (Z.to_nat a) (or_introl Hbeside))), M2.
      replace (p + Z.of_nat (Z.to_nat a)) with (p + a) by lia.
      rewrite M3. symmetry. exact Hdata.
    + intros x n Hx Hxn Hwin.
      assert (H3 : x + Z.of_nat n <= p + a
                   /\ p + a + Z.of_nat (length d2) <= x + buffer_size cache)
        by lia.
      assert (H2 : x + Z.of_nat n <= p
                   /\ p + Z.of_nat (length (firstn (Z.to_nat a) bytes))
                      <= x + buffer_size cache) by lia.
      destruct (B3 x n (or_introl H3)) as [-> ->].
      exact (B2 x n (or_introl H2)).
Qed.

End WriterFits.

(** X16. [cache_write] of a non-empty buffer that fits in the free part
    of the ring, with no other writer holding a reservation: the call
    returns within thirteen steps, with [length] (or 0 when one of the two
    flags is given); [cached_eof] and [reserved_eof] advance by [length],
    in the handle and in the durable header; the ring holds the bytes at
    the offsets written, in the mapping and on the media; the bytes of the
    ring still to be drained, the [flushed_eof] and the name length are
    untouched, and so are the backing files. *)
Theorem cache_write_fits MY_NABP MY_FNABP k cache bytes fl s :
  let len := Z.of_nat (length bytes) in
  let p := cached_eof cache in
  0 < len ->
  0 < buffer_size cache < 2 ^ 64 ->
  0 <= header cache /\ header cache + sizeof_CACHE_HEADER <= buffer cache ->
  buffer cache + buffer_size cache <= Z.of_nat (length (view s)) ->
  length (media s) = length (view s) ->
  0 <= flushed_eof cache <= p -> reserved_eof cache = p ->
  p + len < 2 ^ 64 ->
  p + len - flushed_eof cache <= buffer_size cache ->
  let r := cache_write MY_NABP MY_FNABP (13 + k)
             (cache_write_call bytes len fl) cache s in
  fst r = Some (if negb (Z.land fl (Z.lor MY_NABP MY_FNABP) =? 0)
                then 0 else len,
                set_cached_eof (set_reserved_eof cache (p + len)) (p + len)) /\
  write_kept cache s (snd r) /\
  hdr_cached_eof (view (snd r)) (header cache) = p + len /\
  hdr_cached_eof (media (snd r)) (header cache) = p + len /\
  ring_bytes (view (snd r)) cache p (length bytes) = bytes /\
  ring_bytes (media (snd r)) cache p (length bytes) = bytes /\
  forall x n, 0 <= x -> x + Z.of_nat n <= p ->
              p + len <= x + buffer_size cache ->
    ring_bytes (view (snd r)) cache x n = ring_bytes (view s) cache x n /\
    ring_bytes (media (snd r)) cache x n = ring_bytes (media s) cache x n.
Proof.
  intros len p Hlen Hsz Hh Hring Hmed Hfl Hres Hmax Hfit.
  exact (cache_write_fits_run MY_NABP MY_FNABP k cache bytes fl s Hlen Hsz
           Hh Hring Hmed Hfl Hres Hmax Hfit).
Qed.

(** X17. A [cache_write] that fits followed by a [flush_cache], with no
    call failing: the backing file ends up with the bytes that were pending
    in the ring and then the bytes written, at the offsets from
    [flushed_eof] on, and both durable offsets are at the new end.  When
    the file was as long as [flushed_eof] and nothing was pending, the file
    is the old file followed by the bytes written. *)
Theorem write_then_drain_appends MY_NABP MY_FNABP k j cache bytes fl nm c s :
  let len := Z.of_nat (length bytes) in
  let p := cached_eof cache in
  let f := flushed_eof cache in
  0 < len ->
  0 < buffer_size cache < 2 ^ 64 ->
  0 <= header cache /\ header cache + sizeof_CACHE_HEADER <= buffer cache ->
  drain_ready cache nm f c s -> reserved_eof cache = p ->
  p + len < 2 ^ 64 -> p + len - f <= buffer_size cache ->
  script s = [] ->
  let cache1 := set_cached_eof (set_reserved_eof cache (p + len)) (p + len) in
  let w := cache_write MY_NABP MY_FNABP (13 + k)
             (cache_write_call bytes len fl) cache s in
  let d := flush_cache (3 + j) cache1 (snd w) in
  fst w = Some (if negb (Z.land fl (Z.lor MY_NABP MY_FNABP) =? 0)
                then 0 else len, cache1) /\
  fst d = Some (0, set_flushed_eof cache1 (p + len)) /\
  file_of (snd d) (file_fd cache)
  = Some (nm, firstn (Z.to_nat f) c
              ++ (ring_bytes (view s) cache f (Z.to_nat (p - f)) ++ bytes)
              ++ skipn (Z.to_nat (p + len)) c) /\
  hdr_flushed_eof (media (snd d)) (header cache) = p + len /\
  hdr_cached_eof (media (snd d)) (header cache) = p + len /\
  (Z.of_nat (length c) = f -> f = p ->
   file_of (snd d) (file_fd cache) = Some (nm, c ++ bytes)).
Proof.
  intros len p f Hlen Hsz Hh Hready Hres Hmax Hfit Hscr cache1 w d.
  pose proof Hready as (Hring & Hmed & Hf & Hv & Hm & Hfile & Hc).
  fold p in Hf.
  destruct (cache_write_fits_run MY_NABP MY_FNABP k cache bytes fl s Hlen Hsz
              Hh Hring Hmed Hf Hres Hmax Hfit)
    as (Hw & Hkept & Cv & Cm & Rv & _ & Hbeside).
  change (cache_write MY_NABP MY_FNABP
            (S (S (S (S (S (S (S (S (S (S (S (S (S k)))))))))))))
            (cache_write_call bytes (Z.of_nat (length bytes)) fl) cache s)
    with w in *.
  fold len p in Hw, Cv, Cm, Rv, Hbeside. fold cache1 in Hw.
  destruct Hkept as (Lv & Lm & Hfiles & Hscr1 & Fv & Fm & _ & _).
  assert (Hready1 : drain_ready cache1 nm (flushed_eof cache1) c (snd w)).
  { unfold drain_ready.
    cbn [cache1 set_cached_eof set_reserved_eof buffer buffer_size header
         file_fd cached_eof flushed_eof].
    fold f p. unfold file_of in *. rewrite Hfiles, Lv, Lm, Fv, Fm.
    repeat split; auto; lia. }
  assert (Hsz1 : 0 < buffer_size cache1 < 2 ^ 64) by exact Hsz.
  assert (Hh1 : 0 <= header cache1
               /\ header cache1 + sizeof_CACHE_HEADER <= buffer cache1)
    by exact Hh.
  assert (Hca1 : cached_eof cache1 < 2 ^ 64)
    by (cbn [cache1 set_cached_eof cached_eof]; lia).
  destruct (flush_cache_loop_quiet nm j cache1 (flushed_eof cache1) c (snd w)
              Hsz1 Hh1 Hca1 Hready1) as [cache2 Hq].
  { rewrite Hscr1. exact Hscr. }
  { cbn [cache1 set_cached_eof set_reserved_eof buffer_size cached_eof
         flushed_eof]. fold f. lia. }
  destruct (flush_cache_loop_spec nm (3 + j) cache1 (flushed_eof cache1) c
              (snd w) Hsz1 (proj1 Hh1) (proj2 Hh1) Hca1 eq_refl Hready1)
    as (fe' & e & Hd & Hres2).
  change (flush_cache_loop (3 + j) cache1 (flushed_eof cache1) (snd w))
    with d in *.
  change (flush_cache_loop (S (S (S j))) cache1 (flushed_eof cache1) (snd w))
    with d in Hq.
  rewrite Hq in Hres2. destruct Hres2 as [-> [(_ & -> & ->) | Hbad]];
    [|discriminate].
  destruct Hd as (_ & _ & [_ Sv] & [Ld Sm] & _ & Hmd & Hfile2 & _).
  cbn [cache1 set_cached_eof set_reserved_eof buffer buffer_size header
       file_fd cached_eof flushed_eof] in Hq, Hmd, Hfile2, Sm, Ld.
  fold f in Hfile2.
  assert (Hpending : ring_bytes (view (snd w)) cache1 f (Z.to_nat (p + len - f))
                     = ring_bytes (view s) cache f (Z.to_nat (p - f)) ++ bytes).
  { change (ring_bytes (view (snd w)) cache1 f (Z.to_nat (p + len - f)))
      with (ring_bytes (view (snd w)) cache f (Z.to_nat (p + len - f))).
    replace (Z.to_nat (p + len - f))
      with (Z.to_nat (p - f) + length bytes)%nat by (subst len; lia).
    rewrite ring_bytes_app.
    replace (f + Z.of_nat (Z.to_nat (p - f))) with p by lia.
    rewrite Rv. f_equal. apply Hbeside; lia. }
  rewrite Hpending in Hfile2.
  split; [exact Hw|]. split; [exact Hq|]. split; [exact Hfile2|].
  split; [exact Hmd|]. split.
  - pose proof (eq_refl : sizeof_CACHE_HEADER = 24) as HC.
    pose proof (eq_refl : off_flushed_eof = 8) as O1.
    pose proof (eq_refl : off_cached_eof = 16) as O2.
    unfold hdr_cached_eof in *. rewrite <- Cm.
    unfold load64. f_equal.
    apply list_eq_nth_error.
    + rewrite !length_load_bytes by lia. reflexivity.
    + intros i Hi. rewrite length_load_bytes in Hi by lia.
      rewrite !nth_error_load_bytes by lia. apply Sm. lia.
  - intros Hlenc Hfp. rewrite Hfile2. f_equal. f_equal.
    replace (Z.to_nat (p - f)) with 0%nat by lia.
    cbn [ring_bytes seq map app].
    rewrite firstn_all2, skipn_all2 by lia.
    now rewrite app_nil_r.
Qed.

Lemma to_reserve_member i : forall ws w,
  (forall j x, nth_error ws j = Some x -> pc x = AtEntry ->
               0 <= length_arg x) ->
  nth_error ws i = Some w ->
  0 <= unreserved w <= to_reserve ws /\ 0 <= to_reserve ws.
Proof.
  assert (Hnn : forall ws,
    (forall j x, nth_error ws j = Some x -> pc x = AtEntry ->
                 0 <= length_arg x) -> 0 <= to_reserve ws).
  { induction ws as [|x ws IH]; intros Hall; cbn [to_reserve]; [lia|].
    assert (0 <= to_reserve ws)
      by (apply IH; intros j y Hj; exact (Hall (S j) y Hj)).
    pose proof (Hall O x eq_refl) as Hx. unfold unreserved.
    destruct (pc x); try lia. specialize (Hx eq_refl). lia. }
  induction i as [|i IH]; intros [|x ws] w Hall Hi; cbn in Hi;
    try discriminate.
  - inversion Hi; subst. cbn [to_reserve].
    assert (0 <= to_reserve ws)
      by (apply Hnn; intros j y Hj; exact (Hall (S j) y Hj)).
    pose proof (Hall O w eq_refl) as Hx. unfold unreserved in *.
    destruct (pc w); try lia. specialize (Hx eq_refl). lia.
  - cbn [to_reserve].
    destruct (IH ws w (fun j y Hj => Hall (S j) y Hj) Hi) as [Hw Hr].
    pose proof (Hall O x eq_refl) as Hx. unfold unreserved in *.
    destruct (pc x); try lia. specialize (Hx eq_refl). lia.
Qed.

Lemma to_reserve_replace_nth i : forall ws w w',
  nth_error ws i = Some w ->
  to_reserve (replace_nth i ws w')
  = to_reserve ws - unreserved w + unreserved w'.
Proof.
  induction i as [|i IH]; intros [|x ws] w w' Hi; cbn in Hi; try discriminate.
  - inversion Hi; subst. cbn [replace_nth to_reserve]. lia.
  - cbn [replace_nth to_reserve]. rewrite (IH ws w w' Hi). lia.
Qed.

Lemma nth_error_Some_lt (A : Type) (l : list A) i x :
  nth_error l i = Some x -> (i < length l)%nat.
Proof. intros H. apply nth_error_Some. congruence. Qed.

Ltac counters :=
  unfold in_flight;
  try match goal with H : pc _ = _ |- _ => rewrite ?H end;
  cbn [pc]; repeat split; intros;
  try (first [ lia | discriminate | congruence | assumption
             | left; reflexivity | left; lia
             | right; repeat split; lia ]).

(** One action of a call, as far as the counters go. *)
Lemma cache_write_step_counters MY_NABP MY_FNABP w c s :
  0 < buffer_size c < 2 ^ 64 ->
  0 <= flushed_eof c <= cached_eof c -> cached_eof c <= reserved_eof c ->
  reserved_eof c + unreserved w < 2 ^ 64 ->
  call_ok (cached_eof c) (reserved_eof c) w ->
  let r := fst (cache_write_step MY_NABP MY_FNABP w c s) in
  let w' := fst r in
  let c' := snd r in
  buffer_size c' = buffer_size c /\ flushed_eof c' = flushed_eof c /\
  reserved_eof c' = reserved_eof c + unreserved w /\
  pc w' <> AtEntry /\ length_arg w' = length_arg w /\
  call_ok (cached_eof c') (reserved_eof c') w' /\
  (in_flight w = true -> start w' = start w) /\
  (in_flight w = false -> in_flight w' = true ->
   start w' = reserved_eof c /\ cached_eof c' = cached_eof c) /\
  (cached_eof c' = cached_eof c \/
   in_flight w = true /\ start w <= cached_eof c /\
   cached_eof c < cached_eof c' <= start w + length_arg w).
Proof.
  intros HB HF HC HR Hok r w' c'. subst w' c' r.
  unfold call_ok in Hok. unfold unreserved in *. unfold cache_write_step.
  destruct (pc w) as [| | | | | | |res] eqn:Hpc.
  - (* entry *)
    destruct (Z.eqb_spec (length_arg w) 0) as [Hz | Hnz]; cbn [negb].
    + unfold ret. cbn [fst snd pc length_arg start].
      unfold call_ok. cbn [pc length_arg in_flight].
      counters.
    + cbn [my_atomic_add32_explicit]. unfold my_atomic_add32_explicit.
      unfold bind, log, ret.
      cbn [fst snd pc length_arg start set_reserved_eof buffer_size
           flushed_eof cached_eof reserved_eof].
      rewrite wrap64_small by lia.
      unfold call_ok, committed.
      cbn [pc length_arg start write_pos left avail in_flight].
      counters.
  - (* backpressure *)
    destruct Hok as (He & Hw & Hl & Hk & Hce & Hor & _).
    unfold committed in Hk, Hce, Hor. rewrite Hpc in Hk, Hce, Hor.
    set (a := wrap64 (wrap64 (flushed_eof c + buffer_size c) - write_pos w)).
    assert (Ra : 0 <= a < 2 ^ 64) by (apply wrap64_range).
    destruct (Z.leb_spec a 0) as [Hle | Hgt]; unfold ret;
      cbn [fst snd pc length_arg start].
    + unfold call_ok, committed. rewrite ?Hpc.
      counters.
    + unfold call_ok, committed.
      cbn [pc length_arg start write_pos left avail in_flight].
      counters.
  - (* copy *)
    destruct Hok as (He & Hw & Hl & Hk & Hce & Hor & Ha).
    unfold committed in Hk, Hce, Hor. rewrite Hpc in Hk, Hce, Hor.
    pose proof (Z.mod_pos_bound (write_pos w) (buffer_size c) ltac:(lia))
      as Hoff.
    set (off := write_pos w mod buffer_size c) in *.
    rewrite (wrap64_small (buffer_size c - off)) by lia.
    set (a0 := if left w <? avail w then left w else avail w).
    set (a := if buffer_size c - off <? a0 then buffer_size c - off else a0).
    assert (Ha0 : 0 < a0 <= left w)
      by (subst a0; destruct (Z.ltb_spec (left w) (avail w)); lia).
    assert (Haa : 0 < a <= left w)
      by (subst a; destruct (Z.ltb_spec (buffer_size c - off) a0); lia).
    unfold bind, pmem_memcpy_persist, ret.
    cbn [fst snd pc length_arg start].
    rewrite (wrap64_small (write_pos w + a)) by lia.
    rewrite (wrap64_small (left w - a)) by lia.
    unfold call_ok, committed.
    cbn [pc length_arg start write_pos left avail in_flight].
    counters.
  - (* ordering *)
    destruct Hok as (He & Hw & Hl & Hk & Hce & Hor & Ha).
    unfold committed in Hk, Hce, Hor. rewrite Hpc in Hk, Hce, Hor.
    destruct (Z.ltb_spec (cached_eof c) (start w)) as [Hlt | Hge];
      unfold ret; cbn [fst snd pc length_arg start].
    + unfold call_ok, committed. rewrite ?Hpc.
      counters.
    + unfold call_ok, committed.
      cbn [pc length_arg start write_pos left avail in_flight].
      counters.
  - (* store of the header *)
    destruct Hok as (He & Hw & Hl & Hk & Hce & Hor & Ha).
    unfold committed in Hk, Hce, Hor. rewrite Hpc in Hk, Hce, Hor.
    unfold bind, pm_store64, ret. cbn [fst snd pc length_arg start].
    unfold call_ok, committed.
    cbn [pc length_arg start write_pos left avail in_flight].
    counters.
  - (* persist of the header *)
    destruct Hok as (He & Hw & Hl & Hk & Hce & Hor & Ha).
    unfold committed in Hk, Hce, Hor. rewrite Hpc in Hk, Hce, Hor.
    unfold bind, pmem_persist, ret. cbn [fst snd pc length_arg start].
    unfold call_ok, committed.
    cbn [pc length_arg start write_pos left avail in_flight].
    counters.
  - (* run-time copy *)
    destruct Hok as (He & Hw & Hl & Hk & Hce & Hor & Ha).
    unfold committed in Hk, Hce, Hor. rewrite Hpc in Hk, Hce, Hor.
    unfold bind, log, ret.
    cbn [fst snd pc length_arg start set_cached_eof buffer_size
         flushed_eof cached_eof reserved_eof].
    assert (Hnow : cached_eof c = write_pos w - avail w) by lia.
    destruct (Z.eqb_spec (left w) 0) as [Hz | Hnz]; cbn [negb];
      unfold call_ok, committed;
      cbn [pc length_arg start write_pos left avail in_flight].
    + counters.
    + counters.
  - (* returned *)
    unfold ret. cbn [fst snd]. unfold call_ok. rewrite ?Hpc.
    counters.
Qed.

Lemma call_ok_reserved ce re re' w :
  re <= re' -> call_ok ce re w -> call_ok ce re' w.
Proof.
  unfold call_ok. intros Hre.
  destruct (pc w); try (intros; assumption);
    intros (He & Hrest); (split; [lia | exact Hrest]).
Qed.

Lemma apart_sym wi wj : apart wi wj -> apart wj wi.
Proof. unfold apart. lia. Qed.

(** A commit by one call leaves the others as they should be. *)
Lemma call_ok_commit ce ce' re w wj :
  call_ok ce re wj -> (in_flight wj = true -> apart w wj) ->
  start w <= ce -> ce < ce' <= start w + length_arg w ->
  call_ok ce' re wj.
Proof.
  unfold call_ok, apart, in_flight, committed.
  intros Hok Hapart Hs Hce.
  destruct (pc wj); try specialize (Hapart eq_refl);
    repeat split; try tauto; try lia.
Qed.

(** A pass of the flusher, as far as the counters go. *)
Lemma flush_cache_body_counters cache s :
  0 < buffer_size cache < 2 ^ 64 ->
  0 <= flushed_eof cache <= cached_eof cache -> cached_eof cache < 2 ^ 64 ->
  let c' := match fst (flush_cache_body cache (flushed_eof cache) s) with
            | FlushReturn _ c' | FlushAgain _ c' => c'
            end in
  buffer_size c' = buffer_size cache /\ cached_eof c' = cached_eof cache /\
  reserved_eof c' = reserved_eof cache /\
  flushed_eof cache <= flushed_eof c' <= cached_eof cache.
Proof.
  intros HB HF HC c'. subst c'.
  destruct (Z.ltb_spec (flushed_eof cache) (cached_eof cache)) as [Hlt | Hge].
  - rewrite flush_cache_body_eq by exact Hlt.
    destruct (flush_write_size_bounds cache (flushed_eof cache) HB
                ltac:(lia) Hlt HC) as (Hw0 & _ & Hw).
    cbv zeta in Hw0, Hw.
    pose proof (my_pwrite_spec (file_fd cache)
                  (buffer cache + flushed_eof cache mod buffer_size cache)
                  (flush_write_size cache (flushed_eof cache)
                     (cached_eof cache))
                  (flushed_eof cache) s) as (_ & _ & _ & Hcount).
    cbv zeta.
    destruct (my_pwrite _ _ _ _ s) as [w s1]. cbn [fst snd] in Hcount.
    specialize (Hcount ltac:(lia)).
    destruct (Z.ltb_spec w 0) as [Hneg | Hpos]; cbn [fst]; [lia|].
    destruct (my_sync _ s1) as [r s2].
    destruct (negb (r =? 0)); cbn [fst]; [lia|].
    rewrite wrap64_small by lia.
    cbn [set_flushed_eof buffer_size cached_eof reserved_eof flushed_eof].
    lia.
  - unfold flush_cache_body.
    destruct (Z.ltb_spec (flushed_eof cache) (cached_eof cache)); [lia|].
    cbn [ret fst]. lia.
Qed.

Section Together.

Variables MY_NABP MY_FNABP : Z.

(** Every move of a thread keeps [counters_ok], and takes no counter
    back. *)
Lemma step_keeps_counters t sys sys' :
  counters_ok sys -> step MY_NABP MY_FNABP t sys = Some sys' ->
  counters_ok sys' /\
  flushed_eof (shared sys) <= flushed_eof (shared sys') /\
  cached_eof (shared sys) <= cached_eof (shared sys') /\
  reserved_eof (shared sys) <= reserved_eof (shared sys') /\
  reserved_eof (shared sys') + to_reserve (calls sys')
  = reserved_eof (shared sys) + to_reserve (calls sys).
Proof.
  intros (HB & HF & HC & HR & Hcalls & Hapart) Hstep.
  cbv zeta in *. unfold step in Hstep.
  destruct (aborted sys); [discriminate|].
  assert (Hlen : forall j x, nth_error (calls sys) j = Some x ->
                             pc x = AtEntry -> 0 <= length_arg x).
  { intros j x Hj Hpc. pose proof (Hcalls j x Hj) as Hx.
    unfold call_ok in Hx. rewrite Hpc in Hx. exact Hx. }
  destruct t as [i|].
  - destruct (nth_error (calls sys) i) as [w|] eqn:Hi; [|discriminate].
    destruct (to_reserve_member i (calls sys) w Hlen Hi) as [Hun Hnn].
    pose proof (cache_write_step_counters MY_NABP MY_FNABP w (shared sys)
                  (mach sys) HB HF HC ltac:(lia) (Hcalls i w Hi)) as Hw.
    cbv zeta in Hw.
    destruct (cache_write_step MY_NABP MY_FNABP w (shared sys) (mach sys))
      as [[w' c'] m].
    cbn [fst snd] in Hw.
    destruct Hw as (Hb' & Hf' & Hr' & Hpc' & Hl' & Hok' & Hst & Hnew & Hce).
    inversion Hstep; subst sys'; clear Hstep. cbn [shared calls].
    pose proof (to_reserve_replace_nth i (calls sys) w w' Hi) as Hsum.
    assert (Hun' : unreserved w' = 0)
      by (unfold unreserved; destruct (pc w'); congruence).
    assert (Hce' : cached_eof (shared sys) <= cached_eof c') by lia.
    assert (Hget : forall j x,
              nth_error (replace_nth i (calls sys) w') j = Some x ->
              (j = i /\ x = w') \/ (j <> i /\ nth_error (calls sys) j = Some x)).
    { intros j x Hj. destruct (Nat.eq_dec j i) as [-> | Hne].
      - rewrite nth_error_replace_nth_same in Hj
          by (apply (nth_error_Some_lt _ _ _ _ Hi)).
        left. split; congruence.
      - rewrite nth_error_replace_nth_other in Hj by exact Hne.
        right. split; assumption. }
    assert (Hother : forall j x, j <> i -> nth_error (calls sys) j = Some x ->
              call_ok (cached_eof c') (reserved_eof c') x).
    { intros j x Hne Hj. pose proof (Hcalls j x Hj) as Hx.
      destruct Hce as [Hsame | (Hfl & Hs & Hadv)].
      - rewrite Hsame. apply (call_ok_reserved _ (reserved_eof (shared sys)));
          [lia | exact Hx].
      - assert (Hre : reserved_eof c' = reserved_eof (shared sys)).
        { rewrite Hr'. unfold unreserved. unfold in_flight in Hfl.
          destruct (pc w); try discriminate; lia. }
        rewrite Hre.
        apply (call_ok_commit (cached_eof (shared sys)) _ _ w x);
          [exact Hx | | exact Hs | exact Hadv].
        intros Hx'. apply (Hapart i j w x); auto. }
    assert (Hpair : forall j x, j <> i -> nth_error (calls sys) j = Some x ->
              in_flight w' = true -> in_flight x = true -> apart w' x).
    { intros j x Hne Hj Hfw' Hfx.
      destruct (in_flight w) eqn:Hfw.
      - pose proof (Hapart i j w x ltac:(auto) Hi Hj Hfw Hfx) as Ha.
        unfold apart in *. rewrite Hl', (Hst eq_refl). exact Ha.
      - destruct (Hnew eq_refl Hfw') as [Hs' _].
        pose proof (Hcalls j x Hj) as Hx. unfold call_ok in Hx.
        unfold in_flight in Hfx. unfold apart. rewrite Hs'.
        destruct (pc x); try discriminate; right; lia. }
    split; [|repeat split; lia].
    unfold counters_ok. cbn [shared calls].
    rewrite Hb', Hf'.
    split; [exact HB|]. split; [lia|].
    split.
    { unfold call_ok in Hok'.
      destruct Hce as [Hsame | (Hfl & Hs & Hadv)]; [lia|].
      rewrite Hr'. unfold unreserved. unfold in_flight in Hfl.
      pose proof (Hcalls i w Hi) as Hx. unfold call_ok in Hx.
      destruct (pc w); try discriminate; lia. }
    split; [lia|].
    split.
    { intros j x Hj. destruct (Hget j x Hj) as [[-> ->] | [Hne Hj']].
      - exact Hok'.
      - exact (Hother j x Hne Hj'). }
    intros a b wa wb Hab Ha Hb Hfa Hfb.
    destruct (Hget a wa Ha) as [[-> ->] | [Hna Ha2]];
      destruct (Hget b wb Hb) as [[-> ->] | [Hnb Hb2]].
    + congruence.
    + exact (Hpair b wb Hnb Hb2 Hfa Hfb).
    + apply apart_sym. exact (Hpair a wa Hna Ha2 Hfb Hfa).
    + exact (Hapart a b wa wb Hab Ha2 Hb2 Hfa Hfb).
  - inversion Hstep; subst sys'; clear Hstep. unfold flusher_step.
    assert (Hnn : 0 <= to_reserve (calls sys)).
    { destruct (calls sys) as [|x rest] eqn:E; [cbn; lia|].
      rewrite <- E in *.
      assert (Hx : nth_error (calls sys) 0 = Some x) by (rewrite E; reflexivity).
      exact (proj2 (to_reserve_member 0 (calls sys) x Hlen Hx)). }
    pose proof (flush_cache_body_counters (shared sys) (mach sys) HB HF
                  ltac:(lia)) as Hfl.
    cbv zeta in Hfl.
    destruct (flush_cache_body (shared sys) (flushed_eof (shared sys))
                               (mach sys)) as [[r c' | v c'] m];
      cbn [fst] in Hfl; destruct Hfl as (Hb' & Hc' & Hr' & Hf');
      cbn [shared calls]; unfold counters_ok; cbn [shared calls];
      rewrite Hb', Hc', Hr';
      (split; [|repeat split; lia]);
      (split; [exact HB|]); (split; [lia|]); (split; [lia|]);
      (split; [lia|]); (split; [exact Hcalls | exact Hapart]).
Qed.

Lemma run_keeps_counters schedule : forall sys sys',
  counters_ok sys -> run MY_NABP MY_FNABP schedule sys = Some sys' ->
  counters_ok sys' /\
  flushed_eof (shared sys) <= flushed_eof (shared sys') /\
  cached_eof (shared sys) <= cached_eof (shared sys') /\
  reserved_eof (shared sys) <= reserved_eof (shared sys') /\
  reserved_eof (shared sys') + to_reserve (calls sys')
  = reserved_eof (shared sys) + to_reserve (calls sys).
Proof.
  induction schedule as [|t rest IH]; intros sys sys' Hok Hrun;
    cbn [run] in Hrun.
  - inversion Hrun; subst. split; [assumption | repeat split; lia].
  - destruct (step MY_NABP MY_FNABP t sys) as [sys1|] eqn:Hstep;
      [|discriminate].
    destruct (step_keeps_counters t sys sys1 Hok Hstep)
      as (Hok1 & Hf1 & Hc1 & Hr1 & Hs1).
    destruct (IH sys1 sys' Hok1 Hrun) as (Hok' & Hf' & Hc' & Hr' & Hs').
    split; [exact Hok'|]. repeat split; lia.
Qed.

(** X19. Any number of calls of [cache_write] and the flusher taking their
    turns in any order, from a state in which no call has started and the
    lengths to reserve keep [reserved_eof] below 2^64: whatever the order,
    [flushed_eof <= cached_eof <= reserved_eof] afterwards; none of the
    three counters has gone back; [reserved_eof] has grown by no more than
    the lengths of the calls; and every call that has returned, unless its
    length was 0, has [cached_eof] at or beyond the end of the range it
    reserved. *)
Theorem counters_stay_ordered schedule sys sys' :
  0 < buffer_size (shared sys) < 2 ^ 64 ->
  0 <= flushed_eof (shared sys) <= cached_eof (shared sys) ->
  cached_eof (shared sys) <= reserved_eof (shared sys) ->
  Forall (fun w => pc w = AtEntry /\ 0 <= length_arg w) (calls sys) ->
  reserved_eof (shared sys) + to_reserve (calls sys) < 2 ^ 64 ->
  run MY_NABP MY_FNABP schedule sys = Some sys' ->
  flushed_eof (shared sys') <= cached_eof (shared sys')
  <= reserved_eof (shared sys') /\
  flushed_eof (shared sys) <= flushed_eof (shared sys') /\
  cached_eof (shared sys) <= cached_eof (shared sys') /\
  reserved_eof (shared sys) <= reserved_eof (shared sys') /\
  reserved_eof (shared sys')
  <= reserved_eof (shared sys) + to_reserve (calls sys) /\
  (forall i w res, nth_error (calls sys') i = Some w ->
     pc w = Returned res ->
     length_arg w = 0 \/
     start w + length_arg w <= cached_eof (shared sys')).
Proof.
  intros HB HF HC Hall HR Hrun.
  assert (Hok : counters_ok sys).
  { unfold counters_ok. cbv zeta.
    split; [exact HB|]. split; [exact HF|]. split; [exact HC|].
    split; [exact HR|]. rewrite Forall_forall in Hall. split.
    - intros i w Hi. destruct (Hall w (nth_error_In _ _ Hi)) as [Hpc Hl].
      unfold call_ok. rewrite Hpc. exact Hl.
    - intros i j wi wj _ Hi _ Hfi _.
      destruct (Hall wi (nth_error_In _ _ Hi)) as [Hpc _].
      unfold in_flight in Hfi. rewrite Hpc in Hfi. discriminate. }
  destruct (run_keeps_counters schedule sys sys' Hok Hrun)
    as (Hok' & Hf' & Hc' & Hr' & Hs').
  destruct Hok' as (_ & HF' & HC' & _ & Hcalls' & _). cbv zeta in *.
  assert (Hnn : 0 <= to_reserve (calls sys')).
  { destruct (calls sys') as [|x rest] eqn:E; [cbn; lia|].
    rewrite <- E in *.
    assert (Hx : nth_error (calls sys') 0 = Some x) by (rewrite E; reflexivity).
    refine (proj2 (to_reserve_member 0 (calls sys') x _ Hx)).
    intros j y Hj Hpc. pose proof (Hcalls' j y Hj) as Hy.
    unfold call_ok in Hy. rewrite Hpc in Hy. exact Hy. }
  split; [lia|]. split; [exact Hf'|]. split; [exact Hc'|].
  split; [exact Hr'|]. split; [lia|].
  intros i w res Hi Hpc. pose proof (Hcalls' i w Hi) as Hw.
  unfold call_ok in Hw. rewrite Hpc in Hw. exact Hw.
Qed.

End Together.

Lemma call_alone_flushed bs fe fe' ce re w :
  fe <= fe' -> call_alone bs fe ce re w -> call_alone bs fe' ce re w.
Proof.
  unfold call_alone. intros Hfe.
  destruct (pc w); intros H; repeat split; try tauto; lia.
Qed.

Ltac alone :=
  unfold call_alone, unreserved;
  try match goal with H : pc _ = _ |- _ => rewrite ?H end;
  cbn [pc length_arg start write_pos left avail];
  repeat split; intros; try lia.

(** One action of a call that is alone. *)
Lemma cache_write_step_alone MY_NABP MY_FNABP w c s :
  0 < buffer_size c < 2 ^ 64 ->
  0 <= flushed_eof c <= cached_eof c -> cached_eof c <= reserved_eof c ->
  cached_eof c - flushed_eof c <= buffer_size c ->
  reserved_eof c + unreserved w < 2 ^ 64 ->
  call_alone (buffer_size c) (flushed_eof c) (cached_eof c) (reserved_eof c)
             w ->
  let r := fst (cache_write_step MY_NABP MY_FNABP w c s) in
  let w' := fst r in
  let c' := snd r in
  buffer_size c' = buffer_size c /\ flushed_eof c' = flushed_eof c /\
  cached_eof c <= cached_eof c' <= reserved_eof c' /\
  cached_eof c' - flushed_eof c' <= buffer_size c' /\
  reserved_eof c' + unreserved w' = reserved_eof c + unreserved w /\
  unreserved w' = 0 /\
  call_alone (buffer_size c') (flushed_eof c') (cached_eof c')
             (reserved_eof c') w'.
Proof.
  intros HB HF HC Hring HR Hok r w' c'. subst w' c' r.
  unfold call_alone in Hok. unfold unreserved in HR.
  unfold cache_write_step.
  destruct (pc w) as [| | | | | | |res] eqn:Hpc.
  - destruct Hok as [Heq Hlen].
    destruct (Z.eqb_spec (length_arg w) 0) as [Hz | Hnz]; cbn [negb].
    + unfold ret. cbn [fst snd]. alone.
    + unfold my_atomic_add32_explicit, bind, log, ret.
      cbn [fst snd set_reserved_eof buffer_size flushed_eof cached_eof
           reserved_eof].
      rewrite wrap64_small by lia. alone.
  - destruct Hok as (Hwp & Hl & Hre).
    rewrite wrap64_sub_l.
    rewrite (wrap64_small (flushed_eof c + buffer_size c - write_pos w))
      by lia.
    destruct (Z.leb_spec (flushed_eof c + buffer_size c - write_pos w) 0)
      as [Hle | Hgt]; unfold ret; cbn [fst snd]; alone.
  - destruct Hok as (Hwp & Hl & Hre & Ha).
    pose proof (Z.mod_pos_bound (write_pos w) (buffer_size c) ltac:(lia))
      as Hoff.
    set (off := write_pos w mod buffer_size c) in *.
    rewrite (wrap64_small (buffer_size c - off)) by lia.
    set (a0 := if left w <? avail w then left w else avail w).
    set (a := if buffer_size c - off <? a0 then buffer_size c - off else a0).
    assert (Ha0 : 0 < a0 <= left w /\ a0 <= avail w)
      by (subst a0; destruct (Z.ltb_spec (left w) (avail w)); lia).
    assert (Haa : 0 < a <= left w /\ a <= avail w)
      by (subst a; destruct (Z.ltb_spec (buffer_size c - off) a0); lia).
    unfold bind, pmem_memcpy_persist, ret. cbn [fst snd].
    rewrite (wrap64_small (write_pos w + a)) by lia.
    rewrite (wrap64_small (left w - a)) by lia.
    alone.
  - destruct Hok as (Hwp & Ha & Hl & Hre & Hfit).
    destruct (Z.ltb_spec (cached_eof c) (start w)) as [Hlt | Hge];
      unfold ret; cbn [fst snd]; alone.
  - destruct Hok as (Hwp & Ha & Hl & Hre & Hfit).
    unfold bind, pm_store64, ret. cbn [fst snd]. alone.
  - destruct Hok as (Hwp & Ha & Hl & Hre & Hfit).
    unfold bind, pmem_persist, ret. cbn [fst snd]. alone.
  - destruct Hok as (Hwp & Ha & Hl & Hre & Hfit).
    unfold bind, log, ret.
    cbn [fst snd set_cached_eof buffer_size flushed_eof cached_eof
         reserved_eof].
    destruct (Z.eqb_spec (left w) 0) as [Hz | Hnz]; cbn [negb]; alone.
  - unfold ret. cbn [fst snd]. alone.
Qed.

Section Alone.

Variables MY_NABP MY_FNABP : Z.

Lemma step_alone t sys sys' :
  alone_ok sys -> step MY_NABP MY_FNABP t sys = Some sys' ->
  alone_ok sys' /\
  buffer_size (shared sys') = buffer_size (shared sys) /\
  reserved_eof (shared sys') + to_reserve (calls sys')
  = reserved_eof (shared sys) + to_reserve (calls sys).
Proof.
  intros (HB & HF & HC & Hring & w & Hcalls & HR & Hok) Hstep.
  cbv zeta in *. unfold step in Hstep.
  destruct (aborted sys); [discriminate|].
  destruct t as [i|].
  - rewrite Hcalls in Hstep.
    destruct i as [|i]; [|destruct i; discriminate].
    cbn [nth_error] in Hstep.
    pose proof (cache_write_step_alone MY_NABP MY_FNABP w (shared sys)
                  (mach sys) HB HF HC Hring HR Hok) as Hw.
    cbv zeta in Hw.
    destruct (cache_write_step MY_NABP MY_FNABP w (shared sys) (mach sys))
      as [[w' c'] m].
    cbn [fst snd] in Hw.
    destruct Hw as (Hb' & Hf' & Hc' & Hr' & Hsum & Hun & Hok').
    inversion Hstep; subst sys'; clear Hstep.
    cbn [shared calls replace_nth to_reserve]. rewrite Hcalls.
    cbn [to_reserve].
    split; [|split; [exact Hb' | lia]].
    unfold alone_ok. cbn [shared calls].
    split; [rewrite Hb'; exact HB|]. split; [lia|]. split; [lia|].
    split; [exact Hr'|].
    exists w'. split; [reflexivity|]. split; [lia | exact Hok'].
  - inversion Hstep; subst sys'; clear Hstep. unfold flusher_step.
    assert (HC64 : cached_eof (shared sys) < 2 ^ 64)
      by (unfold call_alone, unreserved in *; destruct (pc w); lia).
    pose proof (flush_cache_body_counters (shared sys) (mach sys) HB HF
                  HC64) as Hfl.
    cbv zeta in Hfl.
    destruct (flush_cache_body (shared sys) (flushed_eof (shared sys))
                               (mach sys)) as [[r c' | v c'] m];
      cbn [fst] in Hfl; destruct Hfl as (Hb' & Hc' & Hr' & Hf');
      cbn [shared calls]; (split; [|split; [exact Hb' | lia]]);
      unfold alone_ok; cbn [shared calls]; rewrite Hb', Hc', Hr';
      (split; [exact HB|]); (split; [lia|]); (split; [lia|]);
      (split; [lia|]);
      exists w; (split; [exact Hcalls|]); (split; [exact HR|]);
      (apply (call_alone_flushed _ (flushed_eof (shared sys)));
       [lia | exact Hok]).
Qed.

Lemma run_alone schedule : forall sys sys',
  alone_ok sys -> run MY_NABP MY_FNABP schedule sys = Some sys' ->
  alone_ok sys' /\
  buffer_size (shared sys') = buffer_size (shared sys) /\
  reserved_eof (shared sys') + to_reserve (calls sys')
  = reserved_eof (shared sys) + to_reserve (calls sys).
Proof.
  induction schedule as [|t rest IH]; intros sys sys' Hok Hrun;
    cbn [run] in Hrun.
  - inversion Hrun; subst. split; [assumption | split; reflexivity].
  - destruct (step MY_NABP MY_FNABP t sys) as [sys1|] eqn:Hstep;
      [|discriminate].
    destruct (step_alone t sys sys1 Hok Hstep) as (Hok1 & Hb1 & Hs1).
    destruct (IH sys1 sys' Hok1 Hrun) as (Hok' & Hb' & Hs').
    split; [exact Hok'|]. split; [congruence | lia].
Qed.

(** X20. One call of [cache_write] on a descriptor with nothing reserved
    beyond [cached_eof], and the flusher, taking their turns in any order:
    [cached_eof - flushed_eof] never exceeds [buffer_size], and the three
    counters stay in order.  Once the call has returned, [cached_eof] and
    [reserved_eof] are both the old [cached_eof] plus [length]. *)
Theorem single_writer_keeps_ring schedule cache m bytes len fl sys' :
  0 < buffer_size cache < 2 ^ 64 ->
  0 <= flushed_eof cache -> ring_invariant cache ->
  reserved_eof cache = cached_eof cache ->
  0 <= len -> cached_eof cache + len < 2 ^ 64 ->
  run MY_NABP MY_FNABP schedule
      (mkSystem cache m [cache_write_call bytes len fl] false) = Some sys' ->
  ring_invariant (shared sys') /\
  buffer_size (shared sys') = buffer_size cache /\
  exists w, calls sys' = [w] /\
    forall res, pc w = Returned res ->
      cached_eof (shared sys') = cached_eof cache + len /\
      reserved_eof (shared sys') = cached_eof cache + len.
Proof.
  intros HB HF (Hfc & Hcr & Hring) Heq Hlen Hfit Hrun.
  assert (Hok : alone_ok (mkSystem cache m [cache_write_call bytes len fl]
                                   false)).
  { unfold alone_ok. cbn [shared calls].
    split; [exact HB|]. split; [lia|]. split; [lia|]. split; [exact Hring|].
    eexists. split; [reflexivity|].
    unfold call_alone, unreserved, cache_write_call. cbn [pc length_arg].
    split; [lia|]. split; [lia | exact Hlen]. }
  destruct (run_alone schedule _ sys' Hok Hrun) as (Hok' & Hb' & Hsum).
  cbn [shared calls to_reserve unreserved cache_write_call pc length_arg]
    in Hb', Hsum.
  destruct Hok' as (_ & HF' & HC' & Hring' & w & Hcalls & _ & Hw).
  cbv zeta in *.
  split; [unfold ring_invariant; lia|]. split; [exact Hb'|].
  exists w. split; [exact Hcalls|].
  intros res Hpc. unfold call_alone in Hw. rewrite Hpc in Hw.
  rewrite Hcalls in Hsum. cbn [to_reserve] in Hsum.
  unfold unreserved in Hsum. rewrite Hpc in Hsum. lia.
Qed.

End Alone.

(** ** A stop during the creation of a directory *)

Lemma may_be_found_outside s m lo hi :
  same_outside (media s) (view s) lo hi -> may_be_found s m ->
  same_outside (media s) m lo hi.
Proof.
  intros [Hl Hs] [Lm Hm]. split; [exact Lm|].
  intros i Hi. destruct (Hm i) as [H | H]; rewrite H;
    [reflexivity | apply Hs; exact Hi].
Qed.

Lemma may_be_found_settled s m :
  media s = view s -> may_be_found s m -> m = media s.
Proof.
  intros Heq [Lm Hm]. apply list_eq_nth_error; [exact Lm|].
  intros i _. destruct (Hm i) as [H | H]; rewrite H; congruence.
Qed.

Lemma may_be_found_media s : may_be_found s (media s).
Proof. split; [reflexivity | intros i; left; reflexivity]. Qed.

Lemma load_bytes_of_load64 m m' a :
  0 <= a -> a + 8 <= Z.of_nat (length m) -> a + 8 <= Z.of_nat (length m') ->
  load64 m a = load64 m' a -> load_bytes m a 8 = load_bytes m' a 8.
Proof.
  intros Ha Hm Hm' H. unfold load64 in H.
  rewrite <- (split_le_combine' (load_bytes m a 8) 8)
    by (apply length_load_bytes; lia).
  rewrite <- (split_le_combine' (load_bytes m' a 8) 8)
    by (apply length_load_bytes; lia).
  rewrite H. reflexivity.
Qed.

(** A word that is the same on the media and in the mapping is that word
    in every file that may be found. *)
Lemma may_be_found_load64 s m a :
  0 <= a -> a + 8 <= Z.of_nat (length (media s)) ->
  length (view s) = length (media s) -> may_be_found s m ->
  load64 (media s) a = load64 (view s) a ->
  load64 m a = load64 (media s) a.
Proof.
  intros Ha Hfit Hlen [Lm Hm] Heq.
  apply load_bytes_of_load64 in Heq; try lia.
  unfold load64. f_equal.
  apply list_eq_nth_error.
  { rewrite !length_load_bytes; lia. }
  intros i Hi. rewrite length_load_bytes in Hi by lia.
  rewrite !nth_error_load_bytes by lia.
  destruct (Hm (Z.to_nat a + i)%nat) as [H | H]; rewrite H; [reflexivity|].
  rewrite <- !(nth_error_load_bytes _ a 8 i) by lia.
  rewrite Heq. reflexivity.
Qed.

(** A file that differs from [v] in one word at most, and has the word
    stored there, is [v] with that word stored. *)
Lemma same_but_word v m a x :
  0 <= a -> a + 8 <= Z.of_nat (length v) ->
  same_outside v m a (a + 8) ->
  load64 m a = load64 (store64 v a x) a ->
  m = store64 v a x.
Proof.
  intros Ha Hfit [Lm Hm] Hw.
  assert (Ls : length (store64 v a x) = length v)
    by (apply length_store64; lia).
  apply load_bytes_of_load64 in Hw; try lia.
  assert (Hst : load_bytes (store64 v a x) a 8 = le_split 8 x).
  { unfold store64.
    change 8%nat with (length (le_split 8 x)) at 1.
    apply load_store_bytes_same; rewrite ?length_le_split; lia. }
  rewrite Hst in Hw.
  apply list_eq_nth_error; [congruence|].
  intros i Hi.
  destruct (Nat.lt_ge_cases i (Z.to_nat a)) as [Hlo | Hge].
  { unfold store64. rewrite nth_error_store_bytes_out
      by (rewrite ?length_le_split; lia).
    apply Hm. lia. }
  destruct (Nat.lt_ge_cases i (Z.to_nat a + 8)) as [Hin | Hout].
  - unfold store64. rewrite nth_error_store_bytes_in
      by (rewrite ?length_le_split; lia).
    rewrite <- Hw. rewrite nth_error_load_bytes by lia.
    f_equal. lia.
  - unfold store64. rewrite nth_error_store_bytes_out
      by (rewrite ?length_le_split; lia).
    apply Hm. lia.
Qed.

(** A file without the signature is refused, whatever else it holds. *)
Lemma open_refuses_wrong_magic dir s :
  Z.of_nat (length (media s)) < 2 ^ 64 ->
  load64 (media s) off_magic <> pmem_append_cache_magic ->
  fst (fst (pmem_append_cache_open dir s)) = -1.
Proof.
  intros Hlen Hmagic.
  destruct (hd Succeed (script s)) eqn:Ehd.
  1,3: assert (Hok : hd Succeed (script s) <> Fail)
         by (rewrite Ehd; discriminate);
       assert (Hfile : ~ directory_file_ok (media s))
         by (intros (_ & H & _); contradiction);
       destruct (pmem_append_cache_open_refuses dir s Hlen Hok Hfile)
         as (Hr & _); cbv zeta in Hr; rewrite Hr; reflexivity.
  unfold pmem_append_cache_open, pmem_map_file_existing, bind.
  rewrite next_outcome_eq, Ehd. reflexivity.
Qed.

(** The stores into the table of offsets stay within it and leave the
    media alone. *)
Lemma offset_steps_run m0 hi cs k : forall i so s,
  0 <= i -> sizeof_DIRECTORY_HEADER + 8 * (i + Z.of_nat k) <= hi ->
  hi <= Z.of_nat (length m0) ->
  same_outside m0 (view s) 0 hi ->
  let s' := snd (run_steps (offset_steps k i so cs) s) in
  same_outside m0 (view s') 0 hi /\ media s' = media s /\
  files s' = files s /\
  exists evs, trace s' = trace s ++ evs /\ Forall offset_store evs.
Proof.
  pose proof (eq_refl : sizeof_DIRECTORY_HEADER = 16) as HD.
  induction k as [|k IH]; intros i so s Hi Hfit Hhi Hsame;
    cbn [offset_steps run_steps].
  - cbn [ret snd]. repeat split; try apply Hsame; try reflexivity.
    exists []. rewrite app_nil_r. split; [reflexivity | constructor].
  - rewrite snd_bind_unit. cbn [pm_store64 snd].
    set (s1 := mkMachine _ _ _ _ _).
    destruct (IH (i + 1) (wrap64 (so + cs)) s1) as (Hs' & Hm' & Hf' & evs & Ht' & He');
      try lia.
    { cbn [s1 view]. apply same_outside_store64; try lia. exact Hsame. }
    cbv zeta in Hs', Hm', Hf', Ht'.
    split; [exact Hs'|]. split; [exact Hm'|]. split; [exact Hf'|].
    exists (EvStore (sizeof_DIRECTORY_HEADER + 8 * i) so :: evs).
    split.
    + rewrite Ht'. cbn [s1 trace]. rewrite <- app_assoc. reflexivity.
    + constructor; [|exact He'].
      exists (sizeof_DIRECTORY_HEADER + 8 * i), so. split; [reflexivity | lia].
Qed.

(** The machine when [create_directory] has persisted the offsets and the
    slot count, and has not stored the signature yet: all that is in the
    mapping is in the file. *)
Lemma create_before_magic_state size nc s0 :
  0 <= size < 2 ^ 64 -> 0 <= nc < 2 ^ 64 -> create_accepts size nc ->
  view s0 = zeros size -> media s0 = zeros size ->
  let sp := snd (run_steps (create_steps_before_magic size nc) s0) in
  media sp = view sp /\ Z.of_nat (length (view sp)) = size /\
  files sp = files s0 /\
  exists evs, trace sp = trace s0 ++ evs
                         ++ [EvStore off_n_caches nc;
                             EvPersist 0 (directory_header_size nc)] /\
              Forall offset_store evs.
Proof.
  intros Hs Hn Hacc Hv Hm.
  destruct (create_accepts_bounds size nc Hs Hn Hacc) as (Hhs & Hnc & Hfit).
  pose proof (eq_refl : sizeof_DIRECTORY_HEADER = 16) as HD.
  pose proof (eq_refl : off_n_caches = 8) as ON.
  unfold create_steps_before_magic. rewrite run_steps_app_snd.
  set (hs := directory_header_size nc) in *.
  assert (Lz : Z.of_nat (length (zeros size)) = size)
    by (rewrite length_zeros; lia).
  destruct (offset_steps_run (zeros size) hs (create_cache_size size nc)
              (Z.to_nat nc) 0 hs s0)
    as (Hsame & Hmed & Hfl & evs & Htr & Hev); try lia.
  { rewrite Hv. apply same_outside_refl. }
  cbv zeta in Hsame, Hmed, Hfl, Htr.
  set (sa := snd (run_steps (offset_steps _ _ _ _) s0)) in *.
  cbn [run_steps]. rewrite !snd_bind_unit.
  cbn [ret snd pm_store64 pmem_persist view media files trace].
  assert (Hsame1 : same_outside (zeros size)
                     (store64 (view sa) off_n_caches nc) 0 hs)
    by (apply same_outside_store64; try lia; exact Hsame).
  split.
  { rewrite Hmed, Hm.
    apply (persist_catches_up _ _ 0 hs); try lia. exact Hsame1. }
  split.
  { destruct Hsame1 as [L _]. rewrite L. exact Lz. }
  split; [exact Hfl|].
  exists evs. split; [|exact Hev].
  rewrite Htr, <- !app_assoc. reflexivity.
Qed.

Lemma pmem_map_file_create_eq size s :
  hd Succeed (script s) <> Fail ->
  pmem_map_file_create size s
  = (Some size, mkMachine (zeros size) (zeros size) (files s)
                          (tl (script s)) (trace s ++ [EvMap size])).
Proof.
  intros Hok. unfold pmem_map_file_create, bind. rewrite next_outcome_eq.
  destruct (hd Succeed (script s)); first [reflexivity | congruence].
Qed.

(** C5.  [create_directory] stores and persists the slot start offsets
    and n_caches before it stores the signature, and persists the
    signature last: what it adds to the trace is the mapping, stores into
    the table of offsets, the store of n_caches, the persist of the whole
    header, the store of the signature and its persist, in this order.
    The file it leaves holds every store, is a fresh directory, and is
    accepted by [pmem_append_cache_open].  When the creation stops after
    [k] of its steps, every file [m] that may then be found is refused by
    [pmem_append_cache_open] if the signature was not stored yet (two
    steps or more were left); and whatever [k] is, the file is refused or
    it is the complete directory: between the store of the signature and
    its persist the store may have reached the file. *)
Theorem create_directory_magic_last dir dir' size nc s k m :
  0 <= size < 2 ^ 64 -> 0 <= nc < 2 ^ 64 -> create_accepts size nc ->
  hd Succeed (script s) <> Fail ->
  let steps := create_steps size nc in
  let mapped := snd (pmem_map_file_create size s) in
  let created := snd (create_directory dir size nc s) in
  let stopped := snd (run_steps (firstn k steps) mapped) in
  created = snd (run_steps steps mapped) /\
  (exists evs,
     trace created = trace s ++ [EvMap size] ++ evs
                     ++ [ EvStore off_n_caches nc;
                          EvPersist 0 (directory_header_size nc);
                          EvStore off_magic pmem_append_cache_magic;
                          EvPersist off_magic 8 ] /\
     Forall offset_store evs) /\
  media created = view created /\
  fresh_directory size nc (media created) /\
  (hd Succeed (script created) <> Fail ->
   fst (fst (pmem_append_cache_open dir' (crash created))) = 0) /\
  (may_be_found stopped m ->
   let r := pmem_append_cache_open dir' (found stopped m) in
   ((k + 2 <= length steps)%nat -> fst (fst r) = -1) /\
   (fst (fst r) = -1 \/ m = media created)).
Proof.
  intros Hs Hn Hacc Hok steps mapped created stopped.
  destruct (create_accepts_bounds size nc Hs Hn Hacc) as (Hhs & Hnc & Hfit).
  pose proof (proj1 (create_accepts_iff size nc Hs Hn) Hacc) as [_ Hroom].
  pose proof (eq_refl : sizeof_DIRECTORY_HEADER = 16) as HD.
  pose proof (eq_refl : off_magic = 0) as OM.
  assert (Hmapped : mapped
                    = mkMachine (zeros size) (zeros size) (files s)
                                (tl (script s)) (trace s ++ [EvMap size]))
    by (subst mapped; rewrite pmem_map_file_create_eq by exact Hok;
        reflexivity).
  assert (Hcreated : created = snd (run_steps steps mapped)).
  { subst created steps mapped.
    rewrite create_directory_runs_steps by (auto; lia). reflexivity. }
  set (pre := create_steps_before_magic size nc).
  assert (Hsteps : steps = pre ++ [ pm_store64 off_magic pmem_append_cache_magic;
                                    pmem_persist off_magic 8 ])
    by (apply create_steps_split).
  destruct (create_before_magic_state size nc mapped Hs Hn Hacc)
    as (Hpm & Hpl & Hpf & evs & Hpt & Hpe);
    try (rewrite Hmapped; reflexivity).
  cbv zeta in Hpm, Hpl, Hpf, Hpt. fold pre in Hpm, Hpl, Hpf, Hpt.
  set (sp := snd (run_steps pre mapped)) in *.
  set (vf := store64 (view sp) off_magic pmem_append_cache_magic).
  assert (Hvf : same_outside (view sp) vf 0 8).
  { subst vf. apply same_outside_store64; try lia. apply same_outside_refl. }
  assert (Hfinal : created
                   = mkMachine vf vf (files sp) (script sp)
                       ((trace sp
                         ++ [EvStore off_magic pmem_append_cache_magic])
                        ++ [EvPersist off_magic 8])).
  { rewrite Hcreated, Hsteps, run_steps_app_snd. fold sp.
    cbn [run_steps]. rewrite !snd_bind_unit.
    cbn [ret snd pm_store64 pmem_persist view media files script trace].
    fold vf. f_equal. rewrite Hpm, OM.
    apply (persist_catches_up _ _ 0 8); try lia. exact Hvf. }
  assert (Hfresh : fresh_directory size nc (media created)).
  { subst created.
    exact (proj1 (proj2 (proj2 (create_directory_fresh dir size nc s Hs Hnc
                                  Hroom Hok)))). }
  assert (Lvf : Z.of_nat (length vf) = size)
    by (subst vf; rewrite length_store64; lia).
  split; [exact Hcreated|].
  split.
  { exists evs. split; [|exact Hpe].
    rewrite Hfinal. cbn [trace]. rewrite Hpt, Hmapped. cbn [trace].
    rewrite <- !app_assoc. reflexivity. }
  split; [rewrite Hfinal; reflexivity|].
  split; [exact Hfresh|].
  split.
  { intros Hscr.
    rewrite pmem_append_cache_open_accepts; [reflexivity | | exact Hscr |].
    - cbn [crash media]. rewrite Hfinal. cbn [media]. lia.
    - cbn [crash media].
      apply (fresh_directory_file_ok size nc); auto. }
  intros Hfound r. subst r.
  assert (Hm64 : Z.of_nat (length (media (found stopped m))) < 2 ^ 64 ->
                 load64 m off_magic <> pmem_append_cache_magic ->
                 fst (fst (pmem_append_cache_open dir' (found stopped m)))
                 = -1)
    by (intros; apply open_refuses_wrong_magic; assumption).
  cbn [found media] in Hm64.
  assert (Hkeep : Forall (keeps size true true) pre)
    by (apply create_steps_before_magic_keep; assumption).
  destruct (mapped_no_magic_yet size s (proj1 Hs) Hok) as [_ H0].
  fold mapped in H0.
  destruct (Nat.le_gt_cases k (length pre)) as [Hle | Hgt].
  - (* the signature has not been stored *)
    assert (Hno : no_magic_yet size true stopped).
    { subst stopped. rewrite Hsteps, firstn_app.
      replace (k - length pre)%nat with 0%nat by lia.
      cbn [firstn]. rewrite app_nil_r.
      apply run_steps_keep; [|exact H0].
      apply Forall_firstn_keep, Hkeep. }
    destruct Hno as (Lv & Lm & Mz & Vz). specialize (Vz eq_refl).
    assert (Hz : load64 m off_magic = 0).
    { rewrite (may_be_found_load64 stopped m off_magic);
        first [lia | congruence | assumption]. }
    assert (Href : fst (fst (pmem_append_cache_open dir' (found stopped m)))
                   = -1).
    { apply Hm64; [destruct Hfound as [L _]; lia|].
      rewrite Hz. discriminate. }
    split; [intros _; exact Href | left; exact Href].
  - assert (Hlen : length steps = (length pre + 2)%nat)
      by (rewrite Hsteps, length_app; reflexivity).
    split; [intros Hk; lia|].
    destruct (Nat.eq_dec k (S (length pre))) as [-> | Hne].
    + (* the signature is stored and not persisted *)
      assert (Hst : stopped
                    = snd (pm_store64 off_magic pmem_append_cache_magic sp)).
      { subst stopped. rewrite Hsteps, firstn_app, firstn_all2 by lia.
        replace (S (length pre) - length pre)%nat with 1%nat by lia.
        cbn [firstn]. rewrite run_steps_app_snd. fold sp.
        cbn [run_steps]. rewrite snd_bind_unit. reflexivity. }
      assert (Hout : same_outside (view sp) m 0 8).
      { rewrite <- Hpm.
        replace (media sp) with (media stopped) by (rewrite Hst; reflexivity).
        apply may_be_found_outside; [|exact Hfound].
        rewrite Hst. cbn [pm_store64 snd media view]. rewrite Hpm.
        exact Hvf. }
      destruct (Z.eq_dec (load64 m off_magic) pmem_append_cache_magic)
        as [Heq | Hneq].
      * right. rewrite Hfinal. cbn [media]. subst vf. rewrite OM in *.
        apply same_but_word; try lia; [exact Hout|].
        rewrite Heq. rewrite load64_store64_same by lia. reflexivity.
      * left. apply Hm64; [|exact Hneq].
        destruct Hout as [L _]. lia.
    + (* every step has been made *)
      right. symmetry.
      assert (Hst : stopped = created).
      { subst stopped. rewrite firstn_all2 by lia. symmetry. exact Hcreated. }
      rewrite Hst in Hfound. symmetry.
      apply may_be_found_settled; [|exact Hfound].
      rewrite Hfinal. reflexivity.
Qed.

(** ** A stop during an attach *)

(** What the mapping holds after each of the steps of the attach. *)
Lemma attach_prefix_views sizeof h st_size name s k :
  let v1 := store64 (view s) (h + off_cached_eof) st_size in
  let v2 := store64 v1 (h + off_flushed_eof) st_size in
  let v3 := store_bytes v2 (h + sizeof_CACHE_HEADER) (name ++ [Byte.x00]) in
  let v4 := store64 v3 (h + off_file_name_length)
                    (wrap64 (Z.of_nat (length name) + 1)) in
  view (snd (run_steps (firstn k (attach_steps sizeof h st_size name)) s))
  = nth k [view s; v1; v2; v3; v3; v4] v4.
Proof.
  intros v1 v2 v3 v4. unfold attach_steps.
  destruct k as [|[|[|[|[|[|k]]]]]]; cbn [firstn run_steps nth];
    rewrite ?snd_bind_unit; try reflexivity.
  destruct k; reflexivity.
Qed.

(** X18.  [pmem_append_cache_attach] stores and persists
    [file_name_length] last.  The state it leaves is that of its six
    stores and persists made in order after the [my_fstat].  When the
    process stops after [k] of them, in every file [m] that may then be
    found: [file_name_length] of the slot is 0 if it had not been stored
    yet ([k] is 4 or less); if it is not 0, the two offsets are the size
    of the backing file, the name is in place with its null byte, and the
    file differs from the one the attach leaves in [file_name_length] at
    most; and if it is the length of the name plus one, the file is the
    one the attach leaves. *)
Theorem attach_name_length_last sizeof c d n fd name s nm content c1 k m :
  dummy d = false -> directory_ok d (view s) ->
  Z.of_nat (length (view s)) = mapped_length d -> media s = view s ->
  0 <= n < 2 ^ 64 ->
  hd Succeed (script s) <> Fail ->
  file_of s fd = Some (nm, content) -> Z.of_nat (length content) < 2 ^ 64 ->
  open_cache (set_write (set_file_fd c fd) Cached) d (view s) n = (0, c1) ->
  hdr_file_name_length (view s) (header c1) = 0 ->
  Z.of_nat (length name) + 1 < buffer_size c1 ->
  sizeof_CACHE_HEADER <= sizeof ->
  header c1 + sizeof + Z.of_nat (length name) + 1 <= mapped_length d ->
  let h := header c1 in
  let st_size := Z.of_nat (length content) in
  let fnl := Z.of_nat (length name) + 1 in
  let steps := attach_steps sizeof h st_size name in
  let s1 := snd (my_fstat fd s) in
  let r := pmem_append_cache_attach sizeof c (Some d) n fd name s in
  let stopped := snd (run_steps (firstn k steps) s1) in
  view (snd r) = view (snd (run_steps steps s1)) /\
  media (snd r) = media (snd (run_steps steps s1)) /\
  (may_be_found stopped m ->
   ((k <= 4)%nat -> hdr_file_name_length m h = 0) /\
   (hdr_file_name_length m h <> 0 ->
    hdr_flushed_eof m h = st_size /\ hdr_cached_eof m h = st_size /\
    load_bytes m (h + sizeof_CACHE_HEADER) (length name + 1)
    = name ++ [Byte.x00] /\
    same_outside (media (snd r)) m h (h + 8)) /\
   (hdr_file_name_length m h = fnl -> m = media (snd r))).
Proof.
  intros Hd Hok Hlen Hdur Hn Hstat Hfile Hsz Hopen Hfree Hfits
         Hsizeof Hpersist h st_size fnl steps s1 r stopped.
  set (c0 := set_write (set_file_fd c fd) Cached) in *.
  pose proof Hopen as Hopen'.
  apply open_cache_ok_iff in Hopen'; [|assumption|assumption].
  destruct Hopen' as [Hslot Hc1].
  assert (Hh : h = cache_start (view s) n) by (subst h c1; reflexivity).
  assert (Hbs : buffer_size c1
                = cache_end d (view s) n - h - sizeof_CACHE_HEADER).
  { rewrite Hh. subst c1. unfold opened_slot. cbn [buffer_size].
    replace (hdr_file_name_length (view s) (cache_start (view s) n)) with 0
      by (symmetry; exact Hfree). lia. }
  assert (Hfn : file_name c1 = h + sizeof_CACHE_HEADER)
    by (rewrite Hh; subst c1; reflexivity).
  pose proof Hslot as (Hlt & Hcs & Hce & Hal & Hfnl0 & Hfc & Hroom).
  rewrite <- Hh in Hcs, Hce, Hal, Hfnl0, Hfc, Hroom.
  pose proof (eq_refl : sizeof_CACHE_HEADER = 24) as HC.
  pose proof (eq_refl : off_file_name_length = 0) as O0.
  pose proof (eq_refl : off_flushed_eof = 8) as O1.
  pose proof (eq_refl : off_cached_eof = 16) as O2.
  pose proof (eq_refl : sizeof_DIRECTORY_HEADER = 16) as HD.
  pose proof Hok as [Hml Hq].
  pose proof (load64_range (view s) off_n_caches) as Rnc.
  fold (n_caches (view s)) in Rnc.
  assert (Hfnl : wrap64 (Z.of_nat (length name) + 1) = fnl)
    by (apply wrap64_small; subst fnl; lia).
  assert (Hfs : s1 = mkMachine (view s) (media s) (files s) (tl (script s))
                               (trace s ++ [EvFstat fd 0])).
  { subst s1. rewrite my_fstat_eq, Hfile.
    destruct (hd Succeed (script s)); first [reflexivity | congruence]. }
  assert (Hv1 : view s1 = view s) by (rewrite Hfs; reflexivity).
  destruct (attach_steps_spec sizeof d n name s1 h st_size)
    as (S3 & S4 & G1 & G2 & F0 & _ & _ & FN & Mlow & Mhigh & Vr & Mr & _);
    try (rewrite ?Hfs; cbn [view media];
         first [assumption | subst fnl st_size; lia]).
  cbv zeta in S3, S4, G1, G2, F0, FN, Mlow, Mhigh, Vr, Mr.
  fold steps fnl in S3, S4, G1, G2, F0, FN, Mlow, Mhigh, Vr, Mr.
  rewrite Hv1 in S3, S4, G1, G2, F0, FN, Mlow, Mhigh, Vr, Mr.
  pose proof (attach_prefix_views sizeof h st_size name s1 k) as Hviews.
  cbv zeta in Hviews. fold steps stopped in Hviews.
  rewrite Hv1, Hfnl in Hviews.
  set (v1 := store64 (view s) (h + off_cached_eof) st_size) in *.
  set (v2 := store64 v1 (h + off_flushed_eof) st_size) in *.
  set (v3 := store_bytes v2 (h + sizeof_CACHE_HEADER) (name ++ [Byte.x00]))
    in *.
  set (v4 := store64 v3 (h + off_file_name_length) fnl) in *.
  assert (Lname : Z.of_nat (length (name ++ [Byte.x00])) = fnl)
    by (rewrite length_app; cbn [length]; subst fnl; lia).
  assert (L1 : length v1 = length (view s))
    by (subst v1; apply length_store64; lia).
  assert (L2 : length v2 = length (view s))
    by (subst v2; rewrite length_store64; lia).
  assert (L3 : length v3 = length (view s))
    by (subst v3; rewrite length_store_bytes; lia).
  assert (S1 : same_outside (view s) v1 (h + off_flushed_eof)
                            (h + sizeof_CACHE_HEADER + fnl)).
  { subst v1. apply same_outside_store64; try lia. apply same_outside_refl. }
  assert (S2 : same_outside (view s) v2 (h + off_flushed_eof)
                            (h + sizeof_CACHE_HEADER + fnl)).
  { subst v2. apply same_outside_store64; try lia. exact S1. }
  assert (S34 : same_outside v3 v4 h (h + 8)).
  { subst v4. rewrite O0, Z.add_0_r.
    apply same_outside_store64; try lia. apply same_outside_refl. }
  assert (FN3 : load_bytes v3 (h + sizeof_CACHE_HEADER) (length name + 1)
                = name ++ [Byte.x00]).
  { subst v3. replace (length name + 1)%nat with (length (name ++ [Byte.x00]))
      by (rewrite length_app; reflexivity).
    apply load_store_bytes_same; lia. }
  assert (F3 : hdr_file_name_length v3 h = 0).
  { rewrite <- Hfree. unfold hdr_file_name_length.
    apply (same_outside_load64 (view s) v3 (h + off_flushed_eof)
             (h + sizeof_CACHE_HEADER + fnl)); auto; lia. }
  assert (Hr : r = pmem_append_cache_attach sizeof c (Some d) n fd name s)
    by reflexivity.
  rewrite (pmem_append_cache_attach_accepted sizeof c d n fd name s nm
             content c1) in Hr; try assumption; [|rewrite Hfnl; exact Hfits].
  fold st_size h s1 steps in Hr. rewrite next_outcome_eq in Hr.
  assert (Hrm : media (snd r) = v4) by (rewrite Hr; cbn [snd media]; exact Mr).
  split; [rewrite Hr; reflexivity|]. split; [rewrite Hr; reflexivity|].
  clear Hr. clearbody r.
  intros Hfound.
  (* the file agrees with [base] but for the bytes from [lo] to [hi] *)
  assert (Hcase :
    ((k <= 3)%nat /\ same_outside (view s) m (h + off_flushed_eof)
                                  (h + sizeof_CACHE_HEADER + fnl)) \/
    (k = 4%nat /\ m = v3) \/
    (k = 5%nat /\ same_outside v3 m h (h + 8)) \/
    ((6 <= k)%nat /\ m = v4)).
  { assert (Hvs : view stopped = nth k [view s; v1; v2; v3; v3; v4] v4)
      by exact Hviews.
    destruct (Nat.le_gt_cases k 3) as [Hk3 | Hk4].
    - left. split; [exact Hk3|].
      assert (Hms : media stopped = view s) by exact (Mlow k Hk3).
      pose proof (may_be_found_outside stopped m (h + off_flushed_eof)
                    (h + sizeof_CACHE_HEADER + fnl)) as Hout.
      rewrite Hms, Hvs in Hout. apply Hout; [|exact Hfound].
      destruct k as [|[|[|[|k]]]]; try lia; cbn [nth];
        [apply same_outside_refl | exact S1 | exact S2 | exact S3].
    - right. destruct (Nat.eq_dec k 4) as [Hk | Hk].
      { left. split; [exact Hk|].
        assert (Hms : media stopped = v3) by (apply Mhigh; lia).
        rewrite <- Hms.
        apply may_be_found_settled; [|exact Hfound].
        rewrite Hms, Hvs, Hk. reflexivity. }
      right. destruct (Nat.eq_dec k 5) as [Hk' | Hk'].
      { left. split; [exact Hk'|].
        assert (Hms : media stopped = v3) by (apply Mhigh; lia).
        pose proof (may_be_found_outside stopped m h (h + 8)) as Hout.
        rewrite Hms, Hvs, Hk' in Hout. apply Hout; [exact S34 | exact Hfound]. }
      right. split; [lia|].
      assert (Hall : stopped = snd (run_steps steps s1)).
      { subst stopped. rewrite firstn_all2; [reflexivity|].
        cbn [steps attach_steps length]. lia. }
      assert (Hms : media stopped = v4) by (rewrite Hall; exact Mr).
      rewrite <- Hms.
      apply may_be_found_settled; [|exact Hfound].
      rewrite Hall, Vr, Mr. reflexivity. }
  assert (Hlow : forall x, same_outside (view s) x (h + off_flushed_eof)
                             (h + sizeof_CACHE_HEADER + fnl) ->
                           hdr_file_name_length x h = 0).
  { intros x Hx. rewrite <- Hfree. unfold hdr_file_name_length.
    apply (same_outside_load64 (view s) x (h + off_flushed_eof)
             (h + sizeof_CACHE_HEADER + fnl)); auto; lia. }
  assert (Hhigh : forall x, same_outside v3 x h (h + 8) ->
            hdr_flushed_eof x h = st_size /\ hdr_cached_eof x h = st_size /\
            load_bytes x (h + sizeof_CACHE_HEADER) (length name + 1)
            = name ++ [Byte.x00] /\
            same_outside v4 x h (h + 8)).
  { intros x Hx.
    split; [rewrite <- G1; unfold hdr_flushed_eof;
            apply (same_outside_load64 v3 x h (h + 8)); auto; lia|].
    split; [rewrite <- G2; unfold hdr_cached_eof;
            apply (same_outside_load64 v3 x h (h + 8)); auto; lia|].
    split.
    - rewrite <- FN3.
      apply (same_outside_load_bytes v3 x h (h + 8)); auto; lia.
    - destruct Hx as [Lx Sx]. destruct S34 as [L4 S4'].
      split; [congruence|]. intros i Hi. rewrite Sx, S4' by exact Hi.
      reflexivity. }
  assert (Fnz : fnl <> 0) by (subst fnl; lia).
  rewrite Hrm.
  destruct Hcase as [[Hk Hm] | [[Hk ->] | [[Hk Hm] | [Hk ->]]]].
  - pose proof (Hlow m Hm) as Hz.
    split; [intros _; exact Hz|].
    split; [intros Hnz; contradiction | intros Hx; congruence].
  - split; [intros _; exact F3|].
    split; [intros Hnz; contradiction | intros Hx; congruence].
  - split; [intros Hk4; lia|].
    split; [intros _; exact (Hhigh m Hm)|].
    intros Hx. subst v4. rewrite O0, Z.add_0_r in *.
    apply same_but_word; try lia; [exact Hm|].
    unfold hdr_file_name_length in Hx, F0. rewrite O0, Z.add_0_r in Hx, F0.
    rewrite Hx, F0. reflexivity.
  - split; [intros Hk4; lia|].
    split; [|intros _; reflexivity].
    intros _. apply Hhigh.
    destruct S34 as [L4 S4']. split; [exact L4 | exact S4'].
Qed.

(** ** Detaching *)

Lemma slot_freed_reads_back h s :
  0 <= h -> h + 8 <= Z.of_nat (length (view s)) ->
  length (media s) = length (view s) ->
  hdr_file_name_length (view (slot_freed h s)) h = 0 /\
  hdr_file_name_length (media (slot_freed h s)) h = 0.
Proof.
  intros Hh Hfit Hlen.
  pose proof (eq_refl : off_file_name_length = 0) as O0.
  assert (Hv : hdr_file_name_length (view (slot_freed h s)) h = 0).
  { unfold hdr_file_name_length, slot_freed. cbn [view].
    rewrite load64_store64_same by lia. reflexivity. }
  split; [exact Hv|].
  unfold hdr_file_name_length, slot_freed in *. cbn [view media] in *.
  rewrite load64_persisted
    by (try lia; rewrite ?length_store64; lia).
  exact Hv.
Qed.

(** C7.  What [pmem_append_cache_detach] does once the flusher thread is
    joined, on the descriptor [cache] and the machine [s] as they are
    after the last drain.  It returns 0 if and only if [flushed_eof]
    equals [cached_eof].  If they are equal, [file_name_length] of the
    slot is stored as 0 and persisted, and reads 0 in the mapping and on
    the medium; if they are not, it returns -1 and leaves the machine, and
    so [file_name_length], as it was.  A call of
    [pmem_append_cache_detach] on a handle in cached mode ends in this
    way when the last drain of the flusher thread has returned 0 and the
    thread is joined. *)
Theorem detach_frees_iff_drained cache s :
  let r := pmem_append_cache_detach_joined cache s in
  let h := header cache in
  (fst r = 0 <-> flushed_eof cache = cached_eof cache) /\
  (flushed_eof cache = cached_eof cache ->
   r = (0, slot_freed h s) /\
   (0 <= h -> h + 8 <= Z.of_nat (length (view s)) ->
    length (media s) = length (view s) ->
    hdr_file_name_length (view (snd r)) h = 0 /\
    hdr_file_name_length (media (snd r)) h = 0)) /\
  (flushed_eof cache <> cached_eof cache -> r = (-1, s)) /\
  (forall fuel cache0 s0,
     write cache0 = Cached ->
     flush_cache fuel (set_stop_flusher cache0 1) s0 = (Some (0, cache), s) ->
     pmem_append_cache_detach fuel 0 cache0 s0
     = ((DetachReturn (fst r), cache), snd r)).
Proof.
  intros r h. subst r h. unfold pmem_append_cache_detach_joined.
  destruct (Z.eqb_spec (flushed_eof cache) (cached_eof cache)) as [Heq | Hne].
  - assert (Hr : (pm_store64 (header cache + off_file_name_length) 0 ;;
                  pmem_persist (header cache + off_file_name_length) 8 ;;
                  ret 0) s = (0, slot_freed (header cache) s))
      by reflexivity.
    rewrite Hr. cbn [fst snd].
    split; [split; intros _; [exact Heq | reflexivity]|].
    split.
    { intros _. split; [reflexivity|]. apply slot_freed_reads_back. }
    split; [intros Hd; contradiction|].
    intros fuel cache0 s0 Hmode Hdrain.
    unfold pmem_append_cache_detach. rewrite Hmode. cbn [Z.eqb].
    unfold bind at 1. rewrite Hdrain. cbn [Z.eqb negb].
    destruct (Z.eqb_spec (flushed_eof cache) (cached_eof cache));
      [reflexivity | contradiction].
  - cbn [ret fst snd].
    split; [split; [discriminate | intros Heq; contradiction]|].
    split; [intros Heq; contradiction|].
    split; [intros _; reflexivity|].
    intros fuel cache0 s0 Hmode Hdrain.
    unfold pmem_append_cache_detach. rewrite Hmode. cbn [Z.eqb].
    unfold bind at 1. rewrite Hdrain. cbn [Z.eqb negb].
    destruct (Z.eqb_spec (flushed_eof cache) (cached_eof cache));
      [contradiction | reflexivity].
Qed.

(** ** The flusher thread, round by round *)

(** A round of the flusher thread, whatever the load has found. *)
Lemma flusher_thread_round stop rest fuel cache s :
  flusher_thread (stop :: rest) fuel cache s
  = match flush_cache fuel cache s with
    | (None, s') => (FlusherRunning, s')
    | (Some (res, cache'), s') =>
        if negb (res =? 0) then (FlusherAborted, s')
        else if stop =? 0 then flusher_thread rest fuel cache' s'
        else (FlusherReturned cache', s')
    end.
Proof.
  cbn [flusher_thread].
  destruct (stop =? 0); unfold bind;
    destruct (flush_cache fuel cache s) as [[[res c1]|] s1];
    try reflexivity; destruct (negb (res =? 0)); reflexivity.
Qed.

(** With nothing to drain [flush_cache] returns at once. *)
Lemma flush_cache_nothing fuel cache s :
  flushed_eof cache = cached_eof cache ->
  flush_cache (S fuel) cache s = (Some (0, cache), s).
Proof.
  intros Heq. unfold flush_cache. rewrite flush_cache_loop_S.
  unfold flush_cache_body.
  destruct (Z.ltb_spec (flushed_eof cache) (cached_eof cache)); [lia|].
  reflexivity.
Qed.

(** Once everything is drained the thread goes round, with the machine as
    it is, until a load finds the flag set. *)
Lemma flusher_thread_idle fuel loads : forall cache s,
  flushed_eof cache = cached_eof cache ->
  flusher_thread loads (S fuel) cache s
  = (if existsb (fun v => negb (v =? 0)) loads
     then FlusherReturned cache else FlusherRunning, s).
Proof.
  induction loads as [|stop rest IH]; intros cache s Heq.
  - reflexivity.
  - rewrite flusher_thread_round, (flush_cache_nothing fuel cache s Heq).
    cbn [Z.eqb negb existsb].
    destruct (stop =? 0); cbn [negb orb]; [apply IH; exact Heq | reflexivity].
Qed.

Lemma existsb_set loads :
  existsb (fun v => negb (v =? 0)) loads = true ->
  Exists (fun v => v <> 0) loads.
Proof.
  intros H. apply existsb_exists in H. destruct H as (v & Hin & Hv).
  apply Exists_exists. exists v. split; [exact Hin|].
  destruct (Z.eqb_spec v 0); [discriminate | assumption].
Qed.

(** X15.  [flusher_thread], [loads] being what its successive loads of
    [stop_flusher] find.  It returns only if one of the loads has found
    the flag set, and then every drain it has made has succeeded: the
    descriptor's and the durable [flushed_eof] are [cached_eof], and the
    backing file has received every byte of the ring.  When no call fails,
    the ring holds no more than [buffer_size] bytes, and the flag is found
    clear [n] times and then set, the thread makes its [n] rounds and the
    last drain, and returns. *)
Theorem flusher_thread_ends_drained loads fuel cache nm c s :
  0 < buffer_size cache < 2 ^ 64 ->
  0 <= header cache /\ header cache + sizeof_CACHE_HEADER <= buffer cache ->
  cached_eof cache < 2 ^ 64 ->
  drain_ready cache nm (flushed_eof cache) c s ->
  let r := flusher_thread loads fuel cache s in
  let drained := set_flushed_eof cache (cached_eof cache) in
  (forall cache', fst r = FlusherReturned cache' ->
     Exists (fun v => v <> 0) loads /\
     cache' = drained /\
     hdr_flushed_eof (media (snd r)) (header cache) = cached_eof cache /\
     file_of (snd r) (file_fd cache)
     = Some (nm, firstn (Z.to_nat (flushed_eof cache)) c
                 ++ ring_bytes (view s) cache (flushed_eof cache)
                      (Z.to_nat (cached_eof cache - flushed_eof cache))
                 ++ skipn (Z.to_nat (cached_eof cache)) c)) /\
  (script s = [] ->
   cached_eof cache - flushed_eof cache <= buffer_size cache ->
   (3 <= fuel)%nat ->
   forall n stop rest, loads = repeat 0 n ++ stop :: rest -> stop <> 0 ->
     fst r = FlusherReturned drained).
Proof.
  intros Hsz Hh Hca Hready r drained.
  destruct loads as [|first rest].
  { subst r. cbn [flusher_thread ret fst snd]. split.
    - intros cache' H. discriminate.
    - intros _ _ _ n stop rest' Hl. destruct n; discriminate. }
  destruct (flush_cache_loop_spec nm fuel cache (flushed_eof cache) c s
              Hsz (proj1 Hh) (proj2 Hh) Hca eq_refl Hready)
    as (fe' & e & Hd & Hres).
  fold (flush_cache fuel cache s) in Hd, Hres.
  assert (Hr : r = flusher_thread (first :: rest) fuel cache s)
    by reflexivity.
  rewrite flusher_thread_round in Hr.
  split.
  - intros cache' Hret. rewrite Hr in Hret.
    assert (Hsnd : snd r = snd (let x := flush_cache fuel cache s in
                                match x with
                                | (None, s') => (FlusherRunning, s')
                                | (Some (res, cache'), s') =>
                                    if negb (res =? 0)
                                    then (FlusherAborted, s')
                                    else if first =? 0
                                         then flusher_thread rest fuel cache' s'
                                         else (FlusherReturned cache', s')
                                end)) by (rewrite Hr; reflexivity).
    cbv zeta in Hsnd. rewrite Hsnd. clear Hsnd Hr. clearbody r.
    destruct (flush_cache fuel cache s) as [[[res c1]|] s1] eqn:Erun;
      cbn [fst snd] in *; [|discriminate].
    destruct (Z.eqb_spec res 0) as [-> | Hne]; cbn [negb fst snd] in *;
      [|discriminate].
    destruct Hres as [-> [(_ & -> & ->) | Hbad]]; [|discriminate].
    destruct Hd as (_ & _ & _ & _ & _ & Hm & Hfile & _).
    destruct (Z.eqb_spec first 0) as [Hz | Hnz].
    + destruct fuel as [|fuel]; [discriminate|].
      rewrite flusher_thread_idle in * by reflexivity.
      cbn [fst snd] in *.
      destruct (existsb (fun v => negb (v =? 0)) rest) eqn:Eex;
        [|discriminate].
      inversion Hret. subst cache'.
      split; [apply Exists_cons_tl, existsb_set, Eex|].
      split; [reflexivity|]. split; [exact Hm | exact Hfile].
    + cbn [fst snd] in *. inversion Hret. subst cache'.
      split; [apply Exists_cons_hd; exact Hnz|].
      split; [reflexivity|]. split; [exact Hm | exact Hfile].
  - intros Hscr Hfit Hfuel n stop rest' Hl Hstop. rewrite Hr.
    destruct fuel as [|[|[|k]]]; try lia.
    destruct (flush_cache_loop_quiet nm k cache (flushed_eof cache) c s
                Hsz Hh Hca Hready Hscr Hfit) as [c1 Hq].
    fold (flush_cache (S (S (S k))) cache s) in Hq.
    destruct (flush_cache (S (S (S k))) cache s) as [[[res c2]|] s1];
      cbn [fst] in Hq; [|discriminate].
    inversion Hq. subst res c2. cbn [fst snd Z.eqb negb] in *.
    destruct Hres as [-> [(_ & -> & ->) | Hbad]]; [|discriminate].
    fold drained.
    destruct n as [|n]; cbn [repeat app] in Hl; inversion Hl; subst.
    + destruct (Z.eqb_spec stop 0); [contradiction | reflexivity].
    + cbn [Z.eqb]. rewrite flusher_thread_idle by reflexivity.
      cbn [fst].
      assert (Hex : existsb (fun v => negb (v =? 0))
                            (repeat 0 n ++ stop :: rest') = true).
      { apply existsb_exists. exists stop. split.
        - apply in_or_app. right. left. reflexivity.
        - destruct (Z.eqb_spec stop 0); [contradiction | reflexivity]. }
      rewrite Hex. reflexivity.
Qed.

(** ** The startup pass over slots with nothing to drain *)

Section StartupPass.

Variables (dir : PMEM_APPEND_CACHE_DIRECTORY) (s : machine).

Hypothesis Hok : directory_ok dir (view s).
Hypothesis Hlen : Z.of_nat (length (view s)) = mapped_length dir.
Hypothesis Hmlen : Z.of_nat (length (media s)) = mapped_length dir.
Hypothesis Hall : forall j, 0 <= j < n_caches (view s) ->
  nothing_to_drain dir (view s) j.

Lemma slots_valid j :
  0 <= j < n_caches (view s) -> slot_ok dir (view s) j.
Proof.
  intros Hj. destruct (Hall j Hj) as (c & Hopen & _).
  pose proof (load64_range (view s) off_n_caches) as Rn.
  fold (n_caches (view s)) in Rn.
  apply (open_cache_ok_iff blank_cache dir (view s) j c Hok ltac:(lia)) in Hopen.
  apply Hopen.
Qed.

(** The slots lie one after the other. *)
Lemma slots_in_order k : forall a,
  0 <= a -> a + Z.of_nat (S k) < n_caches (view s) ->
  cache_start (view s) a + sizeof_CACHE_HEADER
  < cache_start (view s) (a + Z.of_nat (S k)).
Proof.
  pose proof (load64_range (view s) off_n_caches) as Rn.
  fold (n_caches (view s)) in Rn.
  pose proof (eq_refl : sizeof_CACHE_HEADER = 24) as HC.
  assert (Hnext : forall a, 0 <= a -> a + 1 < n_caches (view s) ->
            cache_start (view s) a + 24 < cache_start (view s) (a + 1)).
  { intros a Ha Hlt.
    destruct (slots_valid a ltac:(lia)) as (_ & _ & Hce & _ & Hfnl & _).
    pose proof (load64_range (view s)
                  (cache_start (view s) a + off_file_name_length)) as Rf.
    fold (hdr_file_name_length (view s) (cache_start (view s) a)) in Rf.
    unfold cache_end in *. rewrite wrap64_small in * by lia.
    destruct (Z.eqb_spec a (n_caches (view s) - 1)); [lia|].
    unfold cache_start in *. lia. }
  induction k as [|k IH]; intros a Ha Hlt.
  - cbn [Z.of_nat Pos.of_succ_nat]. rewrite HC. apply Hnext; lia.
  - specialize (IH a Ha ltac:(lia)).
    replace (a + Z.of_nat (S (S k))) with (a + Z.of_nat (S k) + 1) by lia.
    pose proof (Hnext (a + Z.of_nat (S k)) ltac:(lia) ltac:(lia)). lia.
Qed.

Lemma slots_apart a b :
  0 <= a -> a < b -> b < n_caches (view s) ->
  cache_start (view s) a + sizeof_CACHE_HEADER < cache_start (view s) b.
Proof.
  intros Ha Hab Hb.
  replace b with (a + Z.of_nat (S (Z.to_nat (b - a - 1)))) by lia.
  apply slots_in_order; lia.
Qed.

Lemma freed_below_start : freed_below s 0 s.
Proof.
  unfold freed_below. cbv zeta.
  repeat split; try reflexivity; try lia.
  exists []. rewrite app_nil_r. split; [reflexivity | constructor].
Qed.

(** In such a state every slot is still valid. *)
Lemma freed_below_valid i t j :
  freed_below s i t -> 0 <= j < n_caches (view s) ->
  directory_ok dir (view t) /\ slot_ok dir (view t) j /\
  cache_start (view t) j = cache_start (view s) j /\
  (i <= j -> hdr_file_name_length (view s) (cache_start (view s) j) = 0 ->
   hdr_file_name_length (view t) (cache_start (view s) j) = 0) /\
  (j < i -> hdr_file_name_length (view t) (cache_start (view s) j) = 0).
Proof.
  intros (Lv & Lm & Hn & Hso & Hrest & Hdone & _) Hj. cbv zeta in *.
  pose proof (load64_range (view s) off_n_caches) as Rn.
  fold (n_caches (view s)) in Rn.
  assert (Hdo : directory_ok dir (view t)).
  { destruct Hok as [? ?]. split; [assumption|]. rewrite Hn. assumption. }
  destruct (Hso j Hj) as (Hcs & Hfl & Hca).
  assert (Hcs' : cache_start (view t) j = cache_start (view s) j)
    by exact Hcs.
  assert (Hce' : cache_end dir (view t) j = cache_end dir (view s) j).
  { unfold cache_end. rewrite Hn, wrap64_small by lia.
    destruct (Z.eqb_spec j (n_caches (view s) - 1)); [reflexivity|].
    apply (Hso (j + 1)). lia. }
  pose proof (load64_range (view s)
                (cache_start (view s) j + off_file_name_length)) as Rf.
  fold (hdr_file_name_length (view s) (cache_start (view s) j)) in Rf.
  assert (Hfnl : hdr_file_name_length (view t) (cache_start (view s) j)
                 = hdr_file_name_length (view s) (cache_start (view s) j)
                 \/ hdr_file_name_length (view t) (cache_start (view s) j) = 0).
  { destruct (Z.lt_ge_cases j i) as [Hlt | Hge].
    - right. apply (Hdone j); lia.
    - left. apply Hrest. lia. }
  split; [exact Hdo|]. split.
  { pose proof (slots_valid j Hj) as Hv. unfold slot_ok in *.
    rewrite Hn, Hcs', Hce', Hfl, Hca.
    destruct Hfnl as [-> | ->]; [exact Hv | lia]. }
  split; [exact Hcs'|]. split.
  - intros Hge Hz. rewrite Hrest by lia. exact Hz.
  - intros Hlt. apply (Hdone j); lia.
Qed.

(** Freeing slot [i] takes the pass from [i] to [i + 1]. *)
Lemma freed_below_next i t :
  0 <= i < n_caches (view s) -> freed_below s i t ->
  hdr_file_name_length (view s) (cache_start (view s) i) <> 0 ->
  freed_below s (i + 1) (slot_freed (cache_start (view s) i) t).
Proof.
  intros Hi Hinv Hused.
  pose proof Hinv as (Lv & Lm & Hn & Hso & Hrest & Hdone & Hf & Hsc & evs & Htr
                      & Hev).
  cbv zeta in *.
  pose proof (load64_range (view s) off_n_caches) as Rn.
  fold (n_caches (view s)) in Rn.
  pose proof (eq_refl : sizeof_CACHE_HEADER = 24) as HC.
  pose proof (eq_refl : sizeof_DIRECTORY_HEADER = 16) as HD.
  pose proof (eq_refl : off_file_name_length = 0) as O0.
  pose proof (eq_refl : off_flushed_eof = 8) as O1.
  pose proof (eq_refl : off_cached_eof = 16) as O2.
  pose proof (eq_refl : off_n_caches = 8) as ON.
  set (h := cache_start (view s) i) in *.
  destruct (slots_valid i Hi) as (_ & Hlow & Hce & _ & Hfnl & _).
  fold h in Hlow, Hce, Hfnl.
  pose proof (load64_range (view s) (h + off_file_name_length)) as Rf.
  fold (hdr_file_name_length (view s) h) in Rf.
  assert (Hh : 16 + 8 * n_caches (view s) <= h /\
               h + 24 <= Z.of_nat (length (view s))) by lia.
  set (t1 := slot_freed h t).
  assert (Sv : same_outside (view t) (view t1) h (h + 8)).
  { cbn [t1 slot_freed view]. rewrite O0, Z.add_0_r.
    apply same_outside_store64; try lia. apply same_outside_refl. }
  assert (Sm : same_outside (media t) (media t1) h (h + 8)).
  { cbn [t1 slot_freed media]. rewrite O0, Z.add_0_r.
    assert (Ll : length (load_bytes (store64 (view t) h 0) h (Z.to_nat 8))
                 = Z.to_nat 8)
      by (apply length_load_bytes; [lia|]; rewrite length_store64; lia).
    apply same_outside_store_bytes; rewrite ?Ll;
      first [apply same_outside_refl | lia]. }
  destruct (slot_freed_reads_back h t) as [Fv Fm]; try lia.
  fold t1 in Fv, Fm.
  assert (Hord : forall j, 0 <= j < n_caches (view s) -> j <> i ->
            cache_start (view s) j + 24 <= h \/
            h + 8 <= cache_start (view s) j).
  { intros j Hj Hne. destruct (Z.lt_ge_cases j i) as [Hlt | Hge].
    - left. pose proof (slots_apart j i ltac:(lia) Hlt ltac:(lia)). lia.
    - right. pose proof (slots_apart i j ltac:(lia) ltac:(lia) ltac:(lia)).
      fold h in H. lia. }
  assert (Hfar : forall j, 0 <= j < n_caches (view s) ->
            16 + 8 * n_caches (view s) <= cache_start (view s) j /\
            cache_start (view s) j + 24 <= Z.of_nat (length (view s))).
  { intros j Hj.
    destruct (slots_valid j Hj) as (_ & Hl & Hc & _ & Hfn & _).
    pose proof (load64_range (view s)
                  (cache_start (view s) j + off_file_name_length)) as R.
    fold (hdr_file_name_length (view s) (cache_start (view s) j)) in R.
    lia. }
  unfold freed_below. cbv zeta.
  split; [destruct Sv as [L _]; congruence|].
  split; [destruct Sm as [L _]; congruence|].
  split.
  { rewrite <- Hn. unfold n_caches.
    apply (same_outside_load64 _ _ h (h + 8)); auto; lia. }
  split.
  { intros j Hj. destruct (Hso j Hj) as (Hcs & Hfl & Hca).
    destruct (Hfar j Hj) as [Hj1 Hj2].
    split.
    - rewrite <- Hcs. unfold start_offsets.
      apply (same_outside_load64 _ _ h (h + 8)); auto; lia.
    - destruct (Z.eq_dec j i) as [-> | Hne].
      + change (cache_start (view s) i) with h in Hfl, Hca |- *.
        split; [rewrite <- Hfl | rewrite <- Hca];
          unfold hdr_flushed_eof, hdr_cached_eof;
          apply (same_outside_load64 _ _ h (h + 8)); auto; lia.
      + pose proof (Hord j Hj Hne).
        split; [rewrite <- Hfl | rewrite <- Hca];
          unfold hdr_flushed_eof, hdr_cached_eof;
          apply (same_outside_load64 _ _ h (h + 8)); auto; lia. }
  split.
  { intros j Hj. rewrite <- (Hrest j) by lia.
    destruct (Hfar j ltac:(lia)) as [Hj1 Hj2].
    pose proof (Hord j ltac:(lia) ltac:(lia)).
    unfold hdr_file_name_length.
    apply (same_outside_load64 _ _ h (h + 8)); auto; lia. }
  split.
  { intros j Hj Hjn. destruct (Z.eq_dec j i) as [-> | Hne].
    - change (cache_start (view s) i) with h.
      split; [exact Fv | intros _; exact Fm].
    - destruct (Hdone j ltac:(lia) Hjn) as [Hz Hmz].
      destruct (Hfar j ltac:(lia)) as [Hj1 Hj2].
      pose proof (Hord j ltac:(lia) Hne).
      split.
      + rewrite <- Hz. unfold hdr_file_name_length.
        apply (same_outside_load64 _ _ h (h + 8)); auto; lia.
      + intros Hu. rewrite <- (Hmz Hu). unfold hdr_file_name_length.
        apply (same_outside_load64 _ _ h (h + 8)); auto; lia. }
  split; [exact Hf|]. split; [exact Hsc|].
  exists (evs ++ [EvStore (h + off_file_name_length) 0;
                  EvPersist (h + off_file_name_length) 8]).
  split.
  - cbn [t1 slot_freed trace]. rewrite Htr, <- !app_assoc. reflexivity.
  - apply Forall_app. split; [exact Hev|].
    repeat constructor.
Qed.

Lemma freed_below_skip i t :
  0 <= i < n_caches (view s) -> freed_below s i t ->
  hdr_file_name_length (view s) (cache_start (view s) i) = 0 ->
  freed_below s (i + 1) t.
Proof.
  intros Hi (Lv & Lm & Hn & Hso & Hrest & Hdone & Hf & Hsc & Htr) Hfree.
  cbv zeta in *. unfold freed_below. cbv zeta.
  split; [exact Lv|]. split; [exact Lm|]. split; [exact Hn|].
  split; [exact Hso|].
  split; [intros j Hj; apply Hrest; lia|].
  split.
  { intros j Hj Hjn. destruct (Z.eq_dec j i) as [-> | Hne].
    - split; [rewrite Hrest by lia; exact Hfree | intros H; contradiction].
    - apply Hdone; lia. }
  split; [exact Hf|]. split; [exact Hsc | exact Htr].
Qed.

(** The pass from slot [i] on. *)
Lemma flush_slots_nothing_to_drain fuel k : forall i t,
  0 <= i -> n_caches (view s) <= i + Z.of_nat k -> freed_below s i t ->
  exists t', flush_slots k fuel dir i t = (Some 0, t') /\
             freed_below s (n_caches (view s)) t'.
Proof.
  pose proof (load64_range (view s) off_n_caches) as Rn.
  fold (n_caches (view s)) in Rn.
  assert (Hend : forall i t, n_caches (view s) <= i -> freed_below s i t ->
            freed_below s (n_caches (view s)) t).
  { intros i t Hi (Lv & Lm & Hn & Hso & Hrest & Hdone & Hf & Hsc & Htr).
    cbv zeta in *. unfold freed_below. cbv zeta.
    split; [exact Lv|]. split; [exact Lm|]. split; [exact Hn|].
    split; [exact Hso|]. split; [intros j Hj; lia|].
    split; [intros j Hj Hjn; apply Hdone; lia|].
    split; [exact Hf|]. split; [exact Hsc | exact Htr]. }
  induction k as [|k IH]; intros i t Hi Hk Hinv.
  - exists t. split; [|apply (Hend i); [lia | exact Hinv]].
    apply flush_slots_past_the_end.
    destruct Hinv as (_ & _ & Hn & _). cbv zeta in Hn. rewrite Hn. lia.
  - pose proof Hinv as (_ & _ & Hn & _). cbv zeta in Hn.
    rewrite flush_slots_S, Hn.
    destruct (Z.ltb_spec i (n_caches (view s))) as [Hlt | Hge];
      [|exists t; split; [reflexivity | apply (Hend i); [lia | exact Hinv]]].
    destruct (freed_below_valid i t i Hinv ltac:(lia))
      as (Hdo & Hslot & Hcs & Hkeep & _).
    assert (Hopen : open_cache blank_cache dir (view t) i
                    = (0, opened_slot blank_cache dir (view t) i)).
    { apply open_cache_ok_iff; [exact Hdo | lia |].
      split; [exact Hslot | reflexivity]. }
    assert (Hhd : header (opened_slot blank_cache dir (view t) i)
                  = cache_start (view s) i) by exact Hcs.
    destruct (Hall i ltac:(lia)) as (c & Hopen0 & Hcase).
    destruct (open_cache_layout _ _ _ _ _ Hopen0) as (Hc & _).
    rewrite Hc in Hcase.
    destruct Hinv as (Lv & Lm & _ & Hso & Hrest & Hdone & Hrst).
    cbv zeta in *.
    destruct (Z.eq_dec (hdr_file_name_length (view s)
                          (cache_start (view s) i)) 0) as [Hfree | Hused].
    + rewrite (flush_slot_free fuel dir i t _ Hopen)
        by (rewrite Hhd; apply Hkeep; [lia | exact Hfree]).
      rewrite wrap64_small by lia.
      apply IH; [lia | lia |].
      apply freed_below_skip; [lia | | exact Hfree].
      unfold freed_below. cbv zeta. repeat split; try assumption;
        try apply Hso; try apply Hdone; try apply Hrst; assumption.
    + destruct Hcase as [Hz | Heq]; [contradiction|].
      rewrite (flush_slot_drained fuel dir i t _ Hopen).
      * rewrite Hhd, wrap64_small by lia.
        apply IH; [lia | lia |].
        apply freed_below_next; [lia | | exact Hused].
        unfold freed_below. cbv zeta. repeat split; try assumption;
          try apply Hso; try apply Hdone; try apply Hrst; assumption.
      * rewrite Hhd, Hrest by lia. exact Hused.
      * rewrite Hhd. destruct (Hso i ltac:(lia)) as (_ & -> & ->). exact Heq.
Qed.

End StartupPass.


(** ** The theorems on the samples *)

(** C9 on a whole pass: the slot was attached and nothing written; the
    first pass after the restart frees it with one store and one persist,
    the second pass leaves the machine as it finds it. *)
Lemma recovery_twice_on_drained_slot :
  pmem_append_cache_flush 5 Sample.directory Sample.reopened
  = (Some 0, slot_freed 32 Sample.reopened) /\
  pmem_append_cache_flush 5 Sample.directory (slot_freed 32 Sample.reopened)
  = (Some 0, slot_freed 32 Sample.reopened).
Proof. split; vm_compute; reflexivity. Qed.

Lemma cache_write_reserves_witness :
  (pc Sample.call = AtEntry /\ 0 < length_arg Sample.call /\
   0 <= reserved_eof Sample.handle /\
   reserved_eof Sample.handle + length_arg Sample.call < 2 ^ 64) /\
  start (fst (fst (cache_write_step 4 2 Sample.call Sample.handle Sample.dirty)))
  = 10 /\
  reserved_eof (snd (fst (cache_write_step 4 2 Sample.call Sample.handle
                                      Sample.dirty))) = 20.
Proof.
  assert (H1 : pc Sample.call = AtEntry) by reflexivity.
  assert (H2 : 0 < length_arg Sample.call) by evaluated.
  assert (H3 : 0 <= reserved_eof Sample.handle) by evaluated.
  assert (H4 : reserved_eof Sample.handle + length_arg Sample.call < 2 ^ 64)
    by evaluated.
  split; [repeat split; assumption|].
  destruct (cache_write_reserves 4 2 Sample.call Sample.handle Sample.dirty
              H1 H2 H3 H4) as (Hs & Hr & _).
  split; [exact Hs | exact Hr].
Defined.

Lemma flush_cache_pass_witness :
  (0 < buffer_size Sample.handle < 2 ^ 64 /\ 0 <= 0 /\
   0 < cached_eof Sample.handle /\ cached_eof Sample.handle < 2 ^ 64) /\
  (0 < flush_write_size Sample.handle 0 (cached_eof Sample.handle) /\
   0 mod buffer_size Sample.handle
   + flush_write_size Sample.handle 0 (cached_eof Sample.handle)
   <= buffer_size Sample.handle).
Proof.
  assert (H1 : 0 < buffer_size Sample.handle < 2 ^ 64) by evaluated.
  assert (H2 : 0 <= 0) by lia.
  assert (H3 : 0 < cached_eof Sample.handle) by evaluated.
  assert (H4 : cached_eof Sample.handle < 2 ^ 64) by evaluated.
  split; [repeat split; (assumption || apply H1)|].
  exact (proj1 (flush_cache_pass Sample.handle 0 Sample.dirty 5 H1 H2 H3 H4)).
Defined.

Lemma open_cache_fails_iff_rejected_witness :
  (directory_ok Sample.directory Sample.mapping /\ 0 <= 0 < 2 ^ 64) /\
  (fst (open_cache blank_cache Sample.directory Sample.mapping 0) = -1
   <-> open_cache_rejects Sample.directory Sample.mapping 0) /\
  (~ open_cache_rejects Sample.directory Sample.mapping 0 ->
   fst (open_cache blank_cache Sample.directory Sample.mapping 0) = 0).
Proof.
  assert (H1 : directory_ok Sample.directory Sample.mapping).
  { unfold directory_ok. vm_compute. repeat split; discriminate. }
  assert (H2 : 0 <= 0 < 2 ^ 64) by lia.
  split; [split; assumption|].
  exact (open_cache_fails_iff_rejected blank_cache Sample.directory
           Sample.mapping 0 H1 H2).
Defined.

Lemma create_directory_refuses_small_witness :
  (0 <= 40 < 2 ^ 64 /\ 0 <= 1 < 2 ^ 64) /\
  create_directory Scenario.no_directory 40 1 (Scenario.fresh [] [])
  = ((-1, Scenario.no_directory), Scenario.fresh [] []).
Proof.
  assert (H1 : 0 <= 40 < 2 ^ 64) by lia.
  assert (H2 : 0 <= 1 < 2 ^ 64) by lia.
  split; [split; assumption|].
  apply (create_directory_refuses_small Scenario.no_directory 40 1
           (Scenario.fresh [] []) H1 H2).
  lia.
Defined.

Lemma create_directory_slots_usable_witness :
  (0 <= 96 < 2 ^ 64 /\ 1 <= 2 /\ 16 + 40 * 2 <= 96 /\
   hd Succeed (script (Scenario.fresh [] [])) <> Fail /\ 0 <= 1 < 2) /\
  open_cache blank_cache
    (snd (fst (create_directory Scenario.no_directory 96 2
                 (Scenario.fresh [] []))))
    (media (snd (create_directory Scenario.no_directory 96 2
                   (Scenario.fresh [] [])))) 1
  = (0, fresh_slot blank_cache 96 2 1).
Proof.
  assert (H1 : 0 <= 96 < 2 ^ 64) by lia.
  assert (H2 : 1 <= 2) by lia.
  assert (H3 : 16 + 40 * 2 <= 96) by lia.
  assert (H4 : hd Succeed (script (Scenario.fresh [] [])) <> Fail)
    by discriminate.
  assert (H5 : 0 <= 1 < 2) by lia.
  split; [repeat split; (assumption || lia)|].
  destruct (create_directory_slots_usable Scenario.no_directory 96 2
              (Scenario.fresh [] []) blank_cache 1 H1 H2 H3 H4 H5)
    as (_ & _ & Hmedia & _).
  exact Hmedia.
Defined.

Lemma create_directory_least_slots_refused_witness :
  (0 <= 80 < 2 ^ 64 /\ 1 <= 2 /\ 16 + 32 * 2 <= 80 /\ 80 < 16 + 40 * 2 /\
   hd Succeed (script (Scenario.fresh [] [])) <> Fail /\ 0 <= 0 < 2 /\
   (0 < 2 - 1 \/ 80 = 16 + 32 * 2)) /\
  fst (create_directory Scenario.no_directory 80 2 (Scenario.fresh [] []))
  = (0, mkDirectory 80 false) /\
  fst (open_cache blank_cache
         (snd (fst (create_directory Scenario.no_directory 80 2
                      (Scenario.fresh [] []))))
         (media (snd (create_directory Scenario.no_directory 80 2
                        (Scenario.fresh [] [])))) 0) = -1.
Proof.
  assert (H1 : 0 <= 80 < 2 ^ 64) by lia.
  assert (H2 : 1 <= 2) by lia.
  assert (H3 : 16 + 32 * 2 <= 80) by lia.
  assert (H4 : 80 < 16 + 40 * 2) by lia.
  assert (H5 : hd Succeed (script (Scenario.fresh [] [])) <> Fail)
    by discriminate.
  assert (H6 : 0 <= 0 < 2) by lia.
  assert (H7 : 0 < 2 - 1 \/ 80 = 16 + 32 * 2) by (left; lia).
  split; [repeat split; (assumption || lia)|].
  destruct (create_directory_least_slots_refused 5 Scenario.no_directory 80 2
              (Scenario.fresh [] []) blank_cache 0 H1 H2 H3 H4 H5 H6 H7)
    as (Hres & _ & _ & Hmedia & _).
  split; [exact Hres | exact Hmedia].
Defined.

Lemma pmem_append_cache_open_status_witness :
  Z.of_nat (length (media (crash Trial.created))) < 2 ^ 64 /\
  pmem_append_cache_open Scenario.no_directory (crash Trial.created)
  = ((0, mkDirectory 8224 false), mapped_existing (crash Trial.created)).
Proof.
  assert (H1 : Z.of_nat (length (media (crash Trial.created))) < 2 ^ 64)
    by evaluated.
  split; [exact H1|].
  destruct (pmem_append_cache_open_status Scenario.no_directory
              (crash Trial.created) H1) as (_ & Hok & _).
  apply Hok. vm_compute. reflexivity.
Defined.

Lemma pmem_append_cache_create_outcomes_witness :
  (0 <= 96 < 2 ^ 64 /\ 0 <= 2 < 2 ^ 64) /\
  fst (pmem_append_cache_create Scenario.no_directory 96 2
         (Scenario.fresh [] [])) = 0 /\
  fresh_directory 96 2
    (media (snd (pmem_append_cache_create Scenario.no_directory 96 2
                   (Scenario.fresh [] [])))).
Proof.
  assert (H1 : 0 <= 96 < 2 ^ 64) by lia.
  assert (H2 : 0 <= 2 < 2 ^ 64) by lia.
  split; [split; assumption|].
  destruct (pmem_append_cache_create_outcomes Scenario.no_directory 96 2
              (Scenario.fresh [] []) H1 H2) as (_ & _ & Hok).
  destruct Hok as (Hres & _ & _ & Hfresh & _); [lia | discriminate |].
  split; [exact Hres|].
  apply Hfresh. discriminate.
Defined.

Lemma pmem_append_cache_init_restart_witness :
  (0 <= 96 < 2 ^ 64 /\ 1 <= 2 /\ 16 + 40 * 2 <= 96 /\
   script (Scenario.fresh [] [Fail]) = [Fail]) /\
  fst (pmem_append_cache_init 5 Scenario.no_directory
         (Some Scenario.f_name) 0 2
         (crash (snd (pmem_append_cache_init 5 Scenario.no_directory
                        (Some Scenario.f_name) 96 2
                        (Scenario.fresh [] [Fail])))))
  = Some (0, mkDirectory 96 false).
Proof.
  assert (H1 : 0 <= 96 < 2 ^ 64) by lia.
  assert (H2 : 1 <= 2) by lia.
  assert (H3 : 16 + 40 * 2 <= 96) by lia.
  assert (H4 : script (Scenario.fresh [] [Fail]) = [Fail]) by reflexivity.
  split; [repeat split; (assumption || lia)|].
  destruct (pmem_append_cache_init_restart 5 Scenario.no_directory
              Scenario.no_directory Scenario.f_name Scenario.f_name 96 2 0 2
              (Scenario.fresh [] [Fail]) H1 H2 H3 H4)
    as (_ & _ & Hagain & _).
  exact Hagain.
Defined.

Lemma pmem_append_cache_init_refuses_least_slots_witness :
  (0 <= 80 < 2 ^ 64 /\ 1 <= 2 /\ 16 + 32 * 2 <= 80 /\ 80 < 16 + 40 * 2 /\
   (2 <= 2 \/ 80 = 16 + 32 * 2) /\
   script (Scenario.fresh [] [Fail]) = [Fail] /\ 1 <= 2) /\
  fst (pmem_append_cache_init 5 Scenario.no_directory
         (Some Scenario.f_name) 80 2 (Scenario.fresh [] [Fail]))
  = Some (0, mkDirectory 80 false) /\
  fst (pmem_append_cache_init 5 Scenario.no_directory
         (Some Scenario.f_name) 80 1
         (crash (snd (pmem_append_cache_init 5 Scenario.no_directory
                        (Some Scenario.f_name) 80 2
                        (Scenario.fresh [] [Fail])))))
  = Some (-1, mkDirectory 80 false).
Proof.
  assert (H1 : 0 <= 80 < 2 ^ 64) by lia.
  assert (H2 : 1 <= 2) by lia.
  assert (H3 : 16 + 32 * 2 <= 80) by lia.
  assert (H4 : 80 < 16 + 40 * 2) by lia.
  assert (H5 : 2 <= 2 \/ 80 = 16 + 32 * 2) by (left; lia).
  assert (H6 : script (Scenario.fresh [] [Fail]) = [Fail]) by reflexivity.
  assert (H7 : 1 <= 2) by lia.
  split; [repeat split; (assumption || lia)|].
  destruct (pmem_append_cache_init_refuses_least_slots 5
              Scenario.no_directory Scenario.no_directory
              Scenario.f_name Scenario.f_name 80 2 80 1
              (Scenario.fresh [] [Fail]) H1 H2 H3 H4 H5 H6 H7)
    as (Hfirst & Hagain & _).
  split; [exact Hfirst | exact Hagain].
Defined.

Lemma pmem_append_cache_attach_refusals_witness :
  (dummy Sample.directory = false /\
   fst (open_cache (set_write (set_file_fd blank_cache 0) Cached)
          Sample.directory (view Trial.created) 2) <> 0) /\
  fst (fst (pmem_append_cache_attach 104 blank_cache (Some Sample.directory)
              2 0 Scenario.f_name Trial.created)) = -1.
Proof.
  assert (H1 : dummy Sample.directory = false) by reflexivity.
  assert (H2 : fst (open_cache (set_write (set_file_fd blank_cache 0) Cached)
                      Sample.directory (view Trial.created) 2) <> 0)
    by (vm_compute; discriminate).
  split; [split; assumption|].
  exact (proj1 (pmem_append_cache_attach_refusals 104 blank_cache
                  Sample.directory 2 0 Scenario.f_name Trial.created H1
                  (or_intror (or_introl H2)))).
Defined.

Lemma pmem_append_cache_attach_claims_slot_witness :
  (dummy Sample.directory = false /\
   directory_ok Sample.directory (view Trial.created) /\
   Z.of_nat (length (view Trial.created)) = mapped_length Sample.directory /\
   media Trial.created = view Trial.created /\ 0 <= 0 < 2 ^ 64 /\
   hd Succeed (script Trial.created) <> Fail /\
   file_of Trial.created 0 = Some (Scenario.f_name, []) /\
   Z.of_nat (length (@nil byte)) < 2 ^ 64 /\
   open_cache (set_write (set_file_fd blank_cache 0) Cached)
     Sample.directory (view Trial.created) 0 = (0, Trial.free_slot) /\
   hdr_file_name_length (view Trial.created) (header Trial.free_slot) = 0 /\
   Z.of_nat (length Scenario.f_name) + 1 < buffer_size Trial.free_slot /\
   sizeof_CACHE_HEADER <= 104 /\
   header Trial.free_slot + 104 + Z.of_nat (length Scenario.f_name) + 1
   <= mapped_length Sample.directory) /\
  fst (pmem_append_cache_attach 104 blank_cache (Some Sample.directory) 0 0
         Scenario.f_name Trial.created)
  = (0, mkCache 32 56 58 4070 0 0 0 0 0 Cached).
Proof.
  assert (H1 : dummy Sample.directory = false) by reflexivity.
  assert (H2 : directory_ok Sample.directory (view Trial.created)).
  { unfold directory_ok. vm_compute. repeat split; discriminate. }
  assert (H3 : Z.of_nat (length (view Trial.created))
               = mapped_length Sample.directory) by reflexivity.
  assert (H4 : media Trial.created = view Trial.created) by reflexivity.
  assert (H5 : 0 <= 0 < 2 ^ 64) by lia.
  assert (H6 : hd Succeed (script Trial.created) <> Fail) by discriminate.
  assert (H7 : file_of Trial.created 0 = Some (Scenario.f_name, []))
    by reflexivity.
  assert (H8 : Z.of_nat (length (@nil byte)) < 2 ^ 64) by reflexivity.
  assert (H9 : open_cache (set_write (set_file_fd blank_cache 0) Cached)
                 Sample.directory (view Trial.created) 0
               = (0, Trial.free_slot)) by reflexivity.
  assert (H10 : hdr_file_name_length (view Trial.created)
                  (header Trial.free_slot) = 0) by reflexivity.
  assert (H11 : Z.of_nat (length Scenario.f_name) + 1
                < buffer_size Trial.free_slot) by reflexivity.
  assert (H12 : sizeof_CACHE_HEADER <= 104) by discriminate.
  assert (H13 : header Trial.free_slot + 104
                + Z.of_nat (length Scenario.f_name) + 1
                <= mapped_length Sample.directory) by discriminate.
  split; [repeat split; (assumption || apply H2 || apply H5)|].
  exact (proj1 (pmem_append_cache_attach_claims_slot 104 blank_cache
                  Sample.directory 0 0 Scenario.f_name Trial.created
                  Scenario.f_name [] Trial.free_slot
                  H1 H2 H3 H4 H5 H6 H7 H8 H9 H10 H11 H12 H13)).
Defined.

Lemma flush_cache_appends_ring_witness :
  (0 < buffer_size Sample.handle < 2 ^ 64 /\
   (0 <= header Sample.handle /\
    header Sample.handle + sizeof_CACHE_HEADER <= buffer Sample.handle) /\
   cached_eof Sample.handle < 2 ^ 64 /\
   drain_ready Sample.handle Scenario.f_name (flushed_eof Sample.handle) []
               Sample.dirty /\
   flush_cache 5 Sample.handle Sample.dirty
   = (Some (0, set_flushed_eof Sample.handle 10),
      snd (flush_cache 5 Sample.handle Sample.dirty))) /\
  file_of (snd (flush_cache 5 Sample.handle Sample.dirty))
          (file_fd Sample.handle)
  = Some (Scenario.f_name, Scenario.digits).
Proof.
  assert (H1 : 0 < buffer_size Sample.handle < 2 ^ 64) by evaluated.
  assert (H2 : 0 <= header Sample.handle /\
               header Sample.handle + sizeof_CACHE_HEADER
               <= buffer Sample.handle)
    by (vm_compute; split; discriminate).
  assert (H3 : cached_eof Sample.handle < 2 ^ 64) by evaluated.
  assert (H4 : drain_ready Sample.handle Scenario.f_name
                 (flushed_eof Sample.handle) [] Sample.dirty).
  { unfold drain_ready. vm_compute.
    repeat split; first [reflexivity | discriminate]. }
  assert (H5 : flush_cache 5 Sample.handle Sample.dirty
               = (Some (0, set_flushed_eof Sample.handle 10),
                  snd (flush_cache 5 Sample.handle Sample.dirty)))
    by (vm_compute; reflexivity).
  split; [exact (conj H1 (conj H2 (conj H3 (conj H4 H5))))|].
  destruct (flush_cache_appends_ring Scenario.f_name 5 Sample.handle []
              Sample.dirty _ _ H1 H2 H3 H4 H5) as (_ & _ & _ & Hfile & _).
  rewrite Hfile. vm_compute. reflexivity.
Defined.

Lemma flush_cache_terminates_witness :
  (0 < buffer_size Sample.handle < 2 ^ 64 /\
   (0 <= header Sample.handle /\
    header Sample.handle + sizeof_CACHE_HEADER <= buffer Sample.handle) /\
   cached_eof Sample.handle < 2 ^ 64 /\
   drain_ready Sample.handle Scenario.f_name (flushed_eof Sample.handle) []
               Sample.dirty /\
   cached_eof Sample.handle - flushed_eof Sample.handle
   <= buffer_size Sample.handle /\
   (length (script Sample.dirty) + 3 <= 3)%nat) /\
  exists res cache',
    fst (flush_cache 3 Sample.handle Sample.dirty) = Some (res, cache') /\
    (res = 0 \/ res = -1) /\ (script Sample.dirty = [] -> res = 0).
Proof.
  assert (H1 : 0 < buffer_size Sample.handle < 2 ^ 64) by evaluated.
  assert (H2 : 0 <= header Sample.handle /\
               header Sample.handle + sizeof_CACHE_HEADER
               <= buffer Sample.handle)
    by (vm_compute; split; discriminate).
  assert (H3 : cached_eof Sample.handle < 2 ^ 64) by evaluated.
  assert (H4 : drain_ready Sample.handle Scenario.f_name
                 (flushed_eof Sample.handle) [] Sample.dirty).
  { unfold drain_ready. vm_compute.
    repeat split; first [reflexivity | discriminate]. }
  assert (H5 : cached_eof Sample.handle - flushed_eof Sample.handle
               <= buffer_size Sample.handle) by discriminate.
  assert (H6 : (length (script Sample.dirty) + 3 <= 3)%nat)
    by (vm_compute; lia).
  split; [exact (conj H1 (conj H2 (conj H3 (conj H4 (conj H5 H6)))))|].
  exact (flush_cache_terminates Scenario.f_name 3 Sample.handle []
           Sample.dirty H1 H2 H3 H4 H5 H6).
Defined.

Lemma flush_cache_header_never_ahead_witness :
  (0 < buffer_size Sample.handle < 2 ^ 64 /\
   (0 <= header Sample.handle /\
    header Sample.handle + sizeof_CACHE_HEADER <= buffer Sample.handle) /\
   cached_eof Sample.handle < 2 ^ 64 /\
   drain_ready Sample.handle Scenario.f_name (flushed_eof Sample.handle) []
               Sample.dirty) /\
  flushed_eof Sample.handle
  <= hdr_flushed_eof (media (snd (flush_cache 1 Sample.handle Sample.dirty)))
       (header Sample.handle)
  <= cached_eof Sample.handle.
Proof.
  assert (H1 : 0 < buffer_size Sample.handle < 2 ^ 64) by evaluated.
  assert (H2 : 0 <= header Sample.handle /\
               header Sample.handle + sizeof_CACHE_HEADER
               <= buffer Sample.handle)
    by (vm_compute; split; discriminate).
  assert (H3 : cached_eof Sample.handle < 2 ^ 64) by evaluated.
  assert (H4 : drain_ready Sample.handle Scenario.f_name
                 (flushed_eof Sample.handle) [] Sample.dirty).
  { unfold drain_ready. vm_compute.
    repeat split; first [reflexivity | discriminate]. }
  split; [exact (conj H1 (conj H2 (conj H3 H4)))|].
  exact (proj1 (flush_cache_header_never_ahead Scenario.f_name 1
                  Sample.handle [] Sample.dirty H1 H2 H3 H4)).
Defined.

Lemma detach_after_join_frees_witness :
  (write Sample.handle = Cached /\
   0 < buffer_size Sample.handle < 2 ^ 64 /\
   (0 <= header Sample.handle /\
    header Sample.handle + sizeof_CACHE_HEADER <= buffer Sample.handle) /\
   cached_eof Sample.handle < 2 ^ 64 /\
   drain_ready Sample.handle Scenario.f_name (flushed_eof Sample.handle) []
               Sample.dirty) /\
  fst (fst (pmem_append_cache_detach 5 0 Sample.handle Sample.dirty))
  = DetachReturn 0.
Proof.
  assert (H0 : write Sample.handle = Cached) by reflexivity.
  assert (H1 : 0 < buffer_size Sample.handle < 2 ^ 64) by evaluated.
  assert (H2 : 0 <= header Sample.handle /\
               header Sample.handle + sizeof_CACHE_HEADER
               <= buffer Sample.handle)
    by (vm_compute; split; discriminate).
  assert (H3 : cached_eof Sample.handle < 2 ^ 64) by evaluated.
  assert (H4 : drain_ready Sample.handle Scenario.f_name
                 (flushed_eof Sample.handle) [] Sample.dirty).
  { unfold drain_ready. vm_compute.
    repeat split; first [reflexivity | discriminate]. }
  split; [exact (conj H0 (conj H1 (conj H2 (conj H3 H4))))|].
  destruct (detach_after_join_frees 5 Sample.handle Scenario.f_name []
              Sample.dirty H0 H1 H2 H3 H4) as (_ & Hends & _).
  apply Hends; [discriminate | vm_compute; lia | reflexivity].
Defined.

Lemma cache_write_fits_witness :
  (0 < Z.of_nat (length Scenario.digits) /\
   0 < buffer_size Trial.handle < 2 ^ 64 /\
   (0 <= header Trial.handle /\
    header Trial.handle + sizeof_CACHE_HEADER <= buffer Trial.handle) /\
   buffer Trial.handle + buffer_size Trial.handle
   <= Z.of_nat (length (view Trial.attached)) /\
   length (media Trial.attached) = length (view Trial.attached) /\
   0 <= flushed_eof Trial.handle <= cached_eof Trial.handle /\
   reserved_eof Trial.handle = cached_eof Trial.handle /\
   cached_eof Trial.handle + Z.of_nat (length Scenario.digits) < 2 ^ 64 /\
   cached_eof Trial.handle + Z.of_nat (length Scenario.digits)
   - flushed_eof Trial.handle <= buffer_size Trial.handle) /\
  ring_bytes
    (media (snd (cache_write 4 2 (13 + 0)
                   (cache_write_call Scenario.digits
                      (Z.of_nat (length Scenario.digits)) 0)
                   Trial.handle Trial.attached)))
    Trial.handle (cached_eof Trial.handle) (length Scenario.digits)
  = Scenario.digits.
Proof.
  assert (H1 : 0 < Z.of_nat (length Scenario.digits)) by reflexivity.
  assert (H2 : 0 < buffer_size Trial.handle < 2 ^ 64) by evaluated.
  assert (H3 : 0 <= header Trial.handle /\
               header Trial.handle + sizeof_CACHE_HEADER
               <= buffer Trial.handle)
    by (vm_compute; split; discriminate).
  assert (H4 : buffer Trial.handle + buffer_size Trial.handle
               <= Z.of_nat (length (view Trial.attached)))
    by (vm_compute; discriminate).
  assert (H5 : length (media Trial.attached) = length (view Trial.attached))
    by reflexivity.
  assert (H6 : 0 <= flushed_eof Trial.handle <= cached_eof Trial.handle)
    by (vm_compute; split; discriminate).
  assert (H7 : reserved_eof Trial.handle = cached_eof Trial.handle)
    by reflexivity.
  assert (H8 : cached_eof Trial.handle + Z.of_nat (length Scenario.digits)
               < 2 ^ 64) by reflexivity.
  assert (H9 : cached_eof Trial.handle + Z.of_nat (length Scenario.digits)
               - flushed_eof Trial.handle <= buffer_size Trial.handle)
    by (vm_compute; discriminate).
  split; [repeat split;
          (assumption || apply H2 || apply H3 || apply H6)|].
  destruct (cache_write_fits 4 2 0 Trial.handle Scenario.digits 0
              Trial.attached H1 H2 H3 H4 H5 H6 H7 H8 H9)
    as (_ & _ & _ & _ & _ & Hring & _).
  exact Hring.
Defined.

Lemma write_then_drain_appends_witness :
  (0 < Z.of_nat (length Scenario.digits) /\
   0 < buffer_size Trial.handle < 2 ^ 64 /\
   (0 <= header Trial.handle /\
    header Trial.handle + sizeof_CACHE_HEADER <= buffer Trial.handle) /\
   drain_ready Trial.handle Scenario.f_name (flushed_eof Trial.handle) []
               Trial.attached /\
   reserved_eof Trial.handle = cached_eof Trial.handle /\
   cached_eof Trial.handle + Z.of_nat (length Scenario.digits) < 2 ^ 64 /\
   cached_eof Trial.handle + Z.of_nat (length Scenario.digits)
   - flushed_eof Trial.handle <= buffer_size Trial.handle /\
   script Trial.attached = []) /\
  file_of
    (snd (flush_cache (3 + 0)
            (set_cached_eof
               (set_reserved_eof Trial.handle
                  (cached_eof Trial.handle
                   + Z.of_nat (length Scenario.digits)))
               (cached_eof Trial.handle + Z.of_nat (length Scenario.digits)))
            (snd (cache_write 4 2 (13 + 0)
                    (cache_write_call Scenario.digits
                       (Z.of_nat (length Scenario.digits)) 0)
                    Trial.handle Trial.attached))))
    (file_fd Trial.handle)
  = Some (Scenario.f_name, [] ++ Scenario.digits).
Proof.
  assert (H1 : 0 < Z.of_nat (length Scenario.digits)) by reflexivity.
  assert (H2 : 0 < buffer_size Trial.handle < 2 ^ 64) by evaluated.
  assert (H3 : 0 <= header Trial.handle /\
               header Trial.handle + sizeof_CACHE_HEADER
               <= buffer Trial.handle)
    by (vm_compute; split; discriminate).
  assert (H4 : drain_ready Trial.handle Scenario.f_name
                 (flushed_eof Trial.handle) [] Trial.attached).
  { unfold drain_ready. vm_compute.
    repeat split; first [reflexivity | discriminate]. }
  assert (H5 : reserved_eof Trial.handle = cached_eof Trial.handle)
    by reflexivity.
  assert (H6 : cached_eof Trial.handle + Z.of_nat (length Scenario.digits)
               < 2 ^ 64) by reflexivity.
  assert (H7 : cached_eof Trial.handle + Z.of_nat (length Scenario.digits)
               - flushed_eof Trial.handle <= buffer_size Trial.handle)
    by (vm_compute; discriminate).
  assert (H8 : script Trial.attached = []) by reflexivity.
  split; [exact (conj H1 (conj H2 (conj H3 (conj H4 (conj H5 (conj H6
                  (conj H7 H8)))))))|].
  destruct (write_then_drain_appends 4 2 0 0 Trial.handle Scenario.digits 0
              Scenario.f_name [] Trial.attached H1 H2 H3 H4 H5 H6 H7 H8)
    as (_ & _ & _ & _ & _ & Hfile).
  apply Hfile; reflexivity.
Defined.

Lemma counters_stay_ordered_witness :
  exists sys,
    run 4 2 Scenario.late_writer_first Scenario.two_writers = Some sys /\
    flushed_eof (shared sys) <= cached_eof (shared sys)
    <= reserved_eof (shared sys).
Proof.
  assert (H1 : 0 < buffer_size (shared Scenario.two_writers) < 2 ^ 64)
    by evaluated.
  assert (H2 : 0 <= flushed_eof (shared Scenario.two_writers)
               <= cached_eof (shared Scenario.two_writers))
    by (vm_compute; split; discriminate).
  assert (H3 : cached_eof (shared Scenario.two_writers)
               <= reserved_eof (shared Scenario.two_writers))
    by (vm_compute; discriminate).
  assert (H4 : Forall (fun w => pc w = AtEntry /\ 0 <= length_arg w)
                      (calls Scenario.two_writers)).
  { repeat constructor; vm_compute; discriminate. }
  assert (H5 : reserved_eof (shared Scenario.two_writers)
               + to_reserve (calls Scenario.two_writers) < 2 ^ 64)
    by evaluated.
  assert (Hrun : exists sys,
            run 4 2 Scenario.late_writer_first Scenario.two_writers
            = Some sys) by (eexists; vm_compute; reflexivity).
  destruct Hrun as [sys Hrun]. exists sys. split; [exact Hrun|].
  exact (proj1 (counters_stay_ordered 4 2 Scenario.late_writer_first
                  Scenario.two_writers sys H1 H2 H3 H4 H5 Hrun)).
Defined.

Lemma single_writer_keeps_ring_witness :
  exists sys,
    run 4 2 Trial.flusher_in_between Trial.one_writer = Some sys /\
    ring_invariant (shared sys).
Proof.
  assert (H1 : 0 < buffer_size Trial.handle < 2 ^ 64) by evaluated.
  assert (H2 : 0 <= flushed_eof Trial.handle) by (vm_compute; discriminate).
  assert (H3 : ring_invariant Trial.handle)
    by (vm_compute; repeat split; discriminate).
  assert (H4 : reserved_eof Trial.handle = cached_eof Trial.handle)
    by reflexivity.
  assert (H5 : 0 <= 10) by lia.
  assert (H6 : cached_eof Trial.handle + 10 < 2 ^ 64) by reflexivity.
  assert (Hrun : exists sys,
            run 4 2 Trial.flusher_in_between Trial.one_writer = Some sys)
    by (eexists; vm_compute; reflexivity).
  destruct Hrun as [sys Hrun]. exists sys. split; [exact Hrun|].
  exact (proj1 (single_writer_keeps_ring 4 2 Trial.flusher_in_between Trial.handle
                  Trial.attached Scenario.digits 10 0 sys
                  H1 H2 H3 H4 H5 H6 Hrun)).
Defined.

Lemma create_directory_magic_last_witness :
  (0 <= 8224 < 2 ^ 64 /\ 0 <= 2 < 2 ^ 64 /\ create_accepts 8224 2 /\
   hd Succeed (script (Scenario.fresh [] [])) <> Fail) /\
  (fst (fst (pmem_append_cache_open Scenario.no_directory
               (found Restart.magic_stored (media Restart.magic_stored))))
   = -1 \/
   media Restart.magic_stored
   = media (snd (create_directory Scenario.no_directory 8224 2
                   (Scenario.fresh [] [])))).
Proof.
  assert (H1 : 0 <= 8224 < 2 ^ 64) by lia.
  assert (H2 : 0 <= 2 < 2 ^ 64) by lia.
  assert (H3 : create_accepts 8224 2) by (split; reflexivity).
  assert (H4 : hd Succeed (script (Scenario.fresh [] [])) <> Fail)
    by discriminate.
  pose proof (create_directory_magic_last Scenario.no_directory
                Scenario.no_directory 8224 2 (Scenario.fresh [] []) 5
                (media Restart.magic_stored) H1 H2 H3 H4) as H.
  cbv zeta in H.
  destruct H as (_ & _ & _ & _ & _ & Hfound).
  split; [exact (conj H1 (conj H2 (conj H3 H4)))|].
  exact (proj2 (Hfound (may_be_found_media _))).
Defined.


Lemma flusher_thread_ends_drained_witness :
  (0 < buffer_size Sample.handle < 2 ^ 64 /\
   (0 <= header Sample.handle /\
    header Sample.handle + sizeof_CACHE_HEADER <= buffer Sample.handle) /\
   cached_eof Sample.handle < 2 ^ 64 /\
   drain_ready Sample.handle Scenario.f_name (flushed_eof Sample.handle) []
               Sample.dirty) /\
  fst (flusher_thread [0; 0; 1] 5 Sample.handle Sample.dirty)
  = FlusherReturned (set_flushed_eof Sample.handle 10) /\
  hdr_flushed_eof
    (media (snd (flusher_thread [0; 0; 1] 5 Sample.handle Sample.dirty)))
    (header Sample.handle) = cached_eof Sample.handle.
Proof.
  assert (H1 : 0 < buffer_size Sample.handle < 2 ^ 64) by evaluated.
  assert (H2 : 0 <= header Sample.handle /\
               header Sample.handle + sizeof_CACHE_HEADER
               <= buffer Sample.handle)
    by (vm_compute; split; discriminate).
  assert (H3 : cached_eof Sample.handle < 2 ^ 64) by evaluated.
  assert (H4 : drain_ready Sample.handle Scenario.f_name
                 (flushed_eof Sample.handle) [] Sample.dirty).
  { unfold drain_ready. vm_compute.
    repeat split; first [reflexivity | discriminate]. }
  split; [exact (conj H1 (conj H2 (conj H3 H4)))|].
  pose proof (flusher_thread_ends_drained [0; 0; 1] 5 Sample.handle
                Scenario.f_name [] Sample.dirty H1 H2 H3 H4) as H.
  cbv zeta in H. destruct H as [Hret Hends].
  assert (H5 : fst (flusher_thread [0; 0; 1] 5 Sample.handle Sample.dirty)
               = FlusherReturned (set_flushed_eof Sample.handle 10)).
  { apply (Hends eq_refl) with (n := 2%nat) (stop := 1) (rest := []).
    - vm_compute. discriminate.
    - vm_compute. lia.
    - reflexivity.
    - discriminate. }
  split; [exact H5|].
  destruct (Hret _ H5) as (_ & _ & Hdur & _).
  exact Hdur.
Defined.

Lemma attach_name_length_last_witness :
  (dummy Sample.directory = false /\
   directory_ok Sample.directory (view Trial.created) /\
   Z.of_nat (length (view Trial.created)) = mapped_length Sample.directory /\
   media Trial.created = view Trial.created /\ 0 <= 0 < 2 ^ 64 /\
   hd Succeed (script Trial.created) <> Fail /\
   file_of Trial.created 0 = Some (Scenario.f_name, []) /\
   Z.of_nat (length (@nil byte)) < 2 ^ 64 /\
   open_cache (set_write (set_file_fd blank_cache 0) Cached)
     Sample.directory (view Trial.created) 0 = (0, Trial.free_slot) /\
   hdr_file_name_length (view Trial.created) (header Trial.free_slot) = 0 /\
   Z.of_nat (length Scenario.f_name) + 1 < buffer_size Trial.free_slot /\
   sizeof_CACHE_HEADER <= 104 /\
   header Trial.free_slot + 104 + Z.of_nat (length Scenario.f_name) + 1
   <= mapped_length Sample.directory) /\
  view Restart.name_length_stored
  = media (snd (pmem_append_cache_attach 104 blank_cache
                  (Some Sample.directory) 0 0 Scenario.f_name
                  Trial.created)).
Proof.
  assert (H1 : dummy Sample.directory = false) by reflexivity.
  assert (H2 : directory_ok Sample.directory (view Trial.created)).
  { unfold directory_ok. vm_compute. repeat split; discriminate. }
  assert (H3 : Z.of_nat (length (view Trial.created))
               = mapped_length Sample.directory) by reflexivity.
  assert (H4 : media Trial.created = view Trial.created) by reflexivity.
  assert (H5 : 0 <= 0 < 2 ^ 64) by lia.
  assert (H6 : hd Succeed (script Trial.created) <> Fail) by discriminate.
  assert (H7 : file_of Trial.created 0 = Some (Scenario.f_name, []))
    by reflexivity.
  assert (H8 : Z.of_nat (length (@nil byte)) < 2 ^ 64) by reflexivity.
  assert (H9 : open_cache (set_write (set_file_fd blank_cache 0) Cached)
                 Sample.directory (view Trial.created) 0
               = (0, Trial.free_slot)) by reflexivity.
  assert (H10 : hdr_file_name_length (view Trial.created)
                  (header Trial.free_slot) = 0) by reflexivity.
  assert (H11 : Z.of_nat (length Scenario.f_name) + 1
                < buffer_size Trial.free_slot) by reflexivity.
  assert (H12 : sizeof_CACHE_HEADER <= 104) by discriminate.
  assert (H13 : header Trial.free_slot + 104
                + Z.of_nat (length Scenario.f_name) + 1
                <= mapped_length Sample.directory) by discriminate.
  assert (H14 : may_be_found Restart.name_length_stored
                  (view Restart.name_length_stored)).
  { split; [vm_compute; reflexivity | intros i; right; reflexivity]. }
  assert (H15 : hdr_file_name_length (view Restart.name_length_stored)
                  (header Trial.free_slot)
                = Z.of_nat (length Scenario.f_name) + 1)
    by (vm_compute; reflexivity).
  split; [exact (conj H1 (conj H2 (conj H3 (conj H4 (conj H5 (conj H6
            (conj H7 (conj H8 (conj H9 (conj H10 (conj H11
            (conj H12 H13))))))))))))|].
  pose proof (attach_name_length_last 104 blank_cache Sample.directory 0 0
                Scenario.f_name Trial.created Scenario.f_name []
                Trial.free_slot 5%nat (view Restart.name_length_stored)
                H1 H2 H3 H4 H5 H6 H7 H8 H9 H10 H11 H12 H13) as H.
  cbv zeta in H. destruct H as (_ & _ & Hfound).
  exact (proj2 (proj2 (Hfound H14)) H15).
Defined.
